(** * kiwi.js: the tableau engine of the Cassowary constraint solver

    A shallow embedding of [src/ts/src/solver.ts] and of the part of
    [src/ts/src/variable.ts] the solver touches.

    - A JavaScript [number] is an IEEE 754 binary64 value: it is modelled
      by Rocq's primitive [float], whose operations are the same ones.
    - An ES6 [Map] is keyed by object identity and iterates in insertion
      order: it is modelled by an association list ([JsMap]).
    - The solver is an object mutated in place that may throw in the middle
      of a call: every method is a function from the state before to an
      outcome and the state after, the state being kept when it throws.
    - The two [while] loops take a bound on their number of iterations. *)

From Stdlib Require Import Floats ZArith List Bool String Lia.
Import ListNotations.

Set Warnings "-inexact-float".

(** ** Object identity *)

(** [same a b] models [a === b] on object references. *)
Class Identity (K : Type) := { same : K -> K -> bool }.

(** ** ES6 Map *)

Module JsMap.
Section Ops.
  Context {K V : Type} {IK : Identity K}.

Definition t := list (K * V).

Definition get (m : t) (k : K) : option V :=
    match find (fun e => same (fst e) k) m with
    | Some e => Some (snd e)
    | None => None
    end.

Definition has (m : t) (k : K) : bool :=
    match get m k with Some _ => true | None => false end.

  (** An existing key keeps its place, a new key goes last. *)
Fixpoint set (m : t) (k : K) (v : V) : t :=
    match m with
    | [] => [(k, v)]
    | (k', v') :: m' =>
        if same k' k then (k', v) :: m' else (k', v') :: set m' k v
    end.

Definition delete (m : t) (k : K) : t :=
    filter (fun e => negb (same (fst e) k)) m.

Definition size (m : t) : nat := List.length m.

  (** [m.forEach((v, k) => body)] with the loop's variables in [acc]. *)
Definition forEach {A : Type} (m : t) (body : A -> V -> K -> A) (acc : A) : A :=
    fold_left (fun a e => body a (snd e) (fst e)) m acc.
End Ops.
Arguments t : clear implicits.
End JsMap.

(** ** Numbers *)

Module Number.
  Local Open Scope float_scope.

Definition MAX_VALUE : float := 0x1.fffffffffffffp+1023.

  (** The operand of [x || 0.0]: [0], [-0] and [NaN] are falsy. *)
Definition falsy (x : float) : bool := (x =? 0) || is_nan x.

  (** [x || 0.0] where [x] is a number or [undefined]. *)
Definition or_zero (x : option float) : float :=
    match x with
    | Some v => if falsy v then 0 else v
    | None => 0
    end.

  (** [undefined] in an arithmetic position converts to [NaN]. *)
Definition of_undefined (x : option float) : float :=
    match x with Some v => v | None => nan end.
End Number.

(** solver.ts, [nearZero]. *)
Definition nearZero (value : float) : bool :=
  let eps := 1.0e-8%float in
  if (value <? 0)%float then (- value <? eps)%float else (value <? eps)%float.

(** ** Symbols *)

Module SymbolType.
Inductive t := Invalid | External | Slack | Error | Dummy.

Definition eqb (a b : t) : bool :=
    match a, b with
    | Invalid, Invalid | External, External | Slack, Slack
    | Error, Error | Dummy, Dummy => true
    | _, _ => false
    end.
End SymbolType.

Module Symbol.
  (** [new Symbol(type, id)]. A symbol is made once, by [_makeSymbol] with
      the next id or as [INVALID_SYMBOL], so two references are the same
      object exactly when type and id agree. *)
Record t := new { type : SymbolType.t; id : Z }.

Definition eqb (a b : t) : bool :=
    SymbolType.eqb (type a) (type b) && (id a =? id b)%Z.
End Symbol.

#[export] Instance Symbol_identity : Identity Symbol.t := {| same := Symbol.eqb |}.

(** solver.ts, [INVALID_SYMBOL]. *)
Definition INVALID_SYMBOL : Symbol.t := Symbol.new SymbolType.Invalid (-1).

(** ** Rows *)

Module Row.
  Local Open Scope float_scope.

Record t := mk { _cellMap : JsMap.t Symbol.t float; _constant : float }.

  (** [new Row(constant)]. *)
Definition new (constant : float) : t := mk [] constant.

Definition cells (r : t) := _cellMap r.
Definition constant (r : t) := _constant r.

Definition isConstant (r : t) : bool := Nat.eqb (JsMap.size (_cellMap r)) 0.

Definition allDummies (r : t) : bool :=
    JsMap.forEach (_cellMap r)
      (fun found _ symbol =>
         if negb (SymbolType.eqb (Symbol.type symbol) SymbolType.Dummy)
         then false else found)
      true.

Definition copy (r : t) : t :=
    JsMap.forEach (_cellMap r)
      (fun theCopy coefficient symbol =>
         mk (JsMap.set (_cellMap theCopy) symbol coefficient) (_constant theCopy))
      (new (_constant r)).

  (** [add] updates the row and returns the new constant, which is the
      constant of the row returned here. *)
Definition add (r : t) (value : float) : t :=
    mk (_cellMap r) (_constant r + value).

Definition insertSymbol (r : t) (symbol : Symbol.t) (coefficient : float) : t :=
    let coefficient := coefficient + Number.or_zero (JsMap.get (_cellMap r) symbol) in
    let cellMap := JsMap.set (_cellMap r) symbol coefficient in
    if nearZero coefficient
    then mk (JsMap.delete cellMap symbol) (_constant r)
    else mk cellMap (_constant r).

Definition insertRow (r other : t) (coefficient : float) : t :=
    JsMap.forEach (_cellMap other)
      (fun this otherCoeff otherSymbol =>
         insertSymbol this otherSymbol (otherCoeff * coefficient))
      (mk (_cellMap r) (_constant r + _constant other * coefficient)).

Definition removeSymbol (r : t) (symbol : Symbol.t) : t :=
    mk (JsMap.delete (_cellMap r) symbol) (_constant r).

Definition reverseSign (r : t) : t :=
    JsMap.forEach (_cellMap r)
      (fun this coefficient symbol =>
         mk (JsMap.set (_cellMap this) symbol (- coefficient)) (_constant this))
      (mk (_cellMap r) (- _constant r)).

  (** When [symbol] is not in the row, [cells.get] is [undefined] and the
      division yields [NaN]. *)
Definition solveFor (r : t) (symbol : Symbol.t) : t :=
    let coeff := -1 / Number.of_undefined (JsMap.get (_cellMap r) symbol) in
    let cells := JsMap.delete (_cellMap r) symbol in
    JsMap.forEach cells
      (fun this c sym =>
         mk (JsMap.set (_cellMap this) sym (c * coeff)) (_constant this))
      (mk cells (_constant r * coeff)).

Definition solveForEx (r : t) (lhs rhs : Symbol.t) : t :=
    solveFor (insertSymbol r lhs (-1)) rhs.

Definition coefficientFor (r : t) (symbol : Symbol.t) : float :=
    Number.or_zero (JsMap.get (_cellMap r) symbol).

Definition substitute (r : t) (symbol : Symbol.t) (row : t) : t :=
    match JsMap.get (_cellMap r) symbol with
    | Some existingRow =>
        insertRow (mk (JsMap.delete (_cellMap r) symbol) (_constant r)) row existingRow
    | None => r
    end.
End Row.

(** ** The solver's collaborators *)

(** variable.ts, class [Variable] ([Variable] is a keyword here, hence
    [Var]). A variable is an object owned by the caller: the solver
    keeps references to it and writes its [_value] slot. A reference is the
    object's unique [_id]; the heap gives the slots of every object (the
    untyped [_context] slot is left out). *)
Module Var.
Definition t := Z.

Record slots := { _name : string; _value : float }.

Definition heap := t -> slots.

Definition value (h : heap) (v : t) : float := _value (h v).

Definition setValue (h : heap) (v : t) (value : float) : heap :=
    fun u => if (u =? v)%Z then {| _name := _name (h u); _value := value |} else h u.
End Var.

#[export] Instance Var_identity : Identity Var.t := {| same := Z.eqb |}.

(** Modelled from the spec: constraint.ts and expression.ts are not among
    the sources. The spec gives an expression a scalar constant and an
    ordered sequence of (coefficient, Variable) terms, which the solver
    walks with [forEach((coefficient, variable) => ...)], and a constraint
    an expression, an operator among [<=], [=], [>=] and a strength;
    constraints are keyed by identity, here the field [id]. *)
Module Operator.
Inductive t := Le | Ge | Eq.
End Operator.

Module Expression.
Record t := { terms : JsMap.t Var.t float; constant : float }.
End Expression.

Module Constraint.
Record t := {
    id : Z;
    expression : Expression.t;
    op : Operator.t;
    strength : float
  }.
End Constraint.

#[export] Instance Constraint_identity : Identity Constraint.t :=
  {| same := fun a b => (Constraint.id a =? Constraint.id b)%Z |}.

(** solver.ts, [ITag]. *)
Module Tag.
Record t := { marker : Symbol.t; other : Symbol.t }.
End Tag.

(** solver.ts, [IEditInfo]. *)
Module EditInfo.
Record t := { tag : Tag.t; constraint : Constraint.t; constant : float }.
End EditInfo.

(** ** The solver object *)

Module Solver.
Record t := {
    _cnMap : JsMap.t Constraint.t Tag.t;
    _rowMap : JsMap.t Symbol.t Row.t;
    _varMap : JsMap.t Var.t Symbol.t;
    _editMap : JsMap.t Var.t EditInfo.t;
    _infeasibleRows : list Symbol.t;
    _objective : Row.t;
    _artificial : option Row.t;
    _idTick : Z
  }.

  (** [new Solver()]. *)
Definition new : t :=
    {| _cnMap := []; _rowMap := []; _varMap := []; _editMap := [];
       _infeasibleRows := []; _objective := Row.new 0; _artificial := None;
       _idTick := 0 |}.

Definition with_cnMap (this : t) v :=
    {| _cnMap := v; _rowMap := _rowMap this; _varMap := _varMap this;
       _editMap := _editMap this; _infeasibleRows := _infeasibleRows this;
       _objective := _objective this; _artificial := _artificial this;
       _idTick := _idTick this |}.
Definition with_rowMap (this : t) v :=
    {| _cnMap := _cnMap this; _rowMap := v; _varMap := _varMap this;
       _editMap := _editMap this; _infeasibleRows := _infeasibleRows this;
       _objective := _objective this; _artificial := _artificial this;
       _idTick := _idTick this |}.
Definition with_varMap (this : t) v :=
    {| _cnMap := _cnMap this; _rowMap := _rowMap this; _varMap := v;
       _editMap := _editMap this; _infeasibleRows := _infeasibleRows this;
       _objective := _objective this; _artificial := _artificial this;
       _idTick := _idTick this |}.
Definition with_editMap (this : t) v :=
    {| _cnMap := _cnMap this; _rowMap := _rowMap this; _varMap := _varMap this;
       _editMap := v; _infeasibleRows := _infeasibleRows this;
       _objective := _objective this; _artificial := _artificial this;
       _idTick := _idTick this |}.
Definition with_infeasibleRows (this : t) v :=
    {| _cnMap := _cnMap this; _rowMap := _rowMap this; _varMap := _varMap this;
       _editMap := _editMap this; _infeasibleRows := v;
       _objective := _objective this; _artificial := _artificial this;
       _idTick := _idTick this |}.
Definition with_objective (this : t) v :=
    {| _cnMap := _cnMap this; _rowMap := _rowMap this; _varMap := _varMap this;
       _editMap := _editMap this; _infeasibleRows := _infeasibleRows this;
       _objective := v; _artificial := _artificial this;
       _idTick := _idTick this |}.
Definition with_artificial (this : t) v :=
    {| _cnMap := _cnMap this; _rowMap := _rowMap this; _varMap := _varMap this;
       _editMap := _editMap this; _infeasibleRows := _infeasibleRows this;
       _objective := _objective this; _artificial := v;
       _idTick := _idTick this |}.
Definition with_idTick (this : t) v :=
    {| _cnMap := _cnMap this; _rowMap := _rowMap this; _varMap := _varMap this;
       _editMap := _editMap this; _infeasibleRows := _infeasibleRows this;
       _objective := _objective this; _artificial := _artificial this;
       _idTick := v |}.
End Solver.

(** ** Outcomes *)

(** A call returns, throws [new Error(message)], or is still inside a
    [while] loop when the bound on iterations is reached. The state that
    comes with the outcome is the solver as the call left it. *)
Inductive outcome (A : Type) :=
| Return (a : A)
| Throw (message : string)
| OutOfFuel.
Arguments Return {A} a.
Arguments Throw {A} message.
Arguments OutOfFuel {A}.

Definition M (A : Type) := Solver.t -> outcome A * Solver.t.

Definition ret {A} (a : A) : M A := fun this => (Return a, this).
Definition throw {A} (message : string) : M A := fun this => (Throw message, this).
Definition bind {A B} (c : M A) (k : A -> M B) : M B :=
  fun this =>
    match c this with
    | (Return a, this') => k a this'
    | (Throw message, this') => (Throw message, this')
    | (OutOfFuel, this') => (OutOfFuel, this')
    end.
(** A method that cannot throw, run for its effect on the solver. *)
Definition run (f : Solver.t -> Solver.t) : M unit := fun this => (Return tt, f this).
(** Reading the solver. *)
Definition gets {A} (f : Solver.t -> A) : M A := fun this => (Return (f this), this).

Declare Scope solver_scope.
Delimit Scope solver_scope with solver.
Notation "x <- c ;; k" := (bind c (fun x => k))
  (at level 61, c at next level, right associativity) : solver_scope.
Notation "c ;; k" := (bind c (fun _ => k))
  (at level 61, right associativity) : solver_scope.

(** Arrays: [push] appends, [pop] takes the last element. *)
Definition push {A} (l : list A) (x : A) : list A := l ++ [x].
Definition pop {A} (l : list A) : option (A * list A) :=
  match rev l with
  | [] => None
  | x :: r => Some (x, rev r)
  end.

(** ** The solver's methods *)

(** The row an [_optimize] call works on: the caller passes the object held
    by [this._objective] or the one held by [this._artificial], and
    [_substitute] updates that same object during the loop. *)
Inductive objective_ref := TheObjective | TheArtificial.

Section Methods.
  (** strength.ts is not among the sources: [Strength.required] and
      [Strength.clip] are parameters of the development. *)
  Variable required : float.
  Variable clip : float -> float.

  Import Solver.
  Local Open Scope float_scope.
  Local Open Scope solver_scope.

Definition is_type (ty : SymbolType.t) (symbol : Symbol.t) : bool :=
    SymbolType.eqb (Symbol.type symbol) ty.

Definition _makeSymbol (type : SymbolType.t) (this : Solver.t) : Symbol.t * Solver.t :=
    (Symbol.new type (_idTick this), with_idTick this (_idTick this + 1)%Z).

Definition _getVarSymbol (variable : Var.t) (this : Solver.t) : Symbol.t * Solver.t :=
    match JsMap.get (_varMap this) variable with
    | Some symbol => (symbol, this)
    | None =>
        let '(symbol, this) := _makeSymbol SymbolType.External this in
        (symbol, with_varMap this (JsMap.set (_varMap this) variable symbol))
    end.

Definition _createRow (constraint : Constraint.t) (this : Solver.t)
    : (Row.t * Tag.t) * Solver.t :=
    let expr := Constraint.expression constraint in
    let row := Row.new (Expression.constant expr) in
    (* Substitute the current basic variables into the row. *)
    let '(row, this) :=
      JsMap.forEach (Expression.terms expr)
        (fun '(row, this) coefficient variable =>
           if negb (nearZero coefficient) then
             let '(symbol, this) := _getVarSymbol variable this in
             match JsMap.get (_rowMap this) symbol with
             | Some basicRow => (Row.insertRow row basicRow coefficient, this)
             | None => (Row.insertSymbol row symbol coefficient, this)
             end
           else (row, this))
        (row, this) in
    (* Add the necessary slack, error, and dummy variables. *)
    let strength := Constraint.strength constraint in
    let '(row, tag, this) :=
      match Constraint.op constraint with
      | Operator.Le | Operator.Ge =>
          let coeff :=
            match Constraint.op constraint with Operator.Le => 1 | _ => -1 end in
          let '(slack, this) := _makeSymbol SymbolType.Slack this in
          let row := Row.insertSymbol row slack coeff in
          if strength <? required then
            let '(error, this) := _makeSymbol SymbolType.Error this in
            let row := Row.insertSymbol row error (- coeff) in
            let this :=
              with_objective this (Row.insertSymbol (_objective this) error strength) in
            (row, {| Tag.marker := slack; Tag.other := error |}, this)
          else (row, {| Tag.marker := slack; Tag.other := INVALID_SYMBOL |}, this)
      | Operator.Eq =>
          if strength <? required then
            let '(errplus, this) := _makeSymbol SymbolType.Error this in
            let '(errminus, this) := _makeSymbol SymbolType.Error this in
            let row := Row.insertSymbol row errplus (-1) in
            let row := Row.insertSymbol row errminus 1 in
            let this :=
              with_objective this (Row.insertSymbol (_objective this) errplus strength) in
            let this :=
              with_objective this (Row.insertSymbol (_objective this) errminus strength) in
            (row, {| Tag.marker := errplus; Tag.other := errminus |}, this)
          else
            let '(dummy, this) := _makeSymbol SymbolType.Dummy this in
            let row := Row.insertSymbol row dummy 1 in
            (row, {| Tag.marker := dummy; Tag.other := INVALID_SYMBOL |}, this)
      end in
    (* Ensure the row has a positive constant. *)
    let row := if Row.constant row <? 0 then Row.reverseSign row else row in
    ((row, tag), this).

Definition _chooseSubject (row : Row.t) (tag : Tag.t) : Symbol.t :=
    let found :=
      JsMap.forEach (Row.cells row)
        (fun found _ symbol =>
           if same found INVALID_SYMBOL && is_type SymbolType.External symbol
           then symbol else found)
        INVALID_SYMBOL in
    if negb (same found INVALID_SYMBOL) then found
    else if (is_type SymbolType.Slack (Tag.marker tag)
             || is_type SymbolType.Error (Tag.marker tag))
            && (Row.coefficientFor row (Tag.marker tag) <? 0)
    then Tag.marker tag
    else if (is_type SymbolType.Slack (Tag.other tag)
             || is_type SymbolType.Error (Tag.other tag))
            && (Row.coefficientFor row (Tag.other tag) <? 0)
    then Tag.other tag
    else INVALID_SYMBOL.

  (** Every row of the basis is updated in place, in iteration order. *)
Definition _substitute (symbol : Symbol.t) (row : Row.t) (this : Solver.t) : Solver.t :=
    let '(rowMap, infeasibleRows) :=
      JsMap.forEach (_rowMap this)
        (fun '(rowMap, infeasibleRows) enumRow enumSymbol =>
           let enumRow := Row.substitute enumRow symbol row in
           (rowMap ++ [(enumSymbol, enumRow)],
            if (Row.constant enumRow <? 0)
               && negb (is_type SymbolType.External enumSymbol)
            then push infeasibleRows enumSymbol else infeasibleRows))
        ([], _infeasibleRows this) in
    let this := with_infeasibleRows (with_rowMap this rowMap) infeasibleRows in
    let this := with_objective this (Row.substitute (_objective this) symbol row) in
    match _artificial this with
    | Some artificial =>
        with_artificial this (Some (Row.substitute artificial symbol row))
    | None => this
    end.

Definition _getEnteringSymbol (objective : Row.t) : Symbol.t :=
    JsMap.forEach (Row.cells objective)
      (fun found coefficient symbol =>
         if same found INVALID_SYMBOL && (coefficient <? 0)
            && negb (is_type SymbolType.Dummy symbol)
         then symbol else found)
      INVALID_SYMBOL.

Definition _getDualEnteringSymbol (row : Row.t) (this : Solver.t) : Symbol.t :=
    snd (JsMap.forEach (Row.cells row)
           (fun '(ratio, entering) c symbol =>
              if (0 <? c) && negb (is_type SymbolType.Dummy symbol) then
                let coeff := Row.coefficientFor (_objective this) symbol in
                let r := coeff / c in
                if r <? ratio then (r, symbol) else (ratio, entering)
              else (ratio, entering))
           (Number.MAX_VALUE, INVALID_SYMBOL)).

Definition _getLeavingSymbol (entering : Symbol.t) (this : Solver.t) : Symbol.t :=
    snd (JsMap.forEach (_rowMap this)
           (fun '(ratio, found) row symbol =>
              if negb (is_type SymbolType.External symbol) then
                let temp := Row.coefficientFor row entering in
                if temp <? 0 then
                  let temp_ratio := - Row.constant row / temp in
                  if temp_ratio <? ratio then (temp_ratio, symbol) else (ratio, found)
                else (ratio, found)
              else (ratio, found))
           (Number.MAX_VALUE, INVALID_SYMBOL)).

  (** The loop variables of [_getMarkerLeavingSymbol]. *)
Record marker_scan := {
    r1 : float; r2 : float;
    first : Symbol.t; second : Symbol.t; third : Symbol.t
  }.

Definition _getMarkerLeavingSymbol (marker : Symbol.t) (this : Solver.t) : Symbol.t :=
    let dmax := Number.MAX_VALUE in
    let invalid := INVALID_SYMBOL in
    let st :=
      JsMap.forEach (_rowMap this)
        (fun st row symbol =>
           let c := Row.coefficientFor row marker in
           if negb (c =? 0) then
             if is_type SymbolType.External symbol then
               {| r1 := r1 st; r2 := r2 st;
                  first := first st; second := second st; third := symbol |}
             else if c <? 0 then
               let r := - Row.constant row / c in
               if r <? r1 st then
                 {| r1 := r; r2 := r2 st;
                    first := symbol; second := second st; third := third st |}
               else st
             else
               let r := Row.constant row / c in
               if r <? r2 st then
                 {| r1 := r1 st; r2 := r;
                    first := first st; second := symbol; third := third st |}
               else st
           else st)
        {| r1 := dmax; r2 := dmax;
           first := invalid; second := invalid; third := invalid |} in
    if negb (same (first st) invalid) then first st
    else if negb (same (second st) invalid) then second st
    else third st.

Definition _removeMarkerEffects (marker : Symbol.t) (strength : float)
    (this : Solver.t) : Solver.t :=
    match JsMap.get (_rowMap this) marker with
    | Some row => with_objective this (Row.insertRow (_objective this) row (- strength))
    | None => with_objective this (Row.insertSymbol (_objective this) marker (- strength))
    end.

Definition _removeConstraintEffects (cn : Constraint.t) (tag : Tag.t)
    (this : Solver.t) : Solver.t :=
    let this :=
      if is_type SymbolType.Error (Tag.marker tag)
      then _removeMarkerEffects (Tag.marker tag) (Constraint.strength cn) this
      else this in
    if is_type SymbolType.Error (Tag.other tag)
    then _removeMarkerEffects (Tag.other tag) (Constraint.strength cn) this
    else this.

Definition _anyPivotableSymbol (row : Row.t) : Symbol.t :=
    JsMap.forEach (Row.cells row)
      (fun found _ symbol =>
         if same found INVALID_SYMBOL
            && (is_type SymbolType.Slack symbol || is_type SymbolType.Error symbol)
         then symbol else found)
      INVALID_SYMBOL.

  (** The row behind the [objective] argument of [_optimize]. The solver
      passes [this._artificial] only right after assigning it. *)
Definition objective_of (which : objective_ref) (this : Solver.t) : Row.t :=
    match which with
    | TheObjective => _objective this
    | TheArtificial =>
        match _artificial this with Some row => row | None => Row.new 0 end
    end.

  (** The pivot shared by [_optimize] and [_dualOptimize]:
      take the row of [leaving] out of the basis, solve it for [entering],
      substitute, and put it back under [entering]. Calling a method on the
      [undefined] that [get] gives for a missing key is a TypeError. *)
Definition pivot (leaving entering : Symbol.t) : M unit :=
    fun this =>
      let row := JsMap.get (_rowMap this) leaving in
      let this := with_rowMap this (JsMap.delete (_rowMap this) leaving) in
      match row with
      | Some row =>
          let row := Row.solveForEx row leaving entering in
          let this := _substitute entering row this in
          (Return tt, with_rowMap this (JsMap.set (_rowMap this) entering row))
      | None => (Throw "TypeError", this)
      end.

Fixpoint _optimize (fuel : nat) (objective : objective_ref) : M unit :=
    match fuel with
    | O => fun this => (OutOfFuel, this)
    | S fuel =>
        entering <- gets (fun this => _getEnteringSymbol (objective_of objective this)) ;;
        if is_type SymbolType.Invalid entering then ret tt
        else
          leaving <- gets (_getLeavingSymbol entering) ;;
          if is_type SymbolType.Invalid leaving
          then throw "the objective is unbounded"
          else pivot leaving entering ;; _optimize fuel objective
    end.

Fixpoint _dualOptimize (fuel : nat) : M unit :=
    match fuel with
    | O => fun this => (OutOfFuel, this)
    | S fuel =>
        fun this =>
          match pop (_infeasibleRows this) with
          | None => (Return tt, this)
          | Some (leaving, rest) =>
              let this := with_infeasibleRows this rest in
              match JsMap.get (_rowMap this) leaving with
              | Some row =>
                  if Row.constant row <? 0 then
                    let entering := _getDualEnteringSymbol row this in
                    if is_type SymbolType.Invalid entering
                    then (Throw "dual optimize failed", this)
                    else (pivot leaving entering ;; _dualOptimize fuel) this
                  else _dualOptimize fuel this
              | None => _dualOptimize fuel this
              end
          end
    end.

Definition _addWithArtificialVariable (fuel : nat) (row : Row.t) : M bool :=
    (* Create and add the artificial variable to the tableau. *)
    art <- (fun this => let '(art, this) := _makeSymbol SymbolType.Slack this in
                        (Return art, this)) ;;
    run (fun this => with_rowMap this (JsMap.set (_rowMap this) art (Row.copy row))) ;;
    run (fun this => with_artificial this (Some (Row.copy row))) ;;
    (* Optimize the artificial objective. *)
    _optimize fuel TheArtificial ;;
    success <- gets (fun this => nearZero (Row.constant (objective_of TheArtificial this))) ;;
    run (fun this => with_artificial this None) ;;
    (* Remove the artificial variable from the tableau. *)
    let remove_art : M bool :=
      run (fun this =>
             with_rowMap this
               (JsMap.forEach (_rowMap this)
                  (fun rowMap row2 symbol => rowMap ++ [(symbol, Row.removeSymbol row2 art)])
                  [])) ;;
      run (fun this => with_objective this (Row.removeSymbol (_objective this) art)) ;;
      ret success in
    (* If the artificial variable is basic, pivot the row so that it
       becomes non-basic. If the row is constant, exit early. *)
    basicRow <- gets (fun this => JsMap.get (_rowMap this) art) ;;
    match basicRow with
    | Some basicRow =>
        run (fun this => with_rowMap this (JsMap.delete (_rowMap this) art)) ;;
        if Row.isConstant basicRow then ret success
        else
          let entering := _anyPivotableSymbol basicRow in
          if is_type SymbolType.Invalid entering then ret false
          else
            let basicRow := Row.solveForEx basicRow art entering in
            run (_substitute entering basicRow) ;;
            run (fun this => with_rowMap this (JsMap.set (_rowMap this) entering basicRow)) ;;
            remove_art
    | None => remove_art
    end.

  (** [Solver.addConstraint]. *)
Definition addConstraint (fuel : nat) (constraint : Constraint.t) : M unit :=
    has <- gets (fun this => JsMap.has (_cnMap this) constraint) ;;
    if has : bool then throw "duplicate constraint"
    else
      data <- (fun this => let '(data, this) := _createRow constraint this in
                           (Return data, this)) ;;
      let row := fst data in
      let tag := snd data in
      let subject := _chooseSubject row tag in
      (* The row may be composed of dummy variables only. *)
      subject <-
        (if is_type SymbolType.Invalid subject && Row.allDummies row then
           if negb (nearZero (Row.constant row))
           then throw "unsatifiable constraint"
           else ret (Tag.marker tag)
         else ret subject) ;;
      (if is_type SymbolType.Invalid subject then
         ok <- _addWithArtificialVariable fuel row ;;
         if ok : bool then ret tt else throw "unsatisfiable constraint"
       else
         let row := Row.solveFor row subject in
         run (_substitute subject row) ;;
         run (fun this => with_rowMap this (JsMap.set (_rowMap this) subject row))) ;;
      run (fun this => with_cnMap this (JsMap.set (_cnMap this) constraint tag)) ;;
      _optimize fuel TheObjective.

  (** [Solver.removeConstraint]. *)
Definition removeConstraint (fuel : nat) (constraint : Constraint.t) : M unit :=
    tag <- gets (fun this => JsMap.get (_cnMap this) constraint) ;;
    match tag with
    | None => throw "unknown constraint"
    | Some tag =>
        run (fun this => with_cnMap this (JsMap.delete (_cnMap this) constraint)) ;;
        (* Remove the error effects from the objective function
           *before* pivoting. *)
        run (_removeConstraintEffects constraint tag) ;;
        (* If the marker is basic, simply drop the row. Otherwise,
           pivot the marker into the basis and then drop the row. *)
        let marker := Tag.marker tag in
        deleted <- (fun this =>
                      (Return (JsMap.has (_rowMap this) marker),
                       with_rowMap this (JsMap.delete (_rowMap this) marker))) ;;
        (if negb deleted then
           leaving <- gets (_getMarkerLeavingSymbol marker) ;;
           if is_type SymbolType.Invalid leaving
           then throw "failed to find leaving row"
           else
             row <- gets (fun this => JsMap.get (_rowMap this) leaving) ;;
             run (fun this => with_rowMap this (JsMap.delete (_rowMap this) leaving)) ;;
             match row with
             | Some row =>
                 let row := Row.solveForEx row leaving marker in
                 run (_substitute marker row)
             | None => throw "TypeError"
             end
         else ret tt) ;;
        _optimize fuel TheObjective
    end.

  (** [Solver.hasConstraint]. *)
Definition hasConstraint (constraint : Constraint.t) (this : Solver.t) : bool :=
    JsMap.has (_cnMap this) constraint.

  (** [Solver.addEditVariable]. [new Constraint(expr, Operator.Eq, strength)]
      makes a new object: [cn_id] is its identity. After [addConstraint] has
      returned, the constraint is in [_cnMap]; the last branch stands for a
      tag that would be [undefined]. *)
Definition addEditVariable (fuel : nat) (cn_id : Z) (variable : Var.t)
    (strength : float) : M unit :=
    has <- gets (fun this => JsMap.has (_editMap this) variable) ;;
    if has : bool then throw "duplicate edit variable"
    else
      let strength := clip strength in
      if strength =? required then throw "bad required strength"
      else
        let expr := {| Expression.terms := [(variable, 1)]; Expression.constant := 0 |} in
        let cn := {| Constraint.id := cn_id; Constraint.expression := expr;
                     Constraint.op := Operator.Eq; Constraint.strength := strength |} in
        addConstraint fuel cn ;;
        tag <- gets (fun this => JsMap.get (_cnMap this) cn) ;;
        match tag with
        | Some tag =>
            let info := {| EditInfo.tag := tag; EditInfo.constraint := cn;
                           EditInfo.constant := 0 |} in
            run (fun this => with_editMap this (JsMap.set (_editMap this) variable info))
        | None => throw "TypeError"
        end.

  (** [Solver.removeEditVariable]. *)
Definition removeEditVariable (fuel : nat) (variable : Var.t) : M unit :=
    info <- gets (fun this => JsMap.get (_editMap this) variable) ;;
    match info with
    | None => throw "unknown edit variable"
    | Some info =>
        run (fun this => with_editMap this (JsMap.delete (_editMap this) variable)) ;;
        removeConstraint fuel (EditInfo.constraint info)
    end.

  (** [Solver.hasEditVariable]. *)
Definition hasEditVariable (variable : Var.t) (this : Solver.t) : bool :=
    JsMap.has (_editMap this) variable.

  (** [Solver.suggestValue]. *)
Definition suggestValue (fuel : nat) (variable : Var.t) (value : float) : M unit :=
    info <- gets (fun this => JsMap.get (_editMap this) variable) ;;
    match info with
    | None => throw "unknown edit variable"
    | Some info =>
        let delta := value - EditInfo.constant info in
        run (fun this =>
               with_editMap this
                 (JsMap.set (_editMap this) variable
                    {| EditInfo.tag := EditInfo.tag info;
                       EditInfo.constraint := EditInfo.constraint info;
                       EditInfo.constant := value |})) ;;
        (* Check first if the positive error variable is basic. *)
        let marker := Tag.marker (EditInfo.tag info) in
        row <- gets (fun this => JsMap.get (_rowMap this) marker) ;;
        match row with
        | Some row =>
            let row := Row.add row (- delta) in
            run (fun this => with_rowMap this (JsMap.set (_rowMap this) marker row)) ;;
            (if Row.constant row <? 0
             then run (fun this =>
                         with_infeasibleRows this (push (_infeasibleRows this) marker))
             else ret tt) ;;
            _dualOptimize fuel
        | None =>
            (* Check next if the negative error variable is basic. *)
            let other := Tag.other (EditInfo.tag info) in
            row <- gets (fun this => JsMap.get (_rowMap this) other) ;;
            match row with
            | Some row =>
                let row := Row.add row delta in
                run (fun this => with_rowMap this (JsMap.set (_rowMap this) other row)) ;;
                (if Row.constant row <? 0
                 then run (fun this =>
                             with_infeasibleRows this (push (_infeasibleRows this) other))
                 else ret tt) ;;
                _dualOptimize fuel
            | None =>
                (* Otherwise update each row where the error variables exist. *)
                run (fun this =>
                       let '(rowMap, infeasibleRows) :=
                         JsMap.forEach (_rowMap this)
                           (fun '(rowMap, infeasibleRows) row symbol =>
                              let coeff := Row.coefficientFor row marker in
                              if negb (coeff =? 0) then
                                let row := Row.add row (delta * coeff) in
                                (rowMap ++ [(symbol, row)],
                                 if (Row.constant row <? 0)
                                    && negb (is_type SymbolType.External symbol)
                                 then push infeasibleRows symbol
                                 else infeasibleRows)
                              else (rowMap ++ [(symbol, row)], infeasibleRows))
                           ([], _infeasibleRows this) in
                       with_infeasibleRows (with_rowMap this rowMap) infeasibleRows) ;;
                _dualOptimize fuel
            end
        end
    end.

  (** [Solver.updateVariables]: the solver is read, the heap is written. *)
Definition updateVariables (this : Solver.t) (h : Var.heap)
    : outcome unit * (Solver.t * Var.heap) :=
    (Return tt,
     (this,
      JsMap.forEach (_varMap this)
        (fun h symbol variable =>
           match JsMap.get (_rowMap this) symbol with
           | Some row => Var.setValue h variable (Row.constant row)
           | None => Var.setValue h variable 0
           end)
        h)).

End Methods.

(** ** The specification's wording of the operations *)

Section Specification.
Import Solver.
Local Open Scope float_scope.
Local Open Scope solver_scope.

(** The coefficient a row holds for a symbol: the number in the cell of
    the symbol, if the row has one. *)
Definition held (row : Row.t) (symbol : Symbol.t) : option float :=
  match find (fun cell => Symbol.eqb (fst cell) symbol) (Row.cells row) with
  | Some cell => Some (snd cell)
  | None => None
  end.

(** The row holds a negative coefficient for the symbol. *)
Definition negative_in (row : Row.t) (symbol : Symbol.t) : bool :=
  match held row symbol with
  | Some c => c <? 0
  | None => false
  end.

(** Section 4.4, subject selection: the first External symbol of the row,
    whatever its coefficient; otherwise the marker, then the other symbol
    of the tag, when it is a Slack or an Error for which the row holds a
    negative coefficient; otherwise the Invalid symbol. *)
Definition chooseSubject_spec (row : Row.t) (tag : Tag.t) : Symbol.t :=
  let pivotable s := is_type SymbolType.Slack s || is_type SymbolType.Error s in
  match find (fun cell => is_type SymbolType.External (fst cell)) (Row.cells row) with
  | Some cell => fst cell
  | None =>
      if pivotable (Tag.marker tag) && negative_in row (Tag.marker tag)
      then Tag.marker tag
      else if pivotable (Tag.other tag) && negative_in row (Tag.other tag)
      then Tag.other tag
      else INVALID_SYMBOL
  end.

(** The basis after [f] has been applied to the row of every key. *)
Definition map_rows (f : Symbol.t -> Row.t -> Row.t) (rows : JsMap.t Symbol.t Row.t)
  : JsMap.t Symbol.t Row.t :=
  map (fun e => (fst e, f (fst e) (snd e))) rows.

(** Section 4.7, marker leaving row selection. A candidate is the key of a
    basis row together with its ratio. *)
Definition candidate := (Symbol.t * float)%type.

(** The candidate of least ratio; a later candidate is preferred to an
    earlier one only when its ratio is strictly smaller, so that a tie is
    broken by the first encountered. *)
Fixpoint first_min (l : list candidate) : option candidate :=
  match l with
  | [] => None
  | x :: rest =>
      match first_min rest with
      | Some y => if snd y <? snd x then Some y else Some x
      | None => Some x
      end
  end.

(** The rows whose coefficient [c] on the marker is not zero, each with the
    ratio [pick] gives it, in iteration order. *)
Definition marker_rows (pick : Symbol.t -> Row.t -> float -> option float)
  (marker : Symbol.t) (rows : JsMap.t Symbol.t Row.t) : list candidate :=
  flat_map
    (fun e =>
       let c := Row.coefficientFor (snd e) marker in
       if negb (c =? 0) then
         match pick (fst e) (snd e) c with
         | Some r => [(fst e, r)]
         | None => []
         end
       else [])
    rows.

Definition pick_first (symbol : Symbol.t) (row : Row.t) (c : float) : option float :=
  if negb (is_type SymbolType.External symbol) && (c <? 0)
  then Some (- Row.constant row / c) else None.

Definition pick_second (symbol : Symbol.t) (row : Row.t) (c : float) : option float :=
  if negb (is_type SymbolType.External symbol) && (0 <? c)
  then Some (Row.constant row / c) else None.

Definition pick_third (symbol : Symbol.t) (row : Row.t) (c : float) : option float :=
  if is_type SymbolType.External symbol then Some c else None.

(** Only a ratio below the bound takes part. *)
Definition below (bound : float) (pick : Symbol.t -> Row.t -> float -> option float)
  (symbol : Symbol.t) (row : Row.t) (c : float) : option float :=
  match pick symbol row c with
  | Some r => if r <? bound then Some r else None
  | None => None
  end.

(** First if there is one, else second, else third, else Invalid. *)
Definition leaving_choice (firsts seconds thirds : list candidate) : Symbol.t :=
  match first_min firsts with
  | Some x => fst x
  | None =>
      match first_min seconds with
      | Some x => fst x
      | None => last (map fst thirds) INVALID_SYMBOL
      end
  end.

(** The selection as section 4.7 words it: every row takes part. *)
Definition getMarkerLeavingSymbol_claimed (marker : Symbol.t) (this : Solver.t) : Symbol.t :=
  leaving_choice
    (marker_rows pick_first marker (_rowMap this))
    (marker_rows pick_second marker (_rowMap this))
    (marker_rows pick_third marker (_rowMap this)).

(** The selection with the bound of the scan: a row takes part as first or
    second only with a ratio below [Number.MAX_VALUE]. *)
Definition getMarkerLeavingSymbol_spec (marker : Symbol.t) (this : Solver.t) : Symbol.t :=
  leaving_choice
    (marker_rows (below Number.MAX_VALUE pick_first) marker (_rowMap this))
    (marker_rows (below Number.MAX_VALUE pick_second) marker (_rowMap this))
    (marker_rows pick_third marker (_rowMap this)).

(** Section 3, the invariant of a row: no stored coefficient passes the
    near-zero test. *)
Definition no_near_zero (row : Row.t) : bool :=
  forallb (fun cell => negb (nearZero (snd cell))) (Row.cells row).

(** The rows the basis gives for its keys. *)
Definition basic (this : Solver.t) (key : Symbol.t) (row : Row.t) : Prop :=
  JsMap.get (_rowMap this) key = Some row.

(** Feasibility as the solver tracks it: the rows of External symbols are
    exempt, every other basic row has a constant that is not negative. *)
Definition feasible (this : Solver.t) : Prop :=
  forall key row,
    basic this key row ->
    is_type SymbolType.External key = false ->
    (Row.constant row <? 0) = false.

(** Every infeasible row is on the worklist. *)
Definition infeasible_tracked (this : Solver.t) : Prop :=
  forall key row,
    basic this key row ->
    is_type SymbolType.External key = false ->
    (Row.constant row <? 0) = true ->
    In key (_infeasibleRows this).

(** No basic row mentions a basic symbol. *)
Definition basis_closed (this : Solver.t) : Prop :=
  forall key row key',
    basic this key row ->
    JsMap.has (_rowMap this) key' = true ->
    JsMap.get (Row.cells row) key' = None.

(** What [updateVariables] writes for a symbol. *)
Definition readback (this : Solver.t) (symbol : Symbol.t) : float :=
  match JsMap.get (_rowMap this) symbol with
  | Some row => Row.constant row
  | None => 0
  end.

(** The values [updateVariables] gives the variables. *)
Definition values_of (this : Solver.t) (h : Var.heap) : Var.heap :=
  snd (snd (updateVariables this h)).

(** What [_createRow] leaves alone: it mints symbols, registers variables
    and, for a constraint that is not required, adds to the objective. *)
Definition tableau_kept (this this' : Solver.t) : Prop :=
  _cnMap this' = _cnMap this
  /\ _rowMap this' = _rowMap this
  /\ _editMap this' = _editMap this
  /\ _infeasibleRows this' = _infeasibleRows this
  /\ _artificial this' = _artificial this
  /\ (_idTick this <= _idTick this')%Z.

(** A number that is not NaN. *)
Definition number (a : float) : Prop := Prim2SF a <> S754_nan.

(** The sign a result carries when it is not NaN. *)
Definition signed (b : bool) (s : spec_float) : Prop :=
  match s with
  | S754_nan => True
  | S754_zero b' | S754_infinity b' | S754_finite b' _ _ => b' = b
  end.

(** The scan of [_getMarkerLeavingSymbol] for one of its candidates: the
    best so far is replaced by a strictly smaller ratio. *)
Definition scan (l : list candidate) (best : candidate) : candidate :=
  fold_left (fun best x => if snd x <? snd best then x else best) l best.

(** Symbols are minted with increasing ids: every symbol of the tableau
    has an id below the counter. *)
Definition minted_below (this : Solver.t) : Prop :=
  (forall key row,
      In (key, row) (_rowMap this) ->
      (Symbol.id key < _idTick this)%Z
      /\ forall symbol c, In (symbol, c) (Row.cells row) ->
                          (Symbol.id symbol < _idTick this)%Z)
  /\ (forall symbol c, In (symbol, c) (Row.cells (_objective this)) ->
                       (Symbol.id symbol < _idTick this)%Z).

(** The objective is at a minimum: [_getEnteringSymbol] finds no symbol. *)
Definition optimal (this : Solver.t) : Prop :=
  is_type SymbolType.Invalid (_getEnteringSymbol (_objective this)) = true.

(** The keys of a Map are distinct; here, those of the cells of every
    basic row. *)
Definition distinct_cells (this : Solver.t) : Prop :=
  forall key row, basic this key row -> NoDup (map fst (Row.cells row)).

(** A check of the condition on the worklist, to run it on a solver. *)
Definition infeasible_tracked_check (this : Solver.t) : bool :=
  forallb
    (fun e =>
       is_type SymbolType.External (fst e)
       || negb (Row.constant (snd e) <? 0)
       || existsb (same (fst e)) (_infeasibleRows this))
    (_rowMap this).

(** A row that mentions no symbol of [P]. *)
Definition avoids (P : Symbol.t -> Prop) (row : Row.t) : Prop :=
  forall k, P k -> JsMap.get (Row.cells row) k = None.

Definition is_basic (this : Solver.t) (k : Symbol.t) : Prop :=
  JsMap.has (_rowMap this) k = true.

(** A symbol the solver has not made yet. *)
Definition unminted (this : Solver.t) (k : Symbol.t) : Prop :=
  (_idTick this <= Symbol.id k)%Z.

(** What every solver that is reached by calls satisfies: the maps have
    distinct keys, no row is under the Invalid symbol, the rows of the
    basis mention neither a basic symbol nor a symbol that is not made
    yet, and the symbols the solver holds elsewhere are made. *)
Record well_formed (this : Solver.t) : Prop := {
  wf_tick : (0 <= _idTick this)%Z;
  wf_keys : NoDup (map fst (_rowMap this));
  wf_invalid : JsMap.has (_rowMap this) INVALID_SYMBOL = false;
  wf_rows :
    forall key row,
      basic this key row ->
      (Symbol.id key < _idTick this)%Z
      /\ NoDup (map fst (Row.cells row))
      /\ avoids (is_basic this) row
      /\ avoids (unminted this) row;
  wf_objective : avoids (unminted this) (_objective this);
  wf_artificial : forall row, _artificial this = Some row -> avoids (unminted this) row;
  wf_vars : NoDup (map fst (_varMap this));
  wf_symbols :
    forall variable symbol,
      In (variable, symbol) (_varMap this) -> (Symbol.id symbol < _idTick this)%Z;
  wf_tags :
    forall constraint tag,
      In (constraint, tag) (_cnMap this) ->
      (Symbol.id (Tag.marker tag) < _idTick this)%Z
      /\ (Symbol.id (Tag.other tag) < _idTick this)%Z
}.

(** A row that may enter the basis. *)
Definition tidy (this : Solver.t) (row : Row.t) : Prop :=
  NoDup (map fst (Row.cells row))
  /\ avoids (is_basic this) row
  /\ avoids (unminted this) row.

(** A computation that keeps the solver well formed, whatever its outcome,
    and never lowers the id counter. *)
Definition keeps {A} (c : M A) : Prop :=
  forall this r this',
    c this = (r, this') -> well_formed this ->
    well_formed this' /\ (_idTick this <= _idTick this')%Z.

Variable required : float.
Variable clip : float -> float.

(** The solvers reached from [new Solver()] by public calls, whatever the
    outcome of each call. *)
Inductive reachable : Solver.t -> Prop :=
| reach_new : reachable Solver.new
| reach_addConstraint fuel constraint this r this' :
    reachable this ->
    addConstraint required fuel constraint this = (r, this') -> reachable this'
| reach_removeConstraint fuel constraint this r this' :
    reachable this ->
    removeConstraint fuel constraint this = (r, this') -> reachable this'
| reach_addEditVariable fuel cn_id variable strength this r this' :
    reachable this ->
    addEditVariable required clip fuel cn_id variable strength this = (r, this') ->
    reachable this'
| reach_removeEditVariable fuel variable this r this' :
    reachable this ->
    removeEditVariable fuel variable this = (r, this') -> reachable this'
| reach_suggestValue fuel variable value this r this' :
    reachable this ->
    suggestValue fuel variable value this = (r, this') -> reachable this'.

End Specification.

(** ** What the calls do, restated *)

Section Restatements.
Import Solver.
Local Open Scope float_scope.

(** The maps of constraints, variables and edit variables and the id
    counter are those of before. *)
Definition maps_kept (this this' : Solver.t) : Prop :=
  _cnMap this' = _cnMap this
  /\ _varMap this' = _varMap this
  /\ _editMap this' = _editMap this
  /\ _idTick this' = _idTick this.
(** The variable map has at most got entries for variables it did not
    have. *)
Definition variables_added (this this' : Solver.t) : Prop :=
  exists extra,
    _varMap this' = _varMap this ++ extra
    /\ forall e, In e extra -> JsMap.has (_varMap this) (fst e) = false.

(** What [addConstraint] does to the maps, by outcome. *)
Definition added (constraint : Constraint.t) (this : Solver.t)
  (r : outcome unit) (this' : Solver.t) : Prop :=
  variables_added this this'
  /\ _editMap this' = _editMap this
  /\ (_idTick this <= _idTick this')%Z
  /\ (_cnMap this' = _cnMap this
      \/ exists tag, _cnMap this' = JsMap.set (_cnMap this) constraint tag)
  /\ (r = Return tt -> exists tag, _cnMap this' = JsMap.set (_cnMap this) constraint tag)
  /\ (r = Throw "duplicate constraint"%string \/ r = Throw "unsatifiable constraint"%string
      \/ r = Throw "unsatisfiable constraint"%string ->
      _cnMap this' = _cnMap this).

(** The constraint [addEditVariable] makes for a variable. *)
Definition edit_constraint (clip : float -> float) (cn_id : Z) (variable : Var.t) (strength : float) : Constraint.t :=
  {| Constraint.id := cn_id;
     Constraint.expression :=
       {| Expression.terms := [(variable, 1)]; Expression.constant := 0 |};
     Constraint.op := Operator.Eq;
     Constraint.strength := clip strength |}.

(** [_getEnteringSymbol]: the first symbol of the objective that is not a
    Dummy and has a negative coefficient. *)
Definition getEnteringSymbol_spec (objective : Row.t) : Symbol.t :=
  match find (fun cell => (snd cell <? 0) && negb (is_type SymbolType.Dummy (fst cell)))
          (Row.cells objective) with
  | Some cell => fst cell
  | None => INVALID_SYMBOL
  end.

(** [_anyPivotableSymbol]: the first Slack or Error symbol of the row. *)
Definition anyPivotableSymbol_spec (row : Row.t) : Symbol.t :=
  match find (fun cell => is_type SymbolType.Slack (fst cell)
                          || is_type SymbolType.Error (fst cell))
          (Row.cells row) with
  | Some cell => fst cell
  | None => INVALID_SYMBOL
  end.

(** [_getLeavingSymbol]: the rows that may leave for [entering], each with
    its ratio, in iteration order. *)
Definition leaving_rows (entering : Symbol.t) (rows : JsMap.t Symbol.t Row.t)
  : list candidate :=
  flat_map
    (fun e =>
       if negb (is_type SymbolType.External (fst e))
          && (Row.coefficientFor (snd e) entering <? 0)
       then [(fst e, - Row.constant (snd e) / Row.coefficientFor (snd e) entering)]
       else [])
    rows.

(** [_getDualEnteringSymbol]: the symbols that may enter for [row], each
    with its ratio, in iteration order. *)
Definition entering_cells (row : Row.t) (this : Solver.t) : list candidate :=
  flat_map
    (fun e =>
       if (0 <? snd e) && negb (is_type SymbolType.Dummy (fst e))
       then [(fst e, Row.coefficientFor (_objective this) (fst e) / snd e)]
       else [])
    (Row.cells row).

(** The candidate of least ratio among those below [Number.MAX_VALUE],
    the first encountered among equals; the Invalid symbol if there is
    none. *)
Definition least_ratio (l : list candidate) : Symbol.t :=
  match first_min (filter (fun x => snd x <? Number.MAX_VALUE) l) with
  | Some x => fst x
  | None => INVALID_SYMBOL
  end.

(** The cells with [f] applied to every coefficient, keys and order kept. *)
Definition map_cells (f : float -> float) (cells : JsMap.t Symbol.t float)
  : JsMap.t Symbol.t float :=
  map (fun e => (fst e, f (snd e))) cells.

(** The type of the marker [_createRow] makes, by operator; [soft] says
    that the strength is below the required one. *)
Definition marker_type (op : Operator.t) (soft : bool) : SymbolType.t :=
  match op with
  | Operator.Le | Operator.Ge => SymbolType.Slack
  | Operator.Eq => if soft then SymbolType.Error else SymbolType.Dummy
  end.

(** A symbol of the Invalid type. *)
Definition invalid (k : Symbol.t) : Prop := is_type SymbolType.Invalid k = true.

(** The types of the symbols a solver holds: no row is under a symbol of
    the Invalid type and no row, nor the objective, has a cell for one;
    the symbol of a variable is External; the marker of a registered
    constraint is not Invalid. *)
Record typed (this : Solver.t) : Prop := {
  ty_rows :
    forall key row,
      In (key, row) (_rowMap this) ->
      is_type SymbolType.Invalid key = false /\ avoids invalid row;
  ty_objective : avoids invalid (_objective this);
  ty_artificial : forall row, _artificial this = Some row -> avoids invalid row;
  ty_vars :
    forall variable symbol,
      In (variable, symbol) (_varMap this) -> is_type SymbolType.External symbol = true;
  ty_tags :
    forall constraint tag,
      In (constraint, tag) (_cnMap this) ->
      is_type SymbolType.Invalid (Tag.marker tag) = false
}.

(** A computation that keeps the types, whatever its outcome. *)
Definition keeps_types {A} (c : M A) : Prop :=
  forall this r this', c this = (r, this') -> typed this -> typed this'.

(** The objective, and the artificial objective while there is one, are
    written in the symbols that have no row. *)
Definition parametric (this : Solver.t) : Prop :=
  avoids (is_basic this) (_objective this)
  /\ forall a, _artificial this = Some a -> avoids (is_basic this) a.

(** The registered constraints are distinct objects with distinct
    markers. *)
Definition distinct_tags (this : Solver.t) : Prop :=
  NoDup (map (fun e => Constraint.id (fst e)) (_cnMap this))
  /\ NoDup (map (fun e => Tag.marker (snd e)) (_cnMap this)).

(** A symbol the tableau does not have: it has no row and no cell, in no
    row of the basis and in no objective. *)
Definition absent (s : Symbol.t) (this : Solver.t) : Prop :=
  JsMap.has (_rowMap this) s = false
  /\ (forall key row, basic this key row -> JsMap.get (Row.cells row) s = None)
  /\ JsMap.get (Row.cells (_objective this)) s = None
  /\ (forall a, _artificial this = Some a -> JsMap.get (Row.cells a) s = None).

(** The keys of the rows that are infeasible: the constant is negative and
    the key is not External. In iteration order. *)
Definition infeasible_keys (rows : JsMap.t Symbol.t Row.t) : list Symbol.t :=
  map fst
    (filter (fun e => (Row.constant (snd e) <? 0)
                      && negb (is_type SymbolType.External (fst e)))
       rows).

(** Section 4.5, the pivot: the row of [leaving] is detached from the
    basis and solved for [entering]; [entering] is substituted through
    the basis and the objectives, and the keys of the rows this leaves
    infeasible go on the worklist; the row is put back under [entering]. *)
Definition pivot_spec (leaving entering : Symbol.t) (row : Row.t) (this : Solver.t)
  : Solver.t :=
  let solved := Row.solveForEx row leaving entering in
  let rows :=
    map_rows (fun _ r => Row.substitute r entering solved)
      (JsMap.delete (_rowMap this) leaving) in
  {| _cnMap := _cnMap this;
     _rowMap := JsMap.set rows entering solved;
     _varMap := _varMap this;
     _editMap := _editMap this;
     _infeasibleRows := _infeasibleRows this ++ infeasible_keys rows;
     _objective := Row.substitute (_objective this) entering solved;
     _artificial := option_map (fun a => Row.substitute a entering solved) (_artificial this);
     _idTick := _idTick this |}.

(** Section 4.9, dual optimise, from a solver to an outcome and the solver
    that is left. While the worklist is not empty its last symbol is
    popped; the symbol is skipped unless it has a row with a negative
    constant; otherwise the entering symbol is the cell of that row of
    least ratio: when there is none the optimisation fails, else it
    pivots and goes on. *)
Inductive dual_optimises : Solver.t -> outcome unit -> Solver.t -> Prop :=
| dual_done this :
    _infeasibleRows this = [] ->
    dual_optimises this (Return tt) this
| dual_skip this rest leaving r this' :
    _infeasibleRows this = rest ++ [leaving] ->
    (forall row, JsMap.get (_rowMap this) leaving = Some row ->
                 (Row.constant row <? 0) = false) ->
    dual_optimises (with_infeasibleRows this rest) r this' ->
    dual_optimises this r this'
| dual_fails this rest leaving row :
    _infeasibleRows this = rest ++ [leaving] ->
    JsMap.get (_rowMap this) leaving = Some row ->
    (Row.constant row <? 0) = true ->
    is_type SymbolType.Invalid (least_ratio (entering_cells row this)) = true ->
    dual_optimises this (Throw "dual optimize failed") (with_infeasibleRows this rest)
| dual_pivots this rest leaving row entering r this' :
    _infeasibleRows this = rest ++ [leaving] ->
    JsMap.get (_rowMap this) leaving = Some row ->
    (Row.constant row <? 0) = true ->
    entering = least_ratio (entering_cells row this) ->
    is_type SymbolType.Invalid entering = false ->
    dual_optimises (pivot_spec leaving entering row (with_infeasibleRows this rest)) r this' ->
    dual_optimises this r this'.

(** The row with [d] added to its constant. *)
Definition bumped (row : Row.t) (d : float) : Row.t :=
  Row.mk (Row.cells row) (Row.constant row + d).

(** The coefficient a row holds for a symbol when it is a number other
    than zero. The rows of the specification hold finite numbers; a cell
    that holds zero or [NaN] counts as no cell, as it does for
    [coefficientFor], which reads it with [|| 0.0]. *)
Definition nonzero_in (row : Row.t) (symbol : Symbol.t) : option float :=
  match held row symbol with
  | Some c => if (c =? 0) || is_nan c then None else Some c
  | None => None
  end.

(** Section 4.8, [suggestValue] up to the dual optimisation, for an edit
    variable whose record is [info]: the record gets the value; with
    [delta = value - info.constant], the row of the marker gets [-delta]
    if the marker has a row, else the row of the other symbol gets
    [delta] if that has a row, and the key goes on the worklist when the
    new constant is negative; else every row that holds a coefficient [c]
    for the marker gets [delta * c], and its key goes on the worklist
    when the new constant is negative and the key is not External. *)
Definition suggested (variable : Var.t) (value : float) (info : EditInfo.t)
  (this : Solver.t) : Solver.t :=
  let delta := value - EditInfo.constant info in
  let marker := Tag.marker (EditInfo.tag info) in
  let other := Tag.other (EditInfo.tag info) in
  let one key row d :=
    (JsMap.set (_rowMap this) key (bumped row d),
     if Row.constant row + d <? 0
     then _infeasibleRows this ++ [key] else _infeasibleRows this) in
  let every :=
    (map_rows
       (fun _ row =>
          match nonzero_in row marker with
          | Some c => bumped row (delta * c)
          | None => row
          end)
       (_rowMap this),
     _infeasibleRows this
     ++ map fst
          (filter
             (fun e =>
                match nonzero_in (snd e) marker with
                | Some c => (Row.constant (snd e) + delta * c <? 0)
                            && negb (is_type SymbolType.External (fst e))
                | None => false
                end)
             (_rowMap this))) in
  let rows_worklist :=
    match JsMap.get (_rowMap this) marker with
    | Some row => one marker row (- delta)
    | None =>
        match JsMap.get (_rowMap this) other with
        | Some row => one other row delta
        | None => every
        end
    end in
  {| _cnMap := _cnMap this;
     _rowMap := fst rows_worklist;
     _varMap := _varMap this;
     _editMap :=
       JsMap.set (_editMap this) variable
         {| EditInfo.tag := EditInfo.tag info;
            EditInfo.constraint := EditInfo.constraint info;
            EditInfo.constant := value |};
     _infeasibleRows := snd rows_worklist;
     _objective := _objective this;
     _artificial := _artificial this;
     _idTick := _idTick this |}.

(** Section 4.8, [suggestValue]: the outcome [r] and the solver [this']
    the call leaves. For a variable that is not an edit variable it fails
    and leaves the solver as it is; otherwise it updates the solver as
    above and ends with the dual optimisation. *)
Definition suggestValue_spec (variable : Var.t) (value : float) (this : Solver.t)
  (r : outcome unit) (this' : Solver.t) : Prop :=
  match JsMap.get (_editMap this) variable with
  | None => r = Throw "unknown edit variable" /\ this' = this
  | Some info => dual_optimises (suggested variable value info this) r this'
  end.




(** The symbol [addConstraint] solves the row of a constraint for when it
    takes no artificial variable: the subject chosen for the row or, for a
    row of Dummy symbols only whose constant passes the near-zero test,
    the marker. It is the Invalid symbol when the call throws or goes on
    with an artificial variable. *)
Definition subject_of (row : Row.t) (tag : Tag.t) : Symbol.t :=
  let subject := _chooseSubject row tag in
  if is_type SymbolType.Invalid subject && Row.allDummies row
     && nearZero (Row.constant row)
  then Tag.marker tag else subject.

(** A symbol occurs in the tableau: it has a row, or a cell in a row of
    the basis or in the objective. *)
Definition occurs (symbol : Symbol.t) (this : Solver.t) : bool :=
  JsMap.has (_rowMap this) symbol
  || existsb (fun e => JsMap.has (Row.cells (snd e)) symbol) (_rowMap this)
  || JsMap.has (Row.cells (_objective this)) symbol.

End Restatements.

(** ** Scenarios *)

Module Scenario.
Import Solver.
Local Open Scope float_scope.

(** Modelled from the spec: strength.ts is not among the sources; the spec
    asks for a sentinel [required] that no other strength reaches and for a
    clip onto [0, required]. The numbers are kiwi's (required is
    1000 * 10^6 + 1000 * 10^3 + 1000, strong is 10^6, weak is 1); they serve
    to run the scenarios, the theorems hold for any. *)
Definition required : float := 1001001000.
Definition strong : float := 1000000.
Definition weak : float := 1.
Definition clip (value : float) : float :=
  if value <? 0 then 0 else if required <? value then required else value.

Definition x : Var.t := 0%Z.
Definition y : Var.t := 1%Z.
Definition z : Var.t := 2%Z.

(** A heap in which every variable still has its initial value. *)
Definition heap0 : Var.heap := fun _ => {| Var._name := ""; Var._value := 0 |}.

(** The constraint [terms + constant op 0] at [strength]. *)
Definition constraint (id : Z) (terms : list (Var.t * float)) (constant : float)
  (op : Operator.t) (strength : float) : Constraint.t :=
  {| Constraint.id := id;
     Constraint.expression :=
       {| Expression.terms := terms; Expression.constant := constant |};
     Constraint.op := op;
     Constraint.strength := strength |}.

(** The solver after the constraints of [l] have been added in turn, each
    with room for 20 pivots, and the outcomes of the calls. *)
Definition add_all (l : list Constraint.t) (this : Solver.t)
  : list (outcome unit) * Solver.t :=
  fold_left
    (fun '(outcomes, this) c =>
       let '(o, this) := addConstraint required 20 c this in (outcomes ++ [o], this))
    l ([], this).

(** [x >= 10], required. *)
Definition at_least_10 := constraint 1 [(x, 1)] (-10) Operator.Ge required.
(** [x <= 5], required. *)
Definition at_most_5 := constraint 2 [(x, 1)] (-5) Operator.Le required.
(** [x == -5], required. *)
Definition is_minus_5 := constraint 1 [(x, 1)] 5 Operator.Eq required.
(** [x == 1], [x == 1 - 2^-30] and [z == 1], required. *)
Definition is_1 := constraint 1 [(x, 1)] (-1) Operator.Eq required.
(** [10^9 x + y == 0], required. *)
Definition steep := constraint 1 [(x, 1000000000); (y, 1)] 0 Operator.Eq required.
(** [x + y == 100], [x >= 0], [y >= 0], required, and [x == 100], strong. *)
Definition sum_100 := constraint 1 [(x, 1); (y, 1)] (-100) Operator.Eq required.
Definition x_at_least_0 := constraint 2 [(x, 1)] 0 Operator.Ge required.
Definition y_at_least_0 := constraint 3 [(y, 1)] 0 Operator.Ge required.
(** [x == 20], required. *)
Definition is_20 := constraint 1 [(x, 1)] (-20) Operator.Eq required.
(** [x == 2], required. *)
Definition is_2 := constraint 2 [(x, 1)] (-2) Operator.Eq required.
(** [y <= -2^-20] and [2^-10 y == 0], required. *)
Definition at_most_minus_tiny := constraint 1 [(y, 1)] 0x1p-20 Operator.Le required.
Definition scaled_is_0 := constraint 2 [(y, 0x1p-10)] 0 Operator.Eq required.

(** The solver with [x >= 10]. *)
Definition bounded_below : Solver.t := snd (add_all [at_least_10] Solver.new).

(** The solver with [x + y == 100], [x >= 0] and [y >= 0]. *)
Definition segment : Solver.t :=
  snd (add_all [sum_100; x_at_least_0; y_at_least_0] Solver.new).

(** The solver with [x >= 0], required, and [x] an edit variable at strong
    strength (scenario S4 of the specification). *)
Definition editing : Solver.t :=
  snd (addEditVariable required clip 20 100 x strong
         (snd (add_all [x_at_least_0] Solver.new))).

(** [0 == MAX_VALUE], weak: an expression with no term. *)
Definition far := constraint 1 [] (- Number.MAX_VALUE) Operator.Eq weak.

(** The solver with the required [x == 20] (scenario S1 of the
    specification). *)
Definition pinned : Solver.t := snd (add_all [is_20] Solver.new).

(** The solver with the required [x == 1]. *)
Definition fixed : Solver.t := snd (add_all [is_1] Solver.new).

(** A new solver with [x] as an edit variable at strong strength. *)
Definition edited : Solver.t :=
  snd (addEditVariable required clip 20 100 x strong Solver.new).

(** A row with a large and a small coefficient. *)
Definition steep_row : Row.t :=
  Row.mk [(Symbol.new SymbolType.Slack 1, 1000000000);
          (Symbol.new SymbolType.Slack 2, 1)] 0.

(** [y == x + 5], required. *)
Definition y_is_x_plus_5 := constraint 2 [(y, 1); (x, -1)] (-5) Operator.Eq required.
(** [x == 30], weak. *)
Definition is_30_weak := constraint 2 [(x, 1)] (-30) Operator.Eq weak.
(** [Infinity * y + 1 == 0], required. *)
Definition y_times_infinity := constraint 2 [(y, infinity)] 1 Operator.Eq required.


End Scenario.

(** * Properties *)

(** Projections of an updated solver. *)
Ltac fields :=
  cbn [Solver._cnMap Solver._rowMap Solver._varMap Solver._editMap
       Solver._infeasibleRows Solver._objective Solver._artificial Solver._idTick
       Solver.with_cnMap Solver.with_rowMap Solver.with_varMap Solver.with_editMap
       Solver.with_infeasibleRows Solver.with_objective Solver.with_artificial
       Solver.with_idTick app] in *.

(** ** Identity is an equivalence *)

Class LawfulIdentity (K : Type) {IK : Identity K} := {
  same_refl : forall a : K, same a a = true;
  same_sym : forall a b : K, same a b = same b a;
  same_trans : forall a b c : K, same a b = true -> same b c = true -> same a c = true
}.

Lemma SymbolType_eqb_eq a b : SymbolType.eqb a b = true <-> a = b.
Proof. destruct a, b; simpl; split; congruence. Qed.

Lemma Symbol_eqb_eq a b : Symbol.eqb a b = true <-> a = b.
Proof.
  destruct a as [ta ia], b as [tb ib]; unfold Symbol.eqb; simpl.
  rewrite andb_true_iff, SymbolType_eqb_eq, Z.eqb_eq.
  split; [intros [-> ->]; reflexivity | intros E; inversion E; auto].
Qed.

Lemma Symbol_eqb_refl a : Symbol.eqb a a = true.
Proof. apply Symbol_eqb_eq; reflexivity. Qed.

Lemma Symbol_eqb_neq a b : Symbol.eqb a b = false <-> a <> b.
Proof.
  split.
  - intros E <-. rewrite Symbol_eqb_refl in E. discriminate.
  - intros N. destruct (Symbol.eqb a b) eqn:E; [apply Symbol_eqb_eq in E; contradiction | reflexivity].
Qed.

Lemma Symbol_eqb_sym a b : Symbol.eqb a b = Symbol.eqb b a.
Proof.
  destruct (Symbol.eqb a b) eqn:E.
  - apply Symbol_eqb_eq in E. subst. symmetry. apply Symbol_eqb_refl.
  - symmetry. apply Symbol_eqb_neq. apply Symbol_eqb_neq in E. congruence.
Qed.

Lemma Symbol_eqb_trans a b c :
  Symbol.eqb a b = true -> Symbol.eqb b c = true -> Symbol.eqb a c = true.
Proof.
  intros H1 H2. apply Symbol_eqb_eq in H1. apply Symbol_eqb_eq in H2.
  subst. apply Symbol_eqb_refl.
Qed.

Lemma Z_eqb_trans a b c : (a =? b)%Z = true -> (b =? c)%Z = true -> (a =? c)%Z = true.
Proof. rewrite !Z.eqb_eq. congruence. Qed.

#[export] Instance Symbol_lawful : LawfulIdentity Symbol.t.
Proof.
  constructor; intros.
  - apply Symbol_eqb_refl.
  - apply Symbol_eqb_sym.
  - eapply Symbol_eqb_trans; eassumption.
Qed.

#[export] Instance Var_lawful : LawfulIdentity Var.t.
Proof.
  constructor; intros.
  - apply Z.eqb_refl.
  - apply Z.eqb_sym.
  - eapply Z_eqb_trans; eassumption.
Qed.

#[export] Instance Constraint_lawful : LawfulIdentity Constraint.t.
Proof.
  constructor; intros; simpl in *.
  - apply Z.eqb_refl.
  - apply Z.eqb_sym.
  - eapply Z_eqb_trans; eassumption.
Qed.

Lemma same_symbol_eq (a b : Symbol.t) : same a b = true <-> a = b.
Proof. apply Symbol_eqb_eq. Qed.

Lemma same_symbol_neq (a b : Symbol.t) : same a b = false <-> a <> b.
Proof. apply Symbol_eqb_neq. Qed.

(** ** Facts on maps *)

Section MapFacts.
Context {K V : Type} {IK : Identity K} {LK : LawfulIdentity K}.
Implicit Types (m : JsMap.t K V) (k : K) (v : V).

Lemma same_congr k k1 k2 : same k1 k2 = true -> same k k1 = same k k2.
Proof.
  intros E. destruct (same k k1) eqn:E1, (same k k2) eqn:E2; try reflexivity.
  - rewrite (same_trans _ _ _ E1 E) in E2. discriminate.
  - rewrite same_sym in E. rewrite (same_trans _ _ _ E2 E) in E1. discriminate.
Qed.

Lemma get_nil k : JsMap.get ([] : JsMap.t K V) k = None.
Proof. reflexivity. Qed.

Lemma get_cons m k0 v0 k :
  JsMap.get ((k0, v0) :: m) k = if same k0 k then Some v0 else JsMap.get m k.
Proof. unfold JsMap.get. simpl. destruct (same k0 k); reflexivity. Qed.

Lemma get_set m k v k' :
  JsMap.get (JsMap.set m k v) k' = if same k k' then Some v else JsMap.get m k'.
Proof.
  induction m as [|[k0 v0] m IH]; simpl.
  - rewrite get_cons, get_nil. reflexivity.
  - destruct (same k0 k) eqn:E0.
    + rewrite !get_cons. rewrite (same_sym k0 k) in E0.
      destruct (same k k') eqn:E.
      * rewrite same_sym, <- (same_congr k' k k0 E0), same_sym, E. reflexivity.
      * destruct (same k0 k') eqn:E1; [|reflexivity].
        rewrite (same_trans _ _ _ E0 E1) in E. discriminate.
    + rewrite !get_cons, IH.
      destruct (same k0 k') eqn:E1; [|reflexivity].
      destruct (same k k') eqn:E; [|reflexivity].
      rewrite (same_sym k k') in E. rewrite (same_trans _ _ _ E1 E) in E0. discriminate.
Qed.

Lemma get_delete m k k' :
  JsMap.get (JsMap.delete m k) k' = if same k k' then None else JsMap.get m k'.
Proof.
  induction m as [|[k0 v0] m IH]; simpl.
  - destruct (same k k'); reflexivity.
  - destruct (same k0 k) eqn:E0; simpl.
    + rewrite IH, get_cons. destruct (same k k') eqn:E; [reflexivity|].
      destruct (same k0 k') eqn:E1; [|reflexivity].
      rewrite same_sym in E0. rewrite (same_trans _ _ _ E0 E1) in E. discriminate.
    + rewrite !get_cons, IH. destruct (same k0 k') eqn:E1; [|reflexivity].
      destruct (same k k') eqn:E; [|reflexivity].
      rewrite (same_sym k k') in E. rewrite (same_trans _ _ _ E1 E) in E0. discriminate.
Qed.

Lemma has_set m k v k' :
  JsMap.has (JsMap.set m k v) k' = same k k' || JsMap.has m k'.
Proof. unfold JsMap.has. rewrite get_set. destruct (same k k'); reflexivity. Qed.

Lemma has_delete m k k' :
  JsMap.has (JsMap.delete m k) k' = negb (same k k') && JsMap.has m k'.
Proof. unfold JsMap.has. rewrite get_delete. destruct (same k k'); reflexivity. Qed.

Lemma has_false_all m k :
  JsMap.has m k = false -> forall e, In e m -> same (fst e) k = false.
Proof.
  unfold JsMap.has, JsMap.get. intros H e He.
  destruct (find (fun e => same (fst e) k) m) eqn:F; [discriminate|].
  apply (find_none _ _ F e He).
Qed.

Lemma get_In m k v : JsMap.get m k = Some v -> exists k0, In (k0, v) m /\ same k0 k = true.
Proof.
  unfold JsMap.get. destruct (find (fun e => same (fst e) k) m) as [[k0 v0]|] eqn:F; [|discriminate].
  intros E. inversion E; subst. apply find_some in F. exists k0. exact F.
Qed.

Lemma In_has m k v : In (k, v) m -> JsMap.has m k = true.
Proof.
  intros H. destruct (JsMap.has m k) eqn:E; [reflexivity|].
  pose proof (has_false_all _ _ E _ H) as F. simpl in F. rewrite same_refl in F. discriminate.
Qed.

(** A key that is not in the map is added last and taken out again. *)
Lemma set_fresh m k v : JsMap.has m k = false -> JsMap.set m k v = m ++ [(k, v)].
Proof.
  intros H. induction m as [|[k0 v0] m IH]; simpl; [reflexivity|].
  pose proof (has_false_all _ _ H (k0, v0) (or_introl eq_refl)) as E. simpl in E. rewrite E.
  f_equal. apply IH. unfold JsMap.has in *. rewrite get_cons, E in H. exact H.
Qed.

Lemma delete_absent m k : JsMap.has m k = false -> JsMap.delete m k = m.
Proof.
  intros H. unfold JsMap.delete. induction m as [|[k0 v0] m IH]; simpl; [reflexivity|].
  pose proof (has_false_all _ _ H (k0, v0) (or_introl eq_refl)) as E. simpl in E. rewrite E. simpl.
  f_equal. apply IH. unfold JsMap.has in *. rewrite get_cons, E in H. exact H.
Qed.

Lemma delete_set_fresh m k v :
  JsMap.has m k = false -> JsMap.delete (JsMap.set m k v) k = m.
Proof.
  intros H. rewrite (set_fresh _ _ v H). unfold JsMap.delete.
  rewrite filter_app. simpl. rewrite same_refl. simpl. rewrite app_nil_r.
  apply (delete_absent _ _ H).
Qed.

Lemma get_map_values (f : K -> V -> V) m k :
  (forall k1 k2 v, same k1 k2 = true -> f k1 v = f k2 v) ->
  JsMap.get (map (fun e => (fst e, f (fst e) (snd e))) m) k
  = option_map (f k) (JsMap.get m k).
Proof.
  intros Hf. induction m as [|[k0 v0] m IH]; simpl; [reflexivity|].
  rewrite !get_cons. simpl. destruct (same k0 k) eqn:E; [|exact IH].
  simpl. f_equal. apply Hf. exact E.
Qed.

End MapFacts.

(** ** Facts on binary64 numbers *)

Section FloatFacts.
Local Open Scope float_scope.

Ltac order_cases :=
  repeat match goal with
    | H : context [Z.compare ?a ?b] |- _ => destruct (Z.compare_spec a b); subst
    | |- context [Z.compare ?a ?b] => destruct (Z.compare_spec a b); subst
    | H : context [Pos.compare_cont Eq ?a ?b] |- _ =>
        change (Pos.compare_cont Eq a b) with (Pos.compare a b) in *;
        destruct (Pos.compare_spec a b); subst
    | |- context [Pos.compare_cont Eq ?a ?b] =>
        change (Pos.compare_cont Eq a b) with (Pos.compare a b) in *;
        destruct (Pos.compare_spec a b); subst
    end;
  cbn in *; try discriminate; try reflexivity; try lia.

Lemma SFltb_trans x y z : SFltb x y = true -> SFltb y z = true -> SFltb x z = true.
Proof.
  unfold SFltb, SFcompare.
  destruct x as [[]|[]| |[] mx ex], y as [[]|[]| |[] my ey], z as [[]|[]| |[] mz ez];
    try discriminate; try reflexivity; intros H1 H2; order_cases.
Qed.

Lemma SFltb_negtrans x y z :
  x <> S754_nan -> y <> S754_nan -> z <> S754_nan ->
  SFltb x y = false -> SFltb y z = false -> SFltb x z = false.
Proof.
  unfold SFltb, SFcompare.
  destruct x as [[]|[]| |[] mx ex], y as [[]|[]| |[] my ey], z as [[]|[]| |[] mz ez];
    try discriminate; try reflexivity; try congruence; intros _ _ _ H1 H2; order_cases.
Qed.

Lemma SFltb_irrefl x : SFltb x x = false.
Proof.
  unfold SFltb, SFcompare. destruct x as [[]|[]| |[] mx ex]; try reflexivity; order_cases.
Qed.

Lemma ltb_trans a b c : (a <? b) = true -> (b <? c) = true -> (a <? c) = true.
Proof. rewrite !ltb_spec. apply SFltb_trans. Qed.

Lemma ltb_number a b : (a <? b) = true -> number a /\ number b.
Proof.
  rewrite ltb_spec. unfold number, SFltb, SFcompare.
  destruct (Prim2SF a), (Prim2SF b); try discriminate; split; discriminate.
Qed.

Lemma ltb_negtrans a b c :
  number a -> number b -> number c ->
  (a <? b) = false -> (b <? c) = false -> (a <? c) = false.
Proof. rewrite !ltb_spec. apply SFltb_negtrans. Qed.

Lemma Prim2SF_zero : Prim2SF 0 = S754_zero false.
Proof. reflexivity. Qed.

Lemma SFopp_involutive s : SFopp (SFopp s) = s.
Proof. destruct s as [[]|[]| |[] m e]; reflexivity. Qed.

Lemma nearZero_opp v : nearZero (- v) = nearZero v.
Proof.
  unfold nearZero. rewrite !ltb_spec, !opp_spec, SFopp_involutive, Prim2SF_zero.
  generalize (Prim2SF 1.0e-8). intros E.
  destruct (Prim2SF v) as [[]|[]| |[] m e]; try reflexivity;
    destruct E as [[]|[]| |[] m' e']; reflexivity.
Qed.

Lemma binary_round_aux_signed prec emax sx mx ex lx :
  signed sx (binary_round_aux prec emax sx mx ex lx).
Proof.
  unfold binary_round_aux.
  destruct (shr_fexp prec emax mx ex lx) as [mrs' e'].
  destruct (shr_fexp prec emax _ e' loc_Exact) as [mrs'' e''].
  destruct (shr_m mrs'') as [|m|m]; cbn; auto.
  destruct (Z.leb e'' (emax - prec)); reflexivity.
Qed.

Lemma SFmul_signed prec emax a b x y :
  signed a x -> signed b y -> signed (xorb a b) (SFmul prec emax x y).
Proof.
  destruct x as [sx|sx| |sx mx ex], y as [sy|sy| |sy my ey]; cbn;
    try (intros; subst; reflexivity); try (intros; exact I).
  intros <- <-. apply binary_round_aux_signed.
Qed.

Lemma SFdiv_signed prec emax a b x y :
  signed a x -> signed b y -> signed (xorb a b) (SFdiv prec emax x y).
Proof.
  destruct x as [sx|sx| |sx mx ex], y as [sy|sy| |sy my ey]; cbn;
    try (intros; subst; reflexivity); try (intros; exact I).
  intros <- <-. destruct (SFdiv_core_binary _ _ _ _ _ _) as [[mz ez] lz].
  apply binary_round_aux_signed.
Qed.

Lemma negative_signed s : SFltb s (S754_zero false) = true -> signed true s.
Proof. destruct s as [[]|[]| |[] m e]; cbn; try discriminate; reflexivity. Qed.

Lemma positive_signed s : SFltb (S754_zero false) s = true -> signed false s.
Proof. destruct s as [[]|[]| |[] m e]; cbn; try discriminate; reflexivity. Qed.

Lemma signed_not_negative s : signed false s -> SFltb s (S754_zero false) = false.
Proof. destruct s as [[]|[]| |[] m e]; cbn; try discriminate; reflexivity. Qed.

Lemma neg_times_neg k c :
  (k <? 0) = true -> (0 <? c) = true -> (k * (-1 / c) <? 0) = false.
Proof.
  rewrite !ltb_spec, mul_spec, div_spec, Prim2SF_zero. intros Hk Hc.
  apply signed_not_negative.
  apply (SFmul_signed prec emax true true); [apply negative_signed; exact Hk|].
  apply (SFdiv_signed prec emax true false); [reflexivity | apply positive_signed; exact Hc].
Qed.

Lemma pos_trichotomy c : is_nan c = false -> (c =? 0) = false -> (c <? 0) = false -> (0 <? c) = true.
Proof.
  unfold is_nan. rewrite !FloatAxioms.eqb_spec, !ltb_spec, Prim2SF_zero.
  unfold SFeqb, SFltb, SFcompare.
  destruct (Prim2SF c) as [[]|[]| |[] m e]; try discriminate; try reflexivity.
Qed.

Lemma or_zero_number x : is_nan (Number.or_zero x) = false.
Proof.
  unfold Number.or_zero, Number.falsy. destruct x as [v|]; [|reflexivity].
  destruct (v =? 0) eqn:Z; cbn [orb]; [reflexivity|].
  destruct (is_nan v) eqn:N; [reflexivity | exact N].
Qed.

End FloatFacts.

(** ** Scans for a first symbol *)

Lemma typed_not_invalid ty s :
  ty <> SymbolType.Invalid -> is_type ty s = true -> same s INVALID_SYMBOL = false.
Proof.
  unfold is_type. intros N H. apply SymbolType_eqb_eq in H.
  apply same_symbol_neq. intros ->. simpl in H. congruence.
Qed.

Lemma invalid_is_invalid s : same s INVALID_SYMBOL = true -> is_type SymbolType.Invalid s = true.
Proof. intros H. apply same_symbol_eq in H. subst. reflexivity. Qed.

(** A [forEach] that keeps the first symbol passing a test, the way
    [_chooseSubject], [_getEnteringSymbol] and [_anyPivotableSymbol] do. *)
Lemma first_symbol_scan {V} (test : V -> Symbol.t -> bool) (l : JsMap.t Symbol.t V) found :
  (forall v s, test v s = true -> same s INVALID_SYMBOL = false) ->
  JsMap.forEach l
    (fun found v s => if same found INVALID_SYMBOL && test v s then s else found) found
  = if same found INVALID_SYMBOL
    then match find (fun e => test (snd e) (fst e)) l with
         | Some e => fst e
         | None => found
         end
    else found.
Proof.
  intros Ht. unfold JsMap.forEach. revert found.
  induction l as [|[s v] l IH]; intros found; cbn [fold_left find fst snd].
  - destruct (same found INVALID_SYMBOL); reflexivity.
  - rewrite IH. destruct (same found INVALID_SYMBOL) eqn:E; cbn [andb].
    + destruct (test v s) eqn:T.
      * rewrite (Ht _ _ T). reflexivity.
      * rewrite E. reflexivity.
    + rewrite E. reflexivity.
Qed.

(** ** C6: subject selection *)

Section ChooseSubject.
Local Open Scope float_scope.

(** Zero and [NaN], which [x || 0.0] turns into zero, are not negative. *)
Lemma falsy_not_negative v : Number.falsy v = true -> (v <? 0) = false.
Proof.
  unfold Number.falsy, is_nan.
  rewrite !FloatAxioms.eqb_spec, FloatAxioms.ltb_spec, Prim2SF_zero.
  destruct (Prim2SF v) as [[]|[]| |[] m e]; cbn; try reflexivity; try discriminate.
  rewrite Z.compare_refl, Pos.compare_cont_refl. discriminate.
Qed.

(** [coefficientFor] is negative exactly when the row holds a negative
    number for the symbol. *)
Lemma coefficientFor_negative row symbol :
  (Row.coefficientFor row symbol <? 0) = negative_in row symbol.
Proof.
  unfold Row.coefficientFor, negative_in, held, JsMap.get, Number.or_zero, Row.cells.
  change (fun e : Symbol.t * float => same (fst e) symbol)
    with (fun cell : Symbol.t * float => Symbol.eqb (fst cell) symbol).
  destruct (find _ (Row._cellMap row)) as [cell|]; [|reflexivity].
  destruct (Number.falsy (snd cell)) eqn:F; [|reflexivity].
  rewrite (falsy_not_negative _ F). reflexivity.
Qed.


(** C6. For every row and tag, [_chooseSubject] returns the first External
    symbol among the row's cells in iteration order, whatever its
    coefficient; otherwise the tag's marker if that is a Slack or an Error
    and the number the row holds in the marker's cell is negative;
    otherwise the tag's other symbol on the same condition; otherwise the
    Invalid symbol. *)
Theorem chooseSubject_refines_spec :
  forall (row : Row.t) (tag : Tag.t),
    _chooseSubject row tag = chooseSubject_spec row tag.
Proof.
  intros row tag. unfold _chooseSubject, chooseSubject_spec.
  rewrite (first_symbol_scan (fun _ s => is_type SymbolType.External s)).
  2:{ intros _ s H. apply (typed_not_invalid SymbolType.External); [discriminate | exact H]. }
  change (same INVALID_SYMBOL INVALID_SYMBOL) with true. cbv iota.
  rewrite !coefficientFor_negative.
  destruct (find (fun e => is_type SymbolType.External (fst e)) (Row.cells row))
    as [cell|] eqn:F.
  - apply find_some in F. destruct F as [_ F].
    rewrite (typed_not_invalid SymbolType.External (fst cell)); [reflexivity | discriminate | exact F].
  - change (same INVALID_SYMBOL INVALID_SYMBOL) with true. reflexivity.
Qed.

End ChooseSubject.

(** ** The loop of a suggestion *)

Section SuggestValue.
Import Solver.
Local Open Scope float_scope.

(** The loop over the basis of [suggestValue], third case. *)
Lemma suggest_loop (marker : Symbol.t) (delta : float) rows acc inf :
  JsMap.forEach rows
    (fun '(rowMap, infeasibleRows) row symbol =>
       let coeff := Row.coefficientFor row marker in
       if negb (coeff =? 0) then
         let row := Row.add row (delta * coeff) in
         (rowMap ++ [(symbol, row)],
          if (Row.constant row <? 0) && negb (is_type SymbolType.External symbol)
          then push infeasibleRows symbol
          else infeasibleRows)
       else (rowMap ++ [(symbol, row)], infeasibleRows))
    (acc, inf)
  = (acc ++ map_rows
              (fun _ row =>
                 if negb (Row.coefficientFor row marker =? 0)
                 then Row.add row (delta * Row.coefficientFor row marker) else row)
              rows,
     inf ++ map fst
              (filter
                 (fun e =>
                    negb (Row.coefficientFor (snd e) marker =? 0)
                    && (Row.constant
                          (Row.add (snd e) (delta * Row.coefficientFor (snd e) marker)) <? 0)
                    && negb (is_type SymbolType.External (fst e)))
                 rows)).
Proof.
  unfold JsMap.forEach, map_rows. revert acc inf.
  induction rows as [|[symbol row] rows IH]; intros acc inf; cbn [fold_left map filter fst snd].
  - rewrite !app_nil_r. reflexivity.
  - cbv zeta. destruct (negb (Row.coefficientFor row marker =? 0)) eqn:T; cbn [andb].
    + rewrite IH.
      destruct ((Row.constant (Row.add row (delta * Row.coefficientFor row marker)) <? 0)
                && negb (is_type SymbolType.External symbol)) eqn:N;
        unfold push; cbn [map fst]; rewrite <- !app_assoc; reflexivity.
    + rewrite IH. rewrite <- !app_assoc. reflexivity.
Qed.

End SuggestValue.

(** ** What the methods leave alone *)

Section Frames.
Import Solver.
Local Open Scope float_scope.
Variable required : float.


(** [_substitute], unfolded: every row is substituted into, the keys of the
    rows found infeasible are pushed in iteration order. *)
Lemma substitute_loop symbol row rows acc inf :
  JsMap.forEach rows
    (fun '(rowMap, infeasibleRows) enumRow enumSymbol =>
       let enumRow := Row.substitute enumRow symbol row in
       (rowMap ++ [(enumSymbol, enumRow)],
        if (Row.constant enumRow <? 0) && negb (is_type SymbolType.External enumSymbol)
        then push infeasibleRows enumSymbol else infeasibleRows))
    (acc, inf)
  = (acc ++ map_rows (fun _ r => Row.substitute r symbol row) rows,
     inf ++ map fst
              (filter
                 (fun e => (Row.constant (Row.substitute (snd e) symbol row) <? 0)
                           && negb (is_type SymbolType.External (fst e)))
                 rows)).
Proof.
  unfold JsMap.forEach, map_rows. revert acc inf.
  induction rows as [|[k r] rows IH]; intros acc inf; cbn [fold_left map filter fst snd].
  - rewrite !app_nil_r. reflexivity.
  - cbv zeta. rewrite IH.
    destruct ((Row.constant (Row.substitute r symbol row) <? 0)
              && negb (is_type SymbolType.External k));
      unfold push; cbn [map fst]; rewrite <- !app_assoc; reflexivity.
Qed.

Lemma substitute_rowMap symbol row this :
  _rowMap (_substitute symbol row this)
  = map_rows (fun _ r => Row.substitute r symbol row) (_rowMap this).
Proof.
  unfold _substitute. rewrite substitute_loop. fields.
  destruct (_artificial this); reflexivity.
Qed.

Lemma substitute_infeasibleRows symbol row this :
  _infeasibleRows (_substitute symbol row this)
  = _infeasibleRows this
    ++ map fst
         (filter
            (fun e => (Row.constant (Row.substitute (snd e) symbol row) <? 0)
                      && negb (is_type SymbolType.External (fst e)))
            (_rowMap this)).
Proof.
  unfold _substitute. rewrite substitute_loop. fields.
  destruct (_artificial this); reflexivity.
Qed.

Lemma substitute_objective symbol row this :
  _objective (_substitute symbol row this) = Row.substitute (_objective this) symbol row.
Proof.
  unfold _substitute. rewrite substitute_loop. fields.
  destruct (_artificial this); reflexivity.
Qed.

Lemma substitute_kept symbol row this :
  _cnMap (_substitute symbol row this) = _cnMap this
  /\ _varMap (_substitute symbol row this) = _varMap this
  /\ _editMap (_substitute symbol row this) = _editMap this
  /\ _idTick (_substitute symbol row this) = _idTick this.
Proof.
  unfold _substitute. rewrite substitute_loop. fields.
  destruct (_artificial this); repeat split; reflexivity.
Qed.

Lemma tableau_kept_refl this : tableau_kept this this.
Proof. unfold tableau_kept. repeat split; try reflexivity; try lia. Qed.

Lemma tableau_kept_trans a b c : tableau_kept a b -> tableau_kept b c -> tableau_kept a c.
Proof.
  unfold tableau_kept. intros (A1 & A2 & A3 & A4 & A5 & A6) (B1 & B2 & B3 & B4 & B5 & B6).
  repeat split; try congruence; try lia.
Qed.

Lemma getVarSymbol_kept variable this : tableau_kept this (snd (_getVarSymbol variable this)).
Proof.
  unfold _getVarSymbol. destruct (JsMap.get (_varMap this) variable).
  - apply tableau_kept_refl.
  - unfold tableau_kept. cbn. repeat split; try reflexivity; try lia.
Qed.

Lemma getVarSymbol_objective variable this :
  _objective (snd (_getVarSymbol variable this)) = _objective this.
Proof. unfold _getVarSymbol. destruct (JsMap.get (_varMap this) variable); reflexivity. Qed.

(** The loop over the terms of the expression. *)
Lemma createRow_terms_kept terms row this :
  tableau_kept this
    (snd (JsMap.forEach terms
            (fun '(row, this) coefficient variable =>
               if negb (nearZero coefficient) then
                 let '(symbol, this) := _getVarSymbol variable this in
                 match JsMap.get (_rowMap this) symbol with
                 | Some basicRow => (Row.insertRow row basicRow coefficient, this)
                 | None => (Row.insertSymbol row symbol coefficient, this)
                 end
               else (row, this))
            (row, this)))
  /\ _objective
       (snd (JsMap.forEach terms
               (fun '(row, this) coefficient variable =>
                  if negb (nearZero coefficient) then
                    let '(symbol, this) := _getVarSymbol variable this in
                    match JsMap.get (_rowMap this) symbol with
                    | Some basicRow => (Row.insertRow row basicRow coefficient, this)
                    | None => (Row.insertSymbol row symbol coefficient, this)
                    end
                  else (row, this))
               (row, this)))
     = _objective this.
Proof.
  unfold JsMap.forEach. revert row this.
  induction terms as [|[variable coefficient] terms IH]; intros row this; cbn [fold_left fst snd].
  - split; [apply tableau_kept_refl | reflexivity].
  - destruct (negb (nearZero coefficient)); [|apply IH].
    pose proof (getVarSymbol_kept variable this) as K.
    pose proof (getVarSymbol_objective variable this) as O.
    destruct (_getVarSymbol variable this) as [symbol this1]. cbn [snd] in K, O.
    destruct (JsMap.get (_rowMap this1) symbol) as [basicRow|].
    + destruct (IH (Row.insertRow row basicRow coefficient) this1) as [K1 O1].
      split; [eapply tableau_kept_trans; eassumption | congruence].
    + destruct (IH (Row.insertSymbol row symbol coefficient) this1) as [K1 O1].
      split; [eapply tableau_kept_trans; eassumption | congruence].
Qed.

Lemma createRow_kept constraint this :
  tableau_kept this (snd (_createRow required constraint this)).
Proof.
  unfold _createRow.
  pose proof (createRow_terms_kept (Expression.terms (Constraint.expression constraint))
                (Row.new (Expression.constant (Constraint.expression constraint))) this)
    as [K _].
  destruct (JsMap.forEach _ _ _) as [row this1]. cbn [snd] in K.
  destruct (Constraint.op constraint);
    destruct (Constraint.strength constraint <? required);
    cbn; (eapply tableau_kept_trans; [exact K|]);
    unfold tableau_kept; cbn; repeat split; try reflexivity; try lia.
Qed.

(** A required constraint adds nothing to the objective. *)
Lemma createRow_objective constraint this :
  (Constraint.strength constraint <? required) = false ->
  _objective (snd (_createRow required constraint this)) = _objective this.
Proof.
  intros R. unfold _createRow.
  pose proof (createRow_terms_kept (Expression.terms (Constraint.expression constraint))
                (Row.new (Expression.constant (Constraint.expression constraint))) this)
    as [_ O].
  destruct (JsMap.forEach _ _ _) as [row this1]. cbn [snd] in O.
  rewrite R. destruct (Constraint.op constraint); cbn; exact O.
Qed.

End Frames.

(** ** C8: near-zero coefficients *)

Section NearZero.
Local Open Scope float_scope.

Lemma In_set {K V} {IK : Identity K} {LK : LawfulIdentity K} (m : JsMap.t K V) k0 v0 k v :
  In (k, v) (JsMap.set m k0 v0) -> In (k, v) m \/ (v = v0 /\ same k k0 = true).
Proof.
  induction m as [|[k1 v1] m IH]; cbn [JsMap.set].
  - intros [E|[]]. inversion E; subst. right. split; [reflexivity | apply same_refl].
  - destruct (same k1 k0) eqn:S.
    + intros [E|H]; [|left; right; exact H].
      inversion E; subst. right. split; [reflexivity | exact S].
    + intros [E|H]; [left; left; exact E|].
      destruct (IH H) as [H1|H1]; [left; right; exact H1 | right; exact H1].
Qed.

Lemma In_delete {K V} {IK : Identity K} (m : JsMap.t K V) k0 e :
  In e (JsMap.delete m k0) -> In e m /\ same (fst e) k0 = false.
Proof.
  unfold JsMap.delete. intros H. apply filter_In in H. destruct H as [H1 H2].
  split; [exact H1|]. destruct (same (fst e) k0); [discriminate | reflexivity].
Qed.

Lemma no_near_zero_spec row :
  no_near_zero row = true
  <-> forall symbol c, In (symbol, c) (Row.cells row) -> nearZero c = false.
Proof.
  unfold no_near_zero. rewrite forallb_forall. split.
  - intros H symbol c Hin. specialize (H _ Hin). cbn [snd] in H.
    destruct (nearZero c); [discriminate | reflexivity].
  - intros H [symbol c] Hin. cbn [snd]. rewrite (H _ _ Hin). reflexivity.
Qed.

Lemma insertSymbol_no_near_zero row symbol coefficient :
  no_near_zero row = true -> no_near_zero (Row.insertSymbol row symbol coefficient) = true.
Proof.
  rewrite !no_near_zero_spec. intros H s c. unfold Row.insertSymbol. cbv zeta.
  destruct (nearZero (coefficient + Number.or_zero (JsMap.get (Row._cellMap row) symbol)))
    eqn:N; unfold Row.cells; cbn [Row._cellMap]; intros Hin.
  - apply In_delete in Hin. destruct Hin as [Hin Hs]. cbn [fst] in Hs.
    apply In_set in Hin. destruct Hin as [Hin|[_ Hk]]; [exact (H _ _ Hin) | congruence].
  - apply In_set in Hin. destruct Hin as [Hin|[-> _]]; [exact (H _ _ Hin) | exact N].
Qed.

Lemma insertRow_no_near_zero row other coefficient :
  no_near_zero row = true -> no_near_zero (Row.insertRow row other coefficient) = true.
Proof.
  intros H. unfold Row.insertRow, JsMap.forEach.
  assert (G : no_near_zero
                (Row.mk (Row._cellMap row)
                   (Row._constant row + Row._constant other * coefficient)) = true)
    by exact H.
  revert G. generalize (Row.mk (Row._cellMap row)
                          (Row._constant row + Row._constant other * coefficient)).
  induction (Row._cellMap other) as [|[s c] l IH]; intros this G; cbn [fold_left fst snd].
  - exact G.
  - apply IH. apply insertSymbol_no_near_zero. exact G.
Qed.

Lemma reverseSign_no_near_zero row :
  no_near_zero row = true -> no_near_zero (Row.reverseSign row) = true.
Proof.
  intros H. unfold Row.reverseSign, JsMap.forEach.
  assert (G : no_near_zero (Row.mk (Row._cellMap row) (- Row._constant row)) = true)
    by exact H.
  assert (L : forall s c, In (s, c) (Row._cellMap row) -> nearZero c = false)
    by (apply no_near_zero_spec; exact H).
  revert G L. generalize (Row.mk (Row._cellMap row) (- Row._constant row)).
  induction (Row._cellMap row) as [|[s c] l IH]; intros this G L; cbn [fold_left fst snd].
  - exact G.
  - apply IH.
    + apply no_near_zero_spec. intros s' c' Hin. unfold Row.cells in Hin.
      cbn [Row._cellMap] in Hin. apply In_set in Hin.
      destruct Hin as [Hin|[-> _]].
      * rewrite no_near_zero_spec in G. exact (G _ _ Hin).
      * rewrite nearZero_opp. apply (L s c). left. reflexivity.
    + intros s' c' Hin. apply (L s' c'). right. exact Hin.
Qed.

Lemma removeSymbol_no_near_zero row symbol :
  no_near_zero row = true -> no_near_zero (Row.removeSymbol row symbol) = true.
Proof.
  rewrite !no_near_zero_spec. intros H s c Hin. unfold Row.removeSymbol, Row.cells in Hin.
  cbn [Row._cellMap] in Hin. apply In_delete in Hin. exact (H _ _ (proj1 Hin)).
Qed.

Lemma substitute_no_near_zero row symbol other :
  no_near_zero row = true -> no_near_zero (Row.substitute row symbol other) = true.
Proof.
  intros H. unfold Row.substitute.
  destruct (JsMap.get (Row._cellMap row) symbol) as [existingRow|]; [|exact H].
  apply insertRow_no_near_zero.
  exact (removeSymbol_no_near_zero row symbol H).
Qed.

(** C8, as amended. Inserting a symbol, inserting a row, reversing the
    sign, substituting and removing a symbol keep the invariant of a row:
    if no stored coefficient passed the near-zero test before, none does
    after. Solving for a symbol is not among them: it multiplies the
    coefficients without testing the products. *)
Theorem row_primitives_keep_no_near_zero :
  forall row : Row.t,
    no_near_zero row = true ->
    (forall symbol coefficient,
        no_near_zero (Row.insertSymbol row symbol coefficient) = true)
    /\ (forall other coefficient,
           no_near_zero (Row.insertRow row other coefficient) = true)
    /\ no_near_zero (Row.reverseSign row) = true
    /\ (forall symbol other, no_near_zero (Row.substitute row symbol other) = true)
    /\ (forall symbol, no_near_zero (Row.removeSymbol row symbol) = true).
Proof.
  intros row H. repeat split; intros.
  - apply insertSymbol_no_near_zero; exact H.
  - apply insertRow_no_near_zero; exact H.
  - apply reverseSign_no_near_zero; exact H.
  - apply substitute_no_near_zero; exact H.
  - apply removeSymbol_no_near_zero; exact H.
Qed.

End NearZero.

(** ** Facts on rows *)

Section RowFacts.
Local Open Scope float_scope.
Implicit Types (r row other : Row.t) (s k symbol : Symbol.t).

Lemma NoDup_set {V} (m : JsMap.t Symbol.t V) k v :
  NoDup (map fst m) -> NoDup (map fst (JsMap.set m k v)).
Proof.
  induction m as [|[k0 v0] m IH]; cbn [JsMap.set map fst]; intros N.
  - constructor; [intros [] | constructor].
  - inversion N as [|? ? Hn N']; subst.
    destruct (same k0 k) eqn:E; cbn [map fst]; [exact N|].
    constructor; [|apply IH; exact N'].
    intros Hin. apply in_map_iff in Hin. destruct Hin as [[k1 v1] [E1 Hin]].
    cbn [fst] in E1. subst k1. apply In_set in Hin. destruct Hin as [Hin|[_ Hs]].
    + apply Hn. apply (in_map fst _ _ Hin).
    + rewrite Hs in E. discriminate.
Qed.

Lemma NoDup_delete {V} (m : JsMap.t Symbol.t V) k :
  NoDup (map fst m) -> NoDup (map fst (JsMap.delete m k)).
Proof.
  unfold JsMap.delete. induction m as [|[k0 v0] m IH]; cbn [filter map fst]; intros N.
  - constructor.
  - inversion N as [|? ? Hn N']; subst.
    destruct (negb (same k0 k)); cbn [map fst]; [|apply IH; exact N'].
    constructor; [|apply IH; exact N'].
    intros Hin. apply Hn. apply in_map_iff in Hin. destruct Hin as [e [E Hin]].
    apply filter_In in Hin. rewrite <- E. apply in_map. exact (proj1 Hin).
Qed.

Lemma In_get {V} (m : JsMap.t Symbol.t V) k v :
  NoDup (map fst m) -> In (k, v) m -> JsMap.get m k = Some v.
Proof.
  induction m as [|[k0 v0] m IH]; intros N Hin; [contradiction|].
  inversion N as [|? ? Hn N']; subst. rewrite get_cons.
  destruct Hin as [E|Hin].
  - inversion E; subst. rewrite same_refl. reflexivity.
  - destruct (same k0 k) eqn:S; [|apply IH; assumption].
    apply same_symbol_eq in S. subst k0. exfalso. apply Hn. apply (in_map fst _ _ Hin).
Qed.

(** Updating the coefficients of a row in place, the way [reverseSign] and
    [solveFor] do, changes neither its keys nor its constant. *)
Lemma update_loop (f : float -> float) l r :
  let r' :=
    JsMap.forEach l
      (fun this c sym => Row.mk (JsMap.set (Row._cellMap this) sym (f c)) (Row._constant this))
      r in
  Row._constant r' = Row._constant r
  /\ (forall k, JsMap.get (Row._cellMap r') k = None <-> JsMap.get (Row._cellMap r) k = None
                                                       /\ forall c, ~ In (k, c) l)
  /\ (NoDup (map fst (Row._cellMap r)) -> NoDup (map fst (Row._cellMap r'))).
Proof.
  unfold JsMap.forEach. revert r.
  induction l as [|[s c] l IH]; intros r; cbn [fold_left fst snd].
  - repeat split; auto. tauto.
  - destruct (IH (Row.mk (JsMap.set (Row._cellMap r) s (f c)) (Row._constant r)))
      as (C & G & N). cbn [Row._cellMap Row._constant] in C, G, N.
    cbv zeta. split; [exact C|]. split.
    + intros k. rewrite G, get_set. split.
      * intros [H1 H2]. destruct (same s k) eqn:E; [discriminate|]. split; [exact H1|].
        intros c' [Hc|Hc]; [|exact (H2 _ Hc)].
        inversion Hc; subst. rewrite same_refl in E. discriminate.
      * intros [H1 H2]. destruct (same s k) eqn:E.
        -- apply same_symbol_eq in E. subst k. exfalso. apply (H2 c). left. reflexivity.
        -- split; [exact H1|]. intros c' Hc. apply (H2 c'). right. exact Hc.
    + intros Nr. apply N. apply NoDup_set. exact Nr.
Qed.

Lemma insertSymbol_constant r s c : Row._constant (Row.insertSymbol r s c) = Row._constant r.
Proof. unfold Row.insertSymbol. cbv zeta. destruct (nearZero _); reflexivity. Qed.

Lemma insertSymbol_get_other r s c k :
  s <> k -> JsMap.get (Row._cellMap (Row.insertSymbol r s c)) k = JsMap.get (Row._cellMap r) k.
Proof.
  intros N. apply same_symbol_neq in N. unfold Row.insertSymbol. cbv zeta.
  destruct (nearZero _); cbn [Row._cellMap]; rewrite ?get_delete, get_set, N; reflexivity.
Qed.

Lemma insertSymbol_distinct r s c :
  NoDup (map fst (Row._cellMap r)) -> NoDup (map fst (Row._cellMap (Row.insertSymbol r s c))).
Proof.
  intros N. unfold Row.insertSymbol. cbv zeta.
  destruct (nearZero _); cbn [Row._cellMap];
    [apply NoDup_delete|]; apply NoDup_set; exact N.
Qed.

Lemma insertRow_facts r other coefficient :
  (forall k, JsMap.get (Row._cellMap r) k = None ->
             JsMap.get (Row._cellMap other) k = None ->
             JsMap.get (Row._cellMap (Row.insertRow r other coefficient)) k = None)
  /\ (NoDup (map fst (Row._cellMap r)) ->
      NoDup (map fst (Row._cellMap (Row.insertRow r other coefficient)))).
Proof.
  unfold Row.insertRow, JsMap.forEach.
  generalize (Row._constant r + Row._constant other * coefficient). intros c0.
  change (Row._cellMap r) with (Row._cellMap (Row.mk (Row._cellMap r) c0)) at 1 3.
  generalize (Row.mk (Row._cellMap r) c0). clear r. intros r.
  revert r. induction (Row._cellMap other) as [|[s c] l IH]; intros r; cbn [fold_left fst snd].
  - split; auto.
  - destruct (IH (Row.insertSymbol r s (c * coefficient))) as [G N]. split.
    + intros k Hr Ho. rewrite get_cons in Ho. destruct (same s k) eqn:E; [discriminate|].
      apply G; [|exact Ho]. rewrite insertSymbol_get_other; [exact Hr|].
      apply same_symbol_neq. exact E.
    + intros Nr. apply N. apply insertSymbol_distinct. exact Nr.
Qed.

Lemma substitute_get_None r s row k :
  JsMap.get (Row._cellMap row) k = None ->
  JsMap.get (Row._cellMap r) k = None \/ k = s ->
  JsMap.get (Row._cellMap (Row.substitute r s row)) k = None.
Proof.
  intros Hrow Hr. unfold Row.substitute.
  destruct (JsMap.get (Row._cellMap r) s) as [existingRow|] eqn:G.
  - apply insertRow_facts; [|exact Hrow]. cbn [Row._cellMap]. rewrite get_delete.
    destruct (same s k) eqn:E; [reflexivity|].
    destruct Hr as [Hr| ->]; [exact Hr|]. rewrite same_refl in E. discriminate.
  - destruct Hr as [Hr| ->]; [exact Hr | exact G].
Qed.

Lemma substitute_distinct r s row :
  NoDup (map fst (Row._cellMap r)) -> NoDup (map fst (Row._cellMap (Row.substitute r s row))).
Proof.
  intros N. unfold Row.substitute.
  destruct (JsMap.get (Row._cellMap r) s); [|exact N].
  apply insertRow_facts. cbn [Row._cellMap]. apply NoDup_delete. exact N.
Qed.

Lemma solveFor_facts r s :
  Row._constant (Row.solveFor r s)
  = Row._constant r * (-1 / Number.of_undefined (JsMap.get (Row._cellMap r) s))
  /\ (forall k, JsMap.get (Row._cellMap r) k = None \/ k = s ->
                JsMap.get (Row._cellMap (Row.solveFor r s)) k = None)
  /\ (NoDup (map fst (Row._cellMap r)) -> NoDup (map fst (Row._cellMap (Row.solveFor r s)))).
Proof.
  unfold Row.solveFor. cbv zeta.
  destruct (update_loop
              (fun c => c * (-1 / Number.of_undefined (JsMap.get (Row._cellMap r) s)))
              (JsMap.delete (Row._cellMap r) s)
              (Row.mk (JsMap.delete (Row._cellMap r) s)
                 (Row._constant r * (-1 / Number.of_undefined (JsMap.get (Row._cellMap r) s)))))
    as (C & G & N).
  cbv zeta in C, G, N. cbn [Row._cellMap Row._constant] in C, G, N.
  split; [exact C|]. split.
  - intros k Hk. apply G.
    assert (D : JsMap.get (JsMap.delete (Row._cellMap r) s) k = None).
    { rewrite get_delete. destruct (same s k) eqn:E; [reflexivity|].
      destruct Hk as [Hk| ->]; [exact Hk|]. rewrite same_refl in E. discriminate. }
    split; [exact D|]. intros c Hc.
    assert (Hhas : JsMap.has (JsMap.delete (Row._cellMap r) s) k = true)
      by (apply (In_has _ _ _ Hc)).
    unfold JsMap.has in Hhas. rewrite D in Hhas. discriminate.
  - intros Nr. apply N. apply NoDup_delete. exact Nr.
Qed.

End RowFacts.

(** ** Facts on the basis *)

Section Basis.
Import Solver.
Local Open Scope float_scope.

(** The symbol [_getDualEnteringSymbol] returns is the Invalid symbol it
    starts from or a symbol of the row with a positive coefficient. *)
Lemma dualEntering_positive row this :
  is_type SymbolType.Invalid (_getDualEnteringSymbol row this) = false ->
  exists c, In (_getDualEnteringSymbol row this, c) (Row.cells row) /\ (0 <? c) = true.
Proof.
  unfold _getDualEnteringSymbol, JsMap.forEach.
  assert (G : forall l ratio e0,
             let e := snd (fold_left
                             (fun a e =>
                                (let '(ratio, entering) := a in
                                 fun c symbol =>
                                   if (0 <? c) && negb (is_type SymbolType.Dummy symbol) then
                                     if Row.coefficientFor (_objective this) symbol / c <? ratio
                                     then (Row.coefficientFor (_objective this) symbol / c, symbol)
                                     else (ratio, entering)
                                   else (ratio, entering)) (snd e) (fst e))
                             l (ratio, e0)) in
             e = e0 \/ exists c, In (e, c) l /\ (0 <? c) = true).
  { induction l as [|[symbol c] l IH]; intros ratio e0; cbn [fold_left fst snd].
    - left. reflexivity.
    - cbv zeta in *.
      destruct ((0 <? c) && negb (is_type SymbolType.Dummy symbol)) eqn:T.
      + apply andb_true_iff in T. destruct T as [T _].
        destruct (Row.coefficientFor (_objective this) symbol / c <? ratio).
        * destruct (IH (Row.coefficientFor (_objective this) symbol / c) symbol) as [E|[c' [Hin Hc]]].
          -- right. exists c. rewrite E. split; [left; reflexivity | exact T].
          -- right. exists c'. split; [right; exact Hin | exact Hc].
        * destruct (IH ratio e0) as [E|[c' [Hin Hc]]]; [left; exact E|].
          right. exists c'. split; [right; exact Hin | exact Hc].
      + destruct (IH ratio e0) as [E|[c' [Hin Hc]]]; [left; exact E|].
        right. exists c'. split; [right; exact Hin | exact Hc]. }
  intros Hinv. destruct (G (Row.cells row) Number.MAX_VALUE INVALID_SYMBOL) as [E|H].
  - cbv zeta in E. rewrite E in Hinv. discriminate.
  - exact H.
Qed.

Lemma basic_In this key row : basic this key row -> In (key, row) (_rowMap this).
Proof.
  intros B. apply get_In in B. destruct B as [k0 [Hin Hk]].
  apply same_symbol_eq in Hk. subst k0. exact Hin.
Qed.

Lemma basic_has this key row : basic this key row -> JsMap.has (_rowMap this) key = true.
Proof. unfold basic, JsMap.has. intros ->. reflexivity. Qed.

End Basis.

(** ** The solvers that calls reach *)

Section WellFormed.
Import Solver.
Local Open Scope float_scope.
Implicit Types (row other : Row.t) (k symbol : Symbol.t) (P : Symbol.t -> Prop).
Variable required : float.
Variable clip : float -> float.

(** *** Rows that avoid symbols *)

Lemma avoids_weaken P Q r : (forall k, Q k -> P k) -> avoids P r -> avoids Q r.
Proof. intros H A k Hk. apply A. apply H. exact Hk. Qed.

Lemma avoids_insertSymbol P r s c :
  avoids P r -> ~ P s -> avoids P (Row.insertSymbol r s c).
Proof.
  intros A N k Hk. unfold Row.cells. rewrite insertSymbol_get_other.
  - apply A. exact Hk.
  - intros ->. exact (N Hk).
Qed.

Lemma avoids_insertRow P r other c :
  avoids P r -> avoids P other -> avoids P (Row.insertRow r other c).
Proof.
  intros A B k Hk. apply insertRow_facts; [apply A | apply B]; exact Hk.
Qed.

Lemma reverseSign_facts r :
  (forall k, JsMap.get (Row._cellMap r) k = None ->
             JsMap.get (Row._cellMap (Row.reverseSign r)) k = None)
  /\ (NoDup (map fst (Row._cellMap r)) -> NoDup (map fst (Row._cellMap (Row.reverseSign r)))).
Proof.
  unfold Row.reverseSign.
  destruct (update_loop (fun c => - c) (Row._cellMap r)
              (Row.mk (Row._cellMap r) (- Row._constant r))) as (_ & G & N).
  cbv zeta in G, N. cbn [Row._cellMap] in G, N. split; [|exact N].
  intros k Hk. apply G. split; [exact Hk|]. intros c Hc.
  pose proof (In_has _ _ _ Hc) as H. unfold JsMap.has in H. rewrite Hk in H. discriminate.
Qed.

Lemma copy_facts r :
  (forall k, JsMap.get (Row._cellMap r) k = None ->
             JsMap.get (Row._cellMap (Row.copy r)) k = None)
  /\ NoDup (map fst (Row._cellMap (Row.copy r))).
Proof.
  unfold Row.copy.
  destruct (update_loop (fun c => c) (Row._cellMap r) (Row.new (Row._constant r)))
    as (_ & G & N).
  cbv zeta in G, N. cbn [Row._cellMap Row.new] in G, N. split; [|apply N; constructor].
  intros k Hk. apply G. split; [reflexivity|]. intros c Hc.
  pose proof (In_has _ _ _ Hc) as H. unfold JsMap.has in H. rewrite Hk in H. discriminate.
Qed.

Lemma avoids_reverseSign P r : avoids P r -> avoids P (Row.reverseSign r).
Proof. intros A k Hk. apply reverseSign_facts. apply A. exact Hk. Qed.

Lemma avoids_copy P r : avoids P r -> avoids P (Row.copy r).
Proof. intros A k Hk. apply copy_facts. apply A. exact Hk. Qed.

Lemma avoids_solveFor P r s : avoids P r -> avoids P (Row.solveFor r s).
Proof. intros A k Hk. apply solveFor_facts. left. apply A. exact Hk. Qed.

Lemma solveFor_self r s : JsMap.get (Row.cells (Row.solveFor r s)) s = None.
Proof. apply solveFor_facts. right. reflexivity. Qed.

Lemma avoids_substitute P r s row :
  avoids P r -> avoids P row -> avoids P (Row.substitute r s row).
Proof.
  intros A B k Hk. apply substitute_get_None; [apply B; exact Hk|]. left. apply A. exact Hk.
Qed.

Lemma substitute_self r s row :
  JsMap.get (Row.cells row) s = None -> JsMap.get (Row.cells (Row.substitute r s row)) s = None.
Proof. intros H. apply substitute_get_None; [exact H|]. right. reflexivity. Qed.

Lemma avoids_removeSymbol P r s : avoids P r -> avoids P (Row.removeSymbol r s).
Proof.
  intros A k Hk. unfold Row.removeSymbol, Row.cells. cbn [Row._cellMap].
  rewrite get_delete. destruct (same s k); [reflexivity|]. apply A. exact Hk.
Qed.

(** A symbol found in the cells is not avoided. *)
Lemma avoids_In P r k c : avoids P r -> In (k, c) (Row.cells r) -> ~ P k.
Proof.
  intros A Hin Hk. pose proof (In_has _ _ _ Hin) as H. unfold JsMap.has in H.
  rewrite (A _ Hk) in H. discriminate.
Qed.

(** *** Steps that keep a solver well formed *)

(** Well-formedness reads six fields of the solver. *)
Lemma well_formed_ext a b :
  _idTick b = _idTick a -> _rowMap b = _rowMap a -> _objective b = _objective a ->
  _artificial b = _artificial a -> _varMap b = _varMap a -> _cnMap b = _cnMap a ->
  well_formed a -> well_formed b.
Proof.
  destruct a, b. cbn. intros -> -> -> -> -> -> [H1 H2 H3 H4 H5 H6 H7 H8 H9].
  constructor; assumption.
Qed.

Lemma wf_with_editMap this m : well_formed this -> well_formed (with_editMap this m).
Proof. apply well_formed_ext; reflexivity. Qed.

Lemma wf_with_infeasibleRows this l :
  well_formed this -> well_formed (with_infeasibleRows this l).
Proof. apply well_formed_ext; reflexivity. Qed.

Lemma wf_with_artificial this a :
  well_formed this ->
  (forall row, a = Some row -> avoids (unminted this) row) ->
  well_formed (with_artificial this a).
Proof. intros [H1 H2 H3 H4 H5 H6 H7 H8 H9] Ha. constructor; assumption. Qed.

Lemma wf_with_objective this row :
  well_formed this -> avoids (unminted this) row -> well_formed (with_objective this row).
Proof. intros [H1 H2 H3 H4 H5 H6 H7 H8 H9] Ha. constructor; assumption. Qed.

Lemma wf_set_cn this constraint tag :
  well_formed this ->
  (Symbol.id (Tag.marker tag) < _idTick this)%Z ->
  (Symbol.id (Tag.other tag) < _idTick this)%Z ->
  well_formed (with_cnMap this (JsMap.set (_cnMap this) constraint tag)).
Proof.
  intros [H1 H2 H3 H4 H5 H6 H7 H8 H9] Hm Ho. constructor; try assumption.
  fields. intros c t Hin. apply In_set in Hin. destruct Hin as [Hin|[-> _]].
  - exact (H9 _ _ Hin).
  - split; assumption.
Qed.

Lemma wf_delete_cn this constraint :
  well_formed this ->
  well_formed (with_cnMap this (JsMap.delete (_cnMap this) constraint)).
Proof.
  intros [H1 H2 H3 H4 H5 H6 H7 H8 H9]. constructor; try assumption.
  fields. intros c t Hin. apply In_delete in Hin. exact (H9 _ _ (proj1 Hin)).
Qed.

Lemma wf_delete_row this k :
  well_formed this -> well_formed (with_rowMap this (JsMap.delete (_rowMap this) k)).
Proof.
  intros [H1 H2 H3 H4 H5 H6 H7 H8 H9]. constructor; try assumption; fields.
  - apply NoDup_delete. exact H2.
  - rewrite has_delete, H3. apply andb_false_r.
  - intros key row B. unfold basic in B. fields. rewrite get_delete in B.
    destruct (same k key); [discriminate|].
    destruct (H4 _ _ B) as (I & N & C & U). repeat split; try assumption.
    intros k' Hk'. apply C. unfold is_basic in *. fields.
    rewrite has_delete in Hk'. apply andb_true_iff in Hk'. exact (proj2 Hk').
Qed.

Lemma map_rows_keys (f : Symbol.t -> Row.t -> Row.t) rows :
  map fst (map_rows f rows) = map fst rows.
Proof. unfold map_rows. rewrite map_map. reflexivity. Qed.

Lemma map_rows_get (f : Row.t -> Row.t) rows k :
  JsMap.get (map_rows (fun _ => f) rows) k = option_map f (JsMap.get rows k).
Proof.
  unfold map_rows. apply (get_map_values (fun _ => f)). reflexivity.
Qed.

Lemma wf_map_rows this (f : Row.t -> Row.t) :
  well_formed this ->
  (forall key row, basic this key row -> tidy this (f row)) ->
  well_formed (with_rowMap this (map_rows (fun _ => f) (_rowMap this))).
Proof.
  intros [H1 H2 H3 H4 H5 H6 H7 H8 H9] Hf.
  assert (Has : forall k, JsMap.has (map_rows (fun _ => f) (_rowMap this)) k
                          = JsMap.has (_rowMap this) k).
  { intros k. unfold JsMap.has. rewrite map_rows_get.
    destruct (JsMap.get (_rowMap this) k); reflexivity. }
  constructor; try assumption; fields.
  - rewrite map_rows_keys. exact H2.
  - rewrite Has. exact H3.
  - intros key row B. unfold basic in B. fields. rewrite map_rows_get in B.
    destruct (JsMap.get (_rowMap this) key) as [r0|] eqn:G; [|discriminate].
    inversion B; subst row. destruct (Hf _ _ G) as (N & C & U).
    split; [exact (proj1 (H4 _ _ G))|]. split; [exact N|]. split; [|exact U].
    intros k' Hk'. apply C. unfold is_basic in *. fields. rewrite Has in Hk'. exact Hk'.
Qed.

Lemma wf_set_row this s row :
  well_formed this -> tidy this row ->
  JsMap.get (Row.cells row) s = None ->
  (forall key r, basic this key r -> JsMap.get (Row.cells r) s = None) ->
  (Symbol.id s < _idTick this)%Z ->
  same s INVALID_SYMBOL = false ->
  well_formed (with_rowMap this (JsMap.set (_rowMap this) s row)).
Proof.
  intros [H1 H2 H3 H4 H5 H6 H7 H8 H9] (N & C & U) Hs Hrows Hid Hinv.
  constructor; try assumption; fields.
  - apply NoDup_set. exact H2.
  - rewrite has_set, Hinv, H3. reflexivity.
  - assert (Av : forall r, avoids (is_basic this) r -> JsMap.get (Row.cells r) s = None ->
                           avoids (is_basic (with_rowMap this (JsMap.set (_rowMap this) s row))) r).
    { intros r A G k Hk. unfold is_basic in Hk. fields. rewrite has_set in Hk.
      destruct (same s k) eqn:E.
      - apply same_symbol_eq in E. subst k. exact G.
      - apply A. exact Hk. }
    intros key r B. unfold basic in B. fields. rewrite get_set in B.
    destruct (same s key) eqn:E.
    + inversion B; subst r. apply same_symbol_eq in E. subst key.
      split; [exact Hid|]. split; [exact N|]. split; [|exact U]. apply Av; assumption.
    + destruct (H4 _ _ B) as (I & N' & C' & U'). repeat split; try assumption.
      apply Av; [exact C' | exact (Hrows _ _ B)].
Qed.

Lemma substitute_artificial symbol row this :
  _artificial (_substitute symbol row this)
  = option_map (fun a => Row.substitute a symbol row) (_artificial this).
Proof.
  unfold _substitute. rewrite substitute_loop. fields.
  destruct (_artificial this) eqn:A; cbn; rewrite ?A; reflexivity.
Qed.

Lemma tidy_substitute this r s row :
  tidy this r -> avoids (is_basic this) row -> avoids (unminted this) row ->
  tidy this (Row.substitute r s row).
Proof.
  intros (N & C & U) Cr Ur. split; [|split].
  - apply substitute_distinct. exact N.
  - apply avoids_substitute; assumption.
  - apply avoids_substitute; assumption.
Qed.

Lemma wf_tidy this key row : well_formed this -> basic this key row -> tidy this row.
Proof. intros W B. exact (proj2 (wf_rows this W _ _ B)). Qed.

(** [_substitute] keeps a solver well formed when the row substituted
    mentions neither a basic symbol nor a symbol not yet minted; the rows
    of the basis no longer mention the symbol when the row does not. *)
Lemma wf_substitute s row this :
  well_formed this -> avoids (is_basic this) row -> avoids (unminted this) row ->
  well_formed (_substitute s row this)
  /\ (forall k, is_basic (_substitute s row this) k <-> is_basic this k)
  /\ _idTick (_substitute s row this) = _idTick this
  /\ (JsMap.get (Row.cells row) s = None ->
      forall key r, basic (_substitute s row this) key r -> JsMap.get (Row.cells r) s = None).
Proof.
  intros W C U.
  assert (Has : forall k, JsMap.has (_rowMap (_substitute s row this)) k
                          = JsMap.has (_rowMap this) k).
  { intros k. rewrite substitute_rowMap. unfold JsMap.has. rewrite map_rows_get.
    destruct (JsMap.get (_rowMap this) k); reflexivity. }
  split; [|split; [|split]].
  - destruct (substitute_kept s row this) as (K1 & K2 & K3 & K4).
    apply (well_formed_ext
             (with_artificial
                (with_objective
                   (with_rowMap this
                      (map_rows (fun _ r => Row.substitute r s row) (_rowMap this)))
                   (Row.substitute (_objective this) s row))
                (option_map (fun a => Row.substitute a s row) (_artificial this))));
      fields; try assumption.
    + apply substitute_rowMap.
    + apply substitute_objective.
    + apply substitute_artificial.
    + apply wf_with_artificial; [apply wf_with_objective; [apply wf_map_rows; [exact W|]|]|].
      * intros key r B. apply tidy_substitute; [exact (wf_tidy _ _ _ W B) | exact C | exact U].
      * apply avoids_substitute; [exact (wf_objective _ W) | exact U].
      * intros a Ha. destruct (_artificial this) as [a0|] eqn:A; [|discriminate].
        inversion Ha. apply avoids_substitute; [exact (wf_artificial _ W _ A) | exact U].
  - intros k. unfold is_basic. rewrite Has. tauto.
  - apply substitute_kept.
  - intros G key r B. unfold basic in B. rewrite substitute_rowMap, map_rows_get in B.
    destruct (JsMap.get (_rowMap this) key); [|discriminate]. inversion B.
    apply substitute_self. exact G.
Qed.

Lemma substitute_kept_tick s row this : _idTick (_substitute s row this) = _idTick this.
Proof. apply substitute_kept. Qed.

Lemma wf_makeSymbol type this :
  well_formed this ->
  well_formed (snd (_makeSymbol type this))
  /\ (Symbol.id (fst (_makeSymbol type this)) < _idTick (snd (_makeSymbol type this)))%Z
  /\ unminted this (fst (_makeSymbol type this)).
Proof.
  intros [H1 H2 H3 H4 H5 H6 H7 H8 H9]. unfold _makeSymbol. cbn [fst snd Symbol.id].
  assert (Un : forall r, avoids (unminted this) r ->
                         avoids (unminted (with_idTick this (_idTick this + 1)%Z)) r).
  { intros r. apply avoids_weaken. unfold unminted. fields. intros k. lia. }
  split; [|split; [fields; lia | unfold unminted; cbn; lia]].
  constructor; fields; try assumption.
  - lia.
  - intros key row B. destruct (H4 _ _ B) as (I & N & C & U). repeat split; auto. lia.
  - apply Un. exact H5.
  - intros row A. apply Un. exact (H6 _ A).
  - intros v s Hin. pose proof (H8 _ _ Hin). lia.
  - intros c t Hin. pose proof (H9 _ _ Hin). lia.
Qed.

(** *** Creating a row *)

(** A scan that replaces what it has found by a symbol of the map ends on
    what it started from or on a symbol of the map. *)
Lemma scan_In {V} (cond : Symbol.t -> V -> Symbol.t -> bool) (l : JsMap.t Symbol.t V) found :
  let r := JsMap.forEach l (fun found v s => if cond found v s then s else found) found in
  r = found \/ exists v, In (r, v) l.
Proof.
  unfold JsMap.forEach. revert found.
  induction l as [|[s v] l IH]; intros found; cbn [fold_left fst snd].
  - left. reflexivity.
  - cbv zeta in *. destruct (cond found v s).
    + destruct (IH s) as [E|[v' H]].
      * right. exists v. left. rewrite E. reflexivity.
      * right. exists v'. right. exact H.
    + destruct (IH found) as [E|[v' H]]; [left; exact E|].
      right. exists v'. right. exact H.
Qed.

Lemma not_invalid s : is_type SymbolType.Invalid s = false -> same s INVALID_SYMBOL = false.
Proof.
  intros H. destruct (same s INVALID_SYMBOL) eqn:E; [|reflexivity].
  rewrite (invalid_is_invalid _ E) in H. discriminate.
Qed.

Lemma unminted_not_basic this k : well_formed this -> unminted this k -> ~ is_basic this k.
Proof.
  intros W U B. unfold is_basic, JsMap.has in B.
  destruct (JsMap.get (_rowMap this) k) as [row|] eqn:G; [|discriminate].
  pose proof (proj1 (wf_rows _ W _ _ G)). unfold unminted in U. lia.
Qed.

Lemma tidy_insertSymbol this row s c :
  tidy this row -> ~ is_basic this s -> (Symbol.id s < _idTick this)%Z ->
  tidy this (Row.insertSymbol row s c).
Proof.
  intros (N & C & U) Hb Hm. split; [|split].
  - apply insertSymbol_distinct. exact N.
  - apply avoids_insertSymbol; assumption.
  - apply avoids_insertSymbol; [exact U|]. unfold unminted. lia.
Qed.

Lemma tidy_reverseSign this row : tidy this row -> tidy this (Row.reverseSign row).
Proof.
  intros (N & C & U). split; [|split].
  - apply reverseSign_facts. exact N.
  - apply avoids_reverseSign. exact C.
  - apply avoids_reverseSign. exact U.
Qed.

(** A row stays tidy when symbols are minted and the basis is kept. *)
Lemma tidy_later this this' row :
  _rowMap this' = _rowMap this -> (_idTick this <= _idTick this')%Z ->
  tidy this row -> tidy this' row.
Proof.
  intros R I (N & C & U). split; [exact N|]. split.
  - intros k Hk. apply C. unfold is_basic in *. rewrite <- R. exact Hk.
  - intros k Hk. apply U. unfold unminted in *. lia.
Qed.

Lemma wf_mint type this row :
  well_formed this -> tidy this row ->
  let s := fst (_makeSymbol type this) in
  let this' := snd (_makeSymbol type this) in
  well_formed this' /\ tidy this' row
  /\ (Symbol.id s < _idTick this')%Z /\ ~ is_basic this' s
  /\ _rowMap this' = _rowMap this /\ (_idTick this <= _idTick this')%Z
  /\ _objective this' = _objective this.
Proof.
  intros W T. cbv zeta. destruct (wf_makeSymbol type this W) as (W' & I & U).
  split; [exact W'|]. split.
  - apply (tidy_later this); [reflexivity | cbn; lia | exact T].
  - split; [exact I|]. split; [|split; [reflexivity | split; [cbn; lia | reflexivity]]].
    intros B. apply (unminted_not_basic this _ W U). exact B.
Qed.

Lemma wf_getVarSymbol variable this :
  well_formed this ->
  let symbol := fst (_getVarSymbol variable this) in
  let this' := snd (_getVarSymbol variable this) in
  well_formed this' /\ (Symbol.id symbol < _idTick this')%Z
  /\ _rowMap this' = _rowMap this /\ (_idTick this <= _idTick this')%Z.
Proof.
  intros W. cbv zeta. unfold _getVarSymbol.
  destruct (JsMap.get (_varMap this) variable) as [symbol|] eqn:G; cbn [fst snd].
  - split; [exact W|]. split; [|split; [reflexivity | lia]].
    apply get_In in G. destruct G as [k0 [Hin _]]. exact (wf_symbols _ W _ _ Hin).
  - destruct (wf_makeSymbol SymbolType.External this W) as (W' & I & U).
    cbn [_makeSymbol fst snd] in *. split; [|split; [exact I | split; [reflexivity | cbn; lia]]].
    destruct W' as [H1 H2 H3 H4 H5 H6 H7 H8 H9]. constructor; try assumption; fields.
    + assert (Hhas : JsMap.has (_varMap this) variable = false)
        by (unfold JsMap.has; rewrite G; reflexivity).
      rewrite (set_fresh _ _ _ Hhas), map_app. cbn [map fst].
      apply NoDup_app; [exact H7 | constructor; [intros [] | constructor] |].
      intros k Hk [<-|[]]. apply in_map_iff in Hk. destruct Hk as [e [E Hin]].
      pose proof (has_false_all _ _ Hhas _ Hin) as F. rewrite E in F.
      unfold same, Var_identity in F. rewrite Z.eqb_refl in F. discriminate.
    + intros v s Hin. apply In_set in Hin. destruct Hin as [Hin|[-> _]].
      * exact (H8 _ _ Hin).
      * cbn. lia.
Qed.

(** The loop of [_createRow] over the terms of the expression. *)
Lemma createRow_terms_tidy terms row this :
  well_formed this -> tidy this row ->
  let result :=
    JsMap.forEach terms
      (fun '(row, this) coefficient variable =>
         if negb (nearZero coefficient) then
           let '(symbol, this) := _getVarSymbol variable this in
           match JsMap.get (_rowMap this) symbol with
           | Some basicRow => (Row.insertRow row basicRow coefficient, this)
           | None => (Row.insertSymbol row symbol coefficient, this)
           end
         else (row, this))
      (row, this) in
  well_formed (snd result) /\ tidy (snd result) (fst result)
  /\ (_idTick this <= _idTick (snd result))%Z.
Proof.
  unfold JsMap.forEach. revert row this.
  induction terms as [|[variable coefficient] terms IH]; intros row this W T;
    cbn [fold_left fst snd].
  - cbv zeta. split; [exact W|]. split; [exact T | lia].
  - destruct (negb (nearZero coefficient)); [|apply IH; assumption].
    destruct (wf_getVarSymbol variable this W) as (W1 & I1 & R1 & M1).
    destruct (_getVarSymbol variable this) as [symbol this1]. cbn [fst snd] in *.
    pose proof (tidy_later this this1 row R1 M1 T) as T1.
    destruct (JsMap.get (_rowMap this1) symbol) as [basicRow|] eqn:G.
    + assert (T2 : tidy this1 (Row.insertRow row basicRow coefficient)).
      { destruct T1 as (N & C & U). destruct (wf_tidy _ _ _ W1 G) as (N' & C' & U').
        split; [apply insertRow_facts; exact N|].
        split; apply avoids_insertRow; assumption. }
      destruct (IH _ _ W1 T2) as (Wr & Tr & Mr). cbv zeta.
      split; [exact Wr|]. split; [exact Tr | lia].
    + assert (T2 : tidy this1 (Row.insertSymbol row symbol coefficient)).
      { apply tidy_insertSymbol; [exact T1 | | exact I1].
        unfold is_basic, JsMap.has. rewrite G. discriminate. }
      destruct (IH _ _ W1 T2) as (Wr & Tr & Mr). cbv zeta.
      split; [exact Wr|]. split; [exact Tr | lia].
Qed.

Lemma tidy_new this c : tidy this (Row.new c).
Proof. split; [constructor|]. split; intros k _; reflexivity. Qed.

(** [_createRow] leaves a well-formed solver and returns a tidy row and a
    tag of minted symbols. *)
Lemma createRow_tidy constraint this :
  well_formed this ->
  let result := _createRow required constraint this in
  well_formed (snd result)
  /\ tidy (snd result) (fst (fst result))
  /\ (Symbol.id (Tag.marker (snd (fst result))) < _idTick (snd result))%Z
  /\ (Symbol.id (Tag.other (snd (fst result))) < _idTick (snd result))%Z
  /\ (_idTick this <= _idTick (snd result))%Z.
Proof.
  intros W. cbv zeta. unfold _createRow.
  destruct (createRow_terms_tidy (Expression.terms (Constraint.expression constraint))
              (Row.new (Expression.constant (Constraint.expression constraint))) this W
              (tidy_new _ _)) as (W1 & T1 & M1).
  cbv zeta in W1, T1, M1.
  destruct (JsMap.forEach _ _ _) as [row this1]. cbn [fst snd] in W1, T1, M1.
  assert (Rev : forall th r, tidy th r ->
                  tidy th (if Row.constant r <? 0 then Row.reverseSign r else r)).
  { intros th r T. destruct (Row.constant r <? 0); [apply tidy_reverseSign|]; exact T. }
  pose proof (wf_tick _ W1) as Tick.
  destruct (Constraint.op constraint).
  - (* Le *)
    destruct (wf_mint SymbolType.Slack this1 row W1 T1) as (W2 & T2 & I2 & B2 & R2 & M2 & O2).
    destruct (_makeSymbol SymbolType.Slack this1) as [slack this2]. cbn [fst snd] in *.
    pose proof (tidy_insertSymbol this2 row slack 1 T2 B2 I2) as T3.
    destruct (Constraint.strength constraint <? required).
    + destruct (wf_mint SymbolType.Error this2 _ W2 T3) as (W4 & T4 & I4 & B4 & R4 & M4 & O4).
      destruct (_makeSymbol SymbolType.Error this2) as [error this3]. cbn [fst snd] in *.
      pose proof (tidy_insertSymbol this3 _ error (- 1) T4 B4 I4) as T5.
      cbn [fst snd Tag.marker Tag.other]. fields.
      split; [|split; [apply Rev; exact T5 | split; [lia | split; [exact I4 | lia]]]].
      apply wf_with_objective; [exact W4|].
      apply avoids_insertSymbol; [exact (wf_objective _ W4) | unfold unminted; lia].
    + cbn [fst snd Tag.marker Tag.other]. split; [exact W2|].
      split; [apply Rev; exact T3 | split; [exact I2 | split; [cbn; lia | lia]]].
  - (* Ge *)
    destruct (wf_mint SymbolType.Slack this1 row W1 T1) as (W2 & T2 & I2 & B2 & R2 & M2 & O2).
    destruct (_makeSymbol SymbolType.Slack this1) as [slack this2]. cbn [fst snd] in *.
    pose proof (tidy_insertSymbol this2 row slack (-1) T2 B2 I2) as T3.
    destruct (Constraint.strength constraint <? required).
    + destruct (wf_mint SymbolType.Error this2 _ W2 T3) as (W4 & T4 & I4 & B4 & R4 & M4 & O4).
      destruct (_makeSymbol SymbolType.Error this2) as [error this3]. cbn [fst snd] in *.
      pose proof (tidy_insertSymbol this3 _ error (- -1) T4 B4 I4) as T5.
      cbn [fst snd Tag.marker Tag.other]. fields.
      split; [|split; [apply Rev; exact T5 | split; [lia | split; [exact I4 | lia]]]].
      apply wf_with_objective; [exact W4|].
      apply avoids_insertSymbol; [exact (wf_objective _ W4) | unfold unminted; lia].
    + cbn [fst snd Tag.marker Tag.other]. split; [exact W2|].
      split; [apply Rev; exact T3 | split; [exact I2 | split; [cbn; lia | lia]]].
  - (* Eq *)
    destruct (Constraint.strength constraint <? required).
    + destruct (wf_mint SymbolType.Error this1 row W1 T1) as (W2 & T2 & I2 & B2 & R2 & M2 & O2).
      destruct (_makeSymbol SymbolType.Error this1) as [errplus this2]. cbn [fst snd] in *.
      destruct (wf_mint SymbolType.Error this2 row W2 T2) as (W3 & T3 & I3 & B3 & R3 & M3 & O3).
      destruct (_makeSymbol SymbolType.Error this2) as [errminus this3]. cbn [fst snd] in *.
      assert (Bp : ~ is_basic this3 errplus).
      { intros B. apply B2. unfold is_basic in *. rewrite <- R3. exact B. }
      assert (Ip : (Symbol.id errplus < _idTick this3)%Z) by lia.
      pose proof (tidy_insertSymbol this3 row errplus (-1) T3 Bp Ip) as T4.
      pose proof (tidy_insertSymbol this3 _ errminus 1 T4 B3 I3) as T5.
      cbn [fst snd Tag.marker Tag.other]. fields.
      split; [|split; [apply Rev; exact T5 | split; [exact Ip | split; [exact I3 | lia]]]].
      apply wf_with_objective.
      * apply wf_with_objective; [exact W3|].
        apply avoids_insertSymbol; [exact (wf_objective _ W3) | unfold unminted; lia].
      * fields. apply avoids_insertSymbol; [|unfold unminted; fields; lia].
        apply avoids_insertSymbol; [exact (wf_objective _ W3) | unfold unminted; fields; lia].
    + destruct (wf_mint SymbolType.Dummy this1 row W1 T1) as (W2 & T2 & I2 & B2 & R2 & M2 & O2).
      destruct (_makeSymbol SymbolType.Dummy this1) as [dummy this2]. cbn [fst snd] in *.
      pose proof (tidy_insertSymbol this2 row dummy 1 T2 B2 I2) as T3.
      cbn [fst snd Tag.marker Tag.other]. split; [exact W2|].
      split; [apply Rev; exact T3 | split; [exact I2 | split; [cbn; lia | lia]]].
Qed.

(** *** Pivots *)

Lemma tidy_solveFor this r s : tidy this r -> tidy this (Row.solveFor r s).
Proof.
  intros (N & C & U). split; [|split].
  - apply solveFor_facts. exact N.
  - apply avoids_solveFor. exact C.
  - apply avoids_solveFor. exact U.
Qed.

(** A tidy row, solved for a minted symbol, enters the basis under it. *)
Lemma wf_enter this r s :
  well_formed this -> tidy this r ->
  (Symbol.id s < _idTick this)%Z -> same s INVALID_SYMBOL = false ->
  let r' := Row.solveFor r s in
  let this1 := _substitute s r' this in
  well_formed (with_rowMap this1 (JsMap.set (_rowMap this1) s r')).
Proof.
  intros W T I V r' this1.
  pose proof (tidy_solveFor this r s T) as (N' & C' & U'). fold r' in N', C', U'.
  destruct (wf_substitute s r' this W C' U') as (W1 & B1 & I1 & S1). fold this1 in W1, B1, I1, S1.
  apply wf_set_row.
  - exact W1.
  - split; [exact N'|]. split.
    + intros k Hk. apply C'. apply B1. exact Hk.
    + intros k Hk. apply U'. unfold unminted in *. rewrite <- I1. exact Hk.
  - apply solveFor_self.
  - apply S1. apply solveFor_self.
  - rewrite I1. exact I.
  - exact V.
Qed.

(** The row that leaves the basis, with its own symbol added, is tidy in
    the basis without it. *)
Lemma tidy_leaving this leaving row c :
  well_formed this -> basic this leaving row ->
  tidy (with_rowMap this (JsMap.delete (_rowMap this) leaving))
    (Row.insertSymbol row leaving c).
Proof.
  intros W B. destruct (wf_rows _ W _ _ B) as (I & N & C & U).
  apply tidy_insertSymbol.
  - split; [exact N|]. split; [|exact U].
    intros k Hk. apply C. unfold is_basic in *. fields. rewrite has_delete in Hk.
    apply andb_true_iff in Hk. exact (proj2 Hk).
  - unfold is_basic. fields. rewrite has_delete, same_refl. discriminate.
  - exact I.
Qed.

Lemma wf_pivot leaving entering this r this' :
  well_formed this ->
  (Symbol.id entering < _idTick this)%Z -> same entering INVALID_SYMBOL = false ->
  pivot leaving entering this = (r, this') ->
  well_formed this' /\ _idTick this' = _idTick this.
Proof.
  intros W I V E. unfold pivot in E.
  destruct (JsMap.get (_rowMap this) leaving) as [row|] eqn:G; inversion E; subst; clear E.
  - split.
    + apply (wf_enter (with_rowMap this (JsMap.delete (_rowMap this) leaving))
               (Row.insertSymbol row leaving (-1)) entering).
      * apply wf_delete_row. exact W.
      * apply tidy_leaving; assumption.
      * exact I.
      * exact V.
    + fields.
      rewrite (proj2 (proj2 (proj2 (substitute_kept entering (Row.solveForEx row leaving entering)
                                       (with_rowMap this (JsMap.delete (_rowMap this) leaving)))))).
      reflexivity.
  - split; [apply wf_delete_row; exact W | reflexivity].
Qed.

(** A scan of the cells of a row of minted symbols finds a minted symbol
    (the Invalid symbol counts as one). *)
Lemma scan_minted this row (cond : Symbol.t -> float -> Symbol.t -> bool) :
  (0 <= _idTick this)%Z -> avoids (unminted this) row ->
  (Symbol.id (JsMap.forEach (Row.cells row)
                (fun found v s => if cond found v s then s else found) INVALID_SYMBOL)
   < _idTick this)%Z.
Proof.
  intros T A. destruct (scan_In cond (Row.cells row) INVALID_SYMBOL) as [E|[c Hin]];
    cbv zeta in *.
  - rewrite E. cbn. lia.
  - pose proof (avoids_In _ _ _ _ A Hin) as N. unfold unminted in N. lia.
Qed.

Lemma objective_of_minted which this :
  well_formed this -> avoids (unminted this) (objective_of which this).
Proof.
  intros W. destruct which; cbn [objective_of].
  - exact (wf_objective _ W).
  - destruct (_artificial this) as [row|] eqn:A.
    + exact (wf_artificial _ W _ A).
    + intros k _. reflexivity.
Qed.

Lemma optimize_keeps fuel which : keeps (_optimize fuel which).
Proof.
  induction fuel as [|fuel IH]; intros this r this' E W; cbn [_optimize] in E.
  - inversion E; subst. split; [exact W | lia].
  - unfold bind, gets, ret, throw in E.
    destruct (is_type SymbolType.Invalid (_getEnteringSymbol (objective_of which this))) eqn:T.
    + inversion E; subst. split; [exact W | lia].
    + destruct (is_type SymbolType.Invalid
                  (_getLeavingSymbol (_getEnteringSymbol (objective_of which this)) this)).
      * inversion E; subst. split; [exact W | lia].
      * destruct (pivot _ _ this) as [[[]|m|] this1] eqn:P;
          destruct (wf_pivot _ _ _ _ _ W
                      (scan_minted this (objective_of which this)
                         (fun found coefficient symbol =>
                            same found INVALID_SYMBOL && (coefficient <? 0)
                            && negb (is_type SymbolType.Dummy symbol))
                         (wf_tick _ W) (objective_of_minted which this W))
                      (not_invalid _ T) P) as [W1 I1].
        -- destruct (IH _ _ _ E W1) as [W2 I2]. split; [exact W2 | lia].
        -- inversion E; subst. split; [exact W1 | lia].
        -- inversion E; subst. split; [exact W1 | lia].
Qed.

Lemma dualOptimize_keeps fuel : keeps (_dualOptimize fuel).
Proof.
  induction fuel as [|fuel IH]; intros this r this' E W; cbn [_dualOptimize] in E.
  - inversion E; subst. split; [exact W | lia].
  - destruct (pop (_infeasibleRows this)) as [[leaving rest]|].
    + pose proof (wf_with_infeasibleRows this rest W) as W0.
      fields.
      destruct (JsMap.get (_rowMap this) leaving) as [row|] eqn:G.
      * destruct (Row.constant row <? 0).
        -- destruct (is_type SymbolType.Invalid
                       (_getDualEnteringSymbol row (with_infeasibleRows this rest))) eqn:T.
           ++ inversion E; subst. split; [exact W0 | fields; lia].
           ++ unfold bind in E.
              destruct (dualEntering_positive _ _ T) as [c [Hin _]].
              assert (I : (Symbol.id (_getDualEnteringSymbol row (with_infeasibleRows this rest))
                           < _idTick (with_infeasibleRows this rest))%Z).
              { pose proof (avoids_In _ _ _ _
                              (proj2 (proj2 (wf_tidy _ _ _ W G))) Hin) as N.
                unfold unminted in N. fields. lia. }
              destruct (pivot _ _ (with_infeasibleRows this rest)) as [[[]|m|] this1] eqn:P;
                destruct (wf_pivot _ _ _ _ _ W0 I (not_invalid _ T) P) as [W1 I1];
                fields.
              ** destruct (IH _ _ _ E W1) as [W2 I2]. split; [exact W2 | lia].
              ** inversion E; subst. split; [exact W1 | lia].
              ** inversion E; subst. split; [exact W1 | lia].
        -- destruct (IH _ _ _ E W0) as [W2 I2]. split; [exact W2 | fields; lia].
      * destruct (IH _ _ _ E W0) as [W2 I2]. split; [exact W2 | fields; lia].
    + inversion E; subst. split; [exact W | lia].
Qed.

(** *** The artificial variable *)

Lemma remove_loop art rows acc :
  JsMap.forEach rows
    (fun rowMap row2 symbol => rowMap ++ [(symbol, Row.removeSymbol row2 art)]) acc
  = acc ++ map_rows (fun _ r => Row.removeSymbol r art) rows.
Proof.
  unfold JsMap.forEach, map_rows. revert acc.
  induction rows as [|[k r] rows IH]; intros acc; cbn [fold_left map fst snd].
  - rewrite app_nil_r. reflexivity.
  - rewrite IH, <- app_assoc. reflexivity.
Qed.

Lemma tidy_removeSymbol this r s : tidy this r -> tidy this (Row.removeSymbol r s).
Proof.
  intros (N & C & U). split; [|split].
  - unfold Row.removeSymbol, Row.cells. cbn [Row._cellMap]. apply NoDup_delete. exact N.
  - apply avoids_removeSymbol. exact C.
  - apply avoids_removeSymbol. exact U.
Qed.

Lemma tidy_copy this r : tidy this r -> tidy this (Row.copy r).
Proof.
  intros (N & C & U). split; [|split].
  - apply copy_facts.
  - apply avoids_copy. exact C.
  - apply avoids_copy. exact U.
Qed.

(** The artificial variable is taken out of every row and of the
    objective. *)
Lemma wf_remove_art this art :
  well_formed this ->
  let this1 :=
    with_rowMap this
      (JsMap.forEach (_rowMap this)
         (fun rowMap row2 symbol => rowMap ++ [(symbol, Row.removeSymbol row2 art)]) []) in
  well_formed (with_objective this1 (Row.removeSymbol (_objective this1) art)).
Proof.
  intros W this1. unfold this1. rewrite remove_loop. cbn [app]. fields.
  apply wf_with_objective.
  - apply wf_map_rows; [exact W|]. intros key row B. apply tidy_removeSymbol.
    exact (wf_tidy _ _ _ W B).
  - fields. apply avoids_removeSymbol. exact (wf_objective _ W).
Qed.

Lemma addWithArtificialVariable_keeps fuel row this r this' :
  _addWithArtificialVariable fuel row this = (r, this') ->
  well_formed this -> tidy this row ->
  well_formed this' /\ (_idTick this <= _idTick this')%Z.
Proof.
  intros E W T. unfold _addWithArtificialVariable, bind, run, gets, ret in E.
  destruct (wf_mint SymbolType.Slack this row W T) as (W1 & T1 & I1 & B1 & R1 & M1 & O1).
  destruct (wf_makeSymbol SymbolType.Slack this W) as (_ & _ & U1).
  destruct (_makeSymbol SymbolType.Slack this) as [art this1] eqn:Mk. cbn [fst snd] in *.
  assert (Vart : same art INVALID_SYMBOL = false).
  { unfold _makeSymbol in Mk. inversion Mk. reflexivity. }
  match type of E with context [_optimize fuel TheArtificial ?s] => set (s3 := s) in * end.
  assert (W3 : well_formed s3).
  { unfold s3. apply wf_with_artificial.
    - apply wf_set_row.
      + exact W1.
      + apply tidy_copy. exact T1.
      + apply copy_facts. apply (proj2 (proj2 T)). exact U1.
      + intros key r0 B. unfold basic in B. rewrite R1 in B. apply (proj2 (proj2 (wf_tidy _ _ _ W B))). exact U1.
      + exact I1.
      + exact Vart.
    - intros a Ha. inversion Ha. apply avoids_copy. exact (proj2 (proj2 T1)). }
  assert (I3 : _idTick s3 = _idTick this1) by reflexivity.
  destruct (_optimize fuel TheArtificial s3) as [[[]|m|] s4] eqn:O;
    destruct (optimize_keeps _ _ _ _ _ O W3) as [W4 I4];
    [|inversion E; subst; split; [exact W4 | lia]..].
  assert (W5 : well_formed (with_artificial s4 None))
    by (apply wf_with_artificial; [exact W4 | discriminate]).
  fields.
  destruct (JsMap.get (_rowMap s4) art) as [basicRow|] eqn:G.
  - pose proof (wf_delete_row _ art W5) as W6. fields.
    destruct (Row.isConstant basicRow).
    + inversion E; subst. split; [exact W6 | fields; lia].
    + destruct (is_type SymbolType.Invalid (_anyPivotableSymbol basicRow)) eqn:Ty.
      * inversion E; subst. split; [exact W6 | fields; lia].
      * assert (W7 := wf_enter _ (Row.insertSymbol basicRow art (-1))
                        (_anyPivotableSymbol basicRow) W6
                        (tidy_leaving (with_artificial s4 None) art basicRow (-1) W5 G)
                        (scan_minted s4 basicRow
                           (fun found _ symbol =>
                              same found INVALID_SYMBOL
                              && (is_type SymbolType.Slack symbol
                                  || is_type SymbolType.Error symbol))
                           (wf_tick _ W4) (proj2 (proj2 (wf_tidy _ _ _ W4 G))))
                        (not_invalid _ Ty)).
        cbv zeta in W7. pose proof (wf_remove_art _ art W7) as W8. cbv zeta in W8.
        inversion E; subst; clear E. split; [exact W8|].
        fields. rewrite substitute_kept_tick. fields. lia.
  - pose proof (wf_remove_art _ art W5) as W8. cbv zeta in W8.
    inversion E; subst; clear E. split; [exact W8 | fields; lia].
Qed.

(** *** The public calls *)

Lemma chooseSubject_minted this row tag :
  (0 <= _idTick this)%Z -> avoids (unminted this) row ->
  (Symbol.id (Tag.marker tag) < _idTick this)%Z ->
  (Symbol.id (Tag.other tag) < _idTick this)%Z ->
  (Symbol.id (_chooseSubject row tag) < _idTick this)%Z.
Proof.
  intros T A Im Io. unfold _chooseSubject.
  pose proof (scan_minted this row
                (fun found _ symbol =>
                   same found INVALID_SYMBOL && is_type SymbolType.External symbol) T A) as F.
  cbv zeta.
  destruct (negb (same _ INVALID_SYMBOL)); [exact F|].
  destruct (_ && _); [exact Im|]. destruct (_ && _); [exact Io|]. cbn. lia.
Qed.

Lemma wf_removeMarkerEffects marker strength this :
  well_formed this -> (Symbol.id marker < _idTick this)%Z ->
  well_formed (_removeMarkerEffects marker strength this)
  /\ _idTick (_removeMarkerEffects marker strength this) = _idTick this.
Proof.
  intros W I. unfold _removeMarkerEffects.
  destruct (JsMap.get (_rowMap this) marker) as [row|] eqn:G.
  - split; [|reflexivity]. apply wf_with_objective; [exact W|].
    apply avoids_insertRow; [exact (wf_objective _ W)|].
    exact (proj2 (proj2 (wf_tidy _ _ _ W G))).
  - split; [|reflexivity]. apply wf_with_objective; [exact W|].
    apply avoids_insertSymbol; [exact (wf_objective _ W) | unfold unminted; lia].
Qed.

Lemma wf_removeConstraintEffects cn tag this :
  well_formed this ->
  (Symbol.id (Tag.marker tag) < _idTick this)%Z ->
  (Symbol.id (Tag.other tag) < _idTick this)%Z ->
  well_formed (_removeConstraintEffects cn tag this)
  /\ _idTick (_removeConstraintEffects cn tag this) = _idTick this.
Proof.
  intros W Im Io. unfold _removeConstraintEffects.
  destruct (is_type SymbolType.Error (Tag.marker tag)).
  - destruct (wf_removeMarkerEffects (Tag.marker tag) (Constraint.strength cn) this W Im)
      as [W1 I1].
    destruct (is_type SymbolType.Error (Tag.other tag)); [|split; assumption].
    destruct (wf_removeMarkerEffects (Tag.other tag) (Constraint.strength cn) _ W1) as [W2 I2];
      [lia|]. split; [exact W2 | lia].
  - destruct (is_type SymbolType.Error (Tag.other tag)); [|split; [exact W | reflexivity]].
    exact (wf_removeMarkerEffects (Tag.other tag) (Constraint.strength cn) this W Io).
Qed.

(** The path of [addConstraint] through the artificial variable. *)
Ltac art_path constraint tag :=
  match goal with
  | E : context [_addWithArtificialVariable ?f ?row ?s],
    W1 : well_formed ?s, T1 : tidy ?s ?row |- _ =>
      let A := fresh "A" in
      let W2 := fresh "W" in
      let I2 := fresh "I" in
      destruct (_addWithArtificialVariable f row s) as [[[]|?|] ?] eqn:A;
      destruct (addWithArtificialVariable_keeps _ _ _ _ _ A W1 T1) as [W2 I2];
      [ let W4 := fresh "W" in
        let I4 := fresh "I" in
        destruct (optimize_keeps _ _ _ _ _ E
                    (wf_set_cn _ constraint tag W2 ltac:(lia) ltac:(lia))) as [W4 I4];
        split; [exact W4 | fields; lia]
      | inversion E; subst; split; [exact W2 | lia] .. ]
  end.

Lemma addConstraint_keeps fuel constraint : keeps (addConstraint required fuel constraint).
Proof.
  intros this r this' E W. unfold addConstraint, bind, gets, throw, ret, run in E.
  destruct (JsMap.has (_cnMap this) constraint);
    [inversion E; subst; split; [exact W | lia]|].
  destruct (createRow_tidy constraint this W) as (W1 & T1 & Im & Io & M1).
  cbv zeta in W1, T1, Im, Io, M1.
  destruct (_createRow required constraint this) as [[row tag] this1].
  cbn [fst snd] in *.
  assert (Direct : forall subject r this',
             is_type SymbolType.Invalid subject = false ->
             (Symbol.id subject < _idTick this1)%Z ->
             (let this2 := _substitute subject (Row.solveFor row subject) this1 in
              let this3 :=
                with_rowMap this2
                  (JsMap.set (_rowMap this2) subject (Row.solveFor row subject)) in
              _optimize fuel TheObjective
                (with_cnMap this3 (JsMap.set (_cnMap this3) constraint tag)))
             = (r, this') ->
             well_formed this' /\ (_idTick this <= _idTick this')%Z).
  { intros subject r0 this0 Ty Is E0. cbv zeta in E0.
    pose proof (wf_enter this1 row subject W1 T1 Is (not_invalid _ Ty)) as W3.
    cbv zeta in W3.
    match type of W3 with well_formed ?s =>
      assert (I3 : _idTick s = _idTick this1)
        by (fields; apply substitute_kept_tick);
      pose proof (wf_set_cn s constraint tag W3) as W4 end.
    rewrite I3 in W4. specialize (W4 Im Io).
    destruct (optimize_keeps _ _ _ _ _ E0 W4) as [W5 I5]. split; [exact W5|].
    fields. rewrite substitute_kept_tick in I5. lia. }
  pose proof (chooseSubject_minted this1 row tag (wf_tick _ W1) (proj2 (proj2 T1)) Im Io) as Is.
  destruct (is_type SymbolType.Invalid (_chooseSubject row tag) && Row.allDummies row).
  - destruct (negb (nearZero (Row.constant row))).
    + inversion E; subst. split; [exact W1 | lia].
    + destruct (is_type SymbolType.Invalid (Tag.marker tag)) eqn:Ty.
      * art_path constraint tag.
      * exact (Direct _ _ _ Ty Im E).
  - destruct (is_type SymbolType.Invalid (_chooseSubject row tag)) eqn:Ty.
    + art_path constraint tag.
    + exact (Direct _ _ _ Ty Is E).
Qed.

Lemma removeConstraint_keeps fuel constraint : keeps (removeConstraint fuel constraint).
Proof.
  intros this r this' E W. unfold removeConstraint, bind, gets, throw, ret, run in E.
  destruct (JsMap.get (_cnMap this) constraint) as [tag|] eqn:G;
    [|inversion E; subst; split; [exact W | lia]].
  apply get_In in G. destruct G as [c0 [Hin _]].
  destruct (wf_tags _ W _ _ Hin) as [Im Io].
  pose proof (wf_delete_cn this constraint W) as W1.
  destruct (wf_removeConstraintEffects constraint tag _ W1 Im Io) as [W2 I2].
  match type of W2 with well_formed ?s => set (s2 := s) in * end.
  pose proof (wf_delete_row s2 (Tag.marker tag) W2) as W3.
  match type of W3 with well_formed ?s => set (s3 := s) in * end.
  assert (I3 : _idTick s3 = _idTick this) by exact I2.
  destruct (negb (JsMap.has (_rowMap s2) (Tag.marker tag))).
  - destruct (is_type SymbolType.Invalid (_getMarkerLeavingSymbol (Tag.marker tag) s3)).
    + inversion E; subst. split; [exact W3 | lia].
    + pose proof (wf_delete_row s3 (_getMarkerLeavingSymbol (Tag.marker tag) s3) W3) as W4.
      destruct (JsMap.get (_rowMap s3) (_getMarkerLeavingSymbol (Tag.marker tag) s3))
        as [row|] eqn:Gr.
      * pose proof (tidy_solveFor _ _ (Tag.marker tag)
                      (tidy_leaving s3 _ row (-1) W3 Gr)) as (N & C & U).
        destruct (wf_substitute (Tag.marker tag) _ _ W4 C U) as (W5 & _ & I5 & _).
        destruct (optimize_keeps _ _ _ _ _ E W5) as [W6 I6]. split; [exact W6|].
        unfold Row.solveForEx in I6. rewrite I5 in I6. fields. lia.
      * inversion E; subst. split; [exact W4 | fields; lia].
  - destruct (optimize_keeps _ _ _ _ _ E W3) as [W4 I4]. split; [exact W4 | lia].
Qed.

Lemma addEditVariable_keeps fuel cn_id variable strength :
  keeps (addEditVariable required clip fuel cn_id variable strength).
Proof.
  intros this r this' E W. unfold addEditVariable, bind, gets, throw, ret, run in E.
  destruct (JsMap.has (_editMap this) variable);
    [inversion E; subst; split; [exact W | lia]|].
  destruct (clip strength =? required);
    [inversion E; subst; split; [exact W | lia]|].
  match type of E with context [addConstraint required fuel ?cn this] =>
    destruct (addConstraint required fuel cn this) as [[[]|m|] this1] eqn:A;
    destruct (addConstraint_keeps _ _ _ _ _ A W) as [W1 I1];
    [|inversion E; subst; split; [exact W1 | lia]..];
    destruct (JsMap.get (_cnMap this1) cn)
  end.
  - inversion E; subst. split; [apply wf_with_editMap; exact W1 | fields; lia].
  - inversion E; subst. split; [exact W1 | lia].
Qed.

Lemma removeEditVariable_keeps fuel variable : keeps (removeEditVariable fuel variable).
Proof.
  intros this r this' E W. unfold removeEditVariable, bind, gets, throw, ret, run in E.
  destruct (JsMap.get (_editMap this) variable) as [info|];
    [|inversion E; subst; split; [exact W | lia]].
  exact (removeConstraint_keeps _ _ _ _ _ E (wf_with_editMap _ _ W)).
Qed.

(** The constant of a basic row is changed. *)
Lemma wf_bump this key row d :
  well_formed this -> basic this key row ->
  well_formed (with_rowMap this (JsMap.set (_rowMap this) key (Row.add row d))).
Proof.
  intros W B. destruct (wf_rows _ W _ _ B) as (I & N & C & U).
  assert (Hk : is_basic this key) by (apply (basic_has _ _ _ B)).
  apply wf_set_row.
  - exact W.
  - split; [exact N|]. split; [exact C | exact U].
  - exact (C _ Hk).
  - intros k r Br. exact (proj1 (proj2 (proj2 (wf_rows _ W _ _ Br))) _ Hk).
  - exact I.
  - destruct (same key INVALID_SYMBOL) eqn:S; [|reflexivity].
    apply same_symbol_eq in S. subst key. unfold is_basic in Hk.
    rewrite (wf_invalid _ W) in Hk. discriminate.
Qed.

Lemma suggestValue_keeps fuel variable value : keeps (suggestValue fuel variable value).
Proof.
  intros this r this' E W. unfold suggestValue, bind, gets, throw, ret, run in E.
  destruct (JsMap.get (_editMap this) variable) as [info|];
    [|inversion E; subst; split; [exact W | lia]].
  match type of E with context [with_editMap this ?m] =>
    pose proof (wf_with_editMap this m W) as W1; set (s1 := with_editMap this m) in *
  end.
  destruct (JsMap.get (_rowMap s1) (Tag.marker (EditInfo.tag info))) as [row|] eqn:G1.
  - pose proof (wf_bump s1 _ row (- (value - EditInfo.constant info)) W1 G1) as W2.
    destruct (Row.constant (Row.add row (- (value - EditInfo.constant info))) <? 0).
    + destruct (dualOptimize_keeps _ _ _ _ E (wf_with_infeasibleRows _ _ W2)) as [W3 I3].
      split; [exact W3 | exact I3].
    + destruct (dualOptimize_keeps _ _ _ _ E W2) as [W3 I3]. split; [exact W3 | exact I3].
  - destruct (JsMap.get (_rowMap s1) (Tag.other (EditInfo.tag info))) as [row|] eqn:G2.
    + pose proof (wf_bump s1 _ row (value - EditInfo.constant info) W1 G2) as W2.
      destruct (Row.constant (Row.add row (value - EditInfo.constant info)) <? 0).
      * destruct (dualOptimize_keeps _ _ _ _ E (wf_with_infeasibleRows _ _ W2)) as [W3 I3].
        split; [exact W3 | exact I3].
      * destruct (dualOptimize_keeps _ _ _ _ E W2) as [W3 I3]. split; [exact W3 | exact I3].
    + rewrite suggest_loop in E. cbn [app] in E.
      refine (dualOptimize_keeps _ _ _ _ E _).
      apply wf_with_infeasibleRows. apply wf_map_rows; [exact W1|].
      intros key row B. pose proof (wf_tidy _ _ _ W1 B) as T.
      destruct (negb _); exact T.
Qed.

(** *** Every reached solver is well formed *)

Lemma new_well_formed : well_formed Solver.new.
Proof.
  constructor; cbn.
  - lia.
  - constructor.
  - reflexivity.
  - intros key row B. discriminate B.
  - intros k _. reflexivity.
  - discriminate.
  - constructor.
  - intros variable symbol [].
  - intros constraint tag [].
Qed.

Lemma reachable_well_formed this : reachable required clip this -> well_formed this.
Proof.
  induction 1 as [|fuel constraint this r this' _ IH E|fuel constraint this r this' _ IH E
                  |fuel cn_id variable strength this r this' _ IH E
                  |fuel variable this r this' _ IH E|fuel variable value this r this' _ IH E].
  - exact new_well_formed.
  - exact (proj1 (addConstraint_keeps _ _ _ _ _ E IH)).
  - exact (proj1 (removeConstraint_keeps _ _ _ _ _ E IH)).
  - exact (proj1 (addEditVariable_keeps _ _ _ _ _ _ _ E IH)).
  - exact (proj1 (removeEditVariable_keeps _ _ _ _ _ E IH)).
  - exact (proj1 (suggestValue_keeps _ _ _ _ _ _ E IH)).
Qed.

Lemma well_formed_closed this : well_formed this -> basis_closed this.
Proof.
  intros W key row key' B Hk. exact (proj1 (proj2 (proj2 (wf_rows _ W _ _ B))) _ Hk).
Qed.

Lemma well_formed_distinct this : well_formed this -> distinct_cells this.
Proof. intros W key row B. exact (proj1 (proj2 (wf_rows _ W _ _ B))). Qed.

Lemma well_formed_minted this : well_formed this -> minted_below this.
Proof.
  intros W. split.
  - intros key row Hin. pose proof (In_get _ _ _ (wf_keys _ W) Hin) as B.
    destruct (wf_rows _ W _ _ B) as (I & _ & _ & U). split; [exact I|].
    intros symbol c Hc. pose proof (avoids_In _ _ _ _ U Hc) as N.
    unfold unminted in N. lia.
  - intros symbol c Hc. pose proof (avoids_In _ _ _ _ (wf_objective _ W) Hc) as N.
    unfold unminted in N. lia.
Qed.

(** X3. In every solver reached from [new Solver()] by public calls,
    whatever their outcomes: no row of the basis mentions a basic symbol,
    the cells of every row of the basis have distinct keys, every symbol
    of the basis and of the objective has an id below the counter, the
    keys of the variable-to-symbol map are distinct and no row of the
    basis is under the Invalid symbol. *)
Theorem reachable_solver_conditions :
  forall this : Solver.t,
    reachable required clip this ->
    basis_closed this
    /\ distinct_cells this
    /\ minted_below this
    /\ NoDup (map fst (_varMap this))
    /\ JsMap.has (_rowMap this) INVALID_SYMBOL = false.
Proof.
  intros this R. pose proof (reachable_well_formed this R) as W.
  split; [|split; [|split; [|split]]].
  - apply well_formed_closed. exact W.
  - apply well_formed_distinct. exact W.
  - apply well_formed_minted. exact W.
  - exact (wf_vars _ W).
  - exact (wf_invalid _ W).
Qed.

End WellFormed.

(** ** C9, C10: reading the values back *)

Section UpdateVariables.
Import Solver.
Local Open Scope float_scope.
Variable required : float.
Variable clip : float -> float.

Lemma find_over_app {A} (p : A -> bool) (l1 l2 : list A) :
  find p (l1 ++ l2) = match find p l1 with Some x => Some x | None => find p l2 end.
Proof.
  induction l1 as [|a l1 IH]; cbn [app find]; [reflexivity|].
  destruct (p a); [reflexivity | exact IH].
Qed.

(** The heap after the loop: a variable keeps its name; its value is the
    one written for the last entry that names it, if any. *)
Lemma updateVariables_loop this (l : JsMap.t Var.t Symbol.t) (h : Var.heap) (v : Var.t) :
  JsMap.forEach l
    (fun h symbol variable =>
       match JsMap.get (_rowMap this) symbol with
       | Some row => Var.setValue h variable (Row.constant row)
       | None => Var.setValue h variable 0
       end) h v
  = match find (fun e => (v =? fst e)%Z) (rev l) with
    | Some e => {| Var._name := Var._name (h v); Var._value := readback this (snd e) |}
    | None => h v
    end.
Proof.
  unfold JsMap.forEach. revert h.
  induction l as [|[variable symbol] l IH]; intros h; cbn [fold_left rev fst snd].
  - reflexivity.
  - rewrite IH. rewrite find_over_app.
    assert (S : (match JsMap.get (_rowMap this) symbol with
                 | Some row => Var.setValue h variable (Row.constant row)
                 | None => Var.setValue h variable 0
                 end) = Var.setValue h variable (readback this symbol)).
    { unfold readback. destruct (JsMap.get (_rowMap this) symbol); reflexivity. }
    rewrite S. clear S.
    destruct (find (fun e => (v =? fst e)%Z) (rev l)) as [e|].
    + unfold Var.setValue. destruct (v =? variable)%Z; reflexivity.
    + cbn [find fst snd]. unfold Var.setValue. destruct (v =? variable)%Z; reflexivity.
Qed.

Lemma values_of_eq this h v :
  values_of this h v
  = match find (fun e => (v =? fst e)%Z) (rev (_varMap this)) with
    | Some e => {| Var._name := Var._name (h v); Var._value := readback this (snd e) |}
    | None => h v
    end.
Proof. unfold values_of, updateVariables. cbn [snd]. apply updateVariables_loop. Qed.

Lemma NoDup_keys_unique {V} (l : list (Z * V)) k v1 v2 :
  NoDup (map fst l) -> In (k, v1) l -> In (k, v2) l -> v1 = v2.
Proof.
  induction l as [|[k0 v0] l IH]; intros N H1 H2; [contradiction|].
  inversion N as [|? ? Hn N']; subst.
  destruct H1 as [H1|H1], H2 as [H2|H2].
  - congruence.
  - inversion H1; subst. exfalso. apply Hn. apply (in_map fst _ _ H2).
  - inversion H2; subst. exfalso. apply Hn. apply (in_map fst _ _ H1).
  - apply IH; assumption.
Qed.

(** C9. In a solver reached by public calls, [updateVariables] sets the
    value of every variable of the variable-to-symbol map to the constant
    of the basis row of its symbol, or to 0 when the symbol is not basic; a
    second call with no mutation in between leaves every variable as the
    first call left it. *)
Theorem updateVariables_reads_basis :
  forall (this : Solver.t) (h : Var.heap),
    reachable required clip this ->
    (forall variable symbol,
        JsMap.get (_varMap this) variable = Some symbol ->
        Var.value (values_of this h) variable
        = match JsMap.get (_rowMap this) symbol with
          | Some row => Row.constant row
          | None => 0
          end)
    /\ (forall variable,
           values_of this (values_of this h) variable = values_of this h variable).
Proof.
  intros this h R.
  pose proof (wf_vars _ (reachable_well_formed required clip this R)) as N. split.
  - intros variable symbol G. unfold Var.value. rewrite values_of_eq.
    apply get_In in G. destruct G as [k0 [Hin Hk]].
    unfold same, Var_identity in Hk. apply Z.eqb_eq in Hk. subst k0.
    destruct (find (fun e => (variable =? fst e)%Z) (rev (_varMap this))) as [[k s]|] eqn:F.
    + apply find_some in F. destruct F as [Fin Fk]. cbn [fst] in Fk.
      apply Z.eqb_eq in Fk. subst k. apply in_rev in Fin.
      rewrite (NoDup_keys_unique _ _ _ _ N Fin Hin). reflexivity.
    + exfalso. pose proof (find_none _ _ F (variable, symbol)) as C.
      cbn [fst] in C. rewrite Z.eqb_refl in C.
      assert (true = false) by (apply C; apply in_rev; rewrite rev_involutive; exact Hin).
      discriminate.
  - intros variable. rewrite (values_of_eq this (values_of this h)).
    rewrite (values_of_eq this h).
    destruct (find (fun e => (variable =? fst e)%Z) (rev (_varMap this))); reflexivity.
Qed.

(** C10. [updateVariables] returns, and leaves the solver as it was: the
    constraint map, the basis, the variable-to-symbol map, the edit map,
    the worklist, the objective and artificial rows and the id counter are
    those of before. In the heap only value slots are written, and only
    those of the variables of the variable-to-symbol map. *)
Theorem updateVariables_frame :
  forall (this : Solver.t) (h : Var.heap),
    fst (updateVariables this h) = Return tt
    /\ fst (snd (updateVariables this h)) = this
    /\ forall variable,
         Var._name (values_of this h variable) = Var._name (h variable)
         /\ (JsMap.has (_varMap this) variable = false ->
             values_of this h variable = h variable).
Proof.
  intros this h. split; [reflexivity|]. split; [reflexivity|].
  intros variable. rewrite values_of_eq.
  destruct (find (fun e => (variable =? fst e)%Z) (rev (_varMap this))) as [[k s]|] eqn:F.
  - split; [reflexivity|]. intros Hhas. exfalso.
    apply find_some in F. destruct F as [Fin Fk]. cbn [fst] in Fk.
    apply in_rev in Fin.
    pose proof (has_false_all _ _ Hhas _ Fin) as C. cbn [fst] in C.
    unfold same, Var_identity in C. rewrite Z.eqb_sym in C. congruence.
  - split; [reflexivity|]. intros _. reflexivity.
Qed.

End UpdateVariables.

(** ** C4: the worklist *)

Section Worklist.
Import Solver.
Local Open Scope float_scope.
Variable required : float.
Variable clip : float -> float.



(** The infeasible keys of a basis whose rows have been rewritten. *)
Lemma infeasible_keys_map_rows (f : Row.t -> Row.t) rows :
  infeasible_keys (map_rows (fun _ r => f r) rows)
  = map fst
      (filter (fun e => (Row.constant (f (snd e)) <? 0)
                        && negb (is_type SymbolType.External (fst e)))
         rows).
Proof.
  unfold infeasible_keys, map_rows.
  induction rows as [|[k r] rows IH]; cbn [map filter fst snd]; [reflexivity|].
  destruct ((Row.constant (f r) <? 0) && negb (is_type SymbolType.External k));
    cbn [map fst]; rewrite IH; reflexivity.
Qed.



















Lemma pop_None {A} (l : list A) : pop l = None -> l = [].
Proof.
  unfold pop. destruct (rev l) eqn:R; [|discriminate]. intros _.
  rewrite <- (rev_involutive l), R. reflexivity.
Qed.

Lemma pop_Some {A} (l : list A) x rest : pop l = Some (x, rest) -> l = rest ++ [x].
Proof.
  unfold pop. destruct (rev l) as [|y r] eqn:R; [discriminate|]. intros E.
  inversion E; subst. rewrite <- (rev_involutive l), R. reflexivity.
Qed.




End Worklist.

(** ** The leaving row of a marker *)

Section MarkerLeaving.
Import Solver.
Local Open Scope float_scope.

Lemma ltb_irrefl a : (a <? a) = false.
Proof. rewrite ltb_spec. apply SFltb_irrefl. Qed.

Lemma ltb_asym a b : (a <? b) = true -> (b <? a) = false.
Proof.
  intros H. destruct (b <? a) eqn:E; [|reflexivity].
  pose proof (ltb_trans _ _ _ H E) as C. rewrite ltb_irrefl in C. discriminate.
Qed.

(** The cases of the loop body, on the coefficient of a row. *)
Lemma coefficient_cases (c : float) :
  is_nan c = false -> (c =? 0) = false ->
  ((c <? 0) = true /\ (0 <? c) = false) \/ ((c <? 0) = false /\ (0 <? c) = true).
Proof.
  intros N Z. destruct (c <? 0) eqn:L.
  - left. split; [reflexivity | apply ltb_asym; exact L].
  - right. split; [reflexivity | apply pos_trichotomy; assumption].
Qed.

Lemma last_cons {A} (a : A) l d : last (a :: l) d = last l a.
Proof.
  revert a d. induction l as [|b l IH]; intros a d; [reflexivity|].
  change (last (a :: b :: l) d) with (last (b :: l) d).
  rewrite (IH b d), (IH b a). reflexivity.
Qed.

(** The loop of [_getMarkerLeavingSymbol] is three scans run together. *)
Lemma marker_loop marker rows st :
  let st' :=
    JsMap.forEach rows
      (fun st row symbol =>
         let c := Row.coefficientFor row marker in
         if negb (c =? 0) then
           if is_type SymbolType.External symbol then
             {| r1 := r1 st; r2 := r2 st;
                first := first st; second := second st; third := symbol |}
           else if c <? 0 then
             let r := - Row.constant row / c in
             if r <? r1 st then
               {| r1 := r; r2 := r2 st;
                  first := symbol; second := second st; third := third st |}
             else st
           else
             let r := Row.constant row / c in
             if r <? r2 st then
               {| r1 := r1 st; r2 := r;
                  first := first st; second := symbol; third := third st |}
             else st
         else st)
      st in
  (first st', r1 st') = scan (marker_rows pick_first marker rows) (first st, r1 st)
  /\ (second st', r2 st') = scan (marker_rows pick_second marker rows) (second st, r2 st)
  /\ third st' = last (map fst (marker_rows pick_third marker rows)) (third st).
Proof.
  unfold JsMap.forEach, scan, marker_rows. revert st.
  induction rows as [|[symbol row] rows IH]; intros st; cbn [fold_left flat_map fst snd].
  - cbn. repeat split; reflexivity.
  - cbv zeta in *. destruct (negb (Row.coefficientFor row marker =? 0)) eqn:NZ.
    2:{ cbn [app]. apply IH. }
    apply negb_true_iff in NZ.
    unfold pick_first, pick_second, pick_third.
    destruct (is_type SymbolType.External symbol) eqn:X; cbn [negb andb app].
    + specialize (IH {| r1 := r1 st; r2 := r2 st; first := first st;
                        second := second st; third := symbol |}).
      cbn [r1 r2 first second third] in IH. destruct IH as (I1 & I2 & I3).
      repeat split; [exact I1 | exact I2 |].
      rewrite I3. cbn [map fst]. rewrite last_cons. reflexivity.
    + destruct (coefficient_cases _ (or_zero_number _) NZ) as [[L G]|[L G]];
        unfold Row.coefficientFor in *; rewrite L, G; cbn [app fold_left fst snd].
      * destruct (- Row.constant row / Number.or_zero (JsMap.get (Row._cellMap row) marker)
                  <? r1 st) eqn:B.
        -- specialize (IH {| r1 := - Row.constant row
                                   / Number.or_zero (JsMap.get (Row._cellMap row) marker);
                             r2 := r2 st; first := symbol; second := second st;
                             third := third st |}).
           cbn [r1 r2 first second third] in IH. exact IH.
        -- apply IH.
      * destruct (Row.constant row / Number.or_zero (JsMap.get (Row._cellMap row) marker)
                  <? r2 st) eqn:B.
        -- specialize (IH {| r1 := r1 st;
                             r2 := Row.constant row
                                   / Number.or_zero (JsMap.get (Row._cellMap row) marker);
                             first := first st; second := symbol; third := third st |}).
           cbn [r1 r2 first second third] in IH. exact IH.
        -- apply IH.
Qed.

Lemma marker_rows_below bound pick marker rows :
  marker_rows (below bound pick) marker rows
  = filter (fun x => snd x <? bound) (marker_rows pick marker rows).
Proof.
  unfold marker_rows, below.
  induction rows as [|[symbol row] rows IH]; cbn [flat_map fst snd]; [reflexivity|].
  rewrite filter_app, IH. f_equal.
  destruct (negb (Row.coefficientFor row marker =? 0)); [|reflexivity].
  destruct (pick symbol row (Row.coefficientFor row marker)) as [r|]; [|reflexivity].
  cbn [filter snd]. destruct (r <? bound); reflexivity.
Qed.

Lemma marker_rows_keys pick marker rows x :
  In x (marker_rows pick marker rows) -> exists row, In (fst x, row) rows.
Proof.
  unfold marker_rows. intros H. apply in_flat_map in H. destruct H as [[symbol row] [Hin Hx]].
  cbn [fst snd] in Hx. destruct (negb _); [|contradiction].
  destruct (pick symbol row _); [|contradiction].
  destruct Hx as [<-|[]]. exists row. exact Hin.
Qed.

(** A ratio that is not below the bound never becomes the best. *)
Lemma scan_skip bound l best :
  (forall r, (r <? snd best) = true -> (r <? bound) = true) ->
  scan l best = scan (filter (fun x => snd x <? bound) l) best.
Proof.
  unfold scan. revert best.
  induction l as [|x l IH]; intros best Hb; cbn [fold_left filter]; [reflexivity|].
  destruct (snd x <? bound) eqn:B; cbn [fold_left].
  - apply IH. intros r Hr. destruct (snd x <? snd best) eqn:E; [|apply Hb; exact Hr].
    exact (ltb_trans _ _ _ Hr B).
  - destruct (snd x <? snd best) eqn:E; [|apply IH; exact Hb].
    rewrite (Hb _ E) in B. discriminate.
Qed.

Lemma first_min_In l x : first_min l = Some x -> In x l.
Proof.
  revert x. induction l as [|a l IH]; intros x; cbn [first_min]; [discriminate|].
  destruct (first_min l) as [y|].
  - destruct (snd y <? snd a); intros E; inversion E; subst;
      [right; apply IH; reflexivity | left; reflexivity].
  - intros E; inversion E. left. reflexivity.
Qed.

(** Taking the smaller of two candidates, the earlier one on a tie, is
    associative on numbers. *)
Lemma prefer_assoc (a b c : candidate) :
  number (snd a) -> number (snd b) -> number (snd c) ->
  (if snd c <? snd (if snd b <? snd a then b else a)
   then c else (if snd b <? snd a then b else a))
  = (if snd (if snd c <? snd b then c else b) <? snd a
     then (if snd c <? snd b then c else b) else a).
Proof.
  intros Na Nb Nc.
  destruct (snd b <? snd a) eqn:BA, (snd c <? snd b) eqn:CB; try rewrite BA; try rewrite CB;
    try reflexivity.
  - rewrite (ltb_trans _ _ _ CB BA). reflexivity.
  - rewrite (ltb_negtrans _ _ _ Nc Nb Na CB BA). reflexivity.
Qed.

(** A scan ends on the least candidate, the first one among equals, unless
    the initial best is not above it. *)
Lemma scan_first_min l best :
  number (snd best) -> (forall x, In x l -> number (snd x)) ->
  scan l best
  = match first_min l with
    | Some x => if snd x <? snd best then x else best
    | None => best
    end.
Proof.
  unfold scan. revert best.
  induction l as [|x l IH]; intros best Nb Nl; cbn [fold_left first_min]; [reflexivity|].
  assert (Nx : number (snd x)) by (apply Nl; left; reflexivity).
  rewrite IH.
  - destruct (first_min l) as [y|] eqn:F; [|reflexivity].
    assert (Ny : number (snd y)) by (apply Nl; right; apply first_min_In; exact F).
    etransitivity; [exact (prefer_assoc best x y Nb Nx Ny)|].
    destruct (snd y <? snd x); reflexivity.
  - destruct (snd x <? snd best); assumption.
  - intros z Hz. apply Nl. right. exact Hz.
Qed.

(** [first_min] is what its name says: on numbers, no candidate is below
    the one it gives, and that one is below every candidate before it. *)
Lemma first_min_least l m :
  (forall x, In x l -> number (snd x)) ->
  first_min l = Some m ->
  (forall x, In x l -> (snd x <? snd m) = false)
  /\ exists l1 l2, l = l1 ++ m :: l2 /\ forall x, In x l1 -> (snd m <? snd x) = true.
Proof.
  revert m. induction l as [|a l IH]; intros m Nl; cbn [first_min]; [discriminate|].
  assert (Na : number (snd a)) by (apply Nl; left; reflexivity).
  assert (Nl' : forall x, In x l -> number (snd x)) by (intros x Hx; apply Nl; right; exact Hx).
  destruct (first_min l) as [y|] eqn:F.
  - destruct (IH y Nl' eq_refl) as [L (l1 & l2 & E & B)].
    assert (Ny : number (snd y)) by (apply Nl'; apply first_min_In; exact F).
    destruct (snd y <? snd a) eqn:YA; intros M; inversion M; subst m; clear M.
    + split.
      * intros x [<-|Hx]; [apply ltb_asym; exact YA | apply L; exact Hx].
      * exists (a :: l1), l2. split; [rewrite E; reflexivity|].
        intros x [<-|Hx]; [exact YA | apply B; exact Hx].
    + split.
      * intros x [<-|Hx]; [apply ltb_irrefl|].
        exact (ltb_negtrans _ _ _ (Nl' _ Hx) Ny Na (L _ Hx) YA).
      * exists [], l. split; [reflexivity | intros x []].
  - intros M; inversion M; subst m; clear M. destruct l as [|b l].
    + split; [intros x [<-|[]]; apply ltb_irrefl|].
      exists [], []. split; [reflexivity | intros x []].
    + cbn [first_min] in F. destruct (first_min l) as [y|]; [|discriminate].
      destruct (snd y <? snd b); discriminate.
Qed.

Lemma MAX_VALUE_number : number Number.MAX_VALUE.
Proof. unfold number. vm_compute. discriminate. Qed.

(** A scan from the initial best of the solver. *)
Lemma scan_from_MAX l :
  fst (scan l (INVALID_SYMBOL, Number.MAX_VALUE))
  = match first_min (filter (fun x => snd x <? Number.MAX_VALUE) l) with
    | Some x => fst x
    | None => INVALID_SYMBOL
    end.
Proof.
  rewrite (scan_skip Number.MAX_VALUE); [|intros r H; exact H].
  rewrite scan_first_min.
  - destruct (first_min _) as [x|] eqn:F; [|reflexivity].
    apply first_min_In, filter_In in F. destruct F as [_ F]. cbn [snd]. rewrite F.
    reflexivity.
  - exact MAX_VALUE_number.
  - intros x Hx. apply filter_In in Hx. destruct Hx as [_ Hx].
    exact (proj1 (ltb_number _ _ Hx)).
Qed.

(** X27. In a basis without a row under the Invalid symbol,
    [_getMarkerLeavingSymbol] goes over the rows whose coefficient [c] on
    the marker is not zero and returns: the row of least [-constant / c],
    the first encountered among equals, among the rows of a symbol that is
    not External with [c < 0] and a ratio below [Number.MAX_VALUE]; if
    there is none, the row of least [constant / c], the first encountered
    among equals, among the rows of a symbol that is not External with
    [c > 0] and a ratio below [Number.MAX_VALUE]; if there is none, the
    last row of an External symbol; if there is none, the Invalid symbol.
    The bound is the one the scan starts from: a row whose ratio is not
    below it is passed over. *)
Theorem getMarkerLeavingSymbol_refines_spec :
  forall (marker : Symbol.t) (this : Solver.t),
    JsMap.has (_rowMap this) INVALID_SYMBOL = false ->
    _getMarkerLeavingSymbol marker this = getMarkerLeavingSymbol_spec marker this.
Proof.
  intros marker this Hkeys. unfold _getMarkerLeavingSymbol, getMarkerLeavingSymbol_spec, leaving_choice.
  cbv zeta.
  destruct (marker_loop marker (_rowMap this)
              {| r1 := Number.MAX_VALUE; r2 := Number.MAX_VALUE;
                 first := INVALID_SYMBOL; second := INVALID_SYMBOL;
                 third := INVALID_SYMBOL |}) as (S1 & S2 & S3).
  cbv zeta in S1, S2, S3. cbn [r1 r2 first second third] in S1, S2, S3.
  set (st := JsMap.forEach (_rowMap this) _ _) in *.
  apply (f_equal fst) in S1. apply (f_equal fst) in S2. cbn [fst] in S1, S2.
  rewrite scan_from_MAX, <- marker_rows_below in S1, S2.
  assert (K : forall pick x, In x (marker_rows pick marker (_rowMap this)) ->
                             same (fst x) INVALID_SYMBOL = false).
  { intros pick x Hx. apply marker_rows_keys in Hx. destruct Hx as [row Hx].
    exact (has_false_all _ _ Hkeys _ Hx). }
  rewrite S1, S2, S3.
  destruct (first_min (marker_rows (below Number.MAX_VALUE pick_first) marker (_rowMap this)))
    as [x1|] eqn:F1.
  - rewrite (K _ _ (first_min_In _ _ F1)). reflexivity.
  - change (same INVALID_SYMBOL INVALID_SYMBOL) with true. cbn [negb].
    destruct (first_min (marker_rows (below Number.MAX_VALUE pick_second) marker (_rowMap this)))
      as [x2|] eqn:F2.
    + rewrite (K _ _ (first_min_In _ _ F2)). reflexivity.
    + change (same INVALID_SYMBOL INVALID_SYMBOL) with true. reflexivity.
Qed.

End MarkerLeaving.

(** ** Symbols that are new, and the values read back *)

Section AddRemove.
Import Solver.
Local Open Scope float_scope.
Variable required : float.
Variable clip : float -> float.

Lemma get_None_not_In {V} (m : JsMap.t Symbol.t V) k :
  (forall k' v, In (k', v) m -> k' <> k) -> JsMap.get m k = None.
Proof.
  intros H. destruct (JsMap.get m k) as [v|] eqn:G; [|reflexivity].
  apply get_In in G. destruct G as [k0 [Hin Hk]]. apply same_symbol_eq in Hk.
  exfalso. exact (H _ _ Hin Hk).
Qed.

Lemma has_false_not_In {V} (m : JsMap.t Symbol.t V) k :
  (forall k' v, In (k', v) m -> k' <> k) -> JsMap.has m k = false.
Proof. intros H. unfold JsMap.has. rewrite (get_None_not_In _ _ H). reflexivity. Qed.



(** The marker of a constraint is minted by [_createRow]; that of a
    required constraint is not an Error, and its tag has no other symbol. *)
Lemma createRow_tag constraint this :
  exists type n,
    Tag.marker (snd (fst (_createRow required constraint this))) = Symbol.new type n
    /\ (_idTick this <= n)%Z
    /\ type <> SymbolType.Invalid
    /\ ((Constraint.strength constraint <? required) = false ->
        type <> SymbolType.Error
        /\ Tag.other (snd (fst (_createRow required constraint this))) = INVALID_SYMBOL).
Proof.
  unfold _createRow.
  pose proof (createRow_terms_kept
                (Expression.terms (Constraint.expression constraint))
                (Row.new (Expression.constant (Constraint.expression constraint))) this)
    as [(_ & _ & _ & _ & _ & T) _].
  destruct (JsMap.forEach _ _ _) as [row this1]. cbn [snd] in T.
  destruct (Constraint.op constraint);
    destruct (Constraint.strength constraint <? required); cbn;
    eexists; eexists; (split; [reflexivity|]); (split; [exact T|]);
    (split; [discriminate|]); intros E;
    first [discriminate E | (split; [discriminate | reflexivity])].
Qed.

(** [_createRow] registers variables at the end of the variable map. *)
Lemma getVarSymbol_varMap variable this :
  exists extra,
    _varMap (snd (_getVarSymbol variable this)) = _varMap this ++ extra
    /\ forall e, In e extra -> JsMap.has (_varMap this) (fst e) = false.
Proof.
  unfold _getVarSymbol. destruct (JsMap.get (_varMap this) variable) eqn:G.
  - exists []. split; [rewrite app_nil_r; reflexivity | intros e []].
  - cbn. exists [(variable, Symbol.new SymbolType.External (_idTick this))].
    assert (H : JsMap.has (_varMap this) variable = false)
      by (unfold JsMap.has; rewrite G; reflexivity).
    split; [apply set_fresh; exact H|]. intros e [<-|[]]. exact H.
Qed.

Lemma has_app_false {K V} {IK : Identity K} (m1 m2 : JsMap.t K V) k :
  JsMap.has (m1 ++ m2) k = false -> JsMap.has m1 k = false.
Proof.
  unfold JsMap.has, JsMap.get. rewrite find_over_app.
  destruct (find (fun e => same (fst e) k) m1); [discriminate | reflexivity].
Qed.

Lemma createRow_varMap constraint this :
  exists extra,
    _varMap (snd (_createRow required constraint this)) = _varMap this ++ extra
    /\ forall e, In e extra -> JsMap.has (_varMap this) (fst e) = false.
Proof.
  assert (L : forall terms row this,
             exists extra,
               _varMap
                 (snd (JsMap.forEach terms
                         (fun '(row, this) coefficient variable =>
                            if negb (nearZero coefficient) then
                              let '(symbol, this) := _getVarSymbol variable this in
                              match JsMap.get (_rowMap this) symbol with
                              | Some basicRow => (Row.insertRow row basicRow coefficient, this)
                              | None => (Row.insertSymbol row symbol coefficient, this)
                              end
                            else (row, this))
                         (row, this)))
               = _varMap this ++ extra
               /\ forall e, In e extra -> JsMap.has (_varMap this) (fst e) = false).
  { unfold JsMap.forEach. clear this.
    induction terms as [|[variable coefficient] terms IH]; intros row this;
      cbn [fold_left fst snd].
    - exists []. split; [rewrite app_nil_r; reflexivity | intros e []].
    - destruct (negb (nearZero coefficient)); [|apply IH].
      destruct (getVarSymbol_varMap variable this) as [extra1 [E1 F1]].
      destruct (_getVarSymbol variable this) as [symbol this1]. cbn [snd] in E1.
      assert (G : forall row',
                 exists extra,
                   _varMap (snd (fold_left
                                   (fun a e =>
                                      (let '(row, this) := a in
                                       fun coefficient variable =>
                                         if negb (nearZero coefficient) then
                                           let '(symbol, this) := _getVarSymbol variable this in
                                           match JsMap.get (_rowMap this) symbol with
                                           | Some basicRow =>
                                               (Row.insertRow row basicRow coefficient, this)
                                           | None => (Row.insertSymbol row symbol coefficient, this)
                                           end
                                         else (row, this)) (snd e) (fst e))
                                   terms (row', this1)))
                   = _varMap this ++ extra
                   /\ forall e, In e extra -> JsMap.has (_varMap this) (fst e) = false).
      { intros row'. destruct (IH row' this1) as [extra2 [E2 F2]].
        exists (extra1 ++ extra2). split.
        - rewrite E2, E1, app_assoc. reflexivity.
        - intros e He. apply in_app_or in He. destruct He as [He|He]; [exact (F1 _ He)|].
          specialize (F2 _ He). rewrite E1 in F2. exact (has_app_false _ _ _ F2). }
      destruct (JsMap.get (_rowMap this1) symbol); apply G. }
  unfold _createRow.
  destruct (L (Expression.terms (Constraint.expression constraint))
              (Row.new (Expression.constant (Constraint.expression constraint))) this)
    as [extra [E F]].
  destruct (JsMap.forEach _ _ _) as [row this1]. cbn [snd] in E.
  exists extra. split; [|exact F].
  destruct (Constraint.op constraint);
    destruct (Constraint.strength constraint <? required); cbn; exact E.
Qed.



End AddRemove.

(** ** Calls that fail *)

Section Failures.
Import Solver.
Local Open Scope float_scope.
Variable required : float.
Variable clip : float -> float.

(** The messages of the errors the optimisation throws. *)
Lemma pivot_throws leaving entering this message this' :
  pivot leaving entering this = (Throw message, this') -> message = "TypeError"%string.
Proof.
  unfold pivot. destruct (JsMap.get (_rowMap this) leaving); intros E; inversion E.
  reflexivity.
Qed.

Lemma optimize_throws fuel objective this message this' :
  _optimize fuel objective this = (Throw message, this') ->
  message = "the objective is unbounded"%string \/ message = "TypeError"%string.
Proof.
  revert this. induction fuel as [|fuel IH]; intros this E; cbn [_optimize] in E.
  - discriminate E.
  - unfold bind, gets, ret, throw in E.
    destruct (is_type SymbolType.Invalid _); [discriminate E|].
    destruct (is_type SymbolType.Invalid _).
    + inversion E. left. reflexivity.
    + destruct (pivot _ _ this) as [[[]|m|] this1] eqn:P.
      * exact (IH _ E).
      * inversion E; subst. right. exact (pivot_throws _ _ _ _ _ P).
      * discriminate E.
Qed.

Lemma addWithArtificialVariable_throws fuel row this message this' :
  _addWithArtificialVariable fuel row this = (Throw message, this') ->
  message = "the objective is unbounded"%string \/ message = "TypeError"%string.
Proof.
  unfold _addWithArtificialVariable, bind, run, gets, ret. cbn [_makeSymbol].
  match goal with |- context [_optimize fuel TheArtificial ?s] =>
    destruct (_optimize fuel TheArtificial s) as [[[]|m|] this1] eqn:O end.
  - match goal with |- context [JsMap.get ?m ?k] => destruct (JsMap.get m k) end.
    + destruct (Row.isConstant _); [discriminate|].
      destruct (is_type SymbolType.Invalid _); discriminate.
    + discriminate.
  - intros E. inversion E; subst. exact (optimize_throws _ _ _ _ _ O).
  - discriminate.
Qed.

(** X1. The calls that are rejected at once leave the solver as it was:
    adding a constraint that is present, removing one that is not, adding
    an edit variable that is registered or whose clipped strength is the
    required one, removing or suggesting a value for a variable that is
    not registered. *)
Theorem rejected_calls_leave_solver :
  forall this : Solver.t,
    (forall fuel constraint,
        JsMap.has (_cnMap this) constraint = true ->
        addConstraint required fuel constraint this = (Throw "duplicate constraint", this))
    /\ (forall fuel constraint,
           JsMap.has (_cnMap this) constraint = false ->
           removeConstraint fuel constraint this = (Throw "unknown constraint", this))
    /\ (forall fuel cn_id variable strength,
           JsMap.has (_editMap this) variable = true ->
           addEditVariable required clip fuel cn_id variable strength this
           = (Throw "duplicate edit variable", this))
    /\ (forall fuel cn_id variable strength,
           JsMap.has (_editMap this) variable = false ->
           (clip strength =? required) = true ->
           addEditVariable required clip fuel cn_id variable strength this
           = (Throw "bad required strength", this))
    /\ (forall fuel variable,
           JsMap.has (_editMap this) variable = false ->
           removeEditVariable fuel variable this = (Throw "unknown edit variable", this))
    /\ (forall fuel variable value,
           JsMap.has (_editMap this) variable = false ->
           suggestValue fuel variable value this = (Throw "unknown edit variable", this)).
Proof.
  intros this. repeat split.
  - intros fuel constraint H. unfold addConstraint, bind, gets, throw. rewrite H. reflexivity.
  - intros fuel constraint H. unfold removeConstraint, bind, gets, throw.
    unfold JsMap.has in H. destruct (JsMap.get (_cnMap this) constraint); [discriminate|].
    reflexivity.
  - intros fuel cn_id variable strength H. unfold addEditVariable, bind, gets, throw.
    rewrite H. reflexivity.
  - intros fuel cn_id variable strength H R. unfold addEditVariable, bind, gets, throw.
    rewrite H, R. reflexivity.
  - intros fuel variable H. unfold removeEditVariable, bind, gets, throw.
    unfold JsMap.has in H. destruct (JsMap.get (_editMap this) variable); [discriminate|].
    reflexivity.
  - intros fuel variable value H. unfold suggestValue, bind, gets, throw.
    unfold JsMap.has in H. destruct (JsMap.get (_editMap this) variable); [discriminate|].
    reflexivity.
Qed.

(** X2. When [addConstraint] throws "unsatifiable constraint" (so spelt),
    which is the failure on a row of dummies with a constant that is not
    near zero, the constraint map, the basis, the edit map, the worklist
    and the artificial row are those of before the call; the id counter
    has not decreased, the variable-to-symbol map has at most got entries
    for variables it did not have, and for a required constraint the
    objective is that of before. *)
Theorem dummy_row_failure_keeps_tableau :
  forall (fuel : nat) (constraint : Constraint.t) (this this' : Solver.t),
    addConstraint required fuel constraint this = (Throw "unsatifiable constraint", this') ->
    tableau_kept this this'
    /\ (exists extra,
           _varMap this' = _varMap this ++ extra
           /\ forall e, In e extra -> JsMap.has (_varMap this) (fst e) = false)
    /\ ((Constraint.strength constraint <? required) = false ->
        _objective this' = _objective this).
Proof.
  intros fuel constraint this this' E.
  unfold addConstraint, bind, gets, throw, ret, run in E.
  destruct (JsMap.has (_cnMap this) constraint); [discriminate E|].
  pose proof (createRow_kept required constraint this) as K.
  pose proof (createRow_varMap required constraint this) as V.
  pose proof (createRow_objective required constraint this) as O.
  destruct (_createRow required constraint this) as [[row tag] this1].
  cbn [fst snd] in *.
  destruct (is_type SymbolType.Invalid (_chooseSubject row tag) && Row.allDummies row).
  - destruct (negb (nearZero (Row.constant row))).
    + inversion E; subst this'. split; [exact K|]. split; [exact V | exact O].
    + exfalso. destruct (is_type SymbolType.Invalid (Tag.marker tag)).
      * destruct (_addWithArtificialVariable fuel row this1) as [[[]|m|] this2] eqn:A.
        -- match type of E with _optimize ?f ?o ?s = _ =>
             destruct (optimize_throws f o s _ _ E) as [X|X]; discriminate X end.
        -- inversion E.
        -- inversion E; subst.
           destruct (addWithArtificialVariable_throws _ _ _ _ _ A) as [X|X]; discriminate X.
        -- discriminate E.
      * match type of E with _optimize ?f ?o ?s = _ =>
          destruct (optimize_throws f o s _ _ E) as [X|X]; discriminate X end.
  - exfalso. destruct (is_type SymbolType.Invalid (_chooseSubject row tag)).
    + destruct (_addWithArtificialVariable fuel row this1) as [[[]|m|] this2] eqn:A.
      * match type of E with _optimize ?f ?o ?s = _ =>
          destruct (optimize_throws f o s _ _ E) as [X|X]; discriminate X end.
      * inversion E.
      * inversion E; subst.
        destruct (addWithArtificialVariable_throws _ _ _ _ _ A) as [X|X]; discriminate X.
      * discriminate E.
    + match type of E with _optimize ?f ?o ?s = _ =>
        destruct (optimize_throws f o s _ _ E) as [X|X]; discriminate X end.
Qed.
End Failures.

(** ** C1: feasibility after the dual optimisation *)

Section DualFeasibility.
Import Solver.
Local Open Scope float_scope.
Variable required : float.
Variable clip : float -> float.

(** The rows of the basis after a pivot. *)
Lemma pivot_returns leaving entering this row :
  basic this leaving row ->
  let row' := Row.solveForEx row leaving entering in
  exists this',
    pivot leaving entering this = (Return tt, this')
    /\ (forall key,
          JsMap.get (_rowMap this') key
          = if same entering key then Some row'
            else if same leaving key then None
                 else option_map (fun r => Row.substitute r entering row')
                        (JsMap.get (_rowMap this) key))
    /\ (forall key r,
          JsMap.get (_rowMap this) key = Some r ->
          same leaving key = false ->
          (Row.constant (Row.substitute r entering row') <? 0) = true ->
          is_type SymbolType.External key = false ->
          In key (_infeasibleRows this')).
Proof.
  intros B row'. unfold pivot. unfold basic in B. rewrite B. eexists. split; [reflexivity|].
  fold row'. fields. split.
  - intros key. rewrite get_set. destruct (same entering key); [reflexivity|].
    rewrite substitute_rowMap. fields. unfold map_rows.
    rewrite (get_map_values (fun _ r => Row.substitute r entering row')) by reflexivity.
    rewrite get_delete. destruct (same leaving key); reflexivity.
  - intros key r G L N X. rewrite substitute_infeasibleRows. fields.
    apply in_or_app. right. apply in_map_iff. exists (key, r). split; [reflexivity|].
    apply filter_In. split.
    + unfold JsMap.delete. apply filter_In. split.
      * apply get_In in G. destruct G as [k0 [Hin Hk]]. apply same_symbol_eq in Hk.
        subst k0. exact Hin.
      * cbn [fst]. rewrite same_sym, L. reflexivity.
    + cbn [fst snd]. rewrite N, X. reflexivity.
Qed.

(** The row that enters the basis in the dual phase: its constant is not
    negative, and it mentions no symbol of the new basis. *)
Lemma entering_row this leaving entering row c :
  basis_closed this -> distinct_cells this ->
  basic this leaving row ->
  (Row.constant row <? 0) = true ->
  In (entering, c) (Row.cells row) -> (0 <? c) = true ->
  let row' := Row.solveForEx row leaving entering in
  (Row.constant row' <? 0) = false
  /\ NoDup (map fst (Row.cells row'))
  /\ forall k, k = entering
               \/ (k <> leaving /\ JsMap.has (_rowMap this) k = true) ->
               JsMap.get (Row.cells row') k = None.
Proof.
  intros Hclosed Hdistinct B Hneg Hin Hpos row'.
  pose proof (Hdistinct _ _ B) as N.
  assert (Hleaving : JsMap.get (Row.cells row) leaving = None)
    by (apply (Hclosed _ _ _ B); apply (basic_has _ _ _ B)).
  assert (Hne : leaving <> entering).
  { intros ->. rewrite (In_get _ _ _ N Hin) in Hleaving. discriminate. }
  unfold row', Row.solveForEx, Row.cells, Row.constant in *.
  destruct (solveFor_facts (Row.insertSymbol row leaving (-1)) entering) as (C & G & D).
  repeat split.
  - rewrite C, insertSymbol_constant, (insertSymbol_get_other _ _ _ _ Hne),
      (In_get _ _ _ N Hin). cbn [Number.of_undefined]. apply neg_times_neg; assumption.
  - apply D. apply insertSymbol_distinct. exact N.
  - intros k [->|[Hk Hhas]]; apply G; [right; reflexivity|]. left.
    rewrite insertSymbol_get_other by (intros E; apply Hk; symmetry; exact E).
    apply (Hclosed _ _ _ B). exact Hhas.
Qed.

(** A pivot of the dual phase keeps the conditions on the basis and leaves
    every infeasible row on the worklist. *)
Lemma dual_pivot this leaving entering row c :
  basis_closed this -> distinct_cells this ->
  basic this leaving row ->
  (Row.constant row <? 0) = true ->
  In (entering, c) (Row.cells row) -> (0 <? c) = true ->
  exists this',
    pivot leaving entering this = (Return tt, this')
    /\ basis_closed this' /\ distinct_cells this' /\ infeasible_tracked this'.
Proof.
  intros Hclosed Hdistinct B Hneg Hin Hpos.
  destruct (entering_row this leaving entering row c Hclosed Hdistinct B Hneg Hin Hpos)
    as (Rc & Rn & Rg).
  destruct (pivot_returns leaving entering this row B) as (this' & P & G & T).
  cbv zeta in *. set (row' := Row.solveForEx row leaving entering) in *.
  exists this'. split; [exact P|].
  assert (Keys : forall k, JsMap.has (_rowMap this') k = true ->
                           k = entering \/ (k <> leaving /\ JsMap.has (_rowMap this) k = true)).
  { intros k. unfold JsMap.has. rewrite G. destruct (same entering k) eqn:E.
    - intros _. left. symmetry. apply same_symbol_eq. exact E.
    - destruct (same leaving k) eqn:L; [discriminate|].
      destruct (JsMap.get (_rowMap this) k); [|discriminate].
      intros _. right. split; [|reflexivity]. intros ->. rewrite same_refl in L. discriminate. }
  assert (Rows : forall key r, basic this' key r ->
                   (key = entering /\ r = row')
                   \/ exists r0, basic this key r0 /\ same leaving key = false
                                 /\ r = Row.substitute r0 entering row').
  { intros key r. unfold basic. rewrite G. destruct (same entering key) eqn:E.
    - intros H. inversion H. left. split; [|reflexivity]. symmetry.
      apply same_symbol_eq. exact E.
    - destruct (same leaving key) eqn:L; [discriminate|].
      destruct (JsMap.get (_rowMap this) key) as [r0|] eqn:G0; [|discriminate].
      intros H. inversion H. right. exists r0. repeat split; assumption. }
  split; [|split].
  - intros key r key' Br Hk'. apply Keys in Hk'.
    destruct (Rows _ _ Br) as [[-> ->]|(r0 & B0 & L & ->)].
    + apply Rg. exact Hk'.
    + apply substitute_get_None; [apply Rg; exact Hk'|].
      destruct Hk' as [->|[_ Hk']]; [right; reflexivity|].
      left. apply (Hclosed _ _ _ B0 Hk').
  - intros key r Br. destruct (Rows _ _ Br) as [[-> ->]|(r0 & B0 & L & ->)].
    + exact Rn.
    + apply substitute_distinct. apply (Hdistinct _ _ B0).
  - intros key r Br X Hr. destruct (Rows _ _ Br) as [[-> ->]|(r0 & B0 & L & ->)].
    + rewrite Rc in Hr. discriminate.
    + apply (T key r0 B0 L Hr X).
Qed.

(** When the dual optimisation returns, the basis is feasible. *)
Lemma dualOptimize_feasible fuel this this' :
  basis_closed this -> distinct_cells this -> infeasible_tracked this ->
  _dualOptimize fuel this = (Return tt, this') ->
  feasible this'.
Proof.
  revert this. induction fuel as [|fuel IH]; intros this Hclosed Hdistinct Htracked E;
    cbn [_dualOptimize] in E; [discriminate|].
  destruct (pop (_infeasibleRows this)) as [[leaving rest]|] eqn:P.
  - apply pop_Some in P.
    assert (Skip : (forall row, basic this leaving row -> (Row.constant row <? 0) = false) ->
                   infeasible_tracked (with_infeasibleRows this rest)).
    { intros Hl key row B X N. fields. specialize (Htracked key row B X N).
      rewrite P in Htracked. apply in_app_or in Htracked.
      destruct Htracked as [H|[<-|[]]]; [exact H|].
      rewrite (Hl _ B) in N. discriminate. }
    fields. destruct (JsMap.get (_rowMap this) leaving) as [row|] eqn:G.
    + destruct (Row.constant row <? 0) eqn:N.
      * destruct (is_type SymbolType.Invalid
                    (_getDualEnteringSymbol row (with_infeasibleRows this rest))) eqn:I;
          [discriminate|].
        apply dualEntering_positive in I. destruct I as [c [Hin Hpos]].
        destruct (dual_pivot (with_infeasibleRows this rest) leaving _ row c
                    Hclosed Hdistinct G N Hin Hpos) as (this1 & Pv & C1 & D1 & T1).
        unfold bind in E. rewrite Pv in E. exact (IH this1 C1 D1 T1 E).
      * apply (IH (with_infeasibleRows this rest)); [exact Hclosed | exact Hdistinct | | exact E].
        apply Skip. intros row0 B. unfold basic in B. rewrite G in B. inversion B; subst.
        exact N.
    + apply (IH (with_infeasibleRows this rest)); [exact Hclosed | exact Hdistinct | | exact E].
      apply Skip. intros row0 B. unfold basic in B. rewrite G in B. discriminate.
  - inversion E; subst. apply pop_None in P. intros key row B X.
    destruct (Row.constant row <? 0) eqn:N; [|reflexivity].
    specialize (Htracked key row B X N). rewrite P in Htracked. contradiction.
Qed.

(** Adding to the constant of one basic row and enqueuing its key when
    the new constant is negative keeps the three conditions. *)
Lemma bump_keeps this key0 row0 d :
  basis_closed this -> distinct_cells this -> infeasible_tracked this ->
  basic this key0 row0 ->
  let this' :=
    with_infeasibleRows
      (with_rowMap this (JsMap.set (_rowMap this) key0 (Row.add row0 d)))
      (if Row.constant (Row.add row0 d) <? 0
       then push (_infeasibleRows this) key0 else _infeasibleRows this) in
  basis_closed this' /\ distinct_cells this' /\ infeasible_tracked this'.
Proof.
  intros Hclosed Hdistinct Htracked B0 this'.
  assert (Keys : forall k, JsMap.has (_rowMap this') k = true ->
                           JsMap.has (_rowMap this) k = true).
  { intros k. unfold this'. fields. rewrite has_set. destruct (same key0 k) eqn:E; [|tauto].
    intros _. apply same_symbol_eq in E. subst k. apply (basic_has _ _ _ B0). }
  assert (Rows : forall key r, basic this' key r ->
                   (key = key0 /\ r = Row.add row0 d) \/ (key <> key0 /\ basic this key r)).
  { intros key r. unfold basic, this'. fields. rewrite get_set.
    destruct (same key0 key) eqn:E.
    - intros H. inversion H. left. split; [|reflexivity]. symmetry.
      apply same_symbol_eq. exact E.
    - intros H. right. split; [|exact H]. intros ->. rewrite same_refl in E. discriminate. }
  split; [|split].
  - intros key r key' Br Hk'. apply Keys in Hk'.
    destruct (Rows _ _ Br) as [[-> ->]|[_ B]];
      [exact (Hclosed _ _ _ B0 Hk') | exact (Hclosed _ _ _ B Hk')].
  - intros key r Br. destruct (Rows _ _ Br) as [[-> ->]|[_ B]];
      [exact (Hdistinct _ _ B0) | exact (Hdistinct _ _ B)].
  - intros key r Br X N. unfold this'. fields.
    destruct (Rows _ _ Br) as [[-> ->]|[_ B]].
    + rewrite N. unfold push. apply in_or_app. right. left. reflexivity.
    + specialize (Htracked _ _ B X N).
      destruct (Row.constant (Row.add row0 d) <? 0); [|exact Htracked].
      unfold push. apply in_or_app. left. exact Htracked.
Qed.

(** So does the update of every row that mentions the marker. *)
Lemma sweep_keeps this marker delta :
  basis_closed this -> distinct_cells this -> infeasible_tracked this ->
  let touched row := negb (Row.coefficientFor row marker =? 0) in
  let updated row := Row.add row (delta * Row.coefficientFor row marker) in
  let this' :=
    with_infeasibleRows
      (with_rowMap this
         (map_rows (fun _ row => if touched row then updated row else row) (_rowMap this)))
      (_infeasibleRows this
       ++ map fst
            (filter (fun e => touched (snd e)
                              && (Row.constant (updated (snd e)) <? 0)
                              && negb (is_type SymbolType.External (fst e)))
               (_rowMap this))) in
  basis_closed this' /\ distinct_cells this' /\ infeasible_tracked this'.
Proof.
  intros Hclosed Hdistinct Htracked touched updated this'.
  assert (G : forall key,
             JsMap.get (_rowMap this') key
             = option_map (fun row => if touched row then updated row else row)
                 (JsMap.get (_rowMap this) key)).
  { intros key. unfold this'. fields. unfold map_rows.
    apply (get_map_values (fun _ row => if touched row then updated row else row)).
    reflexivity. }
  assert (Cells : forall row, Row.cells (if touched row then updated row else row)
                              = Row.cells row).
  { intros row. destruct (touched row); reflexivity. }
  assert (Rows : forall key r, basic this' key r ->
                   exists r0, basic this key r0
                              /\ r = if touched r0 then updated r0 else r0).
  { intros key r. unfold basic. rewrite G.
    destruct (JsMap.get (_rowMap this) key) as [r0|]; [|discriminate].
    intros H. inversion H. exists r0. split; reflexivity. }
  assert (Keys : forall k, JsMap.has (_rowMap this') k = true ->
                           JsMap.has (_rowMap this) k = true).
  { intros k. unfold JsMap.has. rewrite G. destruct (JsMap.get (_rowMap this) k); auto. }
  split; [|split].
  - intros key r key' Br Hk'. destruct (Rows _ _ Br) as (r0 & B0 & ->).
    rewrite Cells. exact (Hclosed _ _ _ B0 (Keys _ Hk')).
  - intros key r Br. destruct (Rows _ _ Br) as (r0 & B0 & ->).
    rewrite Cells. exact (Hdistinct _ _ B0).
  - intros key r Br X N. destruct (Rows _ _ Br) as (r0 & B0 & ->).
    unfold this'. fields. apply in_or_app. destruct (touched r0) eqn:T.
    + right. apply in_map_iff. exists (key, r0). split; [reflexivity|].
      apply filter_In. split; [exact (basic_In _ _ _ B0)|].
      cbn [fst snd]. rewrite T, N, X. reflexivity.
    + left. exact (Htracked _ _ B0 X N).
Qed.

(** [suggestValue] reaches the dual optimisation with the three conditions. *)
Lemma suggestValue_before_dual fuel variable value this this' :
  basis_closed this -> distinct_cells this -> infeasible_tracked this ->
  suggestValue fuel variable value this = (Return tt, this') ->
  exists this1,
    basis_closed this1 /\ distinct_cells this1 /\ infeasible_tracked this1
    /\ _dualOptimize fuel this1 = (Return tt, this').
Proof.
  intros Hclosed Hdistinct Htracked.
  unfold suggestValue, bind, gets, run, ret, throw.
  destruct (JsMap.get (_editMap this) variable) as [info|]; [|discriminate].
  set (this0 := with_editMap this _).
  assert (C0 : basis_closed this0) by exact Hclosed.
  assert (D0 : distinct_cells this0) by exact Hdistinct.
  assert (T0 : infeasible_tracked this0) by exact Htracked.
  destruct (JsMap.get (_rowMap this0) (Tag.marker (EditInfo.tag info))) as [row|] eqn:G1.
  - pose proof (bump_keeps this0 _ row (- (value - EditInfo.constant info)) C0 D0 T0 G1)
      as K. cbv zeta in K.
    destruct (Row.constant (Row.add row (- (value - EditInfo.constant info))) <? 0);
      intros E; eexists; (split; [|split; [|split; [|exact E]]]); apply K.
  - destruct (JsMap.get (_rowMap this0) (Tag.other (EditInfo.tag info))) as [row|] eqn:G2.
    + pose proof (bump_keeps this0 _ row (value - EditInfo.constant info) C0 D0 T0 G2)
        as K. cbv zeta in K.
      destruct (Row.constant (Row.add row (value - EditInfo.constant info)) <? 0);
        intros E; eexists; (split; [|split; [|split; [|exact E]]]); apply K.
    + rewrite suggest_loop. intros E. eexists.
      pose proof (sweep_keeps this0 (Tag.marker (EditInfo.tag info))
                    (value - EditInfo.constant info) C0 D0 T0) as K.
      cbv zeta in K. (split; [|split; [|split; [|exact E]]]); apply K.
Qed.

(** C1, as amended. In a solver reached by public calls, let every row of
    the basis that has a negative constant and is not the row of an
    External symbol be on the worklist. Then after a [suggestValue] that
    returns, no row of the basis has a negative constant, except for the
    rows of External symbols, whose constants are the values of the
    variables and may be negative. *)
Theorem suggestValue_restores_feasibility :
  forall (fuel : nat) (variable : Var.t) (value : float) (this this' : Solver.t),
    reachable required clip this -> infeasible_tracked this ->
    suggestValue fuel variable value this = (Return tt, this') ->
    forall key row,
      JsMap.get (_rowMap this') key = Some row ->
      is_type SymbolType.External key = false ->
      (Row.constant row <? 0) = false.
Proof.
  intros fuel variable value this this' Hreach Htracked E.
  pose proof (reachable_well_formed required clip this Hreach) as W.
  pose proof (well_formed_closed this W) as Hclosed.
  pose proof (well_formed_distinct this W) as Hdistinct.
  destruct (suggestValue_before_dual _ _ _ _ _ Hclosed Hdistinct Htracked E)
    as (this1 & C1 & D1 & T1 & Dual).
  exact (dualOptimize_feasible fuel this1 this' C1 D1 T1 Dual).
Qed.

(** The check establishes the condition. *)
Lemma infeasible_tracked_checked this :
  infeasible_tracked_check this = true -> infeasible_tracked this.
Proof.
  unfold infeasible_tracked_check. rewrite forallb_forall. intros H key row B X N.
  specialize (H _ (basic_In _ _ _ B)). cbn [fst snd] in H. rewrite X, N in H.
  cbn [orb negb] in H. apply existsb_exists in H. destruct H as [k [Hin Hk]].
  apply same_symbol_eq in Hk. subst k. exact Hin.
Qed.

End DualFeasibility.

(** ** The registers of the solver *)

Section Registers.
Import Solver.
Local Open Scope float_scope.
Variable required : float.
Variable clip : float -> float.

Lemma maps_kept_refl this : maps_kept this this.
Proof. repeat split. Qed.

Lemma maps_kept_trans a b c : maps_kept a b -> maps_kept b c -> maps_kept a c.
Proof.
  unfold maps_kept. intros (A1 & A2 & A3 & A4) (B1 & B2 & B3 & B4).
  repeat split; congruence.
Qed.

Lemma pivot_maps_kept leaving entering this r this' :
  pivot leaving entering this = (r, this') -> maps_kept this this'.
Proof.
  unfold pivot. destruct (JsMap.get (_rowMap this) leaving) as [row|];
    intros E; inversion E; subst; clear E.
  - unfold maps_kept. fields.
    destruct (substitute_kept entering (Row.solveForEx row leaving entering)
                (with_rowMap this (JsMap.delete (_rowMap this) leaving)))
      as (K1 & K2 & K3 & K4).
    repeat split; assumption.
  - repeat split.
Qed.

Lemma optimize_maps_kept fuel which this r this' :
  _optimize fuel which this = (r, this') -> maps_kept this this'.
Proof.
  revert this. induction fuel as [|fuel IH]; intros this E; cbn [_optimize] in E.
  - inversion E. apply maps_kept_refl.
  - unfold bind, gets, ret, throw in E.
    destruct (is_type SymbolType.Invalid _); [inversion E; apply maps_kept_refl|].
    destruct (is_type SymbolType.Invalid _); [inversion E; apply maps_kept_refl|].
    destruct (pivot _ _ this) as [[[]|m|] this1] eqn:P;
      pose proof (pivot_maps_kept _ _ _ _ _ P) as K.
    + exact (maps_kept_trans _ _ _ K (IH _ E)).
    + inversion E; subst. exact K.
    + inversion E; subst. exact K.
Qed.

Lemma dualOptimize_maps_kept fuel this r this' :
  _dualOptimize fuel this = (r, this') -> maps_kept this this'.
Proof.
  revert this. induction fuel as [|fuel IH]; intros this E; cbn [_dualOptimize] in E.
  - inversion E. apply maps_kept_refl.
  - destruct (pop (_infeasibleRows this)) as [[leaving rest]|];
      [|inversion E; apply maps_kept_refl].
    assert (K0 : maps_kept this (with_infeasibleRows this rest)) by (repeat split).
    fields. destruct (JsMap.get (_rowMap this) leaving) as [row|].
    + destruct (Row.constant row <? 0).
      * destruct (is_type SymbolType.Invalid _).
        -- inversion E; subst. exact K0.
        -- unfold bind in E.
           destruct (pivot _ _ (with_infeasibleRows this rest)) as [[[]|m|] this1] eqn:P;
             pose proof (maps_kept_trans _ _ _ K0 (pivot_maps_kept _ _ _ _ _ P)) as K.
           ++ exact (maps_kept_trans _ _ _ K (IH _ E)).
           ++ inversion E; subst. exact K.
           ++ inversion E; subst. exact K.
      * exact (maps_kept_trans _ _ _ K0 (IH _ E)).
    + exact (maps_kept_trans _ _ _ K0 (IH _ E)).
Qed.

(** The artificial phase mints one symbol and touches no map but the
    basis. *)
Lemma addWithArtificialVariable_maps fuel row this r this' :
  _addWithArtificialVariable fuel row this = (r, this') ->
  _cnMap this' = _cnMap this /\ _varMap this' = _varMap this
  /\ _editMap this' = _editMap this /\ _idTick this' = (_idTick this + 1)%Z.
Proof.
  intros E. unfold _addWithArtificialVariable, bind, run, gets, ret in E.
  cbn [_makeSymbol] in E.
  match type of E with context [_optimize fuel TheArtificial ?s] =>
    destruct (_optimize fuel TheArtificial s) as [[[]|m|] s4] eqn:O;
    destruct (optimize_maps_kept _ _ _ _ _ O) as (K1 & K2 & K3 & K4)
  end; fields; [|inversion E; subst; repeat split; assumption..].
  destruct (JsMap.get (_rowMap s4) _) as [basicRow|].
  - destruct (Row.isConstant basicRow); [inversion E; subst; repeat split; assumption|].
    destruct (is_type SymbolType.Invalid _); [inversion E; subst; repeat split; assumption|].
    inversion E; subst; clear E. fields.
    match goal with |- context [_substitute ?e ?r ?s] =>
      destruct (substitute_kept e r s) as (S1 & S2 & S3 & S4) end.
    fields. repeat split; congruence.
  - inversion E; subst. fields. repeat split; assumption.
Qed.
End Registers.

(** ** What adding a constraint does to the registers *)

Section Effects.
Import Solver.
Local Open Scope float_scope.
Variable required : float.
Variable clip : float -> float.

(** What [addConstraint] does to the maps, whatever its outcome. *)
Lemma addConstraint_effect fuel constraint this r this' :
  addConstraint required fuel constraint this = (r, this') -> added constraint this r this'.
Proof.
  intros E. unfold addConstraint, bind, gets, throw, ret, run in E.
  destruct (JsMap.has (_cnMap this) constraint).
  { inversion E; subst. split; [exists []; rewrite app_nil_r; split; [reflexivity | intros e []]|].
    split; [reflexivity|]. split; [lia|]. split; [left; reflexivity|].
    split; [discriminate | reflexivity]. }
  pose proof (createRow_kept required constraint this) as (K1 & K2 & K3 & K4 & K5 & K6).
  pose proof (createRow_varMap required constraint this) as V.
  destruct (_createRow required constraint this) as [[row tag] this1].
  cbn [fst snd] in *.
  assert (Done : forall this2 r0 this0,
             _cnMap this2 = _cnMap this -> _varMap this2 = _varMap this1 ->
             _editMap this2 = _editMap this -> (_idTick this <= _idTick this2)%Z ->
             _optimize fuel TheObjective
               (with_cnMap this2 (JsMap.set (_cnMap this2) constraint tag)) = (r0, this0) ->
             added constraint this r0 this0).
  { intros this2 r0 this0 C2 V2 E2 I2 O.
    destruct (optimize_maps_kept _ _ _ _ _ O) as (M1 & M2 & M3 & M4). fields.
    assert (Cn : _cnMap this0 = JsMap.set (_cnMap this) constraint tag)
      by (rewrite M1, C2; reflexivity).
    split; [unfold variables_added; rewrite M2, V2; exact V|].
    split; [congruence|]. split; [lia|].
    split; [right; exists tag; exact Cn|]. split; [intros _; exists tag; exact Cn|].
    intros [ -> | [ -> | -> ] ];
      destruct (optimize_throws _ _ _ _ _ O) as [X|X]; discriminate X. }
  assert (Stop : forall this2 r0,
             _cnMap this2 = _cnMap this -> _varMap this2 = _varMap this1 ->
             _editMap this2 = _editMap this -> (_idTick this <= _idTick this2)%Z ->
             r0 <> Return tt -> added constraint this r0 this2).
  { intros this2 r0 C2 V2 E2 I2 N. split; [unfold variables_added; rewrite V2; exact V|].
    split; [exact E2|]. split; [exact I2|]. split; [left; exact C2|].
    split; [intros R; contradiction | intros _; exact C2]. }
  assert (Direct : forall subject r0 this0,
             (let this2 := _substitute subject (Row.solveFor row subject) this1 in
              let this3 :=
                with_rowMap this2
                  (JsMap.set (_rowMap this2) subject (Row.solveFor row subject)) in
              _optimize fuel TheObjective
                (with_cnMap this3 (JsMap.set (_cnMap this3) constraint tag)))
             = (r0, this0) -> added constraint this r0 this0).
  { intros subject r0 this0 O. cbv zeta in O.
    destruct (substitute_kept subject (Row.solveFor row subject) this1)
      as (S1 & S2 & S3 & S4).
    refine (Done _ _ _ _ _ _ _ O); fields; try congruence; try lia. }
  destruct (is_type SymbolType.Invalid (_chooseSubject row tag) && Row.allDummies row).
  - destruct (negb (nearZero (Row.constant row))).
    + inversion E; subst. apply Stop; try congruence; try lia.
    + destruct (is_type SymbolType.Invalid (Tag.marker tag)).
      * destruct (_addWithArtificialVariable fuel row this1) as [[[]|m|] this2] eqn:A;
          destruct (addWithArtificialVariable_maps _ _ _ _ _ A) as (A1 & A2 & A3 & A4).
        -- refine (Done _ _ _ _ _ _ _ E); try congruence; try lia.
        -- inversion E; subst. apply Stop; try congruence; try lia.
        -- inversion E; subst. apply Stop; try congruence; try lia.
        -- inversion E; subst. apply Stop; try congruence; try lia.
      * exact (Direct _ _ _ E).
  - destruct (is_type SymbolType.Invalid (_chooseSubject row tag)).
    + destruct (_addWithArtificialVariable fuel row this1) as [[[]|m|] this2] eqn:A;
        destruct (addWithArtificialVariable_maps _ _ _ _ _ A) as (A1 & A2 & A3 & A4).
      * refine (Done _ _ _ _ _ _ _ E); try congruence; try lia.
      * inversion E; subst. apply Stop; try congruence; try lia.
      * inversion E; subst. apply Stop; try congruence; try lia.
      * inversion E; subst. apply Stop; try congruence; try lia.
    + exact (Direct _ _ _ E).
Qed.
End Effects.

(** ** What the other calls do to the registers *)

Section OtherEffects.
Import Solver.
Local Open Scope float_scope.
Variable required : float.
Variable clip : float -> float.

Lemma removeConstraintEffects_maps cn tag this :
  maps_kept this (_removeConstraintEffects cn tag this).
Proof.
  unfold _removeConstraintEffects, _removeMarkerEffects.
  destruct (is_type SymbolType.Error (Tag.marker tag));
    destruct (is_type SymbolType.Error (Tag.other tag));
    repeat match goal with |- context [JsMap.get ?m ?k] => destruct (JsMap.get m k) end;
    repeat split.
Qed.

(** What [removeConstraint] does to the maps, whatever its outcome. *)
Lemma removeConstraint_effect fuel constraint this r this' :
  removeConstraint fuel constraint this = (r, this') ->
  _cnMap this' = JsMap.delete (_cnMap this) constraint
  /\ _varMap this' = _varMap this
  /\ _editMap this' = _editMap this
  /\ _idTick this' = _idTick this.
Proof.
  intros E. unfold removeConstraint, bind, gets, throw, ret, run in E.
  destruct (JsMap.get (_cnMap this) constraint) as [tag|] eqn:G.
  2:{ inversion E; subst. split; [|repeat split].
      symmetry. apply delete_absent. unfold JsMap.has. rewrite G. reflexivity. }
  destruct (removeConstraintEffects_maps constraint tag
              (with_cnMap this (JsMap.delete (_cnMap this) constraint)))
    as (K1 & K2 & K3 & K4).
  match type of K1 with _cnMap ?s = _ => set (s2 := s) in * end. fields. clear G.
  assert (Fin : forall s r0 this0,
             maps_kept s2 s -> _optimize fuel TheObjective s = (r0, this0) ->
             _cnMap this0 = JsMap.delete (_cnMap this) constraint
             /\ _varMap this0 = _varMap this /\ _editMap this0 = _editMap this
             /\ _idTick this0 = _idTick this).
  { intros s r0 this0 (S1 & S2 & S3 & S4) O.
    destruct (optimize_maps_kept _ _ _ _ _ O) as (M1 & M2 & M3 & M4).
    repeat split; congruence. }
  destruct (negb (JsMap.has (_rowMap s2) (Tag.marker tag))).
  - destruct (is_type SymbolType.Invalid _).
    + inversion E; subst. fields. repeat split; assumption.
    + destruct (JsMap.get _ _) as [row|].
      * refine (Fin _ _ _ _ E).
        match goal with |- maps_kept _ (_substitute ?e ?r ?s) =>
          destruct (substitute_kept e r s) as (S1 & S2 & S3 & S4) end.
        fields. repeat split; assumption.
      * inversion E; subst. fields. repeat split; assumption.
  - refine (Fin _ _ _ _ E). repeat split.
Qed.

(** What [suggestValue] does to the maps, whatever its outcome. *)
Lemma suggestValue_effect fuel variable value this r this' :
  suggestValue fuel variable value this = (r, this') ->
  _cnMap this' = _cnMap this /\ _varMap this' = _varMap this
  /\ _idTick this' = _idTick this
  /\ match JsMap.get (_editMap this) variable with
     | Some info =>
         _editMap this'
         = JsMap.set (_editMap this) variable
             {| EditInfo.tag := EditInfo.tag info;
                EditInfo.constraint := EditInfo.constraint info;
                EditInfo.constant := value |}
     | None => this' = this /\ r = Throw "unknown edit variable"%string
     end.
Proof.
  intros E. unfold suggestValue, bind, gets, throw, ret, run in E.
  destruct (JsMap.get (_editMap this) variable) as [info|];
    [|inversion E; subst; repeat split].
  assert (Fin : forall s r0 this0,
             _cnMap s = _cnMap this -> _varMap s = _varMap this -> _idTick s = _idTick this ->
             _editMap s
             = JsMap.set (_editMap this) variable
                 {| EditInfo.tag := EditInfo.tag info;
                    EditInfo.constraint := EditInfo.constraint info;
                    EditInfo.constant := value |} ->
             _dualOptimize fuel s = (r0, this0) ->
             _cnMap this0 = _cnMap this /\ _varMap this0 = _varMap this
             /\ _idTick this0 = _idTick this
             /\ _editMap this0
                = JsMap.set (_editMap this) variable
                    {| EditInfo.tag := EditInfo.tag info;
                       EditInfo.constraint := EditInfo.constraint info;
                       EditInfo.constant := value |}).
  { intros s r0 this0 S1 S2 S3 S4 D.
    destruct (dualOptimize_maps_kept _ _ _ _ D) as (M1 & M2 & M3 & M4).
    repeat split; congruence. }
  fields. destruct (JsMap.get (_rowMap this) (Tag.marker (EditInfo.tag info))) as [row|].
  - destruct (Row.constant (Row.add row _) <? 0); refine (Fin _ _ _ _ _ _ _ E); reflexivity.
  - fields. destruct (JsMap.get (_rowMap this) (Tag.other (EditInfo.tag info))) as [row|].
    + destruct (Row.constant (Row.add row _) <? 0); refine (Fin _ _ _ _ _ _ _ E); reflexivity.
    + rewrite suggest_loop in E. refine (Fin _ _ _ _ _ _ _ E); reflexivity.
Qed.

(** What [addEditVariable] does to the maps, whatever its outcome. *)
Lemma addEditVariable_effect fuel cn_id variable strength this r this' :
  addEditVariable required clip fuel cn_id variable strength this = (r, this') ->
  variables_added this this'
  /\ (_idTick this <= _idTick this')%Z
  /\ (r <> Return tt -> _editMap this' = _editMap this)
  /\ (r = Return tt ->
      exists tag,
        _cnMap this' = JsMap.set (_cnMap this) (edit_constraint clip cn_id variable strength) tag
        /\ _editMap this'
           = JsMap.set (_editMap this) variable
               {| EditInfo.tag := tag;
                  EditInfo.constraint := edit_constraint clip cn_id variable strength;
                  EditInfo.constant := 0 |}).
Proof.
  intros E. unfold addEditVariable, bind, gets, throw, ret, run in E.
  assert (Same : variables_added this this)
    by (exists []; rewrite app_nil_r; split; [reflexivity | intros e []]).
  destruct (JsMap.has (_editMap this) variable).
  { inversion E; subst. split; [exact Same|]. split; [lia|]. split; [reflexivity | discriminate]. }
  destruct (clip strength =? required).
  { inversion E; subst. split; [exact Same|]. split; [lia|]. split; [reflexivity | discriminate]. }
  fold (edit_constraint clip cn_id variable strength) in E.
  destruct (addConstraint required fuel (edit_constraint clip cn_id variable strength) this)
    as [[[]|m|] this1] eqn:A;
    destruct (addConstraint_effect _ _ _ _ _ _ A) as (V & Ed & I & _ & Cn & _).
  - destruct (Cn eq_refl) as [tag Ct].
    rewrite Ct, get_set in E. cbn [same Constraint_identity edit_constraint Constraint.id] in E.
    rewrite Z.eqb_refl in E. inversion E; subst; clear E. fields.
    split; [exact V|]. split; [exact I|]. split; [intros N; contradiction|].
    intros _. exists tag. split; [exact Ct | rewrite Ed; reflexivity].
  - inversion E; subst. split; [exact V|]. split; [exact I|]. split; [intros _; exact Ed | discriminate].
  - inversion E; subst. split; [exact V|]. split; [exact I|]. split; [intros _; exact Ed | discriminate].
Qed.

(** What [removeEditVariable] does to the maps, whatever its outcome. *)
Lemma removeEditVariable_effect fuel variable this r this' :
  removeEditVariable fuel variable this = (r, this') ->
  _editMap this' = JsMap.delete (_editMap this) variable
  /\ _varMap this' = _varMap this
  /\ _idTick this' = _idTick this
  /\ match JsMap.get (_editMap this) variable with
     | Some info => _cnMap this' = JsMap.delete (_cnMap this) (EditInfo.constraint info)
     | None => this' = this /\ r = Throw "unknown edit variable"%string
     end.
Proof.
  intros E. unfold removeEditVariable, bind, gets, throw, ret, run in E.
  destruct (JsMap.get (_editMap this) variable) as [info|] eqn:G.
  - destruct (removeConstraint_effect _ _ _ _ _ E) as (K1 & K2 & K3 & K4). fields.
    repeat split; assumption.
  - inversion E; subst. split; [|repeat split].
    symmetry. apply delete_absent. unfold JsMap.has. rewrite G. reflexivity.
Qed.

End OtherEffects.

(** ** Registration of constraints, edit variables and variables *)

Section Registration.
Import Solver.
Local Open Scope float_scope.
Variable required : float.
Variable clip : float -> float.

Lemma get_app_Some {K V} {IK : Identity K} (m extra : JsMap.t K V) k v :
  JsMap.get m k = Some v -> JsMap.get (m ++ extra) k = Some v.
Proof.
  unfold JsMap.get. rewrite find_over_app.
  destruct (find (fun e => same (fst e) k) m); [tauto | discriminate].
Qed.

Lemma variables_added_get this this' variable symbol :
  variables_added this this' ->
  JsMap.get (_varMap this) variable = Some symbol ->
  JsMap.get (_varMap this') variable = Some symbol.
Proof. intros [extra [E _]] G. rewrite E. apply get_app_Some. exact G. Qed.

(** X4. A constraint is registered by the [addConstraint] that returns
    and by no [addConstraint] that rejects it as unsatisfiable; it is no
    longer registered after [removeConstraint], whatever the outcome of
    that call. Neither call changes whether another constraint is
    registered. *)
Theorem constraint_registration :
  (forall fuel constraint this r this',
      addConstraint required fuel constraint this = (r, this') ->
      (r = Return tt -> hasConstraint constraint this' = true)
      /\ (r = Throw "unsatifiable constraint"%string
          \/ r = Throw "unsatisfiable constraint"%string ->
          hasConstraint constraint this' = false)
      /\ (forall other,
             same constraint other = false ->
             hasConstraint other this' = hasConstraint other this))
  /\ (forall fuel constraint this r this',
         removeConstraint fuel constraint this = (r, this') ->
         hasConstraint constraint this' = false
         /\ (forall other,
                same constraint other = false ->
                hasConstraint other this' = hasConstraint other this)).
Proof.
  split.
  - intros fuel constraint this r this' E.
    destruct (addConstraint_effect _ _ _ _ _ _ E) as (_ & _ & _ & Cn & Ok & No).
    unfold hasConstraint. split; [|split].
    + intros R. destruct (Ok R) as [tag ->]. rewrite has_set, same_refl. reflexivity.
    + intros R. rewrite (No (or_intror R)).
      unfold addConstraint, bind, gets, throw in E.
      destruct (JsMap.has (_cnMap this) constraint); [|reflexivity].
      inversion E; subst. destruct R as [R|R]; discriminate R.
    + intros other N. destruct Cn as [->|[tag ->]]; [reflexivity|].
      rewrite has_set, N. reflexivity.
  - intros fuel constraint this r this' E.
    destruct (removeConstraint_effect _ _ _ _ _ E) as (Cn & _).
    unfold hasConstraint. rewrite Cn. split.
    + rewrite has_delete, same_refl. reflexivity.
    + intros other N. rewrite has_delete, N. reflexivity.
Qed.

(** X5. The edit variables. [addEditVariable] that returns registers the
    variable with the constant 0 and a registered constraint of the
    clipped strength; when it does not return, the edit map is as before.
    After [removeEditVariable] the variable is not registered and neither
    is the constraint of its entry, whatever the outcome. [suggestValue]
    records the value for a registered variable, also when it throws, and
    changes no other entry. *)
Theorem edit_variable_registration :
  (forall fuel cn_id variable strength this r this',
      addEditVariable required clip fuel cn_id variable strength this = (r, this') ->
      (r <> Return tt -> _editMap this' = _editMap this)
      /\ (r = Return tt ->
          hasEditVariable variable this' = true
          /\ exists info,
               JsMap.get (_editMap this') variable = Some info
               /\ EditInfo.constant info = 0
               /\ Constraint.strength (EditInfo.constraint info) = clip strength
               /\ hasConstraint (EditInfo.constraint info) this' = true))
  /\ (forall fuel variable this r this',
         removeEditVariable fuel variable this = (r, this') ->
         hasEditVariable variable this' = false
         /\ (forall info,
                JsMap.get (_editMap this) variable = Some info ->
                hasConstraint (EditInfo.constraint info) this' = false)
         /\ forall other,
              same variable other = false ->
              JsMap.get (_editMap this') other = JsMap.get (_editMap this) other)
  /\ (forall fuel variable value this r this' info,
         suggestValue fuel variable value this = (r, this') ->
         JsMap.get (_editMap this) variable = Some info ->
         JsMap.get (_editMap this') variable
         = Some {| EditInfo.tag := EditInfo.tag info;
                   EditInfo.constraint := EditInfo.constraint info;
                   EditInfo.constant := value |}
         /\ forall other,
              same variable other = false ->
              JsMap.get (_editMap this') other = JsMap.get (_editMap this) other).
Proof.
  split; [|split].
  - intros fuel cn_id variable strength this r this' E.
    destruct (addEditVariable_effect _ _ _ _ _ _ _ _ _ E) as (_ & _ & No & Ok).
    split; [exact No|]. intros R. destruct (Ok R) as (tag & Cn & Ed).
    unfold hasEditVariable, hasConstraint. rewrite Ed. split.
    + rewrite has_set, same_refl. reflexivity.
    + eexists. split; [rewrite get_set, same_refl; reflexivity|].
      cbn [EditInfo.constant EditInfo.constraint]. split; [reflexivity|].
      split; [reflexivity|]. rewrite Cn, has_set, same_refl. reflexivity.
  - intros fuel variable this r this' E.
    destruct (removeEditVariable_effect _ _ _ _ _ E) as (Ed & _ & _ & Cn).
    unfold hasEditVariable, hasConstraint. rewrite Ed. split; [|split].
    + rewrite has_delete, same_refl. reflexivity.
    + intros info G. rewrite G in Cn. rewrite Cn, has_delete, same_refl. reflexivity.
    + intros other N. rewrite get_delete, N. reflexivity.
  - intros fuel variable value this r this' info E G.
    destruct (suggestValue_effect _ _ _ _ _ _ E) as (_ & _ & _ & Ed).
    rewrite G in Ed. rewrite Ed. split.
    + rewrite get_set, same_refl. reflexivity.
    + intros other N. rewrite get_set, N. reflexivity.
Qed.

(** X6. The symbol of a variable never changes and is never given up: a
    variable that has a symbol has the same symbol after every public
    call, whatever its outcome. The calls that remove and [suggestValue]
    leave the variable map and the id counter untouched, and no call
    lowers the id counter. *)
Theorem variable_symbols_are_kept :
  forall this variable symbol,
    JsMap.get (_varMap this) variable = Some symbol ->
    (forall fuel constraint r this',
        addConstraint required fuel constraint this = (r, this') ->
        JsMap.get (_varMap this') variable = Some symbol
        /\ (_idTick this <= _idTick this')%Z)
    /\ (forall fuel cn_id v strength r this',
           addEditVariable required clip fuel cn_id v strength this = (r, this') ->
           JsMap.get (_varMap this') variable = Some symbol
           /\ (_idTick this <= _idTick this')%Z)
    /\ (forall fuel constraint r this',
           removeConstraint fuel constraint this = (r, this') ->
           _varMap this' = _varMap this /\ _idTick this' = _idTick this)
    /\ (forall fuel v r this',
           removeEditVariable fuel v this = (r, this') ->
           _varMap this' = _varMap this /\ _idTick this' = _idTick this)
    /\ (forall fuel v value r this',
           suggestValue fuel v value this = (r, this') ->
           _varMap this' = _varMap this /\ _idTick this' = _idTick this).
Proof.
  intros this variable symbol G. split; [|split; [|split; [|split]]].
  - intros fuel constraint r this' E.
    destruct (addConstraint_effect _ _ _ _ _ _ E) as (V & _ & I & _).
    split; [exact (variables_added_get _ _ _ _ V G) | exact I].
  - intros fuel cn_id v strength r this' E.
    destruct (addEditVariable_effect _ _ _ _ _ _ _ _ _ E) as (V & I & _).
    split; [exact (variables_added_get _ _ _ _ V G) | exact I].
  - intros fuel constraint r this' E.
    destruct (removeConstraint_effect _ _ _ _ _ E) as (_ & V & _ & I). split; assumption.
  - intros fuel v r this' E.
    destruct (removeEditVariable_effect _ _ _ _ _ E) as (_ & V & I & _). split; assumption.
  - intros fuel v value r this' E.
    destruct (suggestValue_effect _ _ _ _ _ _ E) as (_ & V & I & _). split; assumption.
Qed.
End Registration.

(** ** The selections of the simplex steps *)

Section Selections.
Import Solver.
Local Open Scope float_scope.

Lemma entering_scan (l : JsMap.t Symbol.t float) found :
  (forall c, ~ In (INVALID_SYMBOL, c) l) ->
  JsMap.forEach l
    (fun found coefficient symbol =>
       if same found INVALID_SYMBOL && (coefficient <? 0)
          && negb (is_type SymbolType.Dummy symbol)
       then symbol else found)
    found
  = if same found INVALID_SYMBOL
    then match find (fun cell => (snd cell <? 0)
                                 && negb (is_type SymbolType.Dummy (fst cell))) l with
         | Some cell => fst cell
         | None => found
         end
    else found.
Proof.
  unfold JsMap.forEach. revert found.
  induction l as [|[s c] l IH]; intros found Hl; cbn [fold_left find fst snd].
  - destruct (same found INVALID_SYMBOL); reflexivity.
  - assert (Hs : same s INVALID_SYMBOL = false).
    { apply same_symbol_neq. intros ->. apply (Hl c). left. reflexivity. }
    rewrite IH by (intros c' H; apply (Hl c'); right; exact H).
    destruct (same found INVALID_SYMBOL) eqn:E; cbn [andb].
    + destruct ((c <? 0) && negb (is_type SymbolType.Dummy s)) eqn:T.
      * rewrite Hs. reflexivity.
      * rewrite E. reflexivity.
    + rewrite E. reflexivity.
Qed.

(** The loops that keep a best ratio are scans of candidates. *)
Lemma leaving_loop entering rows ratio found :
  JsMap.forEach rows
    (fun '(ratio, found) row symbol =>
       if negb (is_type SymbolType.External symbol) then
         let temp := Row.coefficientFor row entering in
         if temp <? 0 then
           let temp_ratio := - Row.constant row / temp in
           if temp_ratio <? ratio then (temp_ratio, symbol) else (ratio, found)
         else (ratio, found)
       else (ratio, found))
    (ratio, found)
  = (snd (scan (leaving_rows entering rows) (found, ratio)),
     fst (scan (leaving_rows entering rows) (found, ratio))).
Proof.
  unfold JsMap.forEach, scan, leaving_rows. revert ratio found.
  induction rows as [|[symbol row] rows IH]; intros ratio found;
    cbn [fold_left flat_map fst snd]; [reflexivity|].
  cbv zeta. destruct (negb (is_type SymbolType.External symbol)); cbn [andb app].
  - destruct (Row.coefficientFor row entering <? 0); cbn [app fold_left fst snd].
    + destruct (- Row.constant row / Row.coefficientFor row entering <? ratio); apply IH.
    + apply IH.
  - apply IH.
Qed.

Lemma dual_loop (objective : Row.t) (cells : JsMap.t Symbol.t float) ratio entering :
  JsMap.forEach cells
    (fun '(ratio, entering) c symbol =>
       if (0 <? c) && negb (is_type SymbolType.Dummy symbol) then
         let coeff := Row.coefficientFor objective symbol in
         let r := coeff / c in
         if r <? ratio then (r, symbol) else (ratio, entering)
       else (ratio, entering))
    (ratio, entering)
  = (snd (scan (flat_map
                  (fun e =>
                     if (0 <? snd e) && negb (is_type SymbolType.Dummy (fst e))
                     then [(fst e, Row.coefficientFor objective (fst e) / snd e)]
                     else [])
                  cells) (entering, ratio)),
     fst (scan (flat_map
                  (fun e =>
                     if (0 <? snd e) && negb (is_type SymbolType.Dummy (fst e))
                     then [(fst e, Row.coefficientFor objective (fst e) / snd e)]
                     else [])
                  cells) (entering, ratio))).
Proof.
  unfold JsMap.forEach, scan. revert ratio entering.
  induction cells as [|[symbol c] cells IH]; intros ratio entering;
    cbn [fold_left flat_map fst snd]; [reflexivity|].
  cbv zeta. destruct ((0 <? c) && negb (is_type SymbolType.Dummy symbol));
    cbn [app fold_left fst snd].
  - destruct (Row.coefficientFor objective symbol / c <? ratio); apply IH.
  - apply IH.
Qed.

(** The least ratio is a candidate's, and no candidate has a smaller
    one. *)
Lemma least_ratio_least l x :
  first_min (filter (fun x => snd x <? Number.MAX_VALUE) l) = Some x ->
  In x l /\ forall y, In y l -> (snd y <? snd x) = false.
Proof.
  intros F.
  assert (Nl : forall z, In z (filter (fun x => snd x <? Number.MAX_VALUE) l) ->
                         number (snd z)).
  { intros z Hz. apply filter_In in Hz. exact (proj1 (ltb_number _ _ (proj2 Hz))). }
  pose proof (first_min_In _ _ F) as Hx. apply filter_In in Hx. destruct Hx as [Hx Bx].
  split; [exact Hx|]. intros y Hy.
  destruct (snd y <? Number.MAX_VALUE) eqn:By.
  - apply (proj1 (first_min_least _ _ Nl F)). apply filter_In. split; assumption.
  - destruct (snd y <? snd x) eqn:L; [|reflexivity].
    rewrite (ltb_trans _ _ _ L Bx) in By. discriminate.
Qed.

Lemma entering_scan_spec objective :
  (forall c, ~ In (INVALID_SYMBOL, c) (Row.cells objective)) ->
  _getEnteringSymbol objective = getEnteringSymbol_spec objective.
Proof.
  intros H. unfold _getEnteringSymbol, getEnteringSymbol_spec.
  rewrite (entering_scan _ _ H). change (same INVALID_SYMBOL INVALID_SYMBOL) with true.
  reflexivity.
Qed.

(** X7. The entering symbol of the primal phase is the first symbol of the
    objective that is not a Dummy and has a negative coefficient, or the
    Invalid symbol when there is none (the objective having no cell under
    the Invalid symbol); the symbol that makes the artificial variable
    leave is the first Slack or Error symbol of the row, or the Invalid
    symbol. *)
Theorem first_symbol_selections :
  (forall objective : Row.t,
      (forall c, ~ In (INVALID_SYMBOL, c) (Row.cells objective)) ->
      _getEnteringSymbol objective = getEnteringSymbol_spec objective)
  /\ (forall row : Row.t, _anyPivotableSymbol row = anyPivotableSymbol_spec row).
Proof.
  split.
  - intros objective H. unfold _getEnteringSymbol, getEnteringSymbol_spec.
    rewrite (entering_scan _ _ H). change (same INVALID_SYMBOL INVALID_SYMBOL) with true.
    reflexivity.
  - intros row. unfold _anyPivotableSymbol, anyPivotableSymbol_spec.
    rewrite (first_symbol_scan
               (fun (_ : float) s => is_type SymbolType.Slack s || is_type SymbolType.Error s)).
    + change (same INVALID_SYMBOL INVALID_SYMBOL) with true. reflexivity.
    + intros _ s H. apply orb_true_iff in H.
      destruct H as [H|H];
        [apply (typed_not_invalid SymbolType.Slack) | apply (typed_not_invalid SymbolType.Error)];
        try exact H; discriminate.
Qed.

Lemma getLeavingSymbol_scan entering this :
  _getLeavingSymbol entering this = least_ratio (leaving_rows entering (_rowMap this)).
Proof.
  unfold _getLeavingSymbol, least_ratio. rewrite leaving_loop. cbn [snd].
  apply scan_from_MAX.
Qed.

Lemma getDualEnteringSymbol_scan row this :
  _getDualEnteringSymbol row this = least_ratio (entering_cells row this).
Proof.
  unfold _getDualEnteringSymbol, least_ratio, entering_cells.
  rewrite (dual_loop (_objective this)). cbn [snd]. apply scan_from_MAX.
Qed.

(** X8. The leaving row of the primal phase: among the rows of a symbol
    that is not External whose coefficient on the entering symbol is
    negative and whose ratio [-constant / coefficient] is below
    [Number.MAX_VALUE], the first of least ratio; the Invalid symbol when
    there is none. No such row has a smaller ratio than the one chosen. *)
Theorem getLeavingSymbol_least_ratio :
  forall (entering : Symbol.t) (this : Solver.t),
    _getLeavingSymbol entering this = least_ratio (leaving_rows entering (_rowMap this))
    /\ forall x,
         first_min (filter (fun x => snd x <? Number.MAX_VALUE)
                      (leaving_rows entering (_rowMap this))) = Some x ->
         _getLeavingSymbol entering this = fst x
         /\ In x (leaving_rows entering (_rowMap this))
         /\ forall y, In y (leaving_rows entering (_rowMap this)) ->
                      (snd y <? snd x) = false.
Proof.
  intros entering this. split; [apply getLeavingSymbol_scan|]. intros x F. split.
  - rewrite getLeavingSymbol_scan. unfold least_ratio. rewrite F. reflexivity.
  - exact (least_ratio_least _ _ F).
Qed.

(** X9. The entering symbol of the dual phase: among the cells of the row
    with a positive coefficient [c] whose symbol is not a Dummy and whose
    ratio [objective coefficient / c] is below [Number.MAX_VALUE], the
    first of least ratio; the Invalid symbol when there is none. No such
    cell has a smaller ratio than the one chosen. *)
Theorem getDualEnteringSymbol_least_ratio :
  forall (row : Row.t) (this : Solver.t),
    _getDualEnteringSymbol row this = least_ratio (entering_cells row this)
    /\ forall x,
         first_min (filter (fun x => snd x <? Number.MAX_VALUE)
                      (entering_cells row this)) = Some x ->
         _getDualEnteringSymbol row this = fst x
         /\ In x (entering_cells row this)
         /\ forall y, In y (entering_cells row this) -> (snd y <? snd x) = false.
Proof.
  intros row this. split; [apply getDualEnteringSymbol_scan|]. intros x F. split.
  - rewrite getDualEnteringSymbol_scan. unfold least_ratio. rewrite F. reflexivity.
  - exact (least_ratio_least _ _ F).
Qed.
End Selections.

(** ** The errors of the public calls *)

Section Errors.
Import Solver.
Local Open Scope float_scope.
Variable required : float.
Variable clip : float -> float.

Lemma leaving_rows_keys entering rows x :
  In x (leaving_rows entering rows) -> exists row, In (fst x, row) rows.
Proof.
  unfold leaving_rows. intros H. apply in_flat_map in H. destruct H as [[symbol row] [Hin Hx]].
  cbn [fst snd] in Hx. destruct (_ && _); [|contradiction].
  destruct Hx as [<-|[]]. exists row. exact Hin.
Qed.

(** A leaving symbol that is not of the Invalid type is basic. *)
Lemma leaving_is_basic entering this :
  is_type SymbolType.Invalid (_getLeavingSymbol entering this) = false ->
  exists row, JsMap.get (_rowMap this) (_getLeavingSymbol entering this) = Some row.
Proof.
  rewrite getLeavingSymbol_scan. unfold least_ratio.
  destruct (first_min _) as [x|] eqn:F; [|discriminate].
  intros _. apply first_min_In, filter_In in F. destruct F as [F _].
  destruct (leaving_rows_keys _ _ _ F) as [row Hin].
  pose proof (In_has _ _ _ Hin) as H. unfold JsMap.has in H.
  destruct (JsMap.get (_rowMap this) (fst x)) as [r|]; [exists r; reflexivity | discriminate].
Qed.

Lemma last_In {A} (a : A) (l : list A) d : In (last (a :: l) d) (a :: l).
Proof.
  revert a. induction l as [|b l IH]; intros a; [left; reflexivity|].
  change (last (a :: b :: l) d) with (last (b :: l) d). right. apply IH.
Qed.

Lemma scan_In_or l best : scan l best = best \/ In (scan l best) l.
Proof.
  unfold scan. revert best. induction l as [|x l IH]; intros best; cbn [fold_left].
  - left. reflexivity.
  - destruct (snd x <? snd best).
    + destruct (IH x) as [E|H]; [right; left; symmetry; exact E | right; right; exact H].
    + destruct (IH best) as [E|H]; [left; exact E | right; right; exact H].
Qed.

(** The symbol [_getMarkerLeavingSymbol] returns is the Invalid symbol or
    the key of a row. *)
Lemma markerLeaving_is_basic marker this :
  is_type SymbolType.Invalid (_getMarkerLeavingSymbol marker this) = false ->
  exists row, JsMap.get (_rowMap this) (_getMarkerLeavingSymbol marker this) = Some row.
Proof.
  unfold _getMarkerLeavingSymbol. cbv zeta.
  destruct (marker_loop marker (_rowMap this)
              {| r1 := Number.MAX_VALUE; r2 := Number.MAX_VALUE;
                 first := INVALID_SYMBOL; second := INVALID_SYMBOL;
                 third := INVALID_SYMBOL |}) as (S1 & S2 & S3).
  cbv zeta in S1, S2, S3. cbn [r1 r2 first second third] in S1, S2, S3.
  set (st := JsMap.forEach (_rowMap this) _ _) in *.
  assert (Key : forall pick x, In x (marker_rows pick marker (_rowMap this)) ->
                  exists row, JsMap.get (_rowMap this) (fst x) = Some row).
  { intros pick x Hx. destruct (marker_rows_keys _ _ _ _ Hx) as [row Hin].
    pose proof (In_has _ _ _ Hin) as H. unfold JsMap.has in H.
    destruct (JsMap.get (_rowMap this) (fst x)) as [r|]; [exists r; reflexivity | discriminate]. }
  assert (F1 : first st = INVALID_SYMBOL
               \/ exists row, JsMap.get (_rowMap this) (first st) = Some row).
  { destruct (scan_In_or (marker_rows pick_first marker (_rowMap this))
                (INVALID_SYMBOL, Number.MAX_VALUE)) as [E|H]; rewrite <- S1 in *.
    - left. inversion E. reflexivity.
    - right. exact (Key _ _ H). }
  assert (F2 : second st = INVALID_SYMBOL
               \/ exists row, JsMap.get (_rowMap this) (second st) = Some row).
  { destruct (scan_In_or (marker_rows pick_second marker (_rowMap this))
                (INVALID_SYMBOL, Number.MAX_VALUE)) as [E|H]; rewrite <- S2 in *.
    - left. inversion E. reflexivity.
    - right. exact (Key _ _ H). }
  assert (F3 : third st = INVALID_SYMBOL
               \/ exists row, JsMap.get (_rowMap this) (third st) = Some row).
  { rewrite S3. destruct (marker_rows pick_third marker (_rowMap this)) as [|x l] eqn:M.
    - left. reflexivity.
    - right. pose proof (last_In (fst x) (map fst l) INVALID_SYMBOL) as H.
      change (fst x :: map fst l) with (map fst (x :: l)) in H.
      apply in_map_iff in H. destruct H as [y [Ey Hy]]. rewrite <- Ey.
      apply (Key pick_third). rewrite M. exact Hy. }
  assert (Inv : forall s, s = INVALID_SYMBOL -> is_type SymbolType.Invalid s = false ->
                          exists row, JsMap.get (_rowMap this) s = Some row).
  { intros s -> H. discriminate H. }
  destruct (negb (same (first st) INVALID_SYMBOL)).
  - intros T. destruct F1 as [E|H]; [exact (Inv _ E T) | exact H].
  - destruct (negb (same (second st) INVALID_SYMBOL)).
    + intros T. destruct F2 as [E|H]; [exact (Inv _ E T) | exact H].
    + intros T. destruct F3 as [E|H]; [exact (Inv _ E T) | exact H].
Qed.

Lemma pivot_of_basic leaving entering this row :
  JsMap.get (_rowMap this) leaving = Some row ->
  fst (pivot leaving entering this) = Return tt.
Proof. intros G. unfold pivot. rewrite G. reflexivity. Qed.

Lemma optimize_error fuel which this message this' :
  _optimize fuel which this = (Throw message, this') ->
  message = "the objective is unbounded"%string.
Proof.
  revert this. induction fuel as [|fuel IH]; intros this E; cbn [_optimize] in E.
  - discriminate E.
  - unfold bind, gets, ret, throw in E.
    destruct (is_type SymbolType.Invalid _); [discriminate E|].
    destruct (is_type SymbolType.Invalid (_getLeavingSymbol _ this)) eqn:T.
    + inversion E. reflexivity.
    + destruct (leaving_is_basic _ _ T) as [row G].
      pose proof (pivot_of_basic _ (_getEnteringSymbol (objective_of which this)) _ _ G) as P.
      destruct (pivot _ _ this) as [[[]|m|] this1]; cbn [fst] in P; try discriminate P.
      exact (IH _ E).
Qed.

Lemma dualOptimize_error fuel this message this' :
  _dualOptimize fuel this = (Throw message, this') ->
  message = "dual optimize failed"%string.
Proof.
  revert this. induction fuel as [|fuel IH]; intros this E; cbn [_dualOptimize] in E.
  - discriminate E.
  - destruct (pop (_infeasibleRows this)) as [[leaving rest]|]; [|discriminate E].
    fields. destruct (JsMap.get (_rowMap this) leaving) as [row|] eqn:G.
    + destruct (Row.constant row <? 0).
      * destruct (is_type SymbolType.Invalid _).
        -- inversion E. reflexivity.
        -- unfold bind in E.
           pose proof (pivot_of_basic leaving
                         (_getDualEnteringSymbol row (with_infeasibleRows this rest))
                         (with_infeasibleRows this rest) row G) as P.
           destruct (pivot _ _ (with_infeasibleRows this rest)) as [[[]|m|] this1];
             cbn [fst] in P; try discriminate P.
           exact (IH _ E).
      * exact (IH _ E).
    + exact (IH _ E).
Qed.

Lemma addWithArtificialVariable_error fuel row this message this' :
  _addWithArtificialVariable fuel row this = (Throw message, this') ->
  message = "the objective is unbounded"%string.
Proof.
  unfold _addWithArtificialVariable, bind, run, gets, ret. cbn [_makeSymbol].
  match goal with |- context [_optimize fuel TheArtificial ?s] =>
    destruct (_optimize fuel TheArtificial s) as [[[]|m|] this1] eqn:O end.
  - match goal with |- context [JsMap.get ?m ?k] => destruct (JsMap.get m k) end.
    + destruct (Row.isConstant _); [discriminate|].
      destruct (is_type SymbolType.Invalid _); discriminate.
    + discriminate.
  - intros E. inversion E; subst. exact (optimize_error _ _ _ _ _ O).
  - discriminate.
Qed.

Lemma addConstraint_error fuel constraint this message this' :
  addConstraint required fuel constraint this = (Throw message, this') ->
  In message ["duplicate constraint"; "unsatifiable constraint";
              "unsatisfiable constraint"; "the objective is unbounded"]%string.
Proof.
  intros E. unfold addConstraint, bind, gets, throw, ret, run in E.
  destruct (JsMap.has (_cnMap this) constraint); [inversion E; left; reflexivity|].
  destruct (_createRow required constraint this) as [[row tag] this1]. cbn [fst snd] in E.
  assert (Opt : forall s, _optimize fuel TheObjective s = (Throw message, this') ->
                  In message ["duplicate constraint"; "unsatifiable constraint";
                              "unsatisfiable constraint";
                              "the objective is unbounded"]%string).
  { intros s O. rewrite (optimize_error _ _ _ _ _ O). right. right. right. left. reflexivity. }
  assert (Art : forall ok s,
             _addWithArtificialVariable fuel row this1 = (ok, s) ->
             match ok with
             | Return true =>
                 _optimize fuel TheObjective
                   (with_cnMap s (JsMap.set (_cnMap s) constraint tag))
             | Return false => (Throw "unsatisfiable constraint"%string, s)
             | Throw m => (Throw m, s)
             | OutOfFuel => (OutOfFuel, s)
             end = (Throw message, this') ->
             In message ["duplicate constraint"; "unsatifiable constraint";
                         "unsatisfiable constraint"; "the objective is unbounded"]%string).
  { intros [[]|m|] s A E0.
    - exact (Opt _ E0).
    - inversion E0. right. right. left. reflexivity.
    - inversion E0; subst. rewrite (addWithArtificialVariable_error _ _ _ _ _ A).
      right. right. right. left. reflexivity.
    - discriminate E0. }
  destruct (is_type SymbolType.Invalid (_chooseSubject row tag) && Row.allDummies row).
  - destruct (negb (nearZero (Row.constant row))).
    + inversion E. right. left. reflexivity.
    + destruct (is_type SymbolType.Invalid (Tag.marker tag)).
      * destruct (_addWithArtificialVariable fuel row this1) as [ok s] eqn:A.
        apply (Art ok s eq_refl). destruct ok as [[]|m|]; exact E.
      * exact (Opt _ E).
  - destruct (is_type SymbolType.Invalid (_chooseSubject row tag)).
    + destruct (_addWithArtificialVariable fuel row this1) as [ok s] eqn:A.
      apply (Art ok s eq_refl). destruct ok as [[]|m|]; exact E.
    + exact (Opt _ E).
Qed.

Lemma removeConstraint_error fuel constraint this message this' :
  removeConstraint fuel constraint this = (Throw message, this') ->
  In message ["unknown constraint"; "failed to find leaving row";
              "the objective is unbounded"]%string.
Proof.
  intros E. unfold removeConstraint, bind, gets, throw, ret, run in E.
  destruct (JsMap.get (_cnMap this) constraint) as [tag|]; [|inversion E; left; reflexivity].
  match type of E with context [negb (JsMap.has (_rowMap ?s) _)] => set (s2 := s) in * end.
  assert (Opt : forall s, _optimize fuel TheObjective s = (Throw message, this') ->
                  In message ["unknown constraint"; "failed to find leaving row";
                              "the objective is unbounded"]%string).
  { intros s O. rewrite (optimize_error _ _ _ _ _ O). right. right. left. reflexivity. }
  destruct (negb (JsMap.has (_rowMap s2) (Tag.marker tag))).
  - match type of E with context [_getMarkerLeavingSymbol (Tag.marker tag) ?s] =>
      set (s3 := s) in * end.
    destruct (is_type SymbolType.Invalid (_getMarkerLeavingSymbol (Tag.marker tag) s3)) eqn:T.
    + inversion E. right. left. reflexivity.
    + destruct (markerLeaving_is_basic _ _ T) as [row G]. fields. rewrite G in E.
      exact (Opt _ E).
  - exact (Opt _ E).
Qed.

(** X10. The errors of the public calls. Each call throws nothing but the
    errors listed for it; in particular no call ever uses a row, a tag or
    an edit entry that is not there. *)
Theorem errors_raised :
  (forall fuel constraint this message this',
      addConstraint required fuel constraint this = (Throw message, this') ->
      In message ["duplicate constraint"; "unsatifiable constraint";
                  "unsatisfiable constraint"; "the objective is unbounded"]%string)
  /\ (forall fuel constraint this message this',
         removeConstraint fuel constraint this = (Throw message, this') ->
         In message ["unknown constraint"; "failed to find leaving row";
                     "the objective is unbounded"]%string)
  /\ (forall fuel cn_id variable strength this message this',
         addEditVariable required clip fuel cn_id variable strength this
         = (Throw message, this') ->
         In message ["duplicate edit variable"; "bad required strength";
                     "duplicate constraint"; "unsatifiable constraint";
                     "unsatisfiable constraint"; "the objective is unbounded"]%string)
  /\ (forall fuel variable this message this',
         removeEditVariable fuel variable this = (Throw message, this') ->
         In message ["unknown edit variable"; "unknown constraint";
                     "failed to find leaving row"; "the objective is unbounded"]%string)
  /\ (forall fuel variable value this message this',
         suggestValue fuel variable value this = (Throw message, this') ->
         In message ["unknown edit variable"; "dual optimize failed"]%string).
Proof.
  split; [|split; [|split; [|split]]].
  - exact addConstraint_error.
  - exact removeConstraint_error.
  - intros fuel cn_id variable strength this message this' E.
    unfold addEditVariable, bind, gets, throw, ret, run in E.
    destruct (JsMap.has (_editMap this) variable); [inversion E; left; reflexivity|].
    destruct (clip strength =? required); [inversion E; right; left; reflexivity|].
    match type of E with context [addConstraint required fuel ?cn this] =>
      destruct (addConstraint required fuel cn this) as [[[]|m|] this1] eqn:A
    end.
    + destruct (addConstraint_effect _ _ _ _ _ _ A) as (_ & _ & _ & _ & Ok & _).
      destruct (Ok eq_refl) as [tag Ct]. rewrite Ct, get_set, same_refl in E. discriminate E.
    + inversion E; subst. pose proof (addConstraint_error _ _ _ _ _ A) as H.
      right. right. exact H.
    + discriminate E.
  - intros fuel variable this message this' E.
    unfold removeEditVariable, bind, gets, throw, ret, run in E.
    destruct (JsMap.get (_editMap this) variable) as [info|];
      [|inversion E; left; reflexivity].
    right. exact (removeConstraint_error _ _ _ _ _ E).
  - intros fuel variable value this message this' E.
    unfold suggestValue, bind, gets, throw, ret, run in E.
    destruct (JsMap.get (_editMap this) variable) as [info|];
      [|inversion E; left; reflexivity].
    right. left. symmetry.
    cbn [_rowMap with_editMap] in E.
    destruct (JsMap.get (_rowMap this) (Tag.marker (EditInfo.tag info))) as [row|].
    + destruct (Row.constant (Row.add row _) <? 0); exact (dualOptimize_error _ _ _ _ E).
    + cbn [_rowMap with_editMap] in E.
      destruct (JsMap.get (_rowMap this) (Tag.other (EditInfo.tag info))) as [row|].
      * destruct (Row.constant (Row.add row _) <? 0); exact (dualOptimize_error _ _ _ _ E).
      * destruct (JsMap.forEach _ _ _) as [rowMap infeasibleRows].
        exact (dualOptimize_error _ _ _ _ E).
Qed.
End Errors.

(** ** Optimality on return *)

Section Optimal.
Import Solver.
Local Open Scope float_scope.
Variable required : float.
Variable clip : float -> float.

(** [_optimize] returns when it finds no entering symbol. *)
Lemma optimize_returns_optimal fuel which this this' :
  _optimize fuel which this = (Return tt, this') ->
  is_type SymbolType.Invalid (_getEnteringSymbol (objective_of which this')) = true.
Proof.
  revert this. induction fuel as [|fuel IH]; intros this E; cbn [_optimize] in E.
  - discriminate E.
  - unfold bind, gets, ret, throw in E.
    destruct (is_type SymbolType.Invalid (_getEnteringSymbol (objective_of which this))) eqn:T.
    + inversion E; subst. exact T.
    + destruct (is_type SymbolType.Invalid (_getLeavingSymbol _ _)); [discriminate E|].
      destruct (pivot _ _ this) as [[[]|m|] this1]; [|discriminate E..].
      exact (IH _ E).
Qed.

Lemma addConstraint_returns_optimal fuel constraint this this' :
  addConstraint required fuel constraint this = (Return tt, this') -> optimal this'.
Proof.
  intros E. unfold addConstraint, bind, gets, throw, ret, run in E.
  destruct (JsMap.has (_cnMap this) constraint); [discriminate E|].
  destruct (_createRow required constraint this) as [[row tag] this1]. cbn [fst snd] in E.
  assert (Opt : forall s, _optimize fuel TheObjective s = (Return tt, this') -> optimal this').
  { intros s O. exact (optimize_returns_optimal _ _ _ _ O). }
  destruct (is_type SymbolType.Invalid (_chooseSubject row tag) && Row.allDummies row).
  - destruct (negb (nearZero (Row.constant row))); [discriminate E|].
    destruct (is_type SymbolType.Invalid (Tag.marker tag)).
    + destruct (_addWithArtificialVariable fuel row this1) as [[[]|m|] s];
        [exact (Opt _ E) | discriminate E..].
    + exact (Opt _ E).
  - destruct (is_type SymbolType.Invalid (_chooseSubject row tag)).
    + destruct (_addWithArtificialVariable fuel row this1) as [[[]|m|] s];
        [exact (Opt _ E) | discriminate E..].
    + exact (Opt _ E).
Qed.

Lemma removeConstraint_returns_optimal fuel constraint this this' :
  removeConstraint fuel constraint this = (Return tt, this') -> optimal this'.
Proof.
  intros E. unfold removeConstraint, bind, gets, throw, ret, run in E.
  destruct (JsMap.get (_cnMap this) constraint) as [tag|]; [|discriminate E].
  assert (Opt : forall s, _optimize fuel TheObjective s = (Return tt, this') -> optimal this').
  { intros s O. exact (optimize_returns_optimal _ _ _ _ O). }
  destruct (negb _).
  - destruct (is_type SymbolType.Invalid _); [discriminate E|].
    destruct (JsMap.get _ _) as [row|]; [exact (Opt _ E) | discriminate E].
  - exact (Opt _ E).
Qed.

(** An objective without entering symbol has its negative coefficients
    on Dummy symbols. *)
Lemma optimal_only_dummies this :
  optimal this ->
  (forall symbol c,
      In (symbol, c) (Row.cells (_objective this)) ->
      is_type SymbolType.Invalid symbol = false) ->
  forall symbol c,
    In (symbol, c) (Row.cells (_objective this)) ->
    (c <? 0) = true -> is_type SymbolType.Dummy symbol = true.
Proof.
  intros O Ty symbol c Hin Hc. unfold optimal in O.
  rewrite entering_scan_spec in O.
  2:{ intros c' H. pose proof (Ty _ _ H) as X. discriminate X. }
  unfold getEnteringSymbol_spec in O.
  destruct (find _ (Row.cells (_objective this))) as [cell|] eqn:F.
  - apply find_some in F. destruct F as [Fin _]. destruct cell as [s' c'].
    cbn [fst] in O. rewrite (Ty _ _ Fin) in O. discriminate O.
  - pose proof (find_none _ _ F _ Hin) as N. cbn [fst snd] in N. rewrite Hc in N.
    cbn [andb] in N. apply negb_false_iff in N. exact N.
Qed.

(** X11. When a call that adds or removes a constraint or an edit
    variable returns, the objective is at a minimum for the solver: it has
    no entering symbol; and then, if no cell of the objective is of the
    Invalid type, every symbol with a negative coefficient in the
    objective is a Dummy. *)
Theorem calls_end_optimal :
  (forall fuel constraint this this',
      addConstraint required fuel constraint this = (Return tt, this') -> optimal this')
  /\ (forall fuel constraint this this',
         removeConstraint fuel constraint this = (Return tt, this') -> optimal this')
  /\ (forall fuel cn_id variable strength this this',
         addEditVariable required clip fuel cn_id variable strength this = (Return tt, this') ->
         optimal this')
  /\ (forall fuel variable this this',
         removeEditVariable fuel variable this = (Return tt, this') -> optimal this')
  /\ (forall this,
         optimal this ->
         (forall symbol c,
             In (symbol, c) (Row.cells (_objective this)) ->
             is_type SymbolType.Invalid symbol = false) ->
         forall symbol c,
           In (symbol, c) (Row.cells (_objective this)) ->
           (c <? 0) = true -> is_type SymbolType.Dummy symbol = true).
Proof.
  split; [|split; [|split; [|split]]].
  - exact addConstraint_returns_optimal.
  - exact removeConstraint_returns_optimal.
  - intros fuel cn_id variable strength this this' E.
    unfold addEditVariable, bind, gets, throw, ret, run in E.
    destruct (JsMap.has (_editMap this) variable); [discriminate E|].
    destruct (clip strength =? required); [discriminate E|].
    match type of E with context [addConstraint required fuel ?cn this] =>
      destruct (addConstraint required fuel cn this) as [[[]|m|] this1] eqn:A;
      [|discriminate E..];
      pose proof (addConstraint_returns_optimal _ _ _ _ A) as O;
      destruct (JsMap.get (_cnMap this1) cn); [|discriminate E]
    end.
    inversion E; subst. exact O.
  - intros fuel variable this this' E.
    unfold removeEditVariable, bind, gets, throw, ret, run in E.
    destruct (JsMap.get (_editMap this) variable) as [info|]; [|discriminate E].
    exact (removeConstraint_returns_optimal _ _ _ _ E).
  - exact optimal_only_dummies.
Qed.
End Optimal.

(** ** The loops of a row over its own cells *)

Section RowLoops.
Import Solver.
Local Open Scope float_scope.

Lemma has_map_cells f (l : JsMap.t Symbol.t float) k :
  JsMap.has (map_cells f l) k = JsMap.has l k.
Proof.
  unfold JsMap.has, map_cells.
  rewrite (get_map_values (fun _ c => f c)) by reflexivity.
  destruct (JsMap.get l k); reflexivity.
Qed.

Lemma not_In_has {V} (l : JsMap.t Symbol.t V) k :
  ~ In k (map fst l) -> JsMap.has l k = false.
Proof.
  intros N. apply has_false_not_In. intros k' v Hin ->. apply N.
  exact (in_map fst _ _ Hin).
Qed.

(** Setting a key that is there replaces its value in place. *)
Lemma set_middle {V} (l1 l2 : JsMap.t Symbol.t V) s c v :
  JsMap.has l1 s = false -> JsMap.set (l1 ++ (s, c) :: l2) s v = l1 ++ (s, v) :: l2.
Proof.
  intros H. induction l1 as [|[k0 v0] l1 IH]; cbn [app JsMap.set].
  - rewrite same_refl. reflexivity.
  - pose proof (has_false_all _ _ H (k0, v0) (or_introl eq_refl)) as E. cbn [fst] in E.
    rewrite E. f_equal. apply IH. unfold JsMap.has in *. rewrite get_cons, E in H. exact H.
Qed.

(** A loop that sets every key of the map it walks to [f] of its value. *)
Lemma update_loop_map (f : float -> float) l2 : forall l1 c0,
  NoDup (map fst (l1 ++ l2)) ->
  JsMap.forEach l2
    (fun this c sym => Row.mk (JsMap.set (Row._cellMap this) sym (f c)) (Row._constant this))
    (Row.mk (map_cells f l1 ++ l2) c0)
  = Row.mk (map_cells f (l1 ++ l2)) c0.
Proof.
  unfold JsMap.forEach. induction l2 as [|[s c] l2 IH]; intros l1 c0 N; cbn [fold_left fst snd].
  - rewrite !app_nil_r. reflexivity.
  - cbn [Row._cellMap Row._constant]. rewrite set_middle.
    + replace (map_cells f l1 ++ (s, f c) :: l2) with (map_cells f (l1 ++ [(s, c)]) ++ l2).
      * rewrite IH; [|rewrite <- app_assoc; exact N]. rewrite <- app_assoc. reflexivity.
      * unfold map_cells. rewrite map_app, <- app_assoc. reflexivity.
    + rewrite has_map_cells. apply not_In_has. rewrite map_app in N.
      apply NoDup_remove_2 in N. intros Hin. apply N. apply in_or_app. left. exact Hin.
Qed.

(** A loop that sets, in a map of other keys, every key of the map it
    walks. *)
Lemma copy_loop l2 : forall l1 c0,
  NoDup (map fst (l1 ++ l2)) ->
  JsMap.forEach l2
    (fun theCopy (coefficient : float) symbol =>
       Row.mk (JsMap.set (Row._cellMap theCopy) symbol coefficient) (Row._constant theCopy))
    (Row.mk l1 c0)
  = Row.mk (l1 ++ l2) c0.
Proof.
  unfold JsMap.forEach. induction l2 as [|[s c] l2 IH]; intros l1 c0 N; cbn [fold_left fst snd].
  - rewrite app_nil_r. reflexivity.
  - cbn [Row._cellMap Row._constant]. rewrite set_fresh.
    + rewrite IH; [|rewrite <- app_assoc; exact N]. rewrite <- app_assoc. reflexivity.
    + apply not_In_has. rewrite map_app in N.
      apply NoDup_remove_2 in N. intros Hin. apply N. apply in_or_app. left. exact Hin.
Qed.

Lemma opp_involutive (c : float) : - - c = c.
Proof. apply Prim2SF_inj. rewrite !opp_spec. apply SFopp_involutive. Qed.

Lemma copy_eq r : NoDup (map fst (Row.cells r)) -> Row.copy r = r.
Proof.
  intros N. unfold Row.copy, Row.new. rewrite (copy_loop _ [] _ N). destruct r. reflexivity.
Qed.

Lemma reverseSign_eq r :
  NoDup (map fst (Row.cells r)) ->
  Row.reverseSign r = Row.mk (map_cells (fun c => - c) (Row.cells r)) (- Row.constant r).
Proof.
  intros N. unfold Row.reverseSign. exact (update_loop_map (fun c => - c) _ [] _ N).
Qed.

Lemma solveFor_eq r s :
  NoDup (map fst (Row.cells r)) ->
  let coeff := -1 / Number.of_undefined (JsMap.get (Row.cells r) s) in
  Row.solveFor r s
  = Row.mk (map_cells (fun c => c * coeff) (JsMap.delete (Row.cells r) s))
      (Row.constant r * coeff).
Proof.
  intros N. unfold Row.solveFor. cbv zeta.
  apply (update_loop_map _ _ [] _). apply NoDup_delete. exact N.
Qed.

(** X12. The loops of [Row] over its own cells, for a row as a Map has
    it, with distinct keys: [copy] gives a row with the cells, in the same
    order, and the constant of the original; [reverseSign] negates every
    coefficient and the constant, keeps keys and order, and done twice
    gives the row back; [solveFor] drops the cell of the symbol and
    multiplies the constant and every other coefficient by
    [-1 / coefficient of the symbol], so the symbol has no cell left. *)
Theorem row_loops_are_maps :
  forall r : Row.t,
    NoDup (map fst (Row.cells r)) ->
    Row.copy r = r
    /\ Row.reverseSign r
       = Row.mk (map_cells (fun c => - c) (Row.cells r)) (- Row.constant r)
    /\ Row.reverseSign (Row.reverseSign r) = r
    /\ forall s,
         let coeff := -1 / Number.of_undefined (JsMap.get (Row.cells r) s) in
         Row.solveFor r s
         = Row.mk (map_cells (fun c => c * coeff) (JsMap.delete (Row.cells r) s))
             (Row.constant r * coeff)
         /\ Row.coefficientFor (Row.solveFor r s) s = 0.
Proof.
  intros r N. split; [exact (copy_eq r N)|]. split; [exact (reverseSign_eq r N)|]. split.
  - rewrite (reverseSign_eq r N). rewrite reverseSign_eq.
    + cbn [Row.cells Row._cellMap Row.constant Row._constant]. rewrite opp_involutive.
      destruct r as [cells c]. cbn [Row.cells Row._cellMap Row.constant Row._constant].
      f_equal. unfold map_cells. rewrite map_map. cbn [fst snd].
      clear N. induction cells as [|[k v] cells IH]; cbn [map fst snd]; [reflexivity|].
      rewrite opp_involutive, IH. reflexivity.
    + cbn [Row.cells Row._cellMap]. unfold map_cells. rewrite map_map. cbn [fst]. exact N.
  - intros s coeff. split; [exact (solveFor_eq r s N)|].
    unfold Row.coefficientFor. pose proof (solveFor_self r s) as G. unfold Row.cells in G.
    rewrite G. reflexivity.
Qed.

End RowLoops.

(** ** Cells that are not there *)

Section FreshCells.
Import Solver.
Local Open Scope float_scope.

(** Adding zero gives the number back, but for [-0]. *)
Lemma add_zero_r (c : float) : (c =? 0) = false -> c + 0 = c.
Proof.
  rewrite FloatAxioms.eqb_spec, Prim2SF_zero. intros Z. apply Prim2SF_inj.
  rewrite add_spec, Prim2SF_zero. unfold SF64add, SFadd.
  destruct (Prim2SF c) as [[]|[]| |[] m e]; try reflexivity; discriminate Z.
Qed.

Lemma zero_near_zero (c : float) : (c =? 0) = true -> nearZero c = true /\ nearZero (c + 0) = true.
Proof.
  rewrite FloatAxioms.eqb_spec, Prim2SF_zero. intros Z.
  assert (C : c = 0 \/ c = - 0).
  { destruct (Prim2SF c) as [[]|[]| |[] m e] eqn:E; try discriminate Z.
    - right. apply Prim2SF_inj. rewrite E. reflexivity.
    - left. apply Prim2SF_inj. rewrite E. reflexivity. }
  destruct C as [-> | ->]; split; reflexivity.
Qed.

Lemma nearZero_add_zero (c : float) : nearZero (c + 0) = nearZero c.
Proof.
  destruct (c =? 0) eqn:Z.
  - destruct (zero_near_zero c Z) as [-> ->]. reflexivity.
  - rewrite (add_zero_r c Z). reflexivity.
Qed.

Lemma not_near_zero_add (c : float) : nearZero c = false -> c + 0 = c.
Proof.
  intros N. apply add_zero_r. destruct (c =? 0) eqn:Z; [|reflexivity].
  destruct (zero_near_zero c Z) as [Z1 _]. congruence.
Qed.

Lemma insertSymbol_fresh r s c :
  JsMap.has (Row.cells r) s = false ->
  Row.insertSymbol r s c
  = if nearZero c then r else Row.mk (Row.cells r ++ [(s, c)]) (Row.constant r).
Proof.
  intros H. unfold Row.insertSymbol. cbv zeta.
  assert (G : JsMap.get (Row._cellMap r) s = None).
  { unfold JsMap.has, Row.cells in H. destruct (JsMap.get (Row._cellMap r) s); [discriminate|].
    reflexivity. }
  rewrite G. cbn [Number.or_zero]. rewrite nearZero_add_zero.
  destruct (nearZero c) eqn:N.
  - rewrite (delete_set_fresh _ _ _ H). destruct r. reflexivity.
  - rewrite (not_near_zero_add c N), (set_fresh _ _ _ H). reflexivity.
Qed.

(** X13. Cells that are not there. [coefficientFor] is never NaN, and is
    0 for a symbol without a cell. For such a symbol, [insertSymbol] with
    a coefficient that is near zero leaves the row as it is; with any
    other coefficient it appends the cell with that very coefficient,
    [removeSymbol] then gives the row back, and [coefficientFor] reads
    the coefficient, or 0 when it is NaN. *)
Theorem insertSymbol_on_fresh :
  forall (r : Row.t) (s : Symbol.t),
    is_nan (Row.coefficientFor r s) = false
    /\ (JsMap.has (Row.cells r) s = false ->
        Row.coefficientFor r s = 0
        /\ forall c,
             (nearZero c = true -> Row.insertSymbol r s c = r)
             /\ (nearZero c = false ->
                 Row.insertSymbol r s c
                 = Row.mk (Row.cells r ++ [(s, c)]) (Row.constant r)
                 /\ Row.removeSymbol (Row.insertSymbol r s c) s = r
                 /\ Row.coefficientFor (Row.insertSymbol r s c) s
                    = if is_nan c then 0 else c)).
Proof.
  intros r s. split; [apply or_zero_number|]. intros H.
  assert (G : JsMap.get (Row._cellMap r) s = None).
  { unfold JsMap.has, Row.cells in H. destruct (JsMap.get (Row._cellMap r) s); [discriminate|].
    reflexivity. }
  split; [unfold Row.coefficientFor; rewrite G; reflexivity|].
  intros c. rewrite (insertSymbol_fresh r s c H). split; intros N; rewrite N; [reflexivity|].
  split; [reflexivity|]. split.
  - unfold Row.removeSymbol. cbn [Row._cellMap Row._constant].
    rewrite <- (set_fresh _ _ c H), (delete_set_fresh _ _ _ H). destruct r. reflexivity.
  - unfold Row.coefficientFor. cbn [Row._cellMap].
    rewrite <- (set_fresh _ _ c H), get_set, same_refl. cbn [Number.or_zero].
    unfold Number.falsy. destruct (c =? 0) eqn:Z.
    + destruct (zero_near_zero c Z) as [Z1 _]. congruence.
    + cbn [orb]. reflexivity.
Qed.

End FreshCells.

(** ** Constraints below the required strength *)

Section Soft.
Import Solver.
Local Open Scope float_scope.
Variable required : float.
Variable clip : float -> float.

Lemma get_app_None {V} (l1 l2 : JsMap.t Symbol.t V) k :
  JsMap.get l1 k = None -> JsMap.get (l1 ++ l2) k = JsMap.get l2 k.
Proof.
  unfold JsMap.get. rewrite find_over_app.
  destruct (find (fun e => same (fst e) k) l1); [discriminate | reflexivity].
Qed.

Lemma has_get_None {V} (l : JsMap.t Symbol.t V) k : JsMap.get l k = None -> JsMap.has l k = false.
Proof. unfold JsMap.has. intros ->. reflexivity. Qed.

(** Two symbols that the row does not have, inserted one after the other,
    and the sign of the row reversed when its constant is negative. *)
Lemma two_fresh row a b ca cb :
  NoDup (map fst (Row.cells row)) ->
  JsMap.get (Row.cells row) a = None -> JsMap.get (Row.cells row) b = None -> a <> b ->
  nearZero ca = false -> nearZero cb = false ->
  let row2 := Row.insertSymbol (Row.insertSymbol row a ca) b cb in
  let final := if Row.constant row2 <? 0 then Row.reverseSign row2 else row2 in
  (Row.coefficientFor final a = Number.or_zero (Some ca)
   /\ Row.coefficientFor final b = Number.or_zero (Some cb))
  \/ (Row.coefficientFor final a = Number.or_zero (Some (- ca))
      /\ Row.coefficientFor final b = Number.or_zero (Some (- cb))).
Proof.
  intros N Ga Gb Nab Na Nb row2 final.
  assert (E2 : row2 = Row.mk (Row.cells row ++ [(a, ca); (b, cb)]) (Row.constant row)).
  { unfold row2. rewrite (insertSymbol_fresh row a ca (has_get_None _ _ Ga)), Na.
    rewrite insertSymbol_fresh, Nb.
    - cbn [Row.cells Row._cellMap Row.constant Row._constant]. rewrite <- app_assoc. reflexivity.
    - cbn [Row.cells Row._cellMap]. apply has_get_None. rewrite (get_app_None _ _ _ Gb).
      rewrite get_cons, get_nil. apply same_symbol_neq in Nab. rewrite Nab. reflexivity. }
  assert (Sba : same b a = false).
  { apply same_symbol_neq. intros ->. apply Nab. reflexivity. }
  assert (Sab : same a b = false) by (apply same_symbol_neq; exact Nab).
  assert (G2a : JsMap.get (Row.cells row ++ [(a, ca); (b, cb)]) a = Some ca).
  { rewrite (get_app_None _ _ _ Ga), get_cons, same_refl. reflexivity. }
  assert (G2b : JsMap.get (Row.cells row ++ [(a, ca); (b, cb)]) b = Some cb).
  { rewrite (get_app_None _ _ _ Gb), !get_cons, Sab, same_refl. reflexivity. }
  unfold final. destruct (Row.constant row2 <? 0).
  - right. rewrite reverseSign_eq.
    + rewrite E2. unfold Row.coefficientFor, map_cells.
      cbn [Row.cells Row._cellMap Row.constant Row._constant].
      rewrite !(get_map_values (fun _ c => - c)) by reflexivity.
      rewrite G2a, G2b. split; reflexivity.
    + rewrite E2. cbn [Row.cells Row._cellMap]. rewrite map_app. cbn [map fst].
      apply NoDup_app; [exact N | |].
      * constructor; [intros [H|[]]; apply Nab; symmetry; exact H|].
        constructor; [intros [] | constructor].
      * intros k Hk Hk'. apply in_map_iff in Hk. destruct Hk as [[k0 v0] [<- Hin]].
        cbn [fst] in Hk'. pose proof (In_get _ _ _ N Hin) as G.
        destruct Hk' as [<-|[<-|[]]]; congruence.
  - left. rewrite E2. unfold Row.coefficientFor. cbn [Row._cellMap].
    rewrite G2a, G2b. split; reflexivity.
Qed.

Lemma createRow_soft constraint this :
  well_formed this -> (Constraint.strength constraint <? required) = true ->
  let row := fst (fst (_createRow required constraint this)) in
  let tag := snd (fst (_createRow required constraint this)) in
  (is_type SymbolType.Slack (Tag.marker tag) || is_type SymbolType.Error (Tag.marker tag)) = true
  /\ (is_type SymbolType.Slack (Tag.other tag) || is_type SymbolType.Error (Tag.other tag)) = true
  /\ ((Row.coefficientFor row (Tag.marker tag) <? 0) = true
      \/ (Row.coefficientFor row (Tag.other tag) <? 0) = true).
Proof.
  intros W S. cbv zeta. unfold _createRow.
  destruct (createRow_terms_tidy (Expression.terms (Constraint.expression constraint))
              (Row.new (Expression.constant (Constraint.expression constraint))) this W
              (tidy_new _ _)) as (W1 & T1 & M1).
  cbv zeta in W1, T1, M1.
  destruct (JsMap.forEach _ _ _) as [row this1]. cbn [fst snd] in W1, T1, M1.
  cbv zeta. rewrite S.
  destruct T1 as (N & _ & U).
  assert (Fresh : forall type n, (_idTick this1 <= n)%Z ->
                    JsMap.get (Row.cells row) (Symbol.new type n) = None).
  { intros type n Hn. apply U. unfold unminted. cbn. exact Hn. }
  assert (Diff : forall t1 t2, Symbol.new t1 (_idTick this1) <> Symbol.new t2 (_idTick this1 + 1)).
  { intros t1 t2 E. inversion E. lia. }
  destruct (Constraint.op constraint); cbn [_makeSymbol fst snd Tag.marker Tag.other].
  all: fields; split; [reflexivity|]; split; [reflexivity|].
  all: match goal with
       | N : NoDup (map fst (Row.cells ?r)), Fresh : forall type n, _ -> _ = None,
         Diff : forall t1 t2, _ <> _
         |- context [Row.insertSymbol (Row.insertSymbol ?r ?a ?ca) ?b ?cb] =>
           destruct (two_fresh r a b ca cb N
                       (Fresh (Symbol.type a) (Symbol.id a) ltac:(cbn; lia))
                       (Fresh (Symbol.type b) (Symbol.id b) ltac:(cbn; lia)) (Diff _ _)
                       ltac:(vm_compute; reflexivity) ltac:(vm_compute; reflexivity))
             as [[Ha Hb]|[Ha Hb]]
       end.
  all: cbv zeta in Ha, Hb; rewrite Ha, Hb.
  all: first [left; vm_compute; reflexivity | right; vm_compute; reflexivity].
Qed.
Lemma typed_is_valid ty s :
  ty <> SymbolType.Invalid -> is_type ty s = true -> is_type SymbolType.Invalid s = false.
Proof.
  unfold is_type. intros N H. apply SymbolType_eqb_eq in H. rewrite H.
  destruct ty; try reflexivity. contradiction.
Qed.

Lemma pivotable_is_valid s :
  is_type SymbolType.Slack s || is_type SymbolType.Error s = true ->
  is_type SymbolType.Invalid s = false.
Proof.
  intros H. apply orb_true_iff in H.
  destruct H as [H|H]; [apply (typed_is_valid SymbolType.Slack)
                       | apply (typed_is_valid SymbolType.Error)]; try exact H; discriminate.
Qed.

Lemma chooseSubject_found row tag :
  is_type SymbolType.Slack (Tag.marker tag) || is_type SymbolType.Error (Tag.marker tag) = true ->
  is_type SymbolType.Slack (Tag.other tag) || is_type SymbolType.Error (Tag.other tag) = true ->
  (Row.coefficientFor row (Tag.marker tag) <? 0) = true
  \/ (Row.coefficientFor row (Tag.other tag) <? 0) = true ->
  is_type SymbolType.Invalid (_chooseSubject row tag) = false.
Proof.
  intros Pm Po C. unfold _chooseSubject.
  rewrite (first_symbol_scan (fun _ s => is_type SymbolType.External s)).
  2:{ intros _ s H. apply (typed_not_invalid SymbolType.External); [discriminate | exact H]. }
  change (same INVALID_SYMBOL INVALID_SYMBOL) with true. cbv iota.
  destruct (find (fun e => is_type SymbolType.External (fst e)) (Row.cells row))
    as [cell|] eqn:F.
  - apply find_some in F. destruct F as [_ F].
    rewrite (typed_not_invalid SymbolType.External (fst cell)); [|discriminate | exact F].
    cbn [negb]. apply (typed_is_valid SymbolType.External); [discriminate | exact F].
  - change (same INVALID_SYMBOL INVALID_SYMBOL) with true. cbn [negb].
    rewrite Pm, Po. cbn [andb].
    destruct (Row.coefficientFor row (Tag.marker tag) <? 0); [exact (pivotable_is_valid _ Pm)|].
    destruct C as [C|C]; [discriminate C|]. rewrite C. exact (pivotable_is_valid _ Po).
Qed.

(** X14. A constraint below the required strength is never rejected as
    unsatisfiable: added to a solver reached by calls, it is registered
    when the call ends, whatever the outcome, and the call throws nothing
    but [duplicate constraint] and [the objective is unbounded]. *)
Theorem soft_constraints_are_taken :
  forall fuel constraint this r this',
    reachable required clip this ->
    (Constraint.strength constraint <? required) = true ->
    addConstraint required fuel constraint this = (r, this') ->
    hasConstraint constraint this' = true
    /\ forall message,
         r = Throw message ->
         message = "duplicate constraint"%string
         \/ message = "the objective is unbounded"%string.
Proof.
  intros fuel constraint this r this' Hreach S E.
  pose proof (reachable_well_formed _ _ _ Hreach) as W.
  unfold addConstraint, bind, gets, throw, ret, run in E. unfold hasConstraint.
  destruct (JsMap.has (_cnMap this) constraint) eqn:Hhas.
  - inversion E; subst. split; [exact Hhas|]. intros message M. inversion M. left. reflexivity.
  - pose proof (createRow_soft constraint this W S) as (Pm & Po & C). cbv zeta in Pm, Po, C.
    destruct (_createRow required constraint this) as [[row tag] this1].
    cbn [fst snd] in E, Pm, Po, C.
    rewrite (chooseSubject_found row tag Pm Po C) in E. cbn [andb] in E.
    rewrite (chooseSubject_found row tag Pm Po C) in E.
    match type of E with _optimize fuel TheObjective ?s = _ =>
      destruct (optimize_maps_kept _ _ _ _ _ E) as (Cn & _);
      change (_cnMap s) with (JsMap.set (_cnMap (_substitute (_chooseSubject row tag)
                  (Row.solveFor row (_chooseSubject row tag)) this1)) constraint tag) in Cn
    end.
    split.
    + rewrite Cn, has_set, same_refl. reflexivity.
    + intros message ->. right. exact (optimize_error _ _ _ _ _ E).
Qed.

End Soft.

(** ** The types of the symbols *)

Section Types.
Import Solver.
Local Open Scope float_scope.
Variable required : float.
Variable clip : float -> float.

Lemma valid_not_invalid k : is_type SymbolType.Invalid k = false -> ~ invalid k.
Proof. unfold invalid. intros H H'. congruence. Qed.

Lemma typed_ext a b :
  _rowMap b = _rowMap a -> _objective b = _objective a -> _artificial b = _artificial a ->
  _varMap b = _varMap a -> _cnMap b = _cnMap a -> typed a -> typed b.
Proof.
  destruct a, b. cbn. intros -> -> -> -> -> [H1 H2 H3 H4 H5]. constructor; assumption.
Qed.

Lemma typed_new : typed Solver.new.
Proof.
  constructor; cbn.
  - intros key row [].
  - intros k _. reflexivity.
  - discriminate.
  - intros variable symbol [].
  - intros constraint tag [].
Qed.

Lemma typed_with_objective this row :
  typed this -> avoids invalid row -> typed (with_objective this row).
Proof. intros [H1 H2 H3 H4 H5] A. constructor; assumption. Qed.

Lemma typed_with_artificial this a :
  typed this -> (forall row, a = Some row -> avoids invalid row) ->
  typed (with_artificial this a).
Proof. intros [H1 H2 H3 H4 H5] A. constructor; assumption. Qed.

Lemma typed_rows this rows :
  typed this ->
  (forall key row, In (key, row) rows ->
                   is_type SymbolType.Invalid key = false /\ avoids invalid row) ->
  typed (with_rowMap this rows).
Proof. intros [H1 H2 H3 H4 H5] A. constructor; assumption. Qed.

Lemma typed_set_row this s row :
  typed this -> is_type SymbolType.Invalid s = false -> avoids invalid row ->
  typed (with_rowMap this (JsMap.set (_rowMap this) s row)).
Proof.
  intros T V A. apply typed_rows; [exact T|]. intros key r Hin.
  apply In_set in Hin. destruct Hin as [Hin|[-> S]].
  - exact (ty_rows _ T _ _ Hin).
  - apply same_symbol_eq in S. subst key. split; assumption.
Qed.

Lemma typed_delete_row this k :
  typed this -> typed (with_rowMap this (JsMap.delete (_rowMap this) k)).
Proof.
  intros T. apply typed_rows; [exact T|]. intros key r Hin.
  apply In_delete in Hin. exact (ty_rows _ T _ _ (proj1 Hin)).
Qed.

Lemma typed_map_rows this (f : Row.t -> Row.t) :
  typed this -> (forall row, avoids invalid row -> avoids invalid (f row)) ->
  typed (with_rowMap this (map_rows (fun _ r => f r) (_rowMap this))).
Proof.
  intros T F. apply typed_rows; [exact T|]. intros key r Hin.
  unfold map_rows in Hin. apply in_map_iff in Hin. destruct Hin as [[k0 r0] [E Hin]].
  cbn [fst snd] in E. inversion E; subst.
  destruct (ty_rows _ T _ _ Hin) as [V A]. split; [exact V | apply F; exact A].
Qed.

Lemma typed_substitute s row this :
  typed this -> avoids invalid row -> typed (_substitute s row this).
Proof.
  intros T A. destruct (substitute_kept s row this) as (Cn & Vm & _ & _). constructor.
  - intros key r Hin. rewrite substitute_rowMap in Hin.
    unfold map_rows in Hin. apply in_map_iff in Hin. destruct Hin as [[k0 r0] [E Hin]].
    cbn [fst snd] in E. inversion E; subst.
    destruct (ty_rows _ T _ _ Hin) as [V A0]. split; [exact V|].
    apply avoids_substitute; assumption.
  - rewrite substitute_objective. apply avoids_substitute; [exact (ty_objective _ T) | exact A].
  - intros a Ha. rewrite substitute_artificial in Ha.
    destruct (_artificial this) as [a0|] eqn:Ar; [|discriminate Ha].
    cbn in Ha. inversion Ha; subst.
    apply avoids_substitute; [exact (ty_artificial _ T _ Ar) | exact A].
  - rewrite Vm. exact (ty_vars _ T).
  - rewrite Cn. exact (ty_tags _ T).
Qed.

(** A row without Invalid symbols, solved for a valid symbol, enters the
    basis under it. *)
Lemma typed_enter this r s :
  typed this -> avoids invalid r -> is_type SymbolType.Invalid s = false ->
  let r' := Row.solveFor r s in
  let this1 := _substitute s r' this in
  typed (with_rowMap this1 (JsMap.set (_rowMap this1) s r')).
Proof.
  intros T A V r' this1.
  assert (A' : avoids invalid r') by (apply avoids_solveFor; exact A).
  apply typed_set_row; [apply typed_substitute; assumption | exact V | exact A'].
Qed.

Lemma typed_basic this key row :
  typed this -> JsMap.get (_rowMap this) key = Some row ->
  is_type SymbolType.Invalid key = false /\ avoids invalid row.
Proof. intros T G. exact (ty_rows _ T _ _ (basic_In _ _ _ G)). Qed.

Lemma typed_leaving this leaving row :
  typed this -> JsMap.get (_rowMap this) leaving = Some row ->
  avoids invalid (Row.insertSymbol row leaving (-1)).
Proof.
  intros T G. destruct (typed_basic _ _ _ T G) as [V A].
  apply avoids_insertSymbol; [exact A | apply valid_not_invalid; exact V].
Qed.

Lemma typed_pivot leaving entering this r this' :
  typed this -> is_type SymbolType.Invalid entering = false ->
  pivot leaving entering this = (r, this') -> typed this'.
Proof.
  intros T V E. unfold pivot in E.
  destruct (JsMap.get (_rowMap this) leaving) as [row|] eqn:G; inversion E; subst; clear E.
  - apply (typed_enter (with_rowMap this (JsMap.delete (_rowMap this) leaving))
             (Row.insertSymbol row leaving (-1)) entering).
    + apply typed_delete_row. exact T.
    + exact (typed_leaving _ _ _ T G).
    + exact V.
  - apply typed_delete_row. exact T.
Qed.

Lemma optimize_typed fuel which : keeps_types (_optimize fuel which).
Proof.
  induction fuel as [|fuel IH]; intros this r this' E T; cbn [_optimize] in E.
  - inversion E; subst. exact T.
  - unfold bind, gets, ret, throw in E.
    destruct (is_type SymbolType.Invalid (_getEnteringSymbol (objective_of which this))) eqn:V.
    + inversion E; subst. exact T.
    + destruct (is_type SymbolType.Invalid
                  (_getLeavingSymbol (_getEnteringSymbol (objective_of which this)) this)).
      * inversion E; subst. exact T.
      * destruct (pivot _ _ this) as [[[]|m|] this1] eqn:P;
          pose proof (typed_pivot _ _ _ _ _ T V P) as T1.
        -- exact (IH _ _ _ E T1).
        -- inversion E; subst. exact T1.
        -- inversion E; subst. exact T1.
Qed.

Lemma typed_with_infeasibleRows this l : typed this -> typed (with_infeasibleRows this l).
Proof. apply typed_ext; reflexivity. Qed.

Lemma typed_with_editMap this m : typed this -> typed (with_editMap this m).
Proof. apply typed_ext; reflexivity. Qed.

Lemma dualOptimize_typed fuel : keeps_types (_dualOptimize fuel).
Proof.
  induction fuel as [|fuel IH]; intros this r this' E T; cbn [_dualOptimize] in E.
  - inversion E; subst. exact T.
  - destruct (pop (_infeasibleRows this)) as [[leaving rest]|].
    + pose proof (typed_with_infeasibleRows this rest T) as T0. fields.
      destruct (JsMap.get (_rowMap this) leaving) as [row|] eqn:G.
      * destruct (Row.constant row <? 0).
        -- destruct (is_type SymbolType.Invalid
                       (_getDualEnteringSymbol row (with_infeasibleRows this rest))) eqn:V.
           ++ inversion E; subst. exact T0.
           ++ unfold bind in E.
              destruct (pivot _ _ (with_infeasibleRows this rest)) as [[[]|m|] this1] eqn:P;
                pose proof (typed_pivot _ _ _ _ _ T0 V P) as T1.
              ** exact (IH _ _ _ E T1).
              ** inversion E; subst. exact T1.
              ** inversion E; subst. exact T1.
        -- exact (IH _ _ _ E T0).
      * exact (IH _ _ _ E T0).
    + inversion E; subst. exact T.
Qed.

Lemma typed_getVarSymbol variable this :
  typed this ->
  typed (snd (_getVarSymbol variable this))
  /\ is_type SymbolType.External (fst (_getVarSymbol variable this)) = true
  /\ _rowMap (snd (_getVarSymbol variable this)) = _rowMap this.
Proof.
  intros T. unfold _getVarSymbol.
  destruct (JsMap.get (_varMap this) variable) as [symbol|] eqn:G; cbn [fst snd].
  - split; [exact T|]. split; [|reflexivity].
    apply get_In in G. destruct G as [k0 [Hin _]]. exact (ty_vars _ T _ _ Hin).
  - cbn [_makeSymbol fst snd]. split; [|split; reflexivity].
    destruct T as [H1 H2 H3 H4 H5]. constructor; try assumption. fields.
    intros v s Hin. apply In_set in Hin. destruct Hin as [Hin|[-> _]].
    + exact (H4 _ _ Hin).
    + reflexivity.
Qed.

Lemma external_valid s :
  is_type SymbolType.External s = true -> is_type SymbolType.Invalid s = false.
Proof. apply typed_is_valid. discriminate. Qed.

(** The loop of [_createRow] over the terms of the expression. *)
Lemma createRow_terms_typed terms row this :
  typed this -> avoids invalid row ->
  let result :=
    JsMap.forEach terms
      (fun '(row, this) coefficient variable =>
         if negb (nearZero coefficient) then
           let '(symbol, this) := _getVarSymbol variable this in
           match JsMap.get (_rowMap this) symbol with
           | Some basicRow => (Row.insertRow row basicRow coefficient, this)
           | None => (Row.insertSymbol row symbol coefficient, this)
           end
         else (row, this))
      (row, this) in
  typed (snd result) /\ avoids invalid (fst result).
Proof.
  unfold JsMap.forEach. revert row this.
  induction terms as [|[variable coefficient] terms IH]; intros row this T A;
    cbn [fold_left fst snd].
  - cbv zeta. split; assumption.
  - destruct (negb (nearZero coefficient)); [|apply IH; assumption].
    destruct (typed_getVarSymbol variable this T) as (T1 & X1 & R1).
    destruct (_getVarSymbol variable this) as [symbol this1]. cbn [fst snd] in *.
    destruct (JsMap.get (_rowMap this1) symbol) as [basicRow|] eqn:G.
    + apply IH; [exact T1|]. apply avoids_insertRow; [exact A|].
      exact (proj2 (typed_basic _ _ _ T1 G)).
    + apply IH; [exact T1|]. apply avoids_insertSymbol; [exact A|].
      apply valid_not_invalid. apply external_valid. exact X1.
Qed.

Lemma avoids_new (P : Symbol.t -> Prop) c : avoids P (Row.new c).
Proof. intros k _. reflexivity. Qed.

Lemma createRow_typed constraint this :
  typed this ->
  let result := _createRow required constraint this in
  typed (snd result)
  /\ avoids invalid (fst (fst result))
  /\ is_type SymbolType.Invalid (Tag.marker (snd (fst result))) = false.
Proof.
  intros T. cbv zeta. unfold _createRow.
  destruct (createRow_terms_typed (Expression.terms (Constraint.expression constraint))
              (Row.new (Expression.constant (Constraint.expression constraint))) this T
              (avoids_new _ _)) as (T1 & A1).
  cbv zeta in T1, A1.
  destruct (JsMap.forEach _ _ _) as [row this1]. cbn [fst snd] in T1, A1.
  assert (Rev : forall r, avoids invalid r ->
                  avoids invalid (if Row.constant r <? 0 then Row.reverseSign r else r)).
  { intros r A. destruct (Row.constant r <? 0); [apply avoids_reverseSign|]; exact A. }
  assert (Ins : forall r ty n c, ty <> SymbolType.Invalid -> avoids invalid r ->
                  avoids invalid (Row.insertSymbol r (Symbol.new ty n) c)).
  { intros r ty n c N A. apply avoids_insertSymbol; [exact A|].
    unfold invalid, is_type. cbn. destruct ty; try discriminate. contradiction. }
  cbv zeta.
  destruct (Constraint.op constraint), (Constraint.strength constraint <? required);
    cbn [_makeSymbol fst snd Tag.marker Tag.other]; fields.
  all: split; [|split; [apply Rev; repeat (apply Ins; [discriminate|]); exact A1
                       | reflexivity]].
  all: repeat (apply typed_with_objective; [|repeat (apply Ins; [discriminate|])]);
    fields; try exact (ty_objective _ T1);
    try (apply (typed_ext this1); try reflexivity; exact T1).
Qed.

Lemma typed_remove_art this art :
  typed this ->
  let this1 :=
    with_rowMap this
      (JsMap.forEach (_rowMap this)
         (fun rowMap row2 symbol => rowMap ++ [(symbol, Row.removeSymbol row2 art)]) []) in
  typed (with_objective this1 (Row.removeSymbol (_objective this1) art)).
Proof.
  intros T this1. unfold this1. rewrite remove_loop. cbn [app]. fields.
  apply typed_with_objective.
  - apply typed_map_rows; [exact T|]. intros row A. apply avoids_removeSymbol. exact A.
  - fields. apply avoids_removeSymbol. exact (ty_objective _ T).
Qed.

Lemma addWithArtificialVariable_typed fuel row this r this' :
  _addWithArtificialVariable fuel row this = (r, this') ->
  typed this -> avoids invalid row -> typed this'.
Proof.
  intros E T A. unfold _addWithArtificialVariable, bind, run, gets, ret in E.
  cbn [_makeSymbol] in E.
  match type of E with context [_optimize fuel TheArtificial ?s] => set (s3 := s) in * end.
  assert (T3 : typed s3).
  { unfold s3. apply typed_with_artificial.
    - apply typed_set_row.
      + apply (typed_ext this); try reflexivity. exact T.
      + reflexivity.
      + apply avoids_copy. exact A.
    - intros a Ha. inversion Ha. apply avoids_copy. exact A. }
  destruct (_optimize fuel TheArtificial s3) as [[[]|m|] s4] eqn:O;
    pose proof (optimize_typed _ _ _ _ _ O T3) as T4;
    [|inversion E; subst; exact T4..].
  assert (T5 : typed (with_artificial s4 None))
    by (apply typed_with_artificial; [exact T4 | discriminate]).
  fields.
  match type of E with context [JsMap.get (_rowMap s4) ?a] => set (art := a) in * end.
  destruct (JsMap.get (_rowMap s4) art) as [basicRow|] eqn:G.
  - pose proof (typed_delete_row _ art T5) as T6. fields.
    destruct (Row.isConstant basicRow).
    + inversion E; subst. exact T6.
    + destruct (is_type SymbolType.Invalid (_anyPivotableSymbol basicRow)) eqn:Ty.
      * inversion E; subst. exact T6.
      * assert (T7 := typed_enter _ (Row.insertSymbol basicRow art (-1))
                        (_anyPivotableSymbol basicRow) T6
                        (typed_leaving (with_artificial s4 None) art basicRow T5 G) Ty).
        cbv zeta in T7. pose proof (typed_remove_art _ art T7) as T8. cbv zeta in T8.
        inversion E; subst; clear E. exact T8.
  - pose proof (typed_remove_art _ art T5) as T8. cbv zeta in T8.
    inversion E; subst; clear E. exact T8.
Qed.

Lemma typed_set_cn this constraint tag :
  typed this -> is_type SymbolType.Invalid (Tag.marker tag) = false ->
  typed (with_cnMap this (JsMap.set (_cnMap this) constraint tag)).
Proof.
  intros [H1 H2 H3 H4 H5] V. constructor; try assumption. fields.
  intros c t Hin. apply In_set in Hin. destruct Hin as [Hin|[-> _]]; [exact (H5 _ _ Hin) | exact V].
Qed.

Lemma typed_delete_cn this constraint :
  typed this -> typed (with_cnMap this (JsMap.delete (_cnMap this) constraint)).
Proof.
  intros [H1 H2 H3 H4 H5]. constructor; try assumption. fields.
  intros c t Hin. apply In_delete in Hin. exact (H5 _ _ (proj1 Hin)).
Qed.

Lemma addConstraint_typed fuel constraint :
  keeps_types (addConstraint required fuel constraint).
Proof.
  intros this r this' E T. unfold addConstraint, bind, gets, throw, ret, run in E.
  destruct (JsMap.has (_cnMap this) constraint); [inversion E; subst; exact T|].
  destruct (createRow_typed constraint this T) as (T1 & A1 & Vm). cbv zeta in T1, A1, Vm.
  destruct (_createRow required constraint this) as [[row tag] this1].
  cbn [fst snd] in *.
  assert (Direct : forall subject r this',
             is_type SymbolType.Invalid subject = false ->
             (let this2 := _substitute subject (Row.solveFor row subject) this1 in
              let this3 :=
                with_rowMap this2
                  (JsMap.set (_rowMap this2) subject (Row.solveFor row subject)) in
              _optimize fuel TheObjective
                (with_cnMap this3 (JsMap.set (_cnMap this3) constraint tag)))
             = (r, this') ->
             typed this').
  { intros subject r0 this0 Ty E0. cbv zeta in E0.
    pose proof (typed_enter this1 row subject T1 A1 Ty) as T3. cbv zeta in T3.
    exact (optimize_typed _ _ _ _ _ E0 (typed_set_cn _ constraint tag T3 Vm)). }
  assert (Art : forall r this',
             (match _addWithArtificialVariable fuel row this1 with
              | (Return a, s) =>
                  (if a : bool
                   then fun this => (Return tt, this)
                   else fun this => (Throw "unsatisfiable constraint", this)) s
              | (Throw message, s) => (Throw message, s)
              | (OutOfFuel, s) => (OutOfFuel, s)
              end) = (r, this') -> typed this').
  { intros r0 this0 E0.
    destruct (_addWithArtificialVariable fuel row this1) as [[[]|m|] s] eqn:AV;
      pose proof (addWithArtificialVariable_typed _ _ _ _ _ AV T1 A1) as T2;
      inversion E0; subst; exact T2. }
  destruct (is_type SymbolType.Invalid (_chooseSubject row tag) && Row.allDummies row).
  - destruct (negb (nearZero (Row.constant row))).
    + inversion E; subst. exact T1.
    + rewrite Vm in E. exact (Direct _ _ _ Vm E).
  - destruct (is_type SymbolType.Invalid (_chooseSubject row tag)) eqn:Ty.
    + match type of E with
      | match ?c with _ => _ end = _ =>
          destruct c as [[[]|m|] s] eqn:C; [|inversion E; subst; exact (Art _ _ C)..]
      end.
      pose proof (Art _ _ C) as T2.
      exact (optimize_typed _ _ _ _ _ E (typed_set_cn _ constraint tag T2 Vm)).
    + exact (Direct _ _ _ Ty E).
Qed.

Lemma typed_removeMarkerEffects marker strength this :
  typed this -> is_type SymbolType.Error marker = true ->
  typed (_removeMarkerEffects marker strength this).
Proof.
  intros T X. unfold _removeMarkerEffects.
  destruct (JsMap.get (_rowMap this) marker) as [row|] eqn:G.
  - apply typed_with_objective; [exact T|].
    apply avoids_insertRow; [exact (ty_objective _ T) | exact (proj2 (typed_basic _ _ _ T G))].
  - apply typed_with_objective; [exact T|].
    apply avoids_insertSymbol; [exact (ty_objective _ T)|].
    apply valid_not_invalid. apply (typed_is_valid SymbolType.Error); [discriminate | exact X].
Qed.

Lemma typed_removeConstraintEffects cn tag this :
  typed this -> typed (_removeConstraintEffects cn tag this).
Proof.
  intros T. unfold _removeConstraintEffects.
  destruct (is_type SymbolType.Error (Tag.marker tag)) eqn:Xm.
  - pose proof (typed_removeMarkerEffects _ (Constraint.strength cn) _ T Xm) as T1.
    destruct (is_type SymbolType.Error (Tag.other tag)) eqn:Xo; [|exact T1].
    exact (typed_removeMarkerEffects _ _ _ T1 Xo).
  - destruct (is_type SymbolType.Error (Tag.other tag)) eqn:Xo; [|exact T].
    exact (typed_removeMarkerEffects _ _ _ T Xo).
Qed.

Lemma removeConstraint_typed fuel constraint : keeps_types (removeConstraint fuel constraint).
Proof.
  intros this r this' E T. unfold removeConstraint, bind, gets, throw, ret, run in E.
  destruct (JsMap.get (_cnMap this) constraint) as [tag|] eqn:G;
    [|inversion E; subst; exact T].
  apply get_In in G. destruct G as [c0 [Hin _]].
  pose proof (ty_tags _ T _ _ Hin) as Vm.
  pose proof (typed_delete_cn this constraint T) as T1.
  pose proof (typed_removeConstraintEffects constraint tag _ T1) as T2.
  match type of T2 with typed ?s => set (s2 := s) in * end.
  pose proof (typed_delete_row s2 (Tag.marker tag) T2) as T3.
  match type of T3 with typed ?s => set (s3 := s) in * end.
  destruct (negb (JsMap.has (_rowMap s2) (Tag.marker tag))).
  - destruct (is_type SymbolType.Invalid (_getMarkerLeavingSymbol (Tag.marker tag) s3)).
    + inversion E; subst. exact T3.
    + pose proof (typed_delete_row s3 (_getMarkerLeavingSymbol (Tag.marker tag) s3) T3) as T4.
      destruct (JsMap.get (_rowMap s3) (_getMarkerLeavingSymbol (Tag.marker tag) s3))
        as [row|] eqn:Gr.
      * refine (optimize_typed _ _ _ _ _ E _). apply typed_substitute; [exact T4|].
        unfold Row.solveForEx. apply avoids_solveFor. exact (typed_leaving _ _ _ T3 Gr).
      * inversion E; subst. exact T4.
  - exact (optimize_typed _ _ _ _ _ E T3).
Qed.

Lemma addEditVariable_typed fuel cn_id variable strength :
  keeps_types (addEditVariable required clip fuel cn_id variable strength).
Proof.
  intros this r this' E T. unfold addEditVariable, bind, gets, throw, ret, run in E.
  destruct (JsMap.has (_editMap this) variable); [inversion E; subst; exact T|].
  destruct (clip strength =? required); [inversion E; subst; exact T|].
  match type of E with context [addConstraint required fuel ?cn this] =>
    destruct (addConstraint required fuel cn this) as [[[]|m|] this1] eqn:A;
    pose proof (addConstraint_typed _ _ _ _ _ A T) as T1;
    [|inversion E; subst; exact T1..];
    destruct (JsMap.get (_cnMap this1) cn)
  end.
  - inversion E; subst. apply typed_with_editMap. exact T1.
  - inversion E; subst. exact T1.
Qed.

Lemma removeEditVariable_typed fuel variable : keeps_types (removeEditVariable fuel variable).
Proof.
  intros this r this' E T. unfold removeEditVariable, bind, gets, throw, ret, run in E.
  destruct (JsMap.get (_editMap this) variable) as [info|]; [|inversion E; subst; exact T].
  exact (removeConstraint_typed _ _ _ _ _ E (typed_with_editMap _ _ T)).
Qed.

Lemma avoids_add (P : Symbol.t -> Prop) row d : avoids P row -> avoids P (Row.add row d).
Proof. intros A k Hk. exact (A k Hk). Qed.

(** The constant of a basic row is changed. *)
Lemma typed_bump this key row d :
  typed this -> JsMap.get (_rowMap this) key = Some row ->
  typed (with_rowMap this (JsMap.set (_rowMap this) key (Row.add row d))).
Proof.
  intros T G. destruct (typed_basic _ _ _ T G) as [V A].
  apply typed_set_row; [exact T | exact V | apply avoids_add; exact A].
Qed.

Lemma suggestValue_typed fuel variable value : keeps_types (suggestValue fuel variable value).
Proof.
  intros this r this' E T. unfold suggestValue, bind, gets, throw, ret, run in E.
  destruct (JsMap.get (_editMap this) variable) as [info|]; [|inversion E; subst; exact T].
  match type of E with context [with_editMap this ?m] =>
    pose proof (typed_with_editMap this m T) as T1; set (s1 := with_editMap this m) in *
  end.
  destruct (JsMap.get (_rowMap s1) (Tag.marker (EditInfo.tag info))) as [row|] eqn:G1.
  - pose proof (typed_bump s1 _ row (- (value - EditInfo.constant info)) T1 G1) as T2.
    destruct (Row.constant (Row.add row (- (value - EditInfo.constant info))) <? 0).
    + exact (dualOptimize_typed _ _ _ _ E (typed_with_infeasibleRows _ _ T2)).
    + exact (dualOptimize_typed _ _ _ _ E T2).
  - destruct (JsMap.get (_rowMap s1) (Tag.other (EditInfo.tag info))) as [row|] eqn:G2.
    + pose proof (typed_bump s1 _ row (value - EditInfo.constant info) T1 G2) as T2.
      destruct (Row.constant (Row.add row (value - EditInfo.constant info)) <? 0).
      * exact (dualOptimize_typed _ _ _ _ E (typed_with_infeasibleRows _ _ T2)).
      * exact (dualOptimize_typed _ _ _ _ E T2).
    + rewrite suggest_loop in E. cbn [app] in E.
      refine (dualOptimize_typed _ _ _ _ E _).
      apply typed_with_infeasibleRows.
      apply (typed_map_rows s1
               (fun row =>
                  if negb (Row.coefficientFor row (Tag.marker (EditInfo.tag info)) =? 0)
                  then Row.add row ((value - EditInfo.constant info)
                                    * Row.coefficientFor row (Tag.marker (EditInfo.tag info)))
                  else row)); [exact T1|].
      intros row A. destruct (negb _); [apply avoids_add|]; exact A.
Qed.

Lemma reachable_typed this : reachable required clip this -> typed this.
Proof.
  induction 1 as [|fuel constraint this r this' _ IH E|fuel constraint this r this' _ IH E
                  |fuel cn_id variable strength this r this' _ IH E
                  |fuel variable this r this' _ IH E|fuel variable value this r this' _ IH E].
  - exact typed_new.
  - exact (addConstraint_typed _ _ _ _ _ E IH).
  - exact (removeConstraint_typed _ _ _ _ _ E IH).
  - exact (addEditVariable_typed _ _ _ _ _ _ _ E IH).
  - exact (removeEditVariable_typed _ _ _ _ _ E IH).
  - exact (suggestValue_typed _ _ _ _ _ _ E IH).
Qed.

Lemma avoids_invalid_In row s c :
  avoids invalid row -> In (s, c) (Row.cells row) -> is_type SymbolType.Invalid s = false.
Proof.
  intros A Hin. pose proof (avoids_In _ _ _ _ A Hin) as N. unfold invalid in N.
  destruct (is_type SymbolType.Invalid s); [exfalso; apply N; reflexivity | reflexivity].
Qed.

(** X15. The Invalid symbol stays out of the tableau. In every solver
    reached from [new Solver()] by public calls, whatever their outcomes:
    no row of the basis is under a symbol of the Invalid type, no row of
    the basis and not the objective has a cell for one, the symbol of a
    variable is External, and the marker of a registered constraint is
    not Invalid. So the entering symbol is the first symbol of the
    objective that is not a Dummy and has a negative coefficient; and
    when the objective has no entering symbol, as on return from the
    calls that add and remove, each of its negative coefficients belongs
    to a Dummy. *)
Theorem invalid_symbol_stays_out :
  forall this : Solver.t,
    reachable required clip this ->
    (forall key row,
        basic this key row ->
        is_type SymbolType.Invalid key = false
        /\ forall symbol c,
             In (symbol, c) (Row.cells row) -> is_type SymbolType.Invalid symbol = false)
    /\ (forall symbol c,
           In (symbol, c) (Row.cells (_objective this)) ->
           is_type SymbolType.Invalid symbol = false)
    /\ (forall variable symbol,
           JsMap.get (_varMap this) variable = Some symbol ->
           is_type SymbolType.External symbol = true)
    /\ (forall constraint tag,
           JsMap.get (_cnMap this) constraint = Some tag ->
           is_type SymbolType.Invalid (Tag.marker tag) = false)
    /\ _getEnteringSymbol (_objective this) = getEnteringSymbol_spec (_objective this)
    /\ (optimal this ->
        forall symbol c,
          In (symbol, c) (Row.cells (_objective this)) ->
          (c <? 0) = true -> is_type SymbolType.Dummy symbol = true).
Proof.
  intros this Hreach. pose proof (reachable_typed this Hreach) as T.
  assert (O : forall symbol c,
             In (symbol, c) (Row.cells (_objective this)) ->
             is_type SymbolType.Invalid symbol = false).
  { intros symbol c Hin. exact (avoids_invalid_In _ _ _ (ty_objective _ T) Hin). }
  split; [|split; [exact O | split; [|split; [|split]]]].
  - intros key row B. destruct (typed_basic _ _ _ T B) as [V A]. split; [exact V|].
    intros symbol c Hin. exact (avoids_invalid_In _ _ _ A Hin).
  - intros variable symbol G. apply get_In in G. destruct G as [k0 [Hin _]].
    exact (ty_vars _ T _ _ Hin).
  - intros constraint tag G. apply get_In in G. destruct G as [k0 [Hin _]].
    exact (ty_tags _ T _ _ Hin).
  - apply entering_scan_spec. intros c Hin. pose proof (O _ _ Hin) as X. discriminate X.
  - intros Opt. exact (optimal_only_dummies this Opt O).
Qed.

End Types.

(** ** Pivots *)

Section Pivots.
Import Solver.
Local Open Scope float_scope.

Lemma get_map_rows (f : Row.t -> Row.t) rows k :
  JsMap.get (map_rows (fun _ r => f r) rows) k = option_map f (JsMap.get rows k).
Proof. unfold map_rows. apply (get_map_values (fun _ r => f r)). reflexivity. Qed.

Lemma substitute_absent r s row :
  JsMap.get (Row.cells r) s = None -> Row.substitute r s row = r.
Proof. unfold Row.substitute, Row.cells. intros ->. reflexivity. Qed.

(** X16. A pivot exchanges two symbols. When [leaving] has a row and
    [entering] has none, the pivot returns; afterwards [entering] has the
    row of [leaving] solved for it, [leaving] has no row, every other
    symbol has a row exactly when it had one, no row of the basis and not
    the objective has a cell for [entering], and the rows that had no
    cell for [entering] are as before. *)
Theorem pivot_exchanges_symbols :
  forall (leaving entering : Symbol.t) (this : Solver.t) (row : Row.t),
    JsMap.get (_rowMap this) leaving = Some row ->
    JsMap.has (_rowMap this) entering = false ->
    let this' := snd (pivot leaving entering this) in
    fst (pivot leaving entering this) = Return tt
    /\ JsMap.get (_rowMap this') entering = Some (Row.solveForEx row leaving entering)
    /\ JsMap.has (_rowMap this') leaving = false
    /\ (forall key,
           key <> leaving -> key <> entering ->
           JsMap.has (_rowMap this') key = JsMap.has (_rowMap this) key)
    /\ (forall key r, basic this' key r -> JsMap.get (Row.cells r) entering = None)
    /\ JsMap.get (Row.cells (_objective this')) entering = None
    /\ (forall key r,
           basic this key r -> key <> leaving ->
           JsMap.get (Row.cells r) entering = None -> basic this' key r).
Proof.
  intros leaving entering this row G H. cbv zeta. unfold pivot. rewrite G. cbn [fst snd].
  set (row' := Row.solveForEx row leaving entering).
  assert (Self : JsMap.get (Row.cells row') entering = None) by apply solveFor_self.
  assert (Neq : same entering leaving = false).
  { apply same_symbol_neq. intros ->. unfold JsMap.has in H. rewrite G in H. discriminate. }
  assert (Neq' : same leaving entering = false) by (rewrite same_sym; exact Neq).
  fields. rewrite substitute_rowMap. fields. unfold basic. fields.
  rewrite substitute_objective. fields.
  split; [reflexivity|]. split; [rewrite get_set, same_refl; reflexivity|]. split.
  { unfold JsMap.has. rewrite get_set, Neq, get_map_rows, get_delete, same_refl. reflexivity. }
  split.
  { intros key N1 N2. unfold JsMap.has. rewrite get_set.
    assert (S2 : same entering key = false)
      by (apply same_symbol_neq; intros ->; apply N2; reflexivity).
    assert (S1 : same leaving key = false)
      by (apply same_symbol_neq; intros ->; apply N1; reflexivity).
    rewrite S2, get_map_rows, get_delete, S1.
    destruct (JsMap.get (_rowMap this) key); reflexivity. }
  split.
  { intros key r. rewrite get_set. destruct (same entering key).
    - intros E. inversion E; subst. exact Self.
    - rewrite get_map_rows. destruct (JsMap.get _ key) as [r0|]; [|discriminate].
      cbn [option_map]. intros E. inversion E; subst. apply substitute_self. exact Self. }
  split; [apply substitute_self; exact Self|].
  intros key r B N1 A. rewrite get_set.
  assert (S2 : same entering key = false).
  { apply same_symbol_neq. intros ->. unfold JsMap.has in H. rewrite B in H. discriminate. }
  assert (S1 : same leaving key = false)
    by (apply same_symbol_neq; intros ->; apply N1; reflexivity).
  rewrite S2, get_map_rows, get_delete, S1, B. cbn [option_map].
  rewrite (substitute_absent _ _ _ A). reflexivity.
Qed.

End Pivots.

(** ** The row of a constraint *)

Section CreateRow.
Import Solver.
Local Open Scope float_scope.
Variable required : float.

Lemma opp_of_negative (c : float) : (c <? 0) = true -> (- c <? 0) = false.
Proof.
  rewrite !ltb_spec, opp_spec, Prim2SF_zero.
  destruct (Prim2SF c) as [[]|[]| |[] m e]; cbn; try discriminate; reflexivity.
Qed.

Lemma reverseSign_constant r : Row.constant (Row.reverseSign r) = - Row.constant r.
Proof.
  unfold Row.reverseSign, Row.constant.
  destruct (update_loop (fun c => - c) (Row._cellMap r)
              (Row.mk (Row._cellMap r) (- Row._constant r))) as (C & _).
  cbv zeta in C. exact C.
Qed.

Lemma constant_made_positive r :
  (Row.constant (if Row.constant r <? 0 then Row.reverseSign r else r) <? 0) = false.
Proof.
  destruct (Row.constant r <? 0) eqn:C; [|exact C].
  rewrite reverseSign_constant. apply opp_of_negative. exact C.
Qed.

(** X17. What [_createRow] returns. The constant of the row is not
    negative. The marker is a new Slack for an inequality, a new Error
    for an equality below the required strength and a new Dummy for a
    required equality; the other symbol of the tag is the next new symbol,
    an Error, below the required strength, and the Invalid symbol
    otherwise. The solver keeps its rows, its constraints, its edit
    variables and its worklist, and a required constraint leaves the
    objective as it is. *)
Theorem createRow_shape :
  forall (constraint : Constraint.t) (this : Solver.t),
    let result := _createRow required constraint this in
    let row := fst (fst result) in
    let tag := snd (fst result) in
    let this' := snd result in
    let soft := Constraint.strength constraint <? required in
    (Row.constant row <? 0) = false
    /\ tableau_kept this this'
    /\ (exists n,
           (_idTick this <= n)%Z
           /\ _idTick this' = (n + if soft then 2 else 1)%Z
           /\ Tag.marker tag = Symbol.new (marker_type (Constraint.op constraint) soft) n
           /\ Tag.other tag
              = if soft then Symbol.new SymbolType.Error (n + 1) else INVALID_SYMBOL)
    /\ (soft = false -> _objective this' = _objective this).
Proof.
  intros constraint this. cbv zeta.
  split; [|split; [apply createRow_kept|split; [|apply createRow_objective]]].
  - unfold _createRow.
    destruct (JsMap.forEach _ _ _) as [row this1].
    destruct (Constraint.op constraint), (Constraint.strength constraint <? required);
      cbn [_makeSymbol fst snd]; apply constant_made_positive.
  - unfold _createRow.
    pose proof (createRow_terms_kept
                  (Expression.terms (Constraint.expression constraint))
                  (Row.new (Expression.constant (Constraint.expression constraint))) this)
      as [(_ & _ & _ & _ & _ & T) _].
    destruct (JsMap.forEach _ _ _) as [row this1]. cbn [snd] in T.
    exists (_idTick this1). split; [exact T|].
    destruct (Constraint.op constraint), (Constraint.strength constraint <? required);
      cbn [_makeSymbol fst snd Tag.marker Tag.other marker_type]; fields;
      repeat split; lia.
Qed.

End CreateRow.

(** ** The tolerance *)

Section Tolerance.
Local Open Scope float_scope.

Lemma eps_finite : exists m e, Prim2SF 1.0e-8 = S754_finite false m e.
Proof. vm_compute. eexists. eexists. reflexivity. Qed.

(** X18. The tolerance. A number is near zero exactly when it lies
    strictly between [-1e-8] and [1e-8]: the bounds and NaN are not near
    zero, both zeros are, and a number is near zero exactly when its
    opposite is. *)
Theorem nearZero_band :
  forall x : float,
    (let eps := 1.0e-8 in nearZero x = (- eps <? x) && (x <? eps))
    /\ nearZero (- x) = nearZero x
    /\ (is_nan x = true -> nearZero x = false)
    /\ ((x =? 0) = true -> nearZero x = true).
Proof.
  intros x. split; [|split; [apply nearZero_opp|split]].
  - unfold nearZero. cbv zeta. rewrite !ltb_spec, !opp_spec, Prim2SF_zero.
    destruct eps_finite as (m0 & e0 & ->).
    destruct (Prim2SF x) as [[]|[]| |[] m e]; try reflexivity.
    cbn [SFopp]. unfold SFltb, SFcompare. cbn [andb negb].
    rewrite (Z.compare_antisym e e0), (Pos.compare_cont_antisym m0 m Eq).
    destruct (e ?= e0)%Z; cbn [CompOpp]; try reflexivity.
    destruct (Pos.compare_cont Eq m m0); reflexivity.
  - unfold is_nan, nearZero. cbv zeta.
    rewrite !FloatAxioms.eqb_spec, !ltb_spec, !opp_spec, Prim2SF_zero.
    destruct eps_finite as (m0 & e0 & ->).
    unfold SFeqb, SFltb, SFcompare.
    destruct (Prim2SF x) as [[]|[]| |[] m e]; cbn [negb SFopp];
      try discriminate; try reflexivity.
    all: rewrite Z.compare_refl, Pos.compare_cont_refl; cbn [negb CompOpp]; discriminate.
  - unfold nearZero. cbv zeta. rewrite FloatAxioms.eqb_spec, !ltb_spec, !opp_spec, Prim2SF_zero.
    destruct eps_finite as (m0 & e0 & ->).
    unfold SFeqb, SFltb, SFcompare.
    destruct (Prim2SF x) as [[]|[]| |[] m e]; cbn [negb SFopp];
      try discriminate; reflexivity.
Qed.

End Tolerance.

(** ** Equations without variables *)

Section NoVariables.
Import Solver.
Local Open Scope float_scope.
Variable required : float.

(** Terms whose coefficients are all near zero are passed over. *)
Lemma createRow_no_terms terms row this :
  (forall variable coefficient, In (variable, coefficient) terms -> nearZero coefficient = true) ->
  JsMap.forEach terms
    (fun '(row, this) coefficient variable =>
       if negb (nearZero coefficient) then
         let '(symbol, this) := _getVarSymbol variable this in
         match JsMap.get (_rowMap this) symbol with
         | Some basicRow => (Row.insertRow row basicRow coefficient, this)
         | None => (Row.insertSymbol row symbol coefficient, this)
         end
       else (row, this))
    (row, this)
  = (row, this).
Proof.
  unfold JsMap.forEach. induction terms as [|[variable coefficient] terms IH]; intros H;
    cbn [fold_left fst snd]; [reflexivity|].
  rewrite (H variable coefficient (or_introl eq_refl)). cbn [negb].
  apply IH. intros v c Hin. apply (H v c). right. exact Hin.
Qed.

(** The row of a required equation without variables. *)
Lemma createRow_constant constraint this :
  Constraint.op constraint = Operator.Eq ->
  (Constraint.strength constraint <? required) = false ->
  (forall variable coefficient,
      In (variable, coefficient) (Expression.terms (Constraint.expression constraint)) ->
      nearZero coefficient = true) ->
  let c := Expression.constant (Constraint.expression constraint) in
  let dummy := Symbol.new SymbolType.Dummy (_idTick this) in
  _createRow required constraint this
  = ((if c <? 0 then Row.mk [(dummy, -1)] (- c) else Row.mk [(dummy, 1)] c,
      {| Tag.marker := dummy; Tag.other := INVALID_SYMBOL |}),
     with_idTick this (_idTick this + 1)).
Proof.
  intros Op St H. cbv zeta. unfold _createRow.
  rewrite (createRow_no_terms _ _ _ H), Op, St. cbn [_makeSymbol].
  unfold Row.insertSymbol, Row.new. cbn [Row._cellMap Row._constant JsMap.get find].
  cbn [Number.or_zero JsMap.set].
  change (nearZero (1 + 0)) with false. cbv iota. change (1 + 0) with 1.
  unfold Row.constant. cbn [Row._constant].
  destruct (Expression.constant (Constraint.expression constraint) <? 0); [|reflexivity].
  unfold Row.reverseSign, JsMap.forEach. cbn [Row._cellMap Row._constant fold_left fst snd].
  cbn [JsMap.set]. rewrite same_refl. reflexivity.
Qed.

Lemma chooseSubject_dummy n v k :
  let dummy := Symbol.new SymbolType.Dummy n in
  _chooseSubject (Row.mk [(dummy, v)] k) {| Tag.marker := dummy; Tag.other := INVALID_SYMBOL |}
  = INVALID_SYMBOL
  /\ Row.allDummies (Row.mk [(dummy, v)] k) = true.
Proof. split; reflexivity. Qed.

(** X19. A required equation without variables, [c == 0] (every term of
    the expression has a coefficient near zero, or there is none), added
    to a solver that does not have it. When [c] is not near zero the call
    throws [unsatifiable constraint] and leaves the solver as it was but
    for the id counter, which has advanced by one. When [c] is near zero
    the constraint is registered, and the call throws nothing but
    [the objective is unbounded]. *)
Theorem equation_without_variables :
  forall (fuel : nat) (constraint : Constraint.t) (this : Solver.t),
    JsMap.has (_cnMap this) constraint = false ->
    Constraint.op constraint = Operator.Eq ->
    (Constraint.strength constraint <? required) = false ->
    (forall variable coefficient,
        In (variable, coefficient) (Expression.terms (Constraint.expression constraint)) ->
        nearZero coefficient = true) ->
    let c := Expression.constant (Constraint.expression constraint) in
    (nearZero c = false ->
     addConstraint required fuel constraint this
     = (Throw "unsatifiable constraint", with_idTick this (_idTick this + 1)))
    /\ (nearZero c = true ->
        hasConstraint constraint (snd (addConstraint required fuel constraint this)) = true
        /\ forall message,
             fst (addConstraint required fuel constraint this) = Throw message ->
             message = "the objective is unbounded"%string).
Proof.
  intros fuel constraint this Hhas Op St H. cbv zeta.
  unfold addConstraint, bind, gets, throw, ret, run. rewrite Hhas.
  rewrite (createRow_constant constraint this Op St H). cbn [fst snd].
  set (c := Expression.constant (Constraint.expression constraint)).
  set (dummy := Symbol.new SymbolType.Dummy (_idTick this)).
  set (row := if c <? 0 then Row.mk [(dummy, -1)] (- c) else Row.mk [(dummy, 1)] c).
  assert (Sub : _chooseSubject row {| Tag.marker := dummy; Tag.other := INVALID_SYMBOL |}
                = INVALID_SYMBOL /\ Row.allDummies row = true).
  { unfold row. destruct (c <? 0); apply chooseSubject_dummy. }
  destruct Sub as [-> ->].
  assert (Nz : nearZero (Row.constant row) = nearZero c).
  { unfold row. destruct (c <? 0); cbn [Row.constant Row._constant]; [apply nearZero_opp|].
    reflexivity. }
  rewrite Nz. change (is_type SymbolType.Invalid INVALID_SYMBOL) with true. cbn [andb].
  split; intros N; rewrite N; cbn [negb]; [reflexivity|].
  cbn [Tag.marker]. change (is_type SymbolType.Invalid dummy) with false. cbv iota.
  cbv beta iota.
  match goal with |- context [_optimize fuel TheObjective ?s] => set (s3 := s) end.
  destruct (_optimize fuel TheObjective s3) as [r this'] eqn:E. cbn [fst snd].
  destruct (optimize_maps_kept _ _ _ _ _ E) as (Cn & _). split.
  - unfold hasConstraint. rewrite Cn. unfold s3. fields. rewrite has_set, same_refl. reflexivity.
  - intros message ->. exact (optimize_error _ _ _ _ _ E).
Qed.

End NoVariables.

(** ** The variables of a constraint *)

Section TermVariables.
Import Solver.
Local Open Scope float_scope.
Variable required : float.

Lemma getVarSymbol_has variable this :
  JsMap.has (_varMap (snd (_getVarSymbol variable this))) variable = true.
Proof.
  unfold _getVarSymbol. destruct (JsMap.get (_varMap this) variable) as [symbol|] eqn:G.
  - cbn [snd]. unfold JsMap.has. rewrite G. reflexivity.
  - cbn [_makeSymbol snd]. fields. rewrite has_set, same_refl. reflexivity.
Qed.

Lemma has_app_true {K V} {IK : Identity K} (m extra : JsMap.t K V) k :
  JsMap.has m k = true -> JsMap.has (m ++ extra) k = true.
Proof.
  unfold JsMap.has, JsMap.get. rewrite find_over_app.
  destruct (find (fun e => same (fst e) k) m); [reflexivity | discriminate].
Qed.

(** The loop of [_createRow] over the terms registers their variables. *)
Lemma createRow_terms_registers terms : forall row this variable,
  let result :=
    JsMap.forEach terms
      (fun '(row, this) coefficient variable =>
         if negb (nearZero coefficient) then
           let '(symbol, this) := _getVarSymbol variable this in
           match JsMap.get (_rowMap this) symbol with
           | Some basicRow => (Row.insertRow row basicRow coefficient, this)
           | None => (Row.insertSymbol row symbol coefficient, this)
           end
         else (row, this))
      (row, this) in
  (JsMap.has (_varMap this) variable = true
   \/ exists coefficient, In (variable, coefficient) terms /\ nearZero coefficient = false) ->
  JsMap.has (_varMap (snd result)) variable = true.
Proof.
  unfold JsMap.forEach.
  induction terms as [|[v c] terms IH]; intros row this variable; cbn [fold_left fst snd];
    cbv zeta.
  - intros [H|[c [[] _]]]. exact H.
  - intros H. destruct (nearZero c) eqn:N; cbn [negb].
    + apply IH. destruct H as [H|[c' [[E|Hin] N']]].
      * left. exact H.
      * inversion E; subst. congruence.
      * right. exists c'. split; assumption.
    + pose proof (getVarSymbol_has v this) as Hv.
      destruct (getVarSymbol_varMap v this) as [extra [Ev _]].
      destruct (_getVarSymbol v this) as [symbol this1]. cbn [snd] in Hv, Ev.
      assert (Step : JsMap.has (_varMap this1) variable = true
                     \/ exists coefficient,
                          In (variable, coefficient) terms /\ nearZero coefficient = false).
      { destruct H as [H|[c' [[E|Hin] N']]].
        - left. rewrite Ev. apply has_app_true. exact H.
        - inversion E; subst. left. exact Hv.
        - right. exists c'. split; assumption. }
      destruct (JsMap.get (_rowMap this1) symbol); apply IH; exact Step.
Qed.

Lemma createRow_registers constraint this variable coefficient :
  In (variable, coefficient) (Expression.terms (Constraint.expression constraint)) ->
  nearZero coefficient = false ->
  JsMap.has (_varMap (snd (_createRow required constraint this))) variable = true.
Proof.
  intros Hin N.
  pose proof (createRow_terms_registers
                (Expression.terms (Constraint.expression constraint))
                (Row.new (Expression.constant (Constraint.expression constraint)))
                this variable
                (or_intror (ex_intro _ coefficient (conj Hin N)))) as R.
  cbv zeta in R. unfold _createRow.
  destruct (JsMap.forEach _ _ _) as [row this1]. cbn [snd] in R.
  destruct (Constraint.op constraint), (Constraint.strength constraint <? required);
    cbn [_makeSymbol fst snd]; fields; exact R.
Qed.

(** After [_createRow], [addConstraint] leaves the variable map alone. *)
Lemma addConstraint_varMap fuel constraint this r this' :
  addConstraint required fuel constraint this = (r, this') ->
  JsMap.has (_cnMap this) constraint = false ->
  _varMap this' = _varMap (snd (_createRow required constraint this)).
Proof.
  intros E Hhas. unfold addConstraint, bind, gets, throw, ret, run in E. rewrite Hhas in E.
  destruct (_createRow required constraint this) as [[row tag] this1].
  cbn [fst snd] in *.
  assert (Done : forall this2 r0 this0,
             _varMap this2 = _varMap this1 ->
             _optimize fuel TheObjective
               (with_cnMap this2 (JsMap.set (_cnMap this2) constraint tag)) = (r0, this0) ->
             _varMap this0 = _varMap this1).
  { intros this2 r0 this0 V2 O.
    destruct (optimize_maps_kept _ _ _ _ _ O) as (_ & M2 & _). rewrite M2. exact V2. }
  assert (Direct : forall subject r0 this0,
             (let this2 := _substitute subject (Row.solveFor row subject) this1 in
              let this3 :=
                with_rowMap this2
                  (JsMap.set (_rowMap this2) subject (Row.solveFor row subject)) in
              _optimize fuel TheObjective
                (with_cnMap this3 (JsMap.set (_cnMap this3) constraint tag)))
             = (r0, this0) -> _varMap this0 = _varMap this1).
  { intros subject r0 this0 O. cbv zeta in O.
    destruct (substitute_kept subject (Row.solveFor row subject) this1) as (_ & S2 & _).
    refine (Done _ _ _ _ O). fields. exact S2. }
  assert (Art : forall r0 this0,
             (match _addWithArtificialVariable fuel row this1 with
              | (Return a, s) =>
                  match
                    (if a : bool
                     then fun this => (Return tt, this)
                     else fun this => (Throw "unsatisfiable constraint", this)) s
                  with
                  | (Return _, s') =>
                      _optimize fuel TheObjective
                        (with_cnMap s' (JsMap.set (_cnMap s') constraint tag))
                  | (Throw message, s') => (Throw message, s')
                  | (OutOfFuel, s') => (OutOfFuel, s')
                  end
              | (Throw message, s) => (Throw message, s)
              | (OutOfFuel, s) => (OutOfFuel, s)
              end) = (r0, this0) -> _varMap this0 = _varMap this1).
  { intros r0 this0 O.
    destruct (_addWithArtificialVariable fuel row this1) as [[[]|m|] this2] eqn:A;
      destruct (addWithArtificialVariable_maps _ _ _ _ _ A) as (_ & A2 & _).
    - exact (Done _ _ _ A2 O).
    - inversion O; subst. exact A2.
    - inversion O; subst. exact A2.
    - inversion O; subst. exact A2. }
  destruct (is_type SymbolType.Invalid (_chooseSubject row tag) && Row.allDummies row).
  - destruct (negb (nearZero (Row.constant row))).
    + inversion E; subst. reflexivity.
    + destruct (is_type SymbolType.Invalid (Tag.marker tag)).
      * apply (Art r this'). rewrite <- E.
        destruct (_addWithArtificialVariable fuel row this1) as [[[]|m|] this2]; reflexivity.
      * exact (Direct _ _ _ E).
  - destruct (is_type SymbolType.Invalid (_chooseSubject row tag)).
    + apply (Art r this'). rewrite <- E.
      destruct (_addWithArtificialVariable fuel row this1) as [[[]|m|] this2]; reflexivity.
    + exact (Direct _ _ _ E).
Qed.

(** X21. The variables of a constraint get their symbols when it is
    added. After [addConstraint] of a constraint the solver did not have,
    whatever the outcome, every variable of the expression with a
    coefficient that is not near zero has a symbol. *)
Theorem variables_are_registered :
  forall fuel constraint this r this',
    addConstraint required fuel constraint this = (r, this') ->
    JsMap.has (_cnMap this) constraint = false ->
    forall variable coefficient,
      In (variable, coefficient) (Expression.terms (Constraint.expression constraint)) ->
      nearZero coefficient = false ->
      JsMap.has (_varMap this') variable = true.
Proof.
  intros fuel constraint this r this' E Hhas variable coefficient Hin N.
  rewrite (addConstraint_varMap _ _ _ _ _ E Hhas).
  exact (createRow_registers constraint this variable coefficient Hin N).
Qed.

End TermVariables.

(** ** The objective and the basis *)

Section Parametric.
Import Solver.
Local Open Scope float_scope.
Variable required : float.
Variable clip : float -> float.

Lemma parametric_ext a b :
  _rowMap b = _rowMap a -> _objective b = _objective a -> _artificial b = _artificial a ->
  parametric a -> parametric b.
Proof.
  unfold parametric, is_basic. intros -> -> ->. exact (fun H => H).
Qed.

Lemma parametric_new : parametric Solver.new.
Proof. split; [intros k _; reflexivity | discriminate]. Qed.

(** Fewer basic symbols. *)
Lemma parametric_fewer this rows :
  (forall k, JsMap.has rows k = true -> JsMap.has (_rowMap this) k = true) ->
  parametric this -> parametric (with_rowMap this rows).
Proof.
  intros H [O A]. split.
  - apply (avoids_weaken (is_basic this)); [exact H | exact O].
  - intros a Ha. apply (avoids_weaken (is_basic this)); [exact H | exact (A a Ha)].
Qed.

Lemma parametric_delete_row this k :
  parametric this -> parametric (with_rowMap this (JsMap.delete (_rowMap this) k)).
Proof.
  apply parametric_fewer. intros k' H. rewrite has_delete in H.
  apply andb_true_iff in H. exact (proj2 H).
Qed.

Lemma has_map_rows (f : Row.t -> Row.t) rows k :
  JsMap.has (map_rows (fun _ => f) rows) k = JsMap.has rows k.
Proof. unfold JsMap.has. rewrite map_rows_get. destruct (JsMap.get rows k); reflexivity. Qed.

Lemma parametric_map_rows this (f : Row.t -> Row.t) :
  parametric this -> parametric (with_rowMap this (map_rows (fun _ => f) (_rowMap this))).
Proof. apply parametric_fewer. intros k H. rewrite has_map_rows in H. exact H. Qed.

Lemma parametric_with_artificial this a :
  parametric this -> (forall row, a = Some row -> avoids (is_basic this) row) ->
  parametric (with_artificial this a).
Proof. intros [O A] H. split; [exact O | exact H]. Qed.

(** A row in the symbols without a row, solved for [s], enters the basis
    under [s]. *)
Lemma parametric_enter this r s :
  parametric this -> avoids (is_basic this) r ->
  let r' := Row.solveFor r s in
  let this1 := _substitute s r' this in
  parametric (with_rowMap this1 (JsMap.set (_rowMap this1) s r')).
Proof.
  intros [O A] C r' this1.
  assert (C' : avoids (is_basic this) r') by (apply avoids_solveFor; exact C).
  assert (Self : JsMap.get (Row.cells r') s = None) by apply solveFor_self.
  assert (B : forall k,
             is_basic (with_rowMap this1 (JsMap.set (_rowMap this1) s r')) k ->
             k = s \/ is_basic this k).
  { intros k Hk. unfold is_basic in Hk. fields. rewrite has_set in Hk.
    destruct (same s k) eqn:E; [left; apply same_symbol_eq in E; congruence|].
    right. unfold this1 in Hk. rewrite substitute_rowMap, has_map_rows in Hk. exact Hk. }
  split.
  - intros k Hk. fields. unfold this1. rewrite substitute_objective.
    destruct (B k Hk) as [->|Hb].
    + apply substitute_self. exact Self.
    + exact (avoids_substitute (is_basic this) _ s r' O C' k Hb).
  - intros a Ha k Hk. fields. unfold this1 in Ha. rewrite substitute_artificial in Ha.
    destruct (_artificial this) as [a0|] eqn:Ar; [|discriminate Ha].
    cbn in Ha. inversion Ha; subst a.
    destruct (B k Hk) as [->|Hb].
    + apply substitute_self. exact Self.
    + exact (avoids_substitute (is_basic this) _ s r' (A a0 eq_refl) C' k Hb).
Qed.

Lemma parametric_pivot leaving entering this r this' :
  well_formed this -> parametric this ->
  pivot leaving entering this = (r, this') -> parametric this'.
Proof.
  intros W P E. unfold pivot in E.
  destruct (JsMap.get (_rowMap this) leaving) as [row|] eqn:G; inversion E; subst; clear E.
  - apply (parametric_enter (with_rowMap this (JsMap.delete (_rowMap this) leaving))
             (Row.insertSymbol row leaving (-1)) entering).
    + apply parametric_delete_row. exact P.
    + exact (proj1 (proj2 (tidy_leaving this leaving row (-1) W G))).
  - apply parametric_delete_row. exact P.
Qed.

Lemma optimize_parametric fuel which this r this' :
  _optimize fuel which this = (r, this') ->
  well_formed this -> parametric this -> parametric this'.
Proof.
  revert this. induction fuel as [|fuel IH]; intros this E W P; cbn [_optimize] in E.
  - inversion E; subst. exact P.
  - unfold bind, gets, ret, throw in E.
    destruct (is_type SymbolType.Invalid (_getEnteringSymbol (objective_of which this))) eqn:T.
    + inversion E; subst. exact P.
    + destruct (is_type SymbolType.Invalid
                  (_getLeavingSymbol (_getEnteringSymbol (objective_of which this)) this)).
      * inversion E; subst. exact P.
      * destruct (pivot _ _ this) as [[[]|m|] this1] eqn:Pv;
          pose proof (parametric_pivot _ _ _ _ _ W P Pv) as P1;
          destruct (wf_pivot required clip _ _ _ _ _ W
                      (scan_minted this (objective_of which this)
                         (fun found coefficient symbol =>
                            same found INVALID_SYMBOL && (coefficient <? 0)
                            && negb (is_type SymbolType.Dummy symbol))
                         (wf_tick _ W) (objective_of_minted which this W))
                      (not_invalid _ T) Pv) as [W1 _].
        -- exact (IH _ E W1 P1).
        -- inversion E; subst. exact P1.
        -- inversion E; subst. exact P1.
Qed.

Lemma parametric_with_infeasibleRows this l :
  parametric this -> parametric (with_infeasibleRows this l).
Proof. apply parametric_ext; reflexivity. Qed.

Lemma parametric_with_editMap this m : parametric this -> parametric (with_editMap this m).
Proof. apply parametric_ext; reflexivity. Qed.

Lemma parametric_with_cnMap this m : parametric this -> parametric (with_cnMap this m).
Proof. apply parametric_ext; reflexivity. Qed.

Lemma dualOptimize_parametric fuel this r this' :
  _dualOptimize fuel this = (r, this') ->
  well_formed this -> parametric this -> parametric this'.
Proof.
  revert this. induction fuel as [|fuel IH]; intros this E W P; cbn [_dualOptimize] in E.
  - inversion E; subst. exact P.
  - destruct (pop (_infeasibleRows this)) as [[leaving rest]|].
    + pose proof (wf_with_infeasibleRows this rest W) as W0.
      pose proof (parametric_with_infeasibleRows this rest P) as P0. fields.
      destruct (JsMap.get (_rowMap this) leaving) as [row|] eqn:G.
      * destruct (Row.constant row <? 0).
        -- destruct (is_type SymbolType.Invalid
                       (_getDualEnteringSymbol row (with_infeasibleRows this rest))) eqn:T.
           ++ inversion E; subst. exact P0.
           ++ unfold bind in E.
              destruct (dualEntering_positive _ _ T) as [c [Hin _]].
              assert (I : (Symbol.id (_getDualEnteringSymbol row (with_infeasibleRows this rest))
                           < _idTick (with_infeasibleRows this rest))%Z).
              { pose proof (avoids_In _ _ _ _
                              (proj2 (proj2 (wf_tidy _ _ _ W G))) Hin) as N.
                unfold unminted in N. fields. lia. }
              destruct (pivot _ _ (with_infeasibleRows this rest)) as [[[]|m|] this1] eqn:Pv;
                pose proof (parametric_pivot _ _ _ _ _ W0 P0 Pv) as P1;
                destruct (wf_pivot required clip _ _ _ _ _ W0 I (not_invalid _ T) Pv) as [W1 I1].
              ** exact (IH _ E W1 P1).
              ** inversion E; subst. exact P1.
              ** inversion E; subst. exact P1.
        -- exact (IH _ E W0 P0).
      * exact (IH _ E W0 P0).
    + inversion E; subst. exact P.
Qed.

Lemma createRow_parametric constraint this :
  well_formed this -> parametric this ->
  parametric (snd (_createRow required constraint this)).
Proof.
  intros W P. unfold _createRow.
  destruct (createRow_terms_tidy (Expression.terms (Constraint.expression constraint))
              (Row.new (Expression.constant (Constraint.expression constraint))) this W
              (tidy_new _ _)) as (W1 & _ & _).
  pose proof (createRow_terms_kept (Expression.terms (Constraint.expression constraint))
                (Row.new (Expression.constant (Constraint.expression constraint))) this)
    as [(_ & K2 & _ & _ & K5 & _) O].
  cbv zeta in W1.
  destruct (JsMap.forEach _ _ _) as [row this1]. cbn [fst snd] in W1, K2, K5, O.
  assert (P1 : parametric this1) by (apply (parametric_ext this); assumption).
  assert (Ins : forall r ty n c, (_idTick this1 <= n)%Z -> avoids (is_basic this1) r ->
                  avoids (is_basic this1) (Row.insertSymbol r (Symbol.new ty n) c)).
  { intros r ty n c Hn A. apply avoids_insertSymbol; [exact A|].
    apply (unminted_not_basic this1 _ W1). unfold unminted. cbn. exact Hn. }
  destruct P1 as [O1 A1]. cbv zeta.
  destruct (Constraint.op constraint), (Constraint.strength constraint <? required);
    cbn [_makeSymbol fst snd]; fields; (split; [|exact A1]); fields;
    repeat (apply Ins; [lia|]); exact O1.
Qed.

Lemma parametric_remove_art this art :
  parametric this ->
  let this1 :=
    with_rowMap this
      (JsMap.forEach (_rowMap this)
         (fun rowMap row2 symbol => rowMap ++ [(symbol, Row.removeSymbol row2 art)]) []) in
  parametric (with_objective this1 (Row.removeSymbol (_objective this1) art)).
Proof.
  intros P this1. unfold this1. rewrite remove_loop. cbn [app]. fields.
  pose proof (parametric_map_rows this (fun r => Row.removeSymbol r art) P) as [O A].
  split; [|exact A]. fields. apply avoids_removeSymbol. exact O.
Qed.

Lemma addWithArtificialVariable_parametric fuel row this r this' :
  _addWithArtificialVariable fuel row this = (r, this') ->
  well_formed this -> tidy this row -> parametric this -> parametric this'.
Proof.
  intros E W T P. unfold _addWithArtificialVariable, bind, run, gets, ret in E.
  destruct (wf_mint SymbolType.Slack this row W T) as (W1 & T1 & I1 & B1 & R1 & M1 & O1).
  destruct (wf_makeSymbol SymbolType.Slack this W) as (_ & _ & U1).
  destruct (_makeSymbol SymbolType.Slack this) as [art this1] eqn:Mk. cbn [fst snd] in *.
  assert (Vart : same art INVALID_SYMBOL = false).
  { unfold _makeSymbol in Mk. inversion Mk. reflexivity. }
  assert (A1 : _artificial this1 = _artificial this).
  { unfold _makeSymbol in Mk. inversion Mk. reflexivity. }
  assert (P1 : parametric this1) by (apply (parametric_ext this); assumption).
  match type of E with context [_optimize fuel TheArtificial ?s] => set (s3 := s) in * end.
  assert (W3 : well_formed s3).
  { unfold s3. apply wf_with_artificial.
    - apply wf_set_row.
      + exact W1.
      + apply tidy_copy. exact T1.
      + apply copy_facts. apply (proj2 (proj2 T)). exact U1.
      + intros key r0 B. unfold basic in B. rewrite R1 in B.
        apply (proj2 (proj2 (wf_tidy _ _ _ W B))). exact U1.
      + exact I1.
      + exact Vart.
    - intros a Ha. inversion Ha. apply avoids_copy. exact (proj2 (proj2 T1)). }
  assert (B3 : forall k, is_basic s3 k -> k = art \/ is_basic this1 k).
  { intros k Hk. unfold is_basic, s3 in Hk. fields. rewrite has_set in Hk.
    destruct (same art k) eqn:S; [left; apply same_symbol_eq in S; congruence | right; exact Hk]. }
  assert (Fresh : forall r0, avoids (is_basic this1) r0 -> avoids (unminted this) r0 ->
                    avoids (is_basic s3) r0).
  { intros r0 C U k Hk. destruct (B3 k Hk) as [->|Hb]; [apply U; exact U1 | apply C; exact Hb]. }
  assert (P3 : parametric s3).
  { split.
    - unfold s3 at 2. fields. apply Fresh; [exact (proj1 P1)|].
      rewrite O1. exact (wf_objective _ W).
    - intros a Ha. unfold s3 in Ha. fields. inversion Ha; subst a.
      apply Fresh; apply avoids_copy; [exact (proj1 (proj2 T1)) | exact (proj2 (proj2 T))]. }
  destruct (_optimize fuel TheArtificial s3) as [[[]|m|] s4] eqn:O;
    destruct (optimize_keeps required clip _ _ _ _ _ O W3) as [W4 I4];
    pose proof (optimize_parametric _ _ _ _ _ O W3 P3) as P4;
    [|inversion E; subst; exact P4..].
  assert (W5 : well_formed (with_artificial s4 None))
    by (apply wf_with_artificial; [exact W4 | discriminate]).
  assert (P5 : parametric (with_artificial s4 None))
    by (apply parametric_with_artificial; [exact P4 | discriminate]).
  fields.
  destruct (JsMap.get (_rowMap s4) art) as [basicRow|] eqn:G.
  - pose proof (wf_delete_row _ art W5) as W6.
    pose proof (parametric_delete_row _ art P5) as P6. fields.
    destruct (Row.isConstant basicRow).
    + inversion E; subst. exact P6.
    + destruct (is_type SymbolType.Invalid (_anyPivotableSymbol basicRow)) eqn:Ty.
      * inversion E; subst. exact P6.
      * assert (P7 := parametric_enter _ (Row.insertSymbol basicRow art (-1))
                        (_anyPivotableSymbol basicRow) P6
                        (proj1 (proj2 (tidy_leaving (with_artificial s4 None) art basicRow
                                         (-1) W5 G)))).
        cbv zeta in P7. pose proof (parametric_remove_art _ art P7) as P8. cbv zeta in P8.
        inversion E; subst; clear E. exact P8.
  - pose proof (parametric_remove_art _ art P5) as P8. cbv zeta in P8.
    inversion E; subst; clear E. exact P8.
Qed.

Lemma addConstraint_parametric fuel constraint this r this' :
  addConstraint required fuel constraint this = (r, this') ->
  well_formed this -> parametric this -> parametric this'.
Proof.
  intros E W P. unfold addConstraint, bind, gets, throw, ret, run in E.
  destruct (JsMap.has (_cnMap this) constraint); [inversion E; subst; exact P|].
  destruct (createRow_tidy required constraint this W) as (W1 & T1 & Im & Io & M1).
  pose proof (createRow_parametric constraint this W P) as P1.
  cbv zeta in W1, T1, Im, Io, M1.
  destruct (_createRow required constraint this) as [[row tag] this1].
  cbn [fst snd] in *.
  assert (Direct : forall subject r this',
             is_type SymbolType.Invalid subject = false ->
             (Symbol.id subject < _idTick this1)%Z ->
             (let this2 := _substitute subject (Row.solveFor row subject) this1 in
              let this3 :=
                with_rowMap this2
                  (JsMap.set (_rowMap this2) subject (Row.solveFor row subject)) in
              _optimize fuel TheObjective
                (with_cnMap this3 (JsMap.set (_cnMap this3) constraint tag)))
             = (r, this') ->
             parametric this').
  { intros subject r0 this0 Ty Is E0. cbv zeta in E0.
    pose proof (wf_enter required clip this1 row subject W1 T1 Is (not_invalid _ Ty)) as W3.
    pose proof (parametric_enter this1 row subject P1 (proj1 (proj2 T1))) as P3.
    cbv zeta in W3, P3.
    match type of W3 with well_formed ?s =>
      assert (I3 : _idTick s = _idTick this1)
        by (fields; apply substitute_kept_tick);
      pose proof (wf_set_cn s constraint tag W3) as W4 end.
    rewrite I3 in W4. specialize (W4 Im Io).
    exact (optimize_parametric _ _ _ _ _ E0 W4 (parametric_with_cnMap _ _ P3)). }
  assert (Art : forall r this',
             (match _addWithArtificialVariable fuel row this1 with
              | (Return a, s) =>
                  match
                    (if a : bool
                     then fun this => (Return tt, this)
                     else fun this => (Throw "unsatisfiable constraint", this)) s
                  with
                  | (Return _, s') =>
                      _optimize fuel TheObjective
                        (with_cnMap s' (JsMap.set (_cnMap s') constraint tag))
                  | (Throw message, s') => (Throw message, s')
                  | (OutOfFuel, s') => (OutOfFuel, s')
                  end
              | (Throw message, s) => (Throw message, s)
              | (OutOfFuel, s) => (OutOfFuel, s)
              end) = (r, this') -> parametric this').
  { intros r0 this0 E0.
    destruct (_addWithArtificialVariable fuel row this1) as [[[]|m|] s] eqn:AV;
      destruct (addWithArtificialVariable_keeps required clip _ _ _ _ _ AV W1 T1) as [W2 I2];
      pose proof (addWithArtificialVariable_parametric _ _ _ _ _ AV W1 T1 P1) as P2;
      [|inversion E0; subst; exact P2..].
    refine (optimize_parametric _ _ _ _ _ E0 _ (parametric_with_cnMap _ _ P2)).
    apply wf_set_cn; [exact W2 | lia | lia]. }
  pose proof (chooseSubject_minted this1 row tag (wf_tick _ W1) (proj2 (proj2 T1)) Im Io) as Is.
  destruct (is_type SymbolType.Invalid (_chooseSubject row tag) && Row.allDummies row).
  - destruct (negb (nearZero (Row.constant row))).
    + inversion E; subst. exact P1.
    + destruct (is_type SymbolType.Invalid (Tag.marker tag)) eqn:Ty.
      * apply (Art r this'). rewrite <- E.
        destruct (_addWithArtificialVariable fuel row this1) as [[[]|m|] this2]; reflexivity.
      * exact (Direct _ _ _ Ty Im E).
  - destruct (is_type SymbolType.Invalid (_chooseSubject row tag)) eqn:Ty.
    + apply (Art r this'). rewrite <- E.
      destruct (_addWithArtificialVariable fuel row this1) as [[[]|m|] this2]; reflexivity.
    + exact (Direct _ _ _ Ty Is E).
Qed.

Lemma parametric_removeMarkerEffects marker strength this :
  well_formed this -> parametric this ->
  parametric (_removeMarkerEffects marker strength this).
Proof.
  intros W [O A]. unfold _removeMarkerEffects.
  destruct (JsMap.get (_rowMap this) marker) as [row|] eqn:G.
  - split; [|exact A]. fields.
    apply avoids_insertRow; [exact O | exact (proj1 (proj2 (wf_tidy _ _ _ W G)))].
  - split; [|exact A]. fields. apply avoids_insertSymbol; [exact O|].
    unfold is_basic, JsMap.has. fields. rewrite G. discriminate.
Qed.

Lemma parametric_removeConstraintEffects cn tag this :
  well_formed this ->
  (Symbol.id (Tag.marker tag) < _idTick this)%Z ->
  (Symbol.id (Tag.other tag) < _idTick this)%Z ->
  parametric this -> parametric (_removeConstraintEffects cn tag this).
Proof.
  intros W Im Io P. unfold _removeConstraintEffects.
  destruct (is_type SymbolType.Error (Tag.marker tag)).
  - destruct (wf_removeMarkerEffects (Tag.marker tag) (Constraint.strength cn) this W Im)
      as [W1 I1].
    pose proof (parametric_removeMarkerEffects (Tag.marker tag) (Constraint.strength cn)
                  this W P) as P1.
    destruct (is_type SymbolType.Error (Tag.other tag)); [|exact P1].
    exact (parametric_removeMarkerEffects _ _ _ W1 P1).
  - destruct (is_type SymbolType.Error (Tag.other tag)); [|exact P].
    exact (parametric_removeMarkerEffects _ _ _ W P).
Qed.

Lemma removeConstraint_parametric fuel constraint this r this' :
  removeConstraint fuel constraint this = (r, this') ->
  well_formed this -> parametric this -> parametric this'.
Proof.
  intros E W P. unfold removeConstraint, bind, gets, throw, ret, run in E.
  destruct (JsMap.get (_cnMap this) constraint) as [tag|] eqn:G;
    [|inversion E; subst; exact P].
  apply get_In in G. destruct G as [c0 [Hin _]].
  destruct (wf_tags _ W _ _ Hin) as [Im Io].
  pose proof (wf_delete_cn this constraint W) as W1.
  pose proof (parametric_with_cnMap this (JsMap.delete (_cnMap this) constraint) P) as P1.
  destruct (wf_removeConstraintEffects constraint tag _ W1 Im Io) as [W2 I2].
  pose proof (parametric_removeConstraintEffects constraint tag _ W1 Im Io P1) as P2.
  match type of W2 with well_formed ?s => set (s2 := s) in * end.
  pose proof (wf_delete_row s2 (Tag.marker tag) W2) as W3.
  pose proof (parametric_delete_row s2 (Tag.marker tag) P2) as P3.
  match type of W3 with well_formed ?s => set (s3 := s) in * end.
  destruct (negb (JsMap.has (_rowMap s2) (Tag.marker tag))).
  - destruct (is_type SymbolType.Invalid (_getMarkerLeavingSymbol (Tag.marker tag) s3)).
    + inversion E; subst. exact P3.
    + pose proof (wf_delete_row s3 (_getMarkerLeavingSymbol (Tag.marker tag) s3) W3) as W4.
      pose proof (parametric_delete_row s3 (_getMarkerLeavingSymbol (Tag.marker tag) s3) P3)
        as P4.
      destruct (JsMap.get (_rowMap s3) (_getMarkerLeavingSymbol (Tag.marker tag) s3))
        as [row|] eqn:Gr.
      * pose proof (tidy_solveFor _ _ (Tag.marker tag)
                      (tidy_leaving s3 _ row (-1) W3 Gr)) as (N & C & U).
        destruct (wf_substitute required clip (Tag.marker tag) _ _ W4 C U) as (W5 & B5 & _ & _).
        refine (optimize_parametric _ _ _ _ _ E W5 _).
        destruct P4 as [O4 A4]. split.
        -- rewrite substitute_objective. intros k Hk. apply B5 in Hk.
           exact (avoids_substitute _ _ _ _ O4 C k Hk).
        -- intros a Ha. rewrite substitute_artificial in Ha.
           match type of Ha with option_map _ ?x = _ => destruct x as [a0|] eqn:Ar end;
             [|discriminate Ha].
           cbn in Ha. inversion Ha; subst a. intros k Hk. apply B5 in Hk.
           exact (avoids_substitute _ _ _ _ (A4 a0 eq_refl) C k Hk).
      * inversion E; subst. exact P4.
  - exact (optimize_parametric _ _ _ _ _ E W3 P3).
Qed.

Lemma addEditVariable_parametric fuel cn_id variable strength this r this' :
  addEditVariable required clip fuel cn_id variable strength this = (r, this') ->
  well_formed this -> parametric this -> parametric this'.
Proof.
  intros E W P. unfold addEditVariable, bind, gets, throw, ret, run in E.
  destruct (JsMap.has (_editMap this) variable); [inversion E; subst; exact P|].
  destruct (clip strength =? required); [inversion E; subst; exact P|].
  match type of E with context [addConstraint required fuel ?cn this] =>
    destruct (addConstraint required fuel cn this) as [[[]|m|] this1] eqn:A;
    pose proof (addConstraint_parametric _ _ _ _ _ A W P) as P1;
    [|inversion E; subst; exact P1..];
    destruct (JsMap.get (_cnMap this1) cn)
  end.
  - inversion E; subst. apply parametric_with_editMap. exact P1.
  - inversion E; subst. exact P1.
Qed.

Lemma removeEditVariable_parametric fuel variable this r this' :
  removeEditVariable fuel variable this = (r, this') ->
  well_formed this -> parametric this -> parametric this'.
Proof.
  intros E W P. unfold removeEditVariable, bind, gets, throw, ret, run in E.
  destruct (JsMap.get (_editMap this) variable) as [info|]; [|inversion E; subst; exact P].
  exact (removeConstraint_parametric _ _ _ _ _ E (wf_with_editMap _ _ W)
           (parametric_with_editMap _ _ P)).
Qed.

(** The constant of a basic row is changed. *)
Lemma parametric_bump this key row d :
  parametric this -> JsMap.get (_rowMap this) key = Some row ->
  parametric (with_rowMap this (JsMap.set (_rowMap this) key (Row.add row d))).
Proof.
  intros P G. apply parametric_fewer; [|exact P]. intros k H. rewrite has_set in H.
  destruct (same key k) eqn:S; [|exact H].
  apply same_symbol_eq in S. subst k. unfold JsMap.has. rewrite G. reflexivity.
Qed.

Lemma suggestValue_parametric fuel variable value this r this' :
  suggestValue fuel variable value this = (r, this') ->
  well_formed this -> parametric this -> parametric this'.
Proof.
  intros E W P. unfold suggestValue, bind, gets, throw, ret, run in E.
  destruct (JsMap.get (_editMap this) variable) as [info|]; [|inversion E; subst; exact P].
  match type of E with context [with_editMap this ?m] =>
    pose proof (wf_with_editMap this m W) as W1;
    pose proof (parametric_with_editMap this m P) as P1;
    set (s1 := with_editMap this m) in *
  end.
  destruct (JsMap.get (_rowMap s1) (Tag.marker (EditInfo.tag info))) as [row|] eqn:G1.
  - pose proof (wf_bump s1 _ row (- (value - EditInfo.constant info)) W1 G1) as W2.
    pose proof (parametric_bump s1 _ row (- (value - EditInfo.constant info)) P1 G1) as P2.
    destruct (Row.constant (Row.add row (- (value - EditInfo.constant info))) <? 0).
    + exact (dualOptimize_parametric _ _ _ _ E (wf_with_infeasibleRows _ _ W2)
               (parametric_with_infeasibleRows _ _ P2)).
    + exact (dualOptimize_parametric _ _ _ _ E W2 P2).
  - destruct (JsMap.get (_rowMap s1) (Tag.other (EditInfo.tag info))) as [row|] eqn:G2.
    + pose proof (wf_bump s1 _ row (value - EditInfo.constant info) W1 G2) as W2.
      pose proof (parametric_bump s1 _ row (value - EditInfo.constant info) P1 G2) as P2.
      destruct (Row.constant (Row.add row (value - EditInfo.constant info)) <? 0).
      * exact (dualOptimize_parametric _ _ _ _ E (wf_with_infeasibleRows _ _ W2)
                 (parametric_with_infeasibleRows _ _ P2)).
      * exact (dualOptimize_parametric _ _ _ _ E W2 P2).
    + rewrite suggest_loop in E. cbn [app] in E.
      refine (dualOptimize_parametric _ _ _ _ E _ _).
      * apply wf_with_infeasibleRows. apply wf_map_rows; [exact W1|].
        intros key row B. pose proof (wf_tidy _ _ _ W1 B) as T.
        destruct (negb _); exact T.
      * apply parametric_with_infeasibleRows.
        exact (parametric_map_rows s1 _ P1).
Qed.

Lemma reachable_parametric this : reachable required clip this -> parametric this.
Proof.
  induction 1 as [|fuel constraint this r this' Hr IH E|fuel constraint this r this' Hr IH E
                  |fuel cn_id variable strength this r this' Hr IH E
                  |fuel variable this r this' Hr IH E|fuel variable value this r this' Hr IH E];
    try pose proof (reachable_well_formed required clip _ Hr) as W.
  - exact parametric_new.
  - exact (addConstraint_parametric _ _ _ _ _ E W IH).
  - exact (removeConstraint_parametric _ _ _ _ _ E W IH).
  - exact (addEditVariable_parametric _ _ _ _ _ _ _ E W IH).
  - exact (removeEditVariable_parametric _ _ _ _ _ E W IH).
  - exact (suggestValue_parametric _ _ _ _ _ _ E W IH).
Qed.

Lemma not_basic_has this k : ~ is_basic this k -> JsMap.has (_rowMap this) k = false.
Proof.
  unfold is_basic. intros N. destruct (JsMap.has (_rowMap this) k); [|reflexivity].
  exfalso. apply N. reflexivity.
Qed.

(** X22. The objective is written in the symbols that have no row. In
    every solver reached from [new Solver()] by public calls, whatever
    their outcomes, no symbol of the objective has a row; so the symbol
    [_getEnteringSymbol] finds in the objective has no row, and neither
    has the symbol [_getDualEnteringSymbol] finds in a row of the basis:
    the symbol a pivot brings into the basis is never in it already. *)
Theorem objective_is_parametric :
  forall this : Solver.t,
    reachable required clip this ->
    (forall symbol c,
        In (symbol, c) (Row.cells (_objective this)) ->
        JsMap.has (_rowMap this) symbol = false)
    /\ JsMap.has (_rowMap this) (_getEnteringSymbol (_objective this)) = false
    /\ (forall key row,
           basic this key row ->
           JsMap.has (_rowMap this) (_getDualEnteringSymbol row this) = false).
Proof.
  intros this Hreach.
  pose proof (reachable_well_formed required clip this Hreach) as W.
  pose proof (reachable_parametric this Hreach) as [O _].
  assert (Obj : forall symbol c,
             In (symbol, c) (Row.cells (_objective this)) ->
             JsMap.has (_rowMap this) symbol = false).
  { intros symbol c Hin. apply not_basic_has. exact (avoids_In _ _ _ _ O Hin). }
  split; [exact Obj|]. split.
  - unfold _getEnteringSymbol.
    destruct (scan_In (fun found coefficient symbol =>
                         same found INVALID_SYMBOL && (coefficient <? 0)
                         && negb (is_type SymbolType.Dummy symbol))
                (Row.cells (_objective this)) INVALID_SYMBOL) as [E|[c Hin]];
      cbv zeta in *.
    + rewrite E. exact (wf_invalid _ W).
    + exact (Obj _ _ Hin).
  - intros key row B.
    destruct (is_type SymbolType.Invalid (_getDualEnteringSymbol row this)) eqn:T.
    + destruct (JsMap.has (_rowMap this) (_getDualEnteringSymbol row this)) eqn:H;
        [|reflexivity].
      unfold JsMap.has in H.
      destruct (JsMap.get (_rowMap this) (_getDualEnteringSymbol row this)) as [r0|] eqn:G;
        [|discriminate H].
      pose proof (ty_rows _ (reachable_typed required clip this Hreach) _ _
                    (basic_In _ _ _ G)) as [V _].
      congruence.
    + destruct (dualEntering_positive _ _ T) as [c [Hin _]].
      apply not_basic_has.
      exact (avoids_In _ _ _ _ (proj1 (proj2 (wf_tidy _ _ _ W B))) Hin).
Qed.

End Parametric.

(** ** Substitution *)

Section Substitution.
Import Solver.
Local Open Scope float_scope.

(** X23. [_substitute] as a map over the basis. Every row of the basis,
    the objective and the artificial objective, if there is one, are
    substituted in, keys and order kept; the worklist gets, after the
    entries it had, the key of every row whose constant is negative after
    the substitution and whose symbol is not External, in iteration
    order, whether or not the row had a cell for the symbol and whether
    or not the key was on the worklist already; the other fields of the
    solver are as before. A row without a cell for the symbol is
    unchanged. *)
Theorem substitute_effect :
  forall (symbol : Symbol.t) (row : Row.t) (this : Solver.t),
    let this' := _substitute symbol row this in
    _rowMap this' = map_rows (fun _ r => Row.substitute r symbol row) (_rowMap this)
    /\ _objective this' = Row.substitute (_objective this) symbol row
    /\ _artificial this'
       = option_map (fun a => Row.substitute a symbol row) (_artificial this)
    /\ _infeasibleRows this'
       = _infeasibleRows this
         ++ map fst
              (filter
                 (fun e => (Row.constant (Row.substitute (snd e) symbol row) <? 0)
                           && negb (is_type SymbolType.External (fst e)))
                 (_rowMap this))
    /\ _cnMap this' = _cnMap this
    /\ _varMap this' = _varMap this
    /\ _editMap this' = _editMap this
    /\ _idTick this' = _idTick this
    /\ forall r, JsMap.get (Row.cells r) symbol = None -> Row.substitute r symbol row = r.
Proof.
  intros symbol row this. cbv zeta.
  destruct (substitute_kept symbol row this) as (K1 & K2 & K3 & K4).
  split; [apply substitute_rowMap|]. split; [apply substitute_objective|].
  split; [apply substitute_artificial|]. split; [apply substitute_infeasibleRows|].
  repeat (split; [assumption|]).
  intros r G. unfold Row.substitute. unfold Row.cells in G. rewrite G. reflexivity.
Qed.

End Substitution.

(** ** The markers of the constraints *)

Section Markers.
Import Solver.
Local Open Scope float_scope.
Variable required : float.
Variable clip : float -> float.

(** The constraint map after [addConstraint]: as before, or with the
    constraint and the tag of its row at the end. *)
Lemma addConstraint_cnMap fuel constraint this r this' :
  addConstraint required fuel constraint this = (r, this') ->
  JsMap.has (_cnMap this) constraint = false ->
  _cnMap this' = _cnMap this
  \/ _cnMap this'
     = _cnMap this ++ [(constraint, snd (fst (_createRow required constraint this)))].
Proof.
  intros E Hhas. unfold addConstraint, bind, gets, throw, ret, run in E. rewrite Hhas in E.
  pose proof (createRow_kept required constraint this) as (K1 & _).
  destruct (_createRow required constraint this) as [[row tag] this1].
  cbn [fst snd] in *.
  assert (Done : forall this2 r0 this0,
             _cnMap this2 = _cnMap this ->
             _optimize fuel TheObjective
               (with_cnMap this2 (JsMap.set (_cnMap this2) constraint tag)) = (r0, this0) ->
             _cnMap this0 = _cnMap this ++ [(constraint, tag)]).
  { intros this2 r0 this0 C2 O.
    destruct (optimize_maps_kept _ _ _ _ _ O) as (M1 & _). rewrite M1. fields.
    rewrite C2. apply set_fresh. exact Hhas. }
  assert (Direct : forall subject r0 this0,
             (let this2 := _substitute subject (Row.solveFor row subject) this1 in
              let this3 :=
                with_rowMap this2
                  (JsMap.set (_rowMap this2) subject (Row.solveFor row subject)) in
              _optimize fuel TheObjective
                (with_cnMap this3 (JsMap.set (_cnMap this3) constraint tag)))
             = (r0, this0) -> _cnMap this0 = _cnMap this ++ [(constraint, tag)]).
  { intros subject r0 this0 O. cbv zeta in O.
    destruct (substitute_kept subject (Row.solveFor row subject) this1) as (S1 & _).
    refine (Done _ _ _ _ O). fields. congruence. }
  assert (Art : forall r0 this0,
             (match _addWithArtificialVariable fuel row this1 with
              | (Return a, s) =>
                  match
                    (if a : bool
                     then fun this => (Return tt, this)
                     else fun this => (Throw "unsatisfiable constraint", this)) s
                  with
                  | (Return _, s') =>
                      _optimize fuel TheObjective
                        (with_cnMap s' (JsMap.set (_cnMap s') constraint tag))
                  | (Throw message, s') => (Throw message, s')
                  | (OutOfFuel, s') => (OutOfFuel, s')
                  end
              | (Throw message, s) => (Throw message, s)
              | (OutOfFuel, s) => (OutOfFuel, s)
              end) = (r0, this0) ->
             _cnMap this0 = _cnMap this
             \/ _cnMap this0 = _cnMap this ++ [(constraint, tag)]).
  { intros r0 this0 O.
    destruct (_addWithArtificialVariable fuel row this1) as [[[]|m|] this2] eqn:A;
      destruct (addWithArtificialVariable_maps _ _ _ _ _ A) as (A1 & _).
    - right. refine (Done _ _ _ _ O). congruence.
    - inversion O; subst. left. congruence.
    - inversion O; subst. left. congruence.
    - inversion O; subst. left. congruence. }
  destruct (is_type SymbolType.Invalid (_chooseSubject row tag) && Row.allDummies row).
  - destruct (negb (nearZero (Row.constant row))).
    + inversion E; subst. left. exact K1.
    + destruct (is_type SymbolType.Invalid (Tag.marker tag)).
      * apply (Art r this'). rewrite <- E.
        destruct (_addWithArtificialVariable fuel row this1) as [[[]|m|] this2]; reflexivity.
      * right. exact (Direct _ _ _ E).
  - destruct (is_type SymbolType.Invalid (_chooseSubject row tag)).
    + apply (Art r this'). rewrite <- E.
      destruct (_addWithArtificialVariable fuel row this1) as [[[]|m|] this2]; reflexivity.
    + right. exact (Direct _ _ _ E).
Qed.

(** Deleting a key keeps the images of the entries distinct. *)
Lemma delete_keeps_distinct {T} (image : Constraint.t * Tag.t -> T)
  (m : JsMap.t Constraint.t Tag.t) (k : Constraint.t) :
  NoDup (map image m) -> NoDup (map image (JsMap.delete m k)).
Proof.
  unfold JsMap.delete. intros D.
  induction m as [|e m IH]; cbn [map filter]; [constructor|].
  apply NoDup_cons_iff in D. destruct D as [Fresh D].
  destruct (negb (same (fst e) k)); cbn [map]; [|exact (IH D)].
  apply NoDup_cons; [|exact (IH D)].
  intros Hin. apply Fresh. apply in_map_iff in Hin. destruct Hin as [x [E Hx]].
  apply filter_In in Hx. rewrite <- E. apply in_map. exact (proj1 Hx).
Qed.

Lemma NoDup_map_snoc {A B} (f : A -> B) (l : list A) (a : A) :
  NoDup (map f l) -> ~ In (f a) (map f l) -> NoDup (map f (l ++ [a])).
Proof.
  intros N Hn. rewrite map_app. cbn [map]. apply NoDup_app.
  - exact N.
  - constructor; [intros [] | constructor].
  - intros x Hx [<-|[]]. exact (Hn Hx).
Qed.

Lemma addConstraint_distinct fuel constraint this r this' :
  addConstraint required fuel constraint this = (r, this') ->
  well_formed this -> distinct_tags this -> distinct_tags this'.
Proof.
  intros E W [Dk Dm]. unfold distinct_tags.
  destruct (JsMap.has (_cnMap this) constraint) eqn:Hhas.
  { unfold addConstraint, bind, gets, throw in E. rewrite Hhas in E.
    inversion E; subst. split; assumption. }
  destruct (addConstraint_cnMap _ _ _ _ _ E Hhas) as [->| ->]; [split; assumption|].
  split.
  - apply NoDup_map_snoc; [exact Dk|]. cbn [fst]. intros Hin.
    apply in_map_iff in Hin. destruct Hin as [[c t] [E1 Hin]]. cbn [fst] in E1.
    pose proof (has_false_all _ _ Hhas _ Hin) as F. cbn [fst] in F.
    unfold same, Constraint_identity in F. rewrite E1, Z.eqb_refl in F. discriminate.
  - apply NoDup_map_snoc; [exact Dm|]. cbn [snd]. intros Hin.
    apply in_map_iff in Hin. destruct Hin as [[c t] [E1 Hin]]. cbn [snd] in E1.
    destruct (createRow_tag required constraint this) as (type & n & Em & Hn & _).
    destruct (wf_tags _ W _ _ Hin) as [Im _]. rewrite E1, Em in Im. cbn in Im. lia.
Qed.

Lemma removeConstraint_distinct fuel constraint this r this' :
  removeConstraint fuel constraint this = (r, this') ->
  distinct_tags this -> distinct_tags this'.
Proof.
  intros E [Dk Dm]. destruct (removeConstraint_effect _ _ _ _ _ E) as (Cn & _).
  unfold distinct_tags. rewrite Cn.
  split; apply delete_keeps_distinct; assumption.
Qed.

Lemma distinct_tags_ext a b : _cnMap b = _cnMap a -> distinct_tags a -> distinct_tags b.
Proof. unfold distinct_tags. intros ->. exact (fun H => H). Qed.

Lemma reachable_distinct_tags this : reachable required clip this -> distinct_tags this.
Proof.
  induction 1 as [|fuel constraint this r this' Hr IH E|fuel constraint this r this' Hr IH E
                  |fuel cn_id variable strength this r this' Hr IH E
                  |fuel variable this r this' Hr IH E|fuel variable value this r this' Hr IH E];
    try pose proof (reachable_well_formed required clip _ Hr) as W.
  - split; constructor.
  - exact (addConstraint_distinct _ _ _ _ _ E W IH).
  - exact (removeConstraint_distinct _ _ _ _ _ E IH).
  - unfold addEditVariable, bind, gets, throw, ret, run in E.
    destruct (JsMap.has (_editMap this) variable); [inversion E; subst; exact IH|].
    destruct (clip strength =? required); [inversion E; subst; exact IH|].
    match type of E with context [addConstraint required fuel ?cn this] =>
      destruct (addConstraint required fuel cn this) as [[[]|m|] this1] eqn:A;
      pose proof (addConstraint_distinct _ _ _ _ _ A W IH) as D1;
      [|inversion E; subst; exact D1..];
      destruct (JsMap.get (_cnMap this1) cn)
    end.
    + inversion E; subst. exact D1.
    + inversion E; subst. exact D1.
  - unfold removeEditVariable, bind, gets, throw, ret, run in E.
    destruct (JsMap.get (_editMap this) variable) as [info|]; [|inversion E; subst; exact IH].
    refine (removeConstraint_distinct _ _ _ _ _ E _).
    apply (distinct_tags_ext this); [reflexivity | exact IH].
  - destruct (suggestValue_effect _ _ _ _ _ _ E) as (Cn & _).
    apply (distinct_tags_ext this); [exact Cn | exact IH].
Qed.

Lemma NoDup_map_eq {A B} (f : A -> B) (l : list A) a b :
  NoDup (map f l) -> In a l -> In b l -> f a = f b -> a = b.
Proof.
  induction l as [|x l IH]; cbn [map]; intros N Ha Hb E; [contradiction|].
  inversion N as [|? ? Hn N']; subst.
  destruct Ha as [->|Ha], Hb as [->|Hb].
  - reflexivity.
  - exfalso. apply Hn. rewrite E. apply in_map. exact Hb.
  - exfalso. apply Hn. rewrite <- E. apply in_map. exact Ha.
  - exact (IH N' Ha Hb E).
Qed.

(** X24. Every registered constraint has a marker of its own. In every
    solver reached from [new Solver()] by public calls, whatever their
    outcomes, the tags of two different registered constraints have
    different markers, and a constraint is registered once. *)
Theorem markers_are_distinct :
  forall this : Solver.t,
    reachable required clip this ->
    NoDup (map (fun e => Constraint.id (fst e)) (_cnMap this))
    /\ forall c1 c2 t1 t2,
         JsMap.get (_cnMap this) c1 = Some t1 ->
         JsMap.get (_cnMap this) c2 = Some t2 ->
         same c1 c2 = false ->
         Tag.marker t1 <> Tag.marker t2.
Proof.
  intros this Hreach. destruct (reachable_distinct_tags this Hreach) as [Dk Dm].
  split; [exact Dk|]. intros c1 c2 t1 t2 G1 G2 N E.
  apply get_In in G1. destruct G1 as [k1 [H1 S1]].
  apply get_In in G2. destruct G2 as [k2 [H2 S2]].
  pose proof (NoDup_map_eq (fun e => Tag.marker (snd e)) _ (k1, t1) (k2, t2) Dm H1 H2 E) as X.
  inversion X; subst. unfold same, Constraint_identity in *.
  apply Z.eqb_eq in S1, S2. apply Z.eqb_neq in N. congruence.
Qed.

End Markers.

(** ** The marker of a removed constraint *)

Section Removal.
Import Solver.
Local Open Scope float_scope.
Variable required : float.
Variable clip : float -> float.

Lemma absent_delete_row s this k :
  absent s this -> absent s (with_rowMap this (JsMap.delete (_rowMap this) k)).
Proof.
  intros (B & R & O & A). split; [|split; [|split]]; fields.
  - rewrite has_delete, B. apply andb_false_r.
  - intros key row G. unfold basic in G. fields. rewrite get_delete in G.
    destruct (same k key); [discriminate G|]. exact (R _ _ G).
  - exact O.
  - exact A.
Qed.

(** A symbol the tableau does not have is not brought in by a pivot for
    another symbol. *)
Lemma pivot_absent s leaving entering this r this' :
  pivot leaving entering this = (r, this') ->
  absent s this -> entering <> s -> absent s this'.
Proof.
  intros E Ab N. unfold pivot in E.
  destruct (JsMap.get (_rowMap this) leaving) as [row|] eqn:G; inversion E; subst; clear E;
    [|apply absent_delete_row; exact Ab].
  destruct Ab as (B & R & O & A).
  assert (Nl : leaving <> s).
  { intros ->. unfold JsMap.has in B. rewrite G in B. discriminate B. }
  set (row' := Row.solveForEx row leaving entering).
  assert (G' : JsMap.get (Row.cells row') s = None).
  { unfold row', Row.solveForEx. apply solveFor_facts. left.
    unfold Row.cells. rewrite (insertSymbol_get_other _ _ _ _ Nl). exact (R _ _ G). }
  assert (Se : same entering s = false) by (apply same_symbol_neq; exact N).
  assert (Sl : same leaving s = false) by (apply same_symbol_neq; exact Nl).
  split; [|split; [|split]]; fields.
  - rewrite has_set, Se, substitute_rowMap, has_map_rows. fields.
    rewrite has_delete, B. apply andb_false_r.
  - intros key r G1. unfold basic in G1. fields. rewrite get_set in G1.
    destruct (same entering key); [inversion G1; subst; exact G'|].
    rewrite substitute_rowMap, map_rows_get in G1. fields. rewrite get_delete in G1.
    destruct (same leaving key); [discriminate G1|].
    destruct (JsMap.get (_rowMap this) key) as [r0|] eqn:G0; [|discriminate G1].
    cbn in G1. inversion G1; subst r.
    apply substitute_get_None; [exact G' | left; exact (R _ _ G0)].
  - rewrite substitute_objective. fields. apply substitute_get_None; [exact G' | left; exact O].
  - intros a Ha. rewrite substitute_artificial in Ha. fields.
    destruct (_artificial this) as [a0|]; [|discriminate Ha]. cbn in Ha. inversion Ha; subst a.
    apply substitute_get_None; [exact G' | left; exact (A a0 eq_refl)].
Qed.

Lemma optimize_absent s fuel which this r this' :
  _optimize fuel which this = (r, this') -> absent s this -> absent s this'.
Proof.
  revert this. induction fuel as [|fuel IH]; intros this E Ab; cbn [_optimize] in E.
  - inversion E; subst. exact Ab.
  - unfold bind, gets, ret, throw in E.
    destruct (is_type SymbolType.Invalid (_getEnteringSymbol (objective_of which this))) eqn:T.
    + inversion E; subst. exact Ab.
    + destruct (is_type SymbolType.Invalid
                  (_getLeavingSymbol (_getEnteringSymbol (objective_of which this)) this)).
      * inversion E; subst. exact Ab.
      * assert (N : _getEnteringSymbol (objective_of which this) <> s).
        { intros X. revert T. unfold _getEnteringSymbol in *.
          destruct (scan_In (fun found coefficient symbol =>
                               same found INVALID_SYMBOL && (coefficient <? 0)
                               && negb (is_type SymbolType.Dummy symbol))
                      (Row.cells (objective_of which this)) INVALID_SYMBOL) as [Ei|[c Hin]];
            cbv zeta in *.
          - rewrite Ei. discriminate.
          - rewrite X in Hin. pose proof (In_has _ _ _ Hin) as H. unfold JsMap.has in H.
            destruct Ab as (_ & _ & O & A).
            destruct which; cbn [objective_of] in H.
            + rewrite O in H. discriminate H.
            + destruct (_artificial this) as [a|].
              * rewrite (A a eq_refl) in H. discriminate H.
              * discriminate H. }
        destruct (pivot _ _ this) as [[[]|m|] this1] eqn:Pv;
          pose proof (pivot_absent s _ _ _ _ _ Pv Ab N) as Ab1.
        -- exact (IH _ E Ab1).
        -- inversion E; subst. exact Ab1.
        -- inversion E; subst. exact Ab1.
Qed.

(** X25. Removing a constraint takes its marker out of the tableau. When
    [removeConstraint] returns, in a solver reached by public calls, the
    marker of the constraint has no row and no cell: not in a row of the
    basis and not in the objective. *)
Theorem removed_marker_is_gone :
  forall fuel constraint tag this this',
    reachable required clip this ->
    JsMap.get (_cnMap this) constraint = Some tag ->
    removeConstraint fuel constraint this = (Return tt, this') ->
    JsMap.has (_rowMap this') (Tag.marker tag) = false
    /\ (forall key row,
           basic this' key row -> JsMap.get (Row.cells row) (Tag.marker tag) = None)
    /\ JsMap.get (Row.cells (_objective this')) (Tag.marker tag) = None.
Proof.
  intros fuel constraint tag this this' Hreach G E.
  pose proof (reachable_well_formed required clip this Hreach) as W.
  pose proof (reachable_parametric required clip this Hreach) as P.
  assert (Ab : absent (Tag.marker tag) this').
  { unfold removeConstraint, bind, gets, throw, ret, run in E. rewrite G in E.
    apply get_In in G. destruct G as [c0 [Hin _]].
    destruct (wf_tags _ W _ _ Hin) as [Im Io].
    pose proof (wf_delete_cn this constraint W) as W1.
    pose proof (parametric_with_cnMap this (JsMap.delete (_cnMap this) constraint) P) as P1.
    destruct (wf_removeConstraintEffects constraint tag _ W1 Im Io) as [W2 I2].
    pose proof (parametric_removeConstraintEffects constraint tag _ W1 Im Io P1) as P2.
    match type of W2 with well_formed ?s => set (s2 := s) in * end.
    pose proof (wf_delete_row s2 (Tag.marker tag) W2) as W3.
    match type of W3 with well_formed ?s => set (s3 := s) in * end.
    destruct (JsMap.has (_rowMap s2) (Tag.marker tag)) eqn:Hm; cbn [negb] in E.
    - refine (optimize_absent _ _ _ _ _ _ E _).
      destruct P2 as [O2 A2]. split; [|split; [|split]].
      + unfold s3. fields. rewrite has_delete, same_refl. reflexivity.
      + intros key row B. unfold basic, s3 in B. fields. rewrite get_delete in B.
        destruct (same (Tag.marker tag) key); [discriminate B|].
        exact (proj1 (proj2 (wf_tidy _ _ _ W2 B)) _ Hm).
      + exact (O2 _ Hm).
      + intros a Ha. exact (A2 a Ha _ Hm).
    - destruct (is_type SymbolType.Invalid (_getMarkerLeavingSymbol (Tag.marker tag) s3));
        [discriminate E|].
      pose proof (wf_delete_row s3 (_getMarkerLeavingSymbol (Tag.marker tag) s3) W3) as W4.
      destruct (JsMap.get (_rowMap s3) (_getMarkerLeavingSymbol (Tag.marker tag) s3))
        as [row|] eqn:Gr; [|discriminate E].
      pose proof (tidy_solveFor _ _ (Tag.marker tag)
                    (tidy_leaving s3 _ row (-1) W3 Gr)) as (N & C & U).
      destruct (wf_substitute required clip (Tag.marker tag) _ _ W4 C U) as (W5 & B5 & _ & R5).
      refine (optimize_absent _ _ _ _ _ _ E _).
      assert (Self : JsMap.get
                       (Row.cells (Row.solveForEx row
                                     (_getMarkerLeavingSymbol (Tag.marker tag) s3)
                                     (Tag.marker tag)))
                       (Tag.marker tag) = None) by apply solveFor_self.
      split; [|split; [|split]].
      + rewrite substitute_rowMap, has_map_rows. fields. rewrite has_delete.
        unfold s3. fields. rewrite has_delete, Hm, !andb_false_r. reflexivity.
      + exact (R5 Self).
      + rewrite substitute_objective. apply substitute_self. exact Self.
      + intros a Ha. rewrite substitute_artificial in Ha.
        match type of Ha with option_map _ ?x = _ => destruct x as [a0|] end;
          [|discriminate Ha].
        cbn in Ha. inversion Ha; subst a. apply substitute_self. exact Self. }
  destruct Ab as (B & R & O & _). split; [exact B|]. split; [exact R | exact O].
Qed.

End Removal.

(** ** Inserting a row *)

Section InsertRow.
Import Solver.
Local Open Scope float_scope.

Lemma insertRow_loop_constant (c : float) other : forall acc,
  Row.constant
    (JsMap.forEach other
       (fun this otherCoeff otherSymbol => Row.insertSymbol this otherSymbol (otherCoeff * c))
       acc)
  = Row.constant acc.
Proof.
  unfold JsMap.forEach. induction other as [|[s v] other IH]; intros acc;
    cbn [fold_left fst snd]; [reflexivity|].
  rewrite IH. apply insertSymbol_constant.
Qed.

Lemma has_snoc {V} (m : JsMap.t Symbol.t V) s v k :
  JsMap.has (m ++ [(s, v)]) k = JsMap.has m k || same s k.
Proof.
  unfold JsMap.has, JsMap.get. rewrite find_over_app. cbn [find fst].
  destruct (find (fun e => same (fst e) k) m); [reflexivity|].
  destruct (same s k); reflexivity.
Qed.

(** The loop of [insertRow] over cells that the row does not have. *)
Lemma insertRow_loop_fresh (c : float) other : forall acc,
  NoDup (map fst other) ->
  (forall s v, In (s, v) other -> JsMap.has (Row.cells acc) s = false) ->
  JsMap.forEach other
    (fun this otherCoeff otherSymbol => Row.insertSymbol this otherSymbol (otherCoeff * c))
    acc
  = Row.mk (Row.cells acc
            ++ filter (fun e => negb (nearZero (snd e))) (map_cells (fun x => x * c) other))
      (Row.constant acc).
Proof.
  unfold JsMap.forEach. induction other as [|[s v] other IH]; intros acc N F;
    cbn [fold_left fst snd map_cells map filter].
  - rewrite app_nil_r. destruct acc. reflexivity.
  - inversion N as [|? ? Hn N']; subst.
    rewrite (insertSymbol_fresh acc s (v * c) (F s v (or_introl eq_refl))).
    fold (map_cells (fun x => x * c) other).
    destruct (nearZero (v * c)); cbn [negb].
    + apply IH; [exact N'|]. intros s' v' Hin. apply (F s' v'). right. exact Hin.
    + rewrite IH; [|exact N'|].
      * cbn [Row.cells Row._cellMap Row.constant Row._constant]. rewrite <- app_assoc.
        reflexivity.
      * intros s' v' Hin. cbn [Row.cells Row._cellMap]. rewrite has_snoc.
        rewrite (F s' v' (or_intror Hin)). cbn [orb].
        apply same_symbol_neq. intros ->. apply Hn. exact (in_map fst _ _ Hin).
Qed.

(** X26. [insertRow] adds to the constant the constant of the other row
    times the coefficient. When the other row has distinct keys and the
    row has a cell for none of them, the row gets, after its own cells and
    in the order of the other row, the cells of the other row with their
    coefficients times the coefficient, less those whose product is near
    zero. *)
Theorem insertRow_of_other_symbols :
  forall (r other : Row.t) (c : float),
    Row.constant (Row.insertRow r other c) = Row.constant r + Row.constant other * c
    /\ (NoDup (map fst (Row.cells other)) ->
        (forall s v, In (s, v) (Row.cells other) -> JsMap.has (Row.cells r) s = false) ->
        Row.insertRow r other c
        = Row.mk (Row.cells r
                  ++ filter (fun e => negb (nearZero (snd e)))
                       (map_cells (fun x => x * c) (Row.cells other)))
            (Row.constant r + Row.constant other * c)).
Proof.
  intros r other c. unfold Row.insertRow. split.
  - rewrite insertRow_loop_constant. reflexivity.
  - intros N F. rewrite (insertRow_loop_fresh c _ _ N); [reflexivity|]. exact F.
Qed.

End InsertRow.

(** ** C5: suggesting a value *)

Section Suggestion.
Import Solver.
Local Open Scope float_scope.

(** [coefficientFor], read off the cell. *)
Lemma nonzero_in_coefficientFor row symbol :
  nonzero_in row symbol
  = if Row.coefficientFor row symbol =? 0 then None
    else Some (Row.coefficientFor row symbol).
Proof.
  unfold nonzero_in, Row.coefficientFor, held, JsMap.get, Number.or_zero, Number.falsy, Row.cells.
  change (fun e : Symbol.t * float => same (fst e) symbol)
    with (fun cell : Symbol.t * float => Symbol.eqb (fst cell) symbol).
  destruct (find _ (Row._cellMap row)) as [cell|]; [|reflexivity].
  destruct (snd cell =? 0) eqn:Z; cbn [orb]; [reflexivity|].
  destruct (is_nan (snd cell)); [reflexivity|]. rewrite Z. reflexivity.
Qed.

Lemma pivot_pivot_spec leaving entering row this :
  JsMap.get (_rowMap this) leaving = Some row ->
  pivot leaving entering this = (Return tt, pivot_spec leaving entering row this).
Proof.
  intros G. unfold pivot. rewrite G. f_equal.
  unfold pivot_spec. rewrite infeasible_keys_map_rows.
  unfold _substitute.
  cbn [_rowMap _infeasibleRows _objective _artificial with_rowMap].
  rewrite substitute_loop. cbn [app].
  destruct this as [cn rows vars edits inf obj [art|] tick]; reflexivity.
Qed.

Lemma pop_snoc {A} (l : list A) x : pop (l ++ [x]) = Some (x, l).
Proof. unfold pop. rewrite rev_app_distr. cbn. rewrite rev_involutive. reflexivity. Qed.

Lemma dualOptimize_sound fuel : forall this r this',
  _dualOptimize fuel this = (r, this') -> r <> OutOfFuel -> dual_optimises this r this'.
Proof.
  induction fuel as [|fuel IH]; intros this r this' E N; cbn [_dualOptimize] in E.
  - inversion E; subst. contradiction.
  - destruct (pop (_infeasibleRows this)) as [[leaving rest]|] eqn:P.
    + apply pop_Some in P.
      cbn [_rowMap with_infeasibleRows] in E.
      destruct (JsMap.get (_rowMap this) leaving) as [row|] eqn:G.
      * destruct (Row.constant row <? 0) eqn:C.
        -- rewrite getDualEnteringSymbol_scan in E.
           change (entering_cells row (with_infeasibleRows this rest))
             with (entering_cells row this) in E.
           destruct (is_type SymbolType.Invalid (least_ratio (entering_cells row this))) eqn:I.
           ++ inversion E; subst. eapply dual_fails; eassumption.
           ++ unfold bind in E.
              rewrite (pivot_pivot_spec leaving _ row) in E by exact G.
              eapply dual_pivots; try eassumption; [reflexivity|].
              apply IH; assumption.
        -- eapply dual_skip; [exact P | | apply IH; assumption].
           intros row' G'. rewrite G in G'. inversion G'; subst. exact C.
      * eapply dual_skip; [exact P | | apply IH; assumption].
        intros row' G'. rewrite G in G'. discriminate.
    + inversion E; subst. apply dual_done. apply pop_None. exact P.
Qed.

Lemma dualOptimize_complete this r this' :
  dual_optimises this r this' -> exists fuel, _dualOptimize fuel this = (r, this').
Proof.
  induction 1 as [this E | this rest leaving r this' E Sk _ [fuel IH]
                 | this rest leaving row E G C I
                 | this rest leaving row entering r this' E G C En I _ [fuel IH]].
  - exists 1%nat. cbn [_dualOptimize]. rewrite E. reflexivity.
  - exists (S fuel). cbn [_dualOptimize]. rewrite E, pop_snoc.
    cbn [_rowMap with_infeasibleRows].
    destruct (JsMap.get (_rowMap this) leaving) as [row|] eqn:G; [|exact IH].
    rewrite (Sk _ eq_refl). exact IH.
  - exists 1%nat. cbn [_dualOptimize]. rewrite E, pop_snoc.
    cbn [_rowMap with_infeasibleRows]. rewrite G, C, getDualEnteringSymbol_scan.
    change (entering_cells row (with_infeasibleRows this rest))
      with (entering_cells row this).
    rewrite I. reflexivity.
  - exists (S fuel). cbn [_dualOptimize]. rewrite E, pop_snoc.
    cbn [_rowMap with_infeasibleRows]. rewrite G, C, getDualEnteringSymbol_scan.
    change (entering_cells row (with_infeasibleRows this rest))
      with (entering_cells row this).
    rewrite <- En, I. unfold bind.
    rewrite (pivot_pivot_spec leaving entering row) by exact G. exact IH.
Qed.

Lemma dual_optimises_ends this r this' : dual_optimises this r this' -> r <> OutOfFuel.
Proof. induction 1; try assumption; discriminate. Qed.

Lemma suggestValue_prepares fuel variable value info this :
  JsMap.get (_editMap this) variable = Some info ->
  suggestValue fuel variable value this
  = _dualOptimize fuel (suggested variable value info this).
Proof.
  intros G. unfold suggestValue, suggested, bind, gets, run, ret, throw. rewrite G.
  cbn [_rowMap _infeasibleRows with_editMap].
  destruct (JsMap.get (_rowMap this) (Tag.marker (EditInfo.tag info))) as [row|].
  - unfold Row.add, bumped, Row.cells, Row.constant. cbn [Row._constant Row._cellMap fst snd].
    destruct (Row._constant row + - (value - EditInfo.constant info) <? 0);
      destruct this; reflexivity.
  - cbn [_rowMap _infeasibleRows with_editMap].
    destruct (JsMap.get (_rowMap this) (Tag.other (EditInfo.tag info))) as [row|].
    + unfold Row.add, bumped, Row.cells, Row.constant. cbn [Row._constant Row._cellMap fst snd].
      destruct (Row._constant row + (value - EditInfo.constant info) <? 0);
        destruct this; reflexivity.
    + cbn [_rowMap _infeasibleRows with_editMap]. rewrite suggest_loop. cbn [app fst snd].
      f_equal.
      assert (R : forall rows,
                 map_rows
                   (fun _ row =>
                      if negb (Row.coefficientFor row (Tag.marker (EditInfo.tag info)) =? 0)
                      then Row.add row ((value - EditInfo.constant info)
                                        * Row.coefficientFor row (Tag.marker (EditInfo.tag info)))
                      else row) rows
                 = map_rows
                     (fun _ row =>
                        match nonzero_in row (Tag.marker (EditInfo.tag info)) with
                        | Some c => bumped row ((value - EditInfo.constant info) * c)
                        | None => row
                        end) rows).
      { intros rows. unfold map_rows. apply map_ext. intros [k row]. cbn [fst snd].
        rewrite nonzero_in_coefficientFor.
        destruct (Row.coefficientFor row _ =? 0); reflexivity. }
      assert (F : forall rows : JsMap.t Symbol.t Row.t,
                 filter
                   (fun e =>
                      negb (Row.coefficientFor (snd e) (Tag.marker (EditInfo.tag info)) =? 0)
                      && (Row.constant
                            (Row.add (snd e)
                               ((value - EditInfo.constant info)
                                * Row.coefficientFor (snd e) (Tag.marker (EditInfo.tag info)))) <? 0)
                      && negb (is_type SymbolType.External (fst e))) rows
                 = filter
                     (fun e =>
                        match nonzero_in (snd e) (Tag.marker (EditInfo.tag info)) with
                        | Some c => (Row.constant (snd e) + (value - EditInfo.constant info) * c <? 0)
                                    && negb (is_type SymbolType.External (fst e))
                        | None => false
                        end) rows).
      { intros rows. apply filter_ext. intros [k row]. cbn [fst snd].
        rewrite nonzero_in_coefficientFor.
        destruct (Row.coefficientFor row _ =? 0); reflexivity. }
      rewrite R, F. destruct this; reflexivity.
Qed.

(** C5. [suggestValue] does what section 4.8 says, and nothing else: the
    outcomes of the call and the solvers it leaves are those of the
    specification. For a variable that is not a registered edit variable
    it fails with "unknown edit variable" and leaves the solver as it is.
    Otherwise, with [delta = value - info.constant] and [info.constant]
    set to [value]: when the marker has a row in the basis, [-delta] is
    added to the constant of that row and the marker is enqueued exactly
    when the new constant is negative; else, when the other symbol has a
    row, the same with [delta]; else [delta * c] is added to the constant
    of every row that holds a coefficient [c] other than zero for the
    marker, and the key of the row is enqueued exactly when the new
    constant is negative and the key is not External. Then the call
    dual-optimises, and its outcome is that of the dual optimisation:
    the worklist is popped until it is empty, with a pivot for every
    popped symbol that has a row with a negative constant. *)
Theorem suggestValue_refines_spec :
  forall (variable : Var.t) (value : float) (this : Solver.t)
         (r : outcome unit) (this' : Solver.t),
    (exists fuel, suggestValue fuel variable value this = (r, this') /\ r <> OutOfFuel)
    <-> suggestValue_spec variable value this r this'.
Proof.
  intros variable value this r this'. unfold suggestValue_spec.
  destruct (JsMap.get (_editMap this) variable) as [info|] eqn:G.
  - split.
    + intros (fuel & E & N). rewrite (suggestValue_prepares _ _ _ _ _ G) in E.
      exact (dualOptimize_sound _ _ _ _ E N).
    + intros D. destruct (dualOptimize_complete _ _ _ D) as [fuel E].
      exists fuel. rewrite (suggestValue_prepares _ _ _ _ _ G).
      split; [exact E | exact (dual_optimises_ends _ _ _ D)].
  - unfold suggestValue, bind, gets, throw. rewrite G. split.
    + intros (fuel & E & N). inversion E; subst. split; reflexivity.
    + intros [-> ->]. exists 0%nat. split; [reflexivity | discriminate].
Qed.
End Suggestion.

(** ** C3: adding a constraint and removing it *)

Section AddThenRemove.
Import Solver.
Local Open Scope float_scope.
Local Open Scope solver_scope.
Variable required : float.
Variable clip : float -> float.











End AddThenRemove.

(** ** The scenarios, run *)

Section Runs.
Import Solver.
Local Open Scope float_scope.

(** The solvers of the scenarios are reached by calls. *)
Lemma pinned_reachable : reachable Scenario.required Scenario.clip Scenario.pinned.
Proof.
  apply (reach_addConstraint Scenario.required Scenario.clip 20 Scenario.is_20
           Solver.new (Return tt)); [apply reach_new | vm_compute; reflexivity].
Qed.

Lemma bounded_below_reachable :
  reachable Scenario.required Scenario.clip Scenario.bounded_below.
Proof.
  apply (reach_addConstraint Scenario.required Scenario.clip 20 Scenario.at_least_10
           Solver.new (Return tt)); [apply reach_new | vm_compute; reflexivity].
Qed.

Lemma editing_reachable : reachable Scenario.required Scenario.clip Scenario.editing.
Proof.
  apply (reach_addEditVariable Scenario.required Scenario.clip 20 100 Scenario.x
           Scenario.strong (snd (Scenario.add_all [Scenario.x_at_least_0] Solver.new))
           (Return tt)).
  - apply (reach_addConstraint Scenario.required Scenario.clip 20 Scenario.x_at_least_0
             Solver.new (Return tt)); [apply reach_new | vm_compute; reflexivity].
  - vm_compute. reflexivity.
Qed.

Lemma segment_reachable : reachable Scenario.required Scenario.clip Scenario.segment.
Proof.
  apply (reach_addConstraint Scenario.required Scenario.clip 20 Scenario.y_at_least_0
           (snd (Scenario.add_all [Scenario.sum_100; Scenario.x_at_least_0] Solver.new))
           (Return tt)).
  - apply (reach_addConstraint Scenario.required Scenario.clip 20 Scenario.x_at_least_0
             (snd (Scenario.add_all [Scenario.sum_100] Solver.new)) (Return tt)).
    + apply (reach_addConstraint Scenario.required Scenario.clip 20 Scenario.sum_100
               Solver.new (Return tt)).
      * apply reach_new.
      * vm_compute. reflexivity.
    + vm_compute. reflexivity.
  - vm_compute. reflexivity.
Qed.

(** C8, counterexample. Solving the row [10^9 s1 + s2] for [s1] stores the
    coefficient [-10^-9] for [s2], which passes the near-zero test; and
    adding the required constraint [10^9 x + y == 0] to a new solver,
    which succeeds, leaves such a row in the basis. *)
Lemma solveFor_stores_near_zero :
  no_near_zero Scenario.steep_row = true
  /\ no_near_zero (Row.solveFor Scenario.steep_row (Symbol.new SymbolType.Slack 1)) = false
  /\ fst (Scenario.add_all [Scenario.steep] Solver.new) = [Return tt]
  /\ forallb (fun e => no_near_zero (snd e))
       (_rowMap (snd (Scenario.add_all [Scenario.steep] Solver.new))) = false.
Proof. vm_compute. repeat split; reflexivity. Qed.

(** C8, witness: reversing the sign of a row. *)
Lemma row_primitives_keep_no_near_zero_witness :
  no_near_zero (Row.reverseSign Scenario.steep_row) = true.
Proof.
  exact (proj1 (proj2 (proj2
           (row_primitives_keep_no_near_zero Scenario.steep_row eq_refl)))).
Defined.

(** C2. In a solver holding the required [x >= 10], adding the required
    [x <= 5] throws "unsatisfiable constraint" out of the
    artificial-variable phase, and the solver is not as before the call:
    the basis has a second row, of constant [-5], and [x], which read 10,
    reads 5. *)
Theorem failed_add_changes_tableau :
  let before := Scenario.bounded_below in
  let result := addConstraint Scenario.required 20 Scenario.at_most_5 before in
  fst result = Throw "unsatisfiable constraint"
  /\ map (fun e => (fst e, Row.constant (snd e))) (_rowMap before)
     = [(Symbol.new SymbolType.External 0, 10)]
  /\ map (fun e => (fst e, Row.constant (snd e))) (_rowMap (snd result))
     = [(Symbol.new SymbolType.External 0, 5); (Symbol.new SymbolType.Slack 1, -5)]
  /\ Var.value (values_of before Scenario.heap0) Scenario.x = 10
  /\ Var.value (values_of (snd result) Scenario.heap0) Scenario.x = 5.
Proof. vm_compute. repeat split; reflexivity. Qed.

(** C1, counterexample. Adding the required [x == -5] to a new solver
    succeeds and leaves the row of [x], an External symbol, with the
    constant [-5], which is below [-10^-8]. Nor are the other rows safe:
    the required [y <= -2^-20] and [2^-10 y == 0] are both added with
    success, the second because the constant [2^-30] of its row passes the
    near-zero test, and they leave the row of a Slack symbol with the
    constant [-2^-20] and nothing on the worklist; when [x] is an edit
    variable, a [suggestValue] for [x] then returns and the row is as it
    was. *)
Lemma rows_left_negative :
  let result := Scenario.add_all [Scenario.is_minus_5] Solver.new in
  let result' :=
    Scenario.add_all [Scenario.at_most_minus_tiny; Scenario.scaled_is_0] Scenario.edited in
  let suggested := suggestValue 20 Scenario.x 1 (snd result') in
  (fst result = [Return tt]
   /\ exists row,
        JsMap.get (_rowMap (snd result)) (Symbol.new SymbolType.External 0) = Some row
        /\ Row.constant row = -5
        /\ (- 1.0e-8 <=? Row.constant row) = false)
  /\ (fst result' = [Return tt; Return tt]
      /\ _infeasibleRows (snd result') = []
      /\ exists row,
           JsMap.get (_rowMap (snd result')) (Symbol.new SymbolType.Slack 4) = Some row
           /\ Row.constant row = - 0x1p-20
           /\ (- 1.0e-8 <=? Row.constant row) = false)
  /\ (fst suggested = Return tt
      /\ exists row,
           JsMap.get (_rowMap (snd suggested)) (Symbol.new SymbolType.Slack 4) = Some row
           /\ Row.constant row = - 0x1p-20
           /\ (- 1.0e-8 <=? Row.constant row) = false).
Proof.
  cbv zeta. split; [|split].
  - split; [vm_compute; reflexivity|].
    eexists. split; [vm_compute; reflexivity|]. split; vm_compute; reflexivity.
  - split; [vm_compute; reflexivity|]. split; [vm_compute; reflexivity|].
    eexists. split; [vm_compute; reflexivity|]. split; vm_compute; reflexivity.
  - split; [vm_compute; reflexivity|].
    eexists. split; [vm_compute; reflexivity|]. split; vm_compute; reflexivity.
Qed.



(** C7. The weak constraint [0 == MAX_VALUE] is added to a new solver,
    with success, and leaves one row in the basis, the row
    [e1 = MAX_VALUE + e0] under an Error symbol: a row of a symbol that is
    not External, with the coefficient [c = 1 > 0] on the marker [e0] and
    the ratio [constant / c = MAX_VALUE]. The selection as section 4.7
    words it returns that row as second. [_getMarkerLeavingSymbol] starts
    its scan from [Number.MAX_VALUE] and takes a ratio only when it is
    strictly smaller: it returns the Invalid symbol although the marker is
    in a row, and [removeConstraint] throws "failed to find leaving row"
    half-way, with the constraint out of the constraint map, its error
    terms out of the objective and its row still in the basis. *)
Theorem ratio_at_the_bound_is_passed_over :
  let added := Scenario.add_all [Scenario.far] Solver.new in
  let marker := Symbol.new SymbolType.Error 0 in
  let removed := removeConstraint 20 Scenario.far (snd added) in
  fst added = [Return tt]
  /\ _rowMap (snd added)
     = [(Symbol.new SymbolType.Error 1, Row.mk [(marker, 1)] Number.MAX_VALUE)]
  /\ JsMap.get (_cnMap (snd added)) Scenario.far
     = Some {| Tag.marker := marker; Tag.other := Symbol.new SymbolType.Error 1 |}
  /\ getMarkerLeavingSymbol_claimed marker (snd added) = Symbol.new SymbolType.Error 1
  /\ _getMarkerLeavingSymbol marker (snd added) = INVALID_SYMBOL
  /\ fst removed = Throw "failed to find leaving row"
  /\ hasConstraint Scenario.far (snd removed) = false
  /\ _rowMap (snd removed) = _rowMap (snd added)
  /\ _objective (snd added) = Row.mk [(marker, 2)] Number.MAX_VALUE
  /\ _objective (snd removed) = Row.new 0.
Proof. vm_compute. repeat split; reflexivity. Qed.

(** X27, witness: the leaving row for the marker of [x >= 0]. *)
Lemma getMarkerLeavingSymbol_refines_spec_witness :
  _getMarkerLeavingSymbol (Symbol.new SymbolType.Slack 3) Scenario.segment
  = getMarkerLeavingSymbol_spec (Symbol.new SymbolType.Slack 3) Scenario.segment.
Proof.
  apply (getMarkerLeavingSymbol_refines_spec (Symbol.new SymbolType.Slack 3) Scenario.segment).
  vm_compute. reflexivity.
Defined.

(** C1, witness. In the solver of scenario S4, [x >= 0] required and [x]
    an edit variable, suggesting 42 for [x] makes the row of the marker
    infeasible; the call returns, and the row of the Slack symbol that has
    entered the basis has a constant that is not negative. *)
Lemma suggestValue_restores_feasibility_witness :
  exists row,
    JsMap.get (_rowMap (snd (suggestValue 20 Scenario.x 42 Scenario.editing)))
      (Symbol.new SymbolType.Slack 1) = Some row
    /\ (Row.constant row <? 0) = false.
Proof.
  eexists. split; [vm_compute; reflexivity|].
  apply (suggestValue_restores_feasibility Scenario.required Scenario.clip
           20 Scenario.x 42 Scenario.editing
           (snd (suggestValue 20 Scenario.x 42 Scenario.editing)))
    with (key := Symbol.new SymbolType.Slack 1).
  - exact editing_reachable.
  - apply infeasible_tracked_checked. vm_compute. reflexivity.
  - vm_compute. reflexivity.
  - vm_compute. reflexivity.
  - vm_compute. reflexivity.
Defined.


(** The calls of the witness run: both return, [y] reads 25 in between
    and [x] reads 20 throughout. *)
Lemma variable_added_and_removed :
  let added := addConstraint Scenario.required 2 Scenario.y_is_x_plus_5 Scenario.pinned in
  let removed := removeConstraint 2 Scenario.y_is_x_plus_5 (snd added) in
  fst added = Return tt
  /\ fst removed = Return tt
  /\ Var.value (values_of Scenario.pinned Scenario.heap0) Scenario.x = 20
  /\ Var.value (values_of (snd added) Scenario.heap0) Scenario.x = 20
  /\ Var.value (values_of (snd added) Scenario.heap0) Scenario.y = 25
  /\ Var.value (values_of (snd removed) Scenario.heap0) Scenario.x = 20.
Proof. vm_compute. repeat split; reflexivity. Qed.

(** The weak [x == 30] of the witness, run: both calls return with room
    for the test of the loop only; the row is solved for the other symbol
    of the tag; the objective, which the add changes, is back as well. *)
Lemma weak_constraint_added_and_removed :
  let added := addConstraint Scenario.required 1 Scenario.is_30_weak Scenario.pinned in
  let removed := removeConstraint 1 Scenario.is_30_weak (snd added) in
  fst added = Return tt
  /\ fst removed = Return tt
  /\ subject_of
       (fst (fst (_createRow Scenario.required Scenario.is_30_weak Scenario.pinned)))
       (snd (fst (_createRow Scenario.required Scenario.is_30_weak Scenario.pinned)))
     = Symbol.new SymbolType.Error 3
  /\ JsMap.get (_cnMap (snd added)) Scenario.is_30_weak
     = Some {| Tag.marker := Symbol.new SymbolType.Error 2;
               Tag.other := Symbol.new SymbolType.Error 3 |}
  /\ _objective (snd added) <> _objective Scenario.pinned
  /\ _objective (snd removed) = _objective Scenario.pinned
  /\ Var.value (values_of (snd removed) Scenario.heap0) Scenario.x = 20.
Proof.
  vm_compute. repeat split; try reflexivity. intros E. discriminate E.
Qed.

(** The removal can throw when the row was solved for a variable. The
    required [Infinity * y + 1 == 0] is added to the solver that holds
    [x == 20]: its row is solved for [y], which does not occur, and the
    coefficient of the marker in the solved row is [1 * (-1 / Infinity)],
    a zero. The add returns; the removal finds no row for the marker and
    throws. *)
Lemma removal_after_infinite_coefficient :
  let added :=
    addConstraint Scenario.required 2 Scenario.y_times_infinity Scenario.pinned in
  let removed := removeConstraint 2 Scenario.y_times_infinity (snd added) in
  let subject :=
    subject_of
      (fst (fst (_createRow Scenario.required Scenario.y_times_infinity Scenario.pinned)))
      (snd (fst (_createRow Scenario.required Scenario.y_times_infinity Scenario.pinned))) in
  subject = Symbol.new SymbolType.External 2
  /\ occurs subject Scenario.pinned = false
  /\ fst added = Return tt
  /\ fst removed = Throw "failed to find leaving row".
Proof. vm_compute. repeat split; reflexivity. Qed.


(** C9, witness: scenario S1 of the specification, [x] reads 20. *)
Lemma updateVariables_reads_basis_witness :
  Var.value (values_of Scenario.pinned Scenario.heap0) Scenario.x = 20.
Proof.
  rewrite (proj1 (updateVariables_reads_basis Scenario.required Scenario.clip
                    Scenario.pinned Scenario.heap0 pinned_reachable)
             Scenario.x (Symbol.new SymbolType.External 0)).
  - vm_compute. reflexivity.
  - vm_compute. reflexivity.
Defined.

(** X1, at a run: adding the required [x == 20] a second time. *)
Lemma rejected_calls_leave_solver_witness :
  addConstraint Scenario.required 20 Scenario.is_20 Scenario.pinned
  = (Throw "duplicate constraint", Scenario.pinned).
Proof.
  apply (proj1 (rejected_calls_leave_solver Scenario.required Scenario.clip Scenario.pinned)).
  vm_compute. reflexivity.
Defined.

(** X2, witness. In the solver that holds the required [x == 1], adding
    the required [x == 2] throws on a row of dummies; the basis is that of
    before the call. *)
Lemma dummy_row_failure_keeps_tableau_witness :
  _rowMap (snd (addConstraint Scenario.required 20 Scenario.is_2 Scenario.fixed))
  = _rowMap Scenario.fixed.
Proof.
  apply (dummy_row_failure_keeps_tableau Scenario.required 20 Scenario.is_2 Scenario.fixed
           (snd (addConstraint Scenario.required 20 Scenario.is_2 Scenario.fixed))).
  vm_compute. reflexivity.
Defined.

(** X3, witness: the solver with [x + y == 100], [x >= 0] and [y >= 0],
    reached by three calls. *)
Lemma reachable_solver_conditions_witness :
  basis_closed Scenario.segment
  /\ distinct_cells Scenario.segment
  /\ minted_below Scenario.segment
  /\ NoDup (map fst (_varMap Scenario.segment))
  /\ JsMap.has (_rowMap Scenario.segment) INVALID_SYMBOL = false.
Proof.
  apply (reachable_solver_conditions Scenario.required Scenario.clip Scenario.segment).
  exact segment_reachable.
Defined.

(** X4, witness: [x == 2] is registered once added to a new solver, and
    is not when the solver has [x == 20]. *)
Lemma constraint_registration_witness :
  hasConstraint Scenario.is_2 (snd (addConstraint Scenario.required 20 Scenario.is_2 Solver.new))
  = true
  /\ hasConstraint Scenario.is_2
       (snd (addConstraint Scenario.required 20 Scenario.is_2 Scenario.pinned)) = false.
Proof.
  pose proof (constraint_registration Scenario.required) as [A _]. split.
  - refine (proj1 (A 20%nat Scenario.is_2 Solver.new (Return tt) _ _) eq_refl).
    vm_compute. reflexivity.
  - refine (proj1 (proj2 (A 20%nat Scenario.is_2 Scenario.pinned
                            (Throw "unsatifiable constraint") _ _)) (or_introl eq_refl)).
    vm_compute. reflexivity.
Defined.

(** X5, witness: suggesting 7 for the edit variable [x] records 7. *)
Lemma edit_variable_registration_witness :
  exists info,
    JsMap.get (_editMap Scenario.editing) Scenario.x = Some info
    /\ JsMap.get (_editMap (snd (suggestValue 20 Scenario.x 7 Scenario.editing))) Scenario.x
       = Some {| EditInfo.tag := EditInfo.tag info;
                 EditInfo.constraint := EditInfo.constraint info;
                 EditInfo.constant := 7 |}.
Proof.
  pose proof (edit_variable_registration Scenario.required Scenario.clip) as (_ & _ & S).
  destruct (JsMap.get (_editMap Scenario.editing) Scenario.x) as [info|] eqn:G;
    [|vm_compute in G; discriminate G].
  exists info. split; [reflexivity|].
  refine (proj1 (S 20%nat Scenario.x 7 Scenario.editing
                   (fst (suggestValue 20 Scenario.x 7 Scenario.editing)) _ info _ G)).
  apply surjective_pairing.
Defined.

(** X6, witness: [x] keeps its symbol when [x == 2] is rejected by the
    solver with [x == 20]. *)
Lemma variable_symbols_are_kept_witness :
  JsMap.get (_varMap Scenario.pinned) Scenario.x = Some (Symbol.new SymbolType.External 0)
  /\ JsMap.get (_varMap (snd (addConstraint Scenario.required 20 Scenario.is_2 Scenario.pinned)))
       Scenario.x
     = Some (Symbol.new SymbolType.External 0).
Proof.
  split; [vm_compute; reflexivity|].
  refine (proj1 (proj1 (variable_symbols_are_kept Scenario.required Scenario.clip
                          Scenario.pinned Scenario.x (Symbol.new SymbolType.External 0) _)
                   20%nat Scenario.is_2 (Throw "unsatifiable constraint") _ _));
    vm_compute; reflexivity.
Defined.

(** X7, witness: in the objective [-d1 - 3 s2] the entering symbol is
    [s2], the Dummy being passed over. *)
Lemma first_symbol_selections_witness :
  _getEnteringSymbol
    (Row.mk [(Symbol.new SymbolType.Dummy 1, -1); (Symbol.new SymbolType.Slack 2, -3)] 0)
  = Symbol.new SymbolType.Slack 2.
Proof.
  rewrite (proj1 first_symbol_selections).
  - vm_compute. reflexivity.
  - intros c [H|[H|[]]]; discriminate H.
Defined.

(** X8, witness: in the solver with [x + y == 100], [x >= 0] and
    [y >= 0], the row that leaves for the slack of [x >= 0] is the row of
    the slack of [y >= 0], at the ratio 100. *)
Lemma getLeavingSymbol_least_ratio_witness :
  _getLeavingSymbol (Symbol.new SymbolType.Slack 3) Scenario.segment
  = Symbol.new SymbolType.Slack 4.
Proof.
  refine (proj1 (proj2 (getLeavingSymbol_least_ratio
                          (Symbol.new SymbolType.Slack 3) Scenario.segment)
                   (Symbol.new SymbolType.Slack 4, 100) _)).
  vm_compute. reflexivity.
Defined.

(** X9, witness: in the solver with [x >= 0] and the edit variable [x],
    the symbol that enters for the row of the edit constraint is the slack
    of [x >= 0], at the ratio 10^6, before the error symbol at 2 * 10^6. *)
Lemma getDualEnteringSymbol_least_ratio_witness :
  _getDualEnteringSymbol
    (Row.mk [(Symbol.new SymbolType.Slack 1, 1); (Symbol.new SymbolType.Error 3, 1)] 0)
    Scenario.editing
  = Symbol.new SymbolType.Slack 1.
Proof.
  refine (proj1 (proj2 (getDualEnteringSymbol_least_ratio _ Scenario.editing)
                   (Symbol.new SymbolType.Slack 1, 1000000) _)).
  vm_compute. reflexivity.
Defined.

(** X10, witness: the error of adding [x == 2] to the solver with
    [x == 20]. *)
Lemma errors_raised_witness :
  fst (addConstraint Scenario.required 20 Scenario.is_2 Scenario.pinned)
  = Throw "unsatifiable constraint"
  /\ In "unsatifiable constraint"%string
    ["duplicate constraint"; "unsatifiable constraint";
     "unsatisfiable constraint"; "the objective is unbounded"]%string.
Proof.
  split; [vm_compute; reflexivity|].
  refine (proj1 (errors_raised Scenario.required Scenario.clip)
            20%nat Scenario.is_2 Scenario.pinned _
            (snd (addConstraint Scenario.required 20 Scenario.is_2 Scenario.pinned)) _).
  vm_compute. reflexivity.
Defined.

(** X11, witness: the solver with [x >= 10]. *)
Lemma calls_end_optimal_witness : optimal Scenario.bounded_below.
Proof.
  refine (proj1 (calls_end_optimal Scenario.required Scenario.clip)
            20%nat Scenario.at_least_10 Solver.new _ _).
  vm_compute. reflexivity.
Defined.

(** X12, witness: the row [10^9 s1 + s2], its sign reversed twice. *)
Lemma row_loops_are_maps_witness :
  NoDup (map fst (Row.cells Scenario.steep_row))
  /\ Row.reverseSign (Row.reverseSign Scenario.steep_row) = Scenario.steep_row.
Proof.
  assert (N : NoDup (map fst (Row.cells Scenario.steep_row))).
  { constructor; [intros [H|[]]; discriminate H|].
    constructor; [intros [] | constructor]. }
  split; [exact N|].
  exact (proj1 (proj2 (proj2 (row_loops_are_maps Scenario.steep_row N)))).
Defined.

(** X13, witness: a third symbol inserted into the row [10^9 s1 + s2]
    with the coefficient 2. *)
Lemma insertSymbol_on_fresh_witness :
  Row.insertSymbol Scenario.steep_row (Symbol.new SymbolType.Slack 3) 2
  = Row.mk (Row.cells Scenario.steep_row ++ [(Symbol.new SymbolType.Slack 3, 2)])
      (Row.constant Scenario.steep_row).
Proof.
  refine (proj1 (proj2 (proj2 (proj2 (insertSymbol_on_fresh Scenario.steep_row
                                        (Symbol.new SymbolType.Slack 3)) _) 2) _));
    vm_compute; reflexivity.
Defined.

(** X14, witness: the weak [x == 2] added to the solver with the required
    [x == 20]. *)
Lemma soft_constraints_are_taken_witness :
  hasConstraint (Scenario.constraint 2 [(Scenario.x, 1)] (-2) Operator.Eq Scenario.weak)
    (snd (addConstraint Scenario.required 20
            (Scenario.constraint 2 [(Scenario.x, 1)] (-2) Operator.Eq Scenario.weak)
            Scenario.pinned))
  = true.
Proof.
  refine (proj1 (soft_constraints_are_taken Scenario.required Scenario.clip 20%nat
                   (Scenario.constraint 2 [(Scenario.x, 1)] (-2) Operator.Eq Scenario.weak)
                   Scenario.pinned _ _ pinned_reachable _ _)).
  - vm_compute. reflexivity.
  - apply surjective_pairing.
Defined.

(** X15, witness: the entering symbol of the solver with [x + y == 100],
    [x >= 0] and [y >= 0]. *)
Lemma invalid_symbol_stays_out_witness :
  _getEnteringSymbol (_objective Scenario.segment)
  = getEnteringSymbol_spec (_objective Scenario.segment).
Proof.
  exact (proj1 (proj2 (proj2 (proj2 (proj2
           (invalid_symbol_stays_out Scenario.required Scenario.clip
              Scenario.segment segment_reachable)))))).
Defined.

(** X16, witness: in the solver with [x + y == 100], [x >= 0] and
    [y >= 0], the slack of [x >= 0] takes the place of the slack of
    [y >= 0]. *)
Lemma pivot_exchanges_symbols_witness :
  JsMap.has (_rowMap Scenario.segment) (Symbol.new SymbolType.Slack 3) = false
  /\ JsMap.has
       (_rowMap (snd (pivot (Symbol.new SymbolType.Slack 4) (Symbol.new SymbolType.Slack 3)
                        Scenario.segment)))
       (Symbol.new SymbolType.Slack 4)
     = false.
Proof.
  split; [vm_compute; reflexivity|].
  refine (proj1 (proj2 (proj2 (pivot_exchanges_symbols
                                 (Symbol.new SymbolType.Slack 4) (Symbol.new SymbolType.Slack 3)
                                 Scenario.segment
                                 (Row.mk [(Symbol.new SymbolType.Dummy 2, -1);
                                          (Symbol.new SymbolType.Slack 3, -1)] 100) _ _))));
    vm_compute; reflexivity.
Defined.

(** X17, witness: the row of [x >= 10] in a new solver. *)
Lemma createRow_shape_witness :
  (Row.constant (fst (fst (_createRow Scenario.required Scenario.at_least_10 Solver.new))) <? 0)
  = false.
Proof. exact (proj1 (createRow_shape Scenario.required Scenario.at_least_10 Solver.new)). Defined.

(** X18, witness: [2^-30] and its opposite. *)
Lemma nearZero_band_witness : nearZero (- 0x1p-30) = nearZero 0x1p-30.
Proof. exact (proj1 (proj2 (nearZero_band 0x1p-30))). Defined.

(** X19, witness: the required [5 == 0] added to a new solver. *)
Lemma equation_without_variables_witness :
  addConstraint Scenario.required 20
    (Scenario.constraint 9 [] 5 Operator.Eq Scenario.required) Solver.new
  = (Throw "unsatifiable constraint", with_idTick Solver.new 1).
Proof.
  refine (proj1 (equation_without_variables Scenario.required 20%nat
                   (Scenario.constraint 9 [] 5 Operator.Eq Scenario.required) Solver.new
                   _ _ _ _) _); try (vm_compute; reflexivity).
  intros variable coefficient [].
Defined.

(** X21, witness: [x] has a symbol once [x == 20] is added. *)
Lemma variables_are_registered_witness :
  JsMap.has (_varMap Scenario.pinned) Scenario.x = true.
Proof.
  refine (variables_are_registered Scenario.required 20%nat Scenario.is_20 Solver.new
            (Return tt) Scenario.pinned _ _ Scenario.x 1 _ _).
  - vm_compute. reflexivity.
  - reflexivity.
  - left. reflexivity.
  - vm_compute. reflexivity.
Defined.

(** X22, witness: the entering symbol of the solver with [x + y == 100],
    [x >= 0] and [y >= 0] has no row. *)
Lemma objective_is_parametric_witness :
  JsMap.has (_rowMap Scenario.segment) (_getEnteringSymbol (_objective Scenario.segment))
  = false.
Proof.
  exact (proj1 (proj2 (objective_is_parametric Scenario.required Scenario.clip
                         Scenario.segment segment_reachable))).
Defined.

(** X23, witness: the slack of [y >= 0] replaced by [7] in the solver
    with [x + y == 100], [x >= 0] and [y >= 0]. *)
Lemma substitute_effect_witness :
  _idTick (_substitute (Symbol.new SymbolType.Slack 4) (Row.new 7) Scenario.segment)
  = _idTick Scenario.segment.
Proof.
  exact (proj1 (proj2 (proj2 (proj2 (proj2 (proj2 (proj2 (proj2
           (substitute_effect (Symbol.new SymbolType.Slack 4) (Row.new 7)
              Scenario.segment))))))))).
Defined.

(** X24, witness: the markers of [x + y == 100] and of [x >= 0]. *)
Lemma markers_are_distinct_witness :
  Symbol.new SymbolType.Dummy 2 <> Symbol.new SymbolType.Slack 3.
Proof.
  refine (proj2 (markers_are_distinct Scenario.required Scenario.clip Scenario.segment
                   segment_reachable)
            Scenario.sum_100 Scenario.x_at_least_0
            {| Tag.marker := Symbol.new SymbolType.Dummy 2; Tag.other := INVALID_SYMBOL |}
            {| Tag.marker := Symbol.new SymbolType.Slack 3; Tag.other := INVALID_SYMBOL |}
            _ _ _); vm_compute; reflexivity.
Defined.

(** X25, witness: [x >= 10] removed from the solver that has it. *)
Lemma removed_marker_is_gone_witness :
  JsMap.has
    (_rowMap (snd (removeConstraint 20 Scenario.at_least_10 Scenario.bounded_below)))
    (Symbol.new SymbolType.Slack 1)
  = false.
Proof.
  refine (proj1 (removed_marker_is_gone Scenario.required Scenario.clip 20%nat
                   Scenario.at_least_10
                   {| Tag.marker := Symbol.new SymbolType.Slack 1;
                      Tag.other := INVALID_SYMBOL |}
                   Scenario.bounded_below _ bounded_below_reachable _ _));
    vm_compute; reflexivity.
Defined.

(** X26, witness: the row [2 s3 + 1] inserted three times into the row
    [10^9 s1 + s2]. *)
Lemma insertRow_of_other_symbols_witness :
  Row.insertRow Scenario.steep_row (Row.mk [(Symbol.new SymbolType.Slack 3, 2)] 1) 3
  = Row.mk (Row.cells Scenario.steep_row ++ [(Symbol.new SymbolType.Slack 3, 6)]) 3.
Proof.
  rewrite (proj2 (insertRow_of_other_symbols Scenario.steep_row
                    (Row.mk [(Symbol.new SymbolType.Slack 3, 2)] 1) 3)).
  - vm_compute. reflexivity.
  - constructor; [intros [] | constructor].
  - intros s v [E|[]]. inversion E; subst. vm_compute. reflexivity.
Defined.

(** C5, witness. In the solver of scenario S4, [x >= 0] required and [x]
    an edit variable, suggesting 42 for [x] adds [-42] to the row of the
    marker, which goes on the worklist, and the dual optimisation pivots;
    suggesting 7 next finds neither symbol of the tag in the basis and
    adds [-35 * 1] to both rows. Both calls return, and [x] reads 42 and
    then 7. *)
Lemma suggestValue_refines_spec_witness :
  let first := suggestValue 20 Scenario.x 42 Scenario.editing in
  let second := suggestValue 20 Scenario.x 7 (snd first) in
  suggestValue_spec Scenario.x 42 Scenario.editing (Return tt) (snd first)
  /\ suggestValue_spec Scenario.x 7 (snd first) (Return tt) (snd second)
  /\ Var.value (values_of (snd first) Scenario.heap0) Scenario.x = 42
  /\ Var.value (values_of (snd second) Scenario.heap0) Scenario.x = 7.
Proof.
  cbv zeta. split; [|split; [|split]].
  - apply (proj1 (suggestValue_refines_spec Scenario.x 42 Scenario.editing (Return tt)
                    (snd (suggestValue 20 Scenario.x 42 Scenario.editing)))).
    exists 20%nat. split; [vm_compute; reflexivity | discriminate].
  - apply (proj1 (suggestValue_refines_spec Scenario.x 7
                    (snd (suggestValue 20 Scenario.x 42 Scenario.editing)) (Return tt)
                    (snd (suggestValue 20 Scenario.x 7
                            (snd (suggestValue 20 Scenario.x 42 Scenario.editing)))))).
    exists 20%nat. split; [vm_compute; reflexivity | discriminate].
  - vm_compute. reflexivity.
  - vm_compute. reflexivity.
Defined.

(** C6, witness: a row in which the marker has the coefficient [-1]; one
    in which the marker has [1] and the other symbol [-1]; one with a
    variable, whose coefficient is zero; one in which the marker, a
    Dummy, has [-1]. *)
Lemma chooseSubject_refines_spec_witness :
  let s1 := Symbol.new SymbolType.Slack 1 in
  let e2 := Symbol.new SymbolType.Error 2 in
  let x0 := Symbol.new SymbolType.External 0 in
  let d3 := Symbol.new SymbolType.Dummy 3 in
  _chooseSubject (Row.mk [(s1, -1); (e2, 1)] 10) {| Tag.marker := s1; Tag.other := e2 |} = s1
  /\ _chooseSubject (Row.mk [(s1, 1); (e2, -1)] 10) {| Tag.marker := s1; Tag.other := e2 |}
     = e2
  /\ _chooseSubject (Row.mk [(s1, 1); (x0, 0); (e2, -1)] 10)
       {| Tag.marker := s1; Tag.other := e2 |}
     = x0
  /\ _chooseSubject (Row.mk [(s1, 1); (d3, -1)] 10)
       {| Tag.marker := d3; Tag.other := INVALID_SYMBOL |}
     = INVALID_SYMBOL.
Proof.
  cbv zeta. rewrite !chooseSubject_refines_spec. vm_compute. repeat split.
Defined.

End Runs.
